(** * Integrated-information core: repertoires, MIP search, constellations

    A shallow embedding of the parts of [pyphi/subsystem.py],
    [pyphi/node.py], [pyphi/models/subsystem.py], [cyphi/compute.py] and
    [cyphi/utils.py] that the specification's properties talk about.

    Floating-point numbers are modelled by rationals ([Q]); numeric equality
    is [Qeq] ([==]).  NumPy arrays are modelled by a shape together with an
    item function on multi-indices; Python exceptions by the [result]
    monad. *)

From Stdlib Require Import QArith Qabs Lqa Lia List Bool Arith.
From stdpp Require Import base option list gmap sorting.
Import ListNotations.

#[local] Open Scope Q_scope.

(** ** Python exceptions *)

Inductive exn : Set := ValueError | KeyError | IndexError | TypeError.

Inductive result (A : Type) : Type :=
| Ok (a : A)
| Raise (e : exn).
Arguments Ok {A} a.
Arguments Raise {A} e.

#[global] Instance result_ret : MRet result := @Ok.
#[global] Instance result_bind : MBind result := fun A B f m =>
  match m with
  | Ok a => f a
  | Raise e => Raise e
  end.

Definition is_ok {A} (r : result A) : bool :=
  match r with Ok _ => true | Raise _ => false end.

(** [functools.reduce(f, xs)] without an initial value: raises [TypeError]
    on the empty sequence. *)
Definition reduce {A} (f : A -> A -> result A) (xs : list A) : result A :=
  match xs with
  | [] => Raise TypeError
  | x :: rest => foldl (fun acc y => a ← acc; f a y) (Ok x) rest
  end.

(** [sum(xs)] on Python floats. *)
Definition qsum (xs : list Q) : Q := fold_right Qplus 0 xs.

(** ** NumPy arrays *)

Module Np.

Record ndarray : Type := NdArray {
  shape : list nat;
  item : list nat -> Q
}.

Definition ndim (a : ndarray) : nat := length (shape a).

(** [a.size] *)
Definition size_of (sh : list nat) : nat := fold_right Nat.mul 1%nat sh.

(** All multi-indices of a shape, in row-major order. *)
Fixpoint indices (sh : list nat) : list (list nat) :=
  match sh with
  | [] => [[]]
  | n :: sh' => flat_map (fun i => map (cons i) (indices sh')) (seq 0 n)
  end.

(** The flattened data, [a.ravel()]. *)
Definition ravel (a : ndarray) : list Q := map (item a) (indices (shape a)).

(** [a.sum()] *)
Definition sum (a : ndarray) : Q := qsum (ravel a).

(** [np.all(a == 0)] *)
Definition all_zero (a : ndarray) : bool :=
  forallb (fun x => Qeq_bool x 0) (ravel a).

(** [np.array_equal(a, b)] up to numeric equality of the entries. *)
Definition array_equal (a b : ndarray) : bool :=
  bool_decide (shape a = shape b) &&
  forallb (fun i => Qeq_bool (item a i) (item b i)) (indices (shape a)).

(** [np.ones(sh)] *)
Definition ones (sh : list nat) : ndarray := NdArray sh (fun _ => 1).

(** [np.array([x])] *)
Definition array1 (x : Q) : ndarray := NdArray [1%nat] (fun _ => x).

(** [a / q] for a scalar [q] *)
Definition divide (a : ndarray) (q : Q) : ndarray :=
  NdArray (shape a) (fun i => item a i / q).

(** [1 - a] *)
Definition one_minus (a : ndarray) : ndarray :=
  NdArray (shape a) (fun i => 1 - item a i).

(** *** Broadcasting *)

Definition pad (n : nat) (sh : list nat) : list nat :=
  replicate (n - length sh) 1%nat ++ sh.

Definition bdim (x y : nat) : option nat :=
  if decide (x = y) then Some x
  else if decide (x = 1%nat) then Some y
  else if decide (y = 1%nat) then Some x
  else None.

Fixpoint bzip (a b : list nat) : option (list nat) :=
  match a, b with
  | [], [] => Some []
  | x :: a', y :: b' =>
      match bdim x y, bzip a' b' with
      | Some d, Some r => Some (d :: r)
      | _, _ => None
      end
  | _, _ => None
  end.

(** The broadcast shape of two shapes: the shorter one is padded with
    leading ones, then every pair of lengths must agree or contain a 1. *)
Definition broadcast_shapes (a b : list nat) : option (list nat) :=
  let n := Nat.max (length a) (length b) in
  bzip (pad n a) (pad n b).

(** The index into an operand of shape [sa] that a result index [idx]
    reads: the trailing [length sa] components, with 0 on the operand's
    singleton axes. *)
Definition bindex (sa : list nat) (idx : list nat) : list nat :=
  zip_with (fun d i => if decide (d = 1%nat) then 0%nat else i)
           sa (drop (length idx - length sa) idx).

(** [np.multiply(a, b)], i.e. [a * b] with broadcasting; incompatible
    shapes raise [ValueError]. *)
Definition multiply (a b : ndarray) : result ndarray :=
  match broadcast_shapes (shape a) (shape b) with
  | Some sh =>
      Ok (NdArray sh (fun idx =>
            item a (bindex (shape a) idx) * item b (bindex (shape b) idx)))
  | None => Raise ValueError
  end.

(** *** Axis operations *)

(** [np.sum(a, ax, keepdims=True)]; an axis out of range raises
    [AxisError], which is a [ValueError].  An array without axes is the one
    exception: for it NumPy accepts the axis 0 and the sum is the array
    itself. *)
Definition sum_axis (ax : nat) (a : ndarray) : result ndarray :=
  match shape a !! ax with
  | Some n =>
      Ok (NdArray (<[ax := 1%nat]> (shape a)) (fun idx =>
            qsum (map (fun k => item a (<[ax := k]> idx)) (seq 0 n))))
  | None =>
      if bool_decide (shape a = [] /\ ax = 0%nat) then Ok a
      else Raise ValueError
  end.

(** [a[..., k]]: select along the last axis, which disappears. *)
Definition select_last (k : nat) (a : ndarray) : result ndarray :=
  match last (shape a) with
  | Some n =>
      if decide (k < n)%nat
      then Ok (NdArray (removelast (shape a)) (fun idx => item a (idx ++ [k])))
      else Raise IndexError
  | None => Raise IndexError
  end.

(** [np.stack([a0, a1], axis=-1)] *)
Definition stack_last (a0 a1 : ndarray) : result ndarray :=
  if decide (shape a0 = shape a1)
  then Ok (NdArray (shape a0 ++ [2%nat]) (fun idx =>
             match last idx with
             | Some O => item a0 (removelast idx)
             | _ => item a1 (removelast idx)
             end))
  else Raise ValueError.

(** [a[:, ..., v, np.newaxis, ..., :]]: fix axis [ax] to the value [v] and
    keep it as a singleton axis. *)
Definition select_keep (ax v : nat) (a : ndarray) : result ndarray :=
  match shape a !! ax with
  | Some n =>
      if decide (v < n)%nat
      then Ok (NdArray (<[ax := 1%nat]> (shape a))
                       (fun idx => item a (<[ax := v]> idx)))
      else Raise IndexError
  | None => Raise IndexError
  end.

(** Row-major offset of a multi-index, and its inverse. *)
Definition offset (sh idx : list nat) : nat :=
  foldl (fun acc di => (acc * di.1 + di.2)%nat) 0%nat (zip sh idx).

Fixpoint unravel_rev (rsh : list nat) (k : nat) : list nat :=
  match rsh with
  | [] => []
  | d :: r => (k mod d)%nat :: unravel_rev r (k / d)%nat
  end.

Definition unravel (sh : list nat) (k : nat) : list nat :=
  rev (unravel_rev (rev sh) k).

(** [a.reshape(sh)]: same data in row-major order; a different number of
    elements raises [ValueError]. *)
Definition reshape (sh : list nat) (a : ndarray) : result ndarray :=
  if decide (size_of sh = size_of (shape a))
  then Ok (NdArray sh (fun idx => item a (unravel (shape a) (offset sh idx))))
  else Raise ValueError.

(** An array literal for a nested list of depth 2 ([np.array([[..],..])]). *)
Definition of_rows (rows : list (list Q)) : ndarray :=
  NdArray [length rows; length (default [] (head rows))]
          (fun idx =>
             match idx with
             | [i; j] => default 0 (default [] (rows !! i) !! j)
             | _ => 0
             end).

End Np.

(** ** [pyphi.distribution] and [pyphi.tpm] helpers *)

Module Distribution.

(** Modelled from the spec: [distribution.repertoire_shape] is not among
    the sources.  "Axis [i] has length 2 iff node [i] is in the purview,
    else 1" (as [max_ent_shape] in
    [cyphi.utils.max_entropy_distribution]). *)
Definition repertoire_shape (purview : list nat) (N : nat) : list nat :=
  map (fun i => if bool_decide (i ∈ purview) then 2%nat else 1%nat) (seq 0 N).

(** Modelled from the spec: [distribution.max_entropy_distribution] is
    not among the sources.  "Axes in the purview take uniform [1/2, 1/2],
    others are singleton 1": [np.ones(shape) / size], as in
    [cyphi.utils.max_entropy_distribution]. *)
Definition max_entropy_distribution (purview : list nat) (N : nat) : Np.ndarray :=
  let sh := repertoire_shape purview N in
  Np.divide (Np.ones sh) (inject_Z (Z.of_nat (Np.size_of sh))).

(** Modelled from the spec: [distribution.normalize] is not among the
    sources.  "L1-normalize"; a joint that is identically zero (the
    unreachable state) is handed back unchanged, which is what the test
    [np.all(repertoire == 0)] in [find_mip] relies on. *)
Definition normalize (a : Np.ndarray) : Np.ndarray :=
  let sum_a := Np.sum a in
  if Qeq_bool sum_a 0 then a else Np.divide a sum_a.

(** Modelled from the spec: [distribution.purview] is not among the
    sources.  The purview of a repertoire is read off its shape: the axes
    of length 2. *)
Definition purview (repertoire : Np.ndarray) : list nat :=
  filter (fun i => Np.shape repertoire !! i = Some 2%nat)
         (seq 0 (Np.ndim repertoire)).

(** [marginalize_out(node, tpm)] for one node, as in [cyphi.utils]:
    [np.divide(np.sum(tpm, index, keepdims=True), tpm.shape[index])].  The
    sum is taken first; [tpm.shape[index]] raises [IndexError] when the
    shape has no such entry. *)
Definition marginalize_out1 (index : nat) (tpm : Np.ndarray) : result Np.ndarray :=
  summed ← Np.sum_axis index tpm;
  match Np.shape tpm !! index with
  | Some n => Ok (Np.divide summed (inject_Z (Z.of_nat n)))
  | None => Raise IndexError
  end.

(** [marginalize_out(node_indices, tpm)] for a set of nodes. *)
Definition marginalize_out (node_indices : list nat) (tpm : Np.ndarray)
  : result Np.ndarray :=
  foldl (fun acc i => t ← acc; marginalize_out1 i t) (Ok tpm) node_indices.

(** Modelled from the spec: [tpm.condition_tpm] is not among the sources.
    "Conditioning a TPM on a set of nodes in a given state selects along
    those axes"; the selected axes stay as singleton axes. *)
Definition condition_tpm (tpm : Np.ndarray) (fixed_nodes : list nat)
           (state : list nat) : result Np.ndarray :=
  foldl (fun acc i =>
           t ← acc;
           match state !! i with
           | Some v => Np.select_keep i v t
           | None => Raise IndexError
           end) (Ok tpm) fixed_nodes.

End Distribution.

(** ** [pyphi/node.py] *)

Record Node : Type := mkNode {
  node_index : nat;
  node_state : nat;
  node_inputs : list nat;
  node_outputs : list nat;
  node_tpm : Np.ndarray
}.

(** A connectivity matrix: [cm[i][j] = 1] iff node [i] has an edge to
    node [j]. *)
Definition CM : Type := list (list nat).

Definition cm_entry (cm : CM) (i j : nat) : bool :=
  match cm !! i with
  | Some row => match row !! j with Some (S _) => true | _ => false end
  | None => false
  end.

(** [cm[i][j]]: [IndexError] outside the matrix. *)
Definition cm_get (cm : CM) (i j : nat) : result nat :=
  match cm !! i with
  | Some row => match row !! j with
                | Some x => Ok x
                | None => Raise IndexError
                end
  | None => Raise IndexError
  end.

(** Modelled from the spec: [connectivity.get_inputs_from_cm] and
    [connectivity.get_outputs_from_cm] are not among the sources.  The
    inputs of a node are the nodes with a connection to it, its outputs the
    nodes it has a connection to.  They read the column, respectively the
    row, of the node entry by entry ([cm[i][index]] and [cm[index][i]] for
    [i in range(cm.shape[0])]), so that an index outside the matrix raises
    [IndexError]. *)
Definition get_inputs_from_cm (index : nat) (cm : CM) : result (list nat) :=
  _ ← mapM (fun i => cm_get cm i index) (seq 0 (length cm));
  Ok (filter (fun i => cm_entry cm i index = true) (seq 0 (length cm))).

Definition get_outputs_from_cm (index : nat) (cm : CM) : result (list nat) :=
  _ ← mapM (fun i => cm_get cm index i) (seq 0 (length cm));
  Ok (filter (fun j => cm_entry cm index j = true) (seq 0 (length cm))).

(** Modelled from the spec: [ExplicitTPM.tpm_indices] is not among the
    sources.  The axes of the state part that are not singleton, the
    external nodes being "conditioned on external-node state". *)
Definition tpm_indices (tpm : Np.ndarray) : list nat :=
  filter (fun i => Np.shape tpm !! i = Some 2%nat)
         (seq 0 (Np.ndim tpm - 1)).

(** [Node.__init__] *)
Definition Node_init (tpm : Np.ndarray) (cm : CM) (index state : nat)
  : result Node :=
  _inputs ← get_inputs_from_cm index cm;
  _outputs ← get_outputs_from_cm index cm;
  tpm_on ← Np.select_last index tpm;
  let non_inputs := list_difference (tpm_indices tpm) _inputs in
  tpm_on ← Distribution.marginalize_out non_inputs tpm_on;
  let tpm_off := Np.one_minus tpm_on in
  node_tpm ← Np.stack_last tpm_off tpm_on;
  Ok (mkNode index state _inputs _outputs node_tpm).

(** Modelled from the spec: [utils.state_of] is not among the sources.
    The states of [nodes] in the "global state vector". *)
Definition state_of (nodes state : list nat) : result (list nat) :=
  mapM (fun n => match state !! n with
                 | Some v => Ok v
                 | None => Raise IndexError
                 end) nodes.

(** [generate_nodes(tpm, cm, network_state, indices)] *)
Definition generate_nodes (tpm : Np.ndarray) (cm : CM)
           (network_state indices : list nat) : result (list Node) :=
  node_state ← state_of indices network_state;
  mapM (fun '(index, state) => Node_init tpm cm index state)
       (zip indices node_state).

(** ** [pyphi/subsystem.py] *)

Inductive Direction : Set := CAUSE | EFFECT.

#[global] Instance Direction_eq_dec : EqDecision Direction.
Proof. solve_decision. Defined.

(** A unidirectional cut [(from_nodes, to_nodes)]; [None] is the null cut. *)
Definition Cut : Type := option (list nat * list nat).

(** Modelled from the spec: the cut classes are not among the sources.
    "Applying a cut zeroes CM entries [cm[i,j]] where [i ∈ from_nodes ∧
    j ∈ to_nodes].  The null cut zeroes nothing." *)
Definition apply_cut (cut : Cut) (cm : CM) : CM :=
  match cut with
  | None => cm
  | Some (from_nodes, to_nodes) =>
      imap (fun i row =>
              imap (fun j x =>
                      if bool_decide (i ∈ from_nodes) && bool_decide (j ∈ to_nodes)
                      then 0%nat else x) row) cm
  end.

Record Network : Type := mkNetwork {
  net_tpm : Np.ndarray;
  net_cm : CM
}.

(** [network.size] and [network.node_indices] *)
Definition net_size (network : Network) : nat := length (net_cm network).
Definition net_node_indices (network : Network) : list nat :=
  seq 0 (net_size network).

Record Subsystem : Type := mkSubsystem {
  network : Network;
  state : list nat;
  node_indices : list nat;
  external_indices : list nat;
  tpm : Np.ndarray;
  cut : Cut;
  cm : CM;
  nodes : list Node
}.

(** [Subsystem.is_cut]: [not self.cut.is_null] *)
Definition is_cut (s : Subsystem) : bool :=
  match cut s with
  | None => false
  | Some _ => true
  end.

(** [NodeLabels.coerce_to_indices] is not among the sources; what it does
    is written where [Subsystem.__init__] calls it: "Remove duplicates,
    sort". *)
Definition coerce_to_indices (nodes : list nat) : list nat :=
  merge_sort le (remove_dups nodes).

(** Modelled from the spec: [validate.state_length] is not among the
    sources.  "State length ≠ [n]" is a validation error that "fails at
    construction". *)
Definition validate_state_length (state : list nat) (size : nat) : result unit :=
  if bool_decide (length state = size) then Ok tt else Raise ValueError.

(** Modelled from the spec: [validate.subsystem] is not among the sources.
    "Non-binary entries" of the state are a validation error.  Of its other
    checks the spec says nothing; the check that the state can be reached
    is an option, and [find_mip] has a guard for the state that cannot. *)
Definition validate_subsystem (state : list nat) : result unit :=
  if forallb (fun n => bool_decide (n < 2)%nat) state then Ok tt
  else Raise ValueError.

(** [cache.MICECache(self, mice_cache)] is not among the sources.  The
    cache of a parent subsystem is handed over by [apply_cut] alone, and is
    taken from an uncut subsystem only: a parent that is itself cut is
    refused with [ValueError].  The cached causes and effects are not part
    of the model; the parent is what decides the outcome. *)
Definition MICECache (parent : option Subsystem) : result unit :=
  match parent with
  | None => Ok tt
  | Some parent => if is_cut parent then Raise ValueError else Ok tt
  end.

(** [cm[np.ix_(indices, indices)]], the rows and columns [indices] of
    [cm]: [IndexError] for an index outside the matrix. *)
Definition submatrix (m : CM) (indices : list nat) : result CM :=
  mapM (fun i =>
          match m !! i with
          | Some row =>
              mapM (fun j => match row !! j with
                             | Some x => Ok x
                             | None => Raise IndexError
                             end) indices
          | None => Raise IndexError
          end) indices.

(** [Subsystem.__init__], with its keyword [mice_cache] given as the
    subsystem the cache belongs to.  The attributes [proper_tpm] and
    [proper_cm] are not kept, but selecting them raises [IndexError] for a
    node index outside the network ([proper_cm] is
    [connectivity.subadjacency(cm, node_indices)], the rows and columns of
    the subsystem's nodes). *)
Definition Subsystem_init_from (network : Network) (state nodes : list nat)
           (cut : Cut) (mice_cache : option Subsystem) : result Subsystem :=
  let node_indices := coerce_to_indices nodes in
  _ ← validate_state_length state (net_size network);
  let external_indices := list_difference (net_node_indices network) node_indices in
  tpm ← Distribution.condition_tpm (net_tpm network) external_indices state;
  let cm := apply_cut cut (net_cm network) in
  _ ← submatrix cm node_indices;
  _ ← MICECache mice_cache;
  nodes ← generate_nodes tpm cm state node_indices;
  _ ← validate_subsystem state;
  Ok (mkSubsystem network state node_indices external_indices tpm cut cm nodes).

(** [Subsystem(network, state, nodes, cut)] *)
Definition Subsystem_init (network : Network) (state nodes : list nat)
           (cut : Cut) : result Subsystem :=
  Subsystem_init_from network state nodes cut None.

(** [Subsystem.apply_cut] *)
Definition Subsystem_apply_cut (s : Subsystem) (cut : Cut) : result Subsystem :=
  Subsystem_init_from (network s) (state s) (node_indices s) cut (Some s).

(** [self._index2node = {node.index: node for node in self._nodes}] *)
Definition _index2node (s : Subsystem) : gmap nat Node :=
  foldl (fun m n => <[node_index n := n]> m) ∅ (nodes s).

Definition index2node (s : Subsystem) (i : nat) : result Node :=
  match _index2node s !! i with
  | Some n => Ok n
  | None => Raise KeyError
  end.

(** [tpm_size]: [self.tpm.shape[-1]] *)
Definition tpm_size (s : Subsystem) : nat := default 0%nat (last (Np.shape (tpm s))).

Definition _single_node_cause_repertoire (s : Subsystem)
           (mechanism_node_index : nat) (purview : list nat) : result Np.ndarray :=
  mechanism_node ← index2node s mechanism_node_index;
  tpm ← Np.select_last (node_state mechanism_node) (node_tpm mechanism_node);
  Distribution.marginalize_out
    (list_difference (node_inputs mechanism_node) purview) tpm.

(** [joint *= x]: in-place multiplication; the broadcast result must have
    the shape of [joint]. *)
Definition imultiply (joint x : Np.ndarray) : result Np.ndarray :=
  r ← Np.multiply joint x;
  if decide (Np.shape r = Np.shape joint) then Ok r else Raise ValueError.

Definition _cause_repertoire (s : Subsystem) (mechanism purview : list nat)
  : result Np.ndarray :=
  match purview, mechanism with
  | [], _ => Ok (Np.array1 1)
  | _, [] => Ok (Distribution.max_entropy_distribution purview (tpm_size s))
  | _, _ =>
      let joint := Np.ones (Distribution.repertoire_shape purview (tpm_size s)) in
      reps ← mapM (fun m => _single_node_cause_repertoire s m purview) mechanism;
      product ← reduce Np.multiply reps;
      joint ← imultiply joint product;
      Ok (Distribution.normalize joint)
  end.

Definition cause_repertoire := _cause_repertoire.

Definition _single_node_effect_repertoire (s : Subsystem)
           (mechanism : list nat) (purview_node_index : nat) : result Np.ndarray :=
  purview_node ← index2node s purview_node_index;
  let mechanism_inputs := list_intersection (node_inputs purview_node) mechanism in
  tpm ← Distribution.condition_tpm (node_tpm purview_node) mechanism_inputs (state s);
  let nonmechanism_inputs := list_difference (node_inputs purview_node) mechanism in
  tpm ← Distribution.marginalize_out nonmechanism_inputs tpm;
  Np.reshape
    (Distribution.repertoire_shape [node_index purview_node] (tpm_size s)) tpm.

Definition _effect_repertoire_virtualized (s : Subsystem)
           (mechanism purview : list nat) : result Np.ndarray :=
  let joint := Np.ones (Distribution.repertoire_shape purview (tpm_size s)) in
  reps ← mapM (fun p => _single_node_effect_repertoire s mechanism p) purview;
  product ← reduce Np.multiply reps;
  Np.multiply joint product.

(** [effect_repertoire] with the default [nonvirtualized_units=()]. *)
Definition effect_repertoire (s : Subsystem) (mechanism purview : list nat)
  : result Np.ndarray :=
  match purview with
  | [] => Ok (Np.array1 1)
  | _ => _effect_repertoire_virtualized s (remove_dups mechanism) purview
  end.

Definition repertoire (s : Subsystem) (direction : Direction)
           (mechanism purview : list nat) : result Np.ndarray :=
  match direction with
  | CAUSE => cause_repertoire s mechanism purview
  | EFFECT => effect_repertoire s mechanism purview
  end.

Definition unconstrained_repertoire (s : Subsystem) (direction : Direction)
           (purview : list nat) : result Np.ndarray :=
  repertoire s direction [] purview.

(** A part [(mechanism, purview)] of a partition, and a partition. *)
Record Part : Type := mkPart { part_mechanism : list nat; part_purview : list nat }.
Definition Partition : Type := list Part.

Definition partitioned_repertoire (s : Subsystem) (direction : Direction)
           (partition : Partition) : result Np.ndarray :=
  repertoires ← mapM (fun part => repertoire s direction (part_mechanism part)
                                              (part_purview part)) partition;
  reduce Np.multiply repertoires.

(** [set(purview).issubset(new_purview)] *)
Definition issubset (a b : list nat) : bool :=
  forallb (fun x => bool_decide (x ∈ b)) a.

Definition expand_repertoire (s : Subsystem) (direction : Direction)
           (repertoire : option Np.ndarray) (new_purview : option (list nat))
  : result (option Np.ndarray) :=
  match repertoire with
  | None => Ok None
  | Some repertoire =>
      let purview := Distribution.purview repertoire in
      let new_purview := default (node_indices s) new_purview in
      if negb (issubset purview new_purview) then Raise ValueError
      else
        let non_purview_indices :=
          list_difference (remove_dups new_purview) purview in
        uc ← unconstrained_repertoire s direction non_purview_indices;
        expanded_repertoire ← Np.multiply repertoire uc;
        Ok (Some (Distribution.normalize expanded_repertoire))
  end.

(** *** MIP search *)

(** A Python float that may be [float("inf")]. *)
Inductive phi_value : Type :=
| Finite (q : Q)
| Infinity.

(** [x < y] on such floats. *)
Definition phi_ltb (x y : phi_value) : bool :=
  match x, y with
  | Finite a, Finite b => negb (Qle_bool b a)
  | Finite _, Infinity => true
  | Infinity, _ => false
  end.

Record RepertoireIrreducibilityAnalysis : Type := mkRIA {
  ria_phi : phi_value;
  ria_direction : Direction;
  ria_mechanism : list nat;
  ria_purview : list nat;
  ria_partition : option Partition;
  ria_repertoire : option Np.ndarray;
  ria_partitioned_repertoire : option Np.ndarray;
  ria_mechanism_state : option (list nat);
  ria_purview_state : option (list nat)
}.

(** Modelled from the spec: [models._null_ria] is not among the sources.
    "If [P = ∅], return a null RIA with φ=0"; its call sites give the
    signature [_null_ria(direction, mechanism, purview, repertoire=None,
    phi=0.0)]. *)
Definition _null_ria (direction : Direction) (mechanism purview : list nat)
           (repertoire : option Np.ndarray) (phi : phi_value)
  : RepertoireIrreducibilityAnalysis :=
  mkRIA phi direction mechanism purview None repertoire None None None.

Section FindMip.

(** [partition.mip_partitions] and [metrics.distribution.repertoire_distance]
    are not among the sources; they are parameters of the search. *)
Variable mip_partitions : list nat -> list nat -> list Partition.
Variable repertoire_distance : Direction -> Np.ndarray -> Np.ndarray -> Q.

Definition evaluate_partition (s : Subsystem) (direction : Direction)
           (mechanism purview : list nat) (partition : Partition)
           (rep : option Np.ndarray) : result (Q * Np.ndarray) :=
  rep ← match rep with
        | None => repertoire s direction mechanism purview
        | Some r => Ok r
        end;
  partitioned ← partitioned_repertoire s direction partition;
  let phi := repertoire_distance direction rep partitioned in
  Ok (phi, partitioned).

(** The local constructor [_mip] of [find_mip]. *)
Definition _mip (s : Subsystem) (direction : Direction)
           (mechanism purview : list nat) (rep : Np.ndarray)
           (phi : Q) (partition : option Partition)
           (partitioned : option Np.ndarray)
  : result RepertoireIrreducibilityAnalysis :=
  mechanism_state ← state_of mechanism (state s);
  purview_state ← state_of purview (state s);
  Ok (mkRIA (Finite phi) direction mechanism purview partition (Some rep)
            partitioned (Some mechanism_state) (Some purview_state)).

(** The [for partition in mip_partitions(...)] loop of [find_mip]. *)
Fixpoint find_mip_loop (s : Subsystem) (direction : Direction)
         (mechanism purview : list nat) (rep : Np.ndarray)
         (mip : RepertoireIrreducibilityAnalysis)
         (partitions : list Partition)
  : result RepertoireIrreducibilityAnalysis :=
  match partitions with
  | [] => Ok mip
  | partition :: rest =>
      ev ← evaluate_partition s direction mechanism purview partition (Some rep);
      let '(phi, partitioned) := ev in
      if Qeq_bool phi 0
      then _mip s direction mechanism purview rep 0 (Some partition) (Some partitioned)
      else if phi_ltb (Finite phi) (ria_phi mip)
      then
        mip' ← _mip s direction mechanism purview rep phi (Some partition)
                    (Some partitioned);
        find_mip_loop s direction mechanism purview rep mip' rest
      else find_mip_loop s direction mechanism purview rep mip rest
  end.

Definition find_mip (s : Subsystem) (direction : Direction)
           (mechanism purview : list nat)
  : result RepertoireIrreducibilityAnalysis :=
  match purview with
  | [] => Ok (_null_ria direction mechanism purview None (Finite 0))
  | _ =>
      rep ← repertoire s direction mechanism purview;
      if bool_decide (direction = CAUSE) && Np.all_zero rep
      then _mip s direction mechanism purview rep 0 None None
      else
        let mip := _null_ria direction mechanism purview None Infinity in
        find_mip_loop s direction mechanism purview rep mip
                      (mip_partitions mechanism purview)
  end.

(** The distances of a list of partitions from the unpartitioned
    repertoire, as [evaluate_partition] computes them one by one. *)
Definition partition_distances (s : Subsystem) (direction : Direction)
           (mechanism purview : list nat) (rep : Np.ndarray)
           (partitions : list Partition) : result (list Q) :=
  mapM (fun partition =>
          ev ← evaluate_partition s direction mechanism purview partition (Some rep);
          Ok ev.1) partitions.

End FindMip.

(** [v] is the minimum of the distances [ds]: [inf] when there is none,
    otherwise one of them that is below all of them. *)
Definition phi_is_min (v : phi_value) (ds : list Q) : Prop :=
  match v with
  | Infinity => ds = []
  | Finite q => (exists d, d ∈ ds /\ q == d) /\ (forall d, d ∈ ds -> q <= d)
  end.

(** *** Well-formed subsystems and repertoires

    The shape invariants that [Node.__init__] establishes and that the
    repertoire algebra relies on: over a network of [N] nodes a node TPM has
    [N + 1] axes, the last of length 2, the others of length 2 only at
    inputs of the node and of length 1 elsewhere. *)

Definition wf_node (N : nat) (n : Node) : bool :=
  bool_decide (length (Np.shape (node_tpm n)) = S N)
  && forallb (fun i =>
                match Np.shape (node_tpm n) !! i with
                | Some 1%nat => true
                | Some 2%nat => bool_decide (i ∈ node_inputs n)
                | _ => false
                end) (seq 0 N)
  && bool_decide (Np.shape (node_tpm n) !! N = Some 2%nat)
  && forallb (fun i => bool_decide (i < N)%nat) (node_inputs n)
  && bool_decide (node_index n < N)%nat
  && bool_decide (node_state n < 2)%nat.

Definition wf_subsystem (s : Subsystem) : bool :=
  forallb (wf_node (tpm_size s)) (nodes s).

(** A repertoire over the network of a subsystem: one axis per network
    node, each of length 1 or 2. *)
Definition wf_repertoire (s : Subsystem) (r : Np.ndarray) : bool :=
  bool_decide (Np.ndim r = tpm_size s)
  && forallb (fun d => bool_decide (d = 1%nat \/ d = 2%nat)) (Np.shape r).

(** *** Example networks *)

Definition force {A} (d : A) (r : result A) : A :=
  match r with Ok a => a | Raise _ => d end.

Definition empty_subsystem : Subsystem :=
  mkSubsystem (mkNetwork (Np.array1 0) []) [] [] [] (Np.array1 0) None [] [].

(** One node with a self-loop that is OFF after every state
    ([tpm = [[0], [0]]], [cm = [[1]]]), observed in state ON. *)
Definition always_off_network : Network :=
  mkNetwork (Np.of_rows [[0]; [0]]) [[1%nat]].

Definition always_off_subsystem : Subsystem :=
  force empty_subsystem (Subsystem_init always_off_network [1%nat] [0%nat] None).

(** Two nodes, fully connected except for the self-loop of node 1:
    node 0 is the AND of both nodes, node 1 copies node 0.  The
    state-by-node TPM has shape (2, 2, 2); the state is (0, 0). *)
Definition and_copy_tpm : Np.ndarray :=
  Np.NdArray [2; 2; 2]%nat (fun idx =>
    match idx with
    | [a; b; O] => if Nat.eqb a 1 && Nat.eqb b 1 then 1 else 0
    | [a; b; S O] => if Nat.eqb a 1 then 1 else 0
    | _ => 0
    end).

Definition and_copy_network : Network :=
  mkNetwork and_copy_tpm [[1; 1]; [1; 0]]%nat.

Definition and_copy_subsystem : Subsystem :=
  force empty_subsystem (Subsystem_init and_copy_network [0; 0]%nat [0; 1]%nat None).

(** The subsystem of node 0 alone in the same network and state; node 1
    is external. *)
Definition and_copy_node0 : Subsystem :=
  force empty_subsystem (Subsystem_init and_copy_network [0; 0]%nat [0%nat] None).

Definition and_copy_cause_repertoire : Np.ndarray :=
  force (Np.array1 0) (cause_repertoire and_copy_subsystem [1%nat] [0%nat]).

(** Two nodes in a chain: node 0 has no input and is OFF after every
    state, node 1 copies node 0; the only connection is 0 -> 1. *)
Definition chain_tpm : Np.ndarray :=
  Np.NdArray [2; 2; 2]%nat (fun idx =>
    match idx with
    | [a; b; S O] => if Nat.eqb a 1 then 1 else 0
    | _ => 0
    end).

Definition chain_network : Network :=
  mkNetwork chain_tpm [[0; 1]; [0; 0]]%nat.

Definition chain_subsystem : Subsystem :=
  force empty_subsystem (Subsystem_init chain_network [0; 0]%nat [0; 1]%nat None).

(** A partition enumeration and a repertoire distance to run [find_mip]
    on: two bipartitions of the mechanism and purview [(0, 1)], and the L1
    distance of the flattened repertoires. *)
Definition example_partitions (mechanism purview : list nat) : list Partition :=
  [[mkPart [0%nat] [0%nat]; mkPart [1%nat] [1%nat]];
   [mkPart [] [0%nat]; mkPart [0; 1]%nat [1%nat]]].

Definition l1_distance (_ : Direction) (a b : Np.ndarray) : Q :=
  qsum (zip_with (fun x y => Qabs (x - y)) (Np.ravel a) (Np.ravel b)).

(** A signed distance to run [find_mip] on: the difference of the two
    repertoires at the state (OFF, ON), without absolute value.  (Among the
    measures that [find_maximally_irreducible_state] names,
    [IIT_4.0_SMALL_PHI_NO_ABSOLUTE_VALUE] is signed.) *)
Definition signed_distance (_ : Direction) (a b : Np.ndarray) : Q :=
  Np.item a [0; 1]%nat - Np.item b [0; 1]%nat.

Definition and_copy_effect_repertoire : Np.ndarray :=
  force (Np.array1 0) (effect_repertoire and_copy_subsystem [0; 1]%nat [0; 1]%nat).

Definition and_copy_distances : list Q :=
  force [] (partition_distances l1_distance and_copy_subsystem EFFECT
              [0; 1]%nat [0; 1]%nat and_copy_effect_repertoire
              (example_partitions [0; 1]%nat [0; 1]%nat)).

Definition and_copy_partitioned_repertoires : list Np.ndarray :=
  force [] (mapM (partitioned_repertoire and_copy_subsystem EFFECT)
                 (example_partitions [0; 1]%nat [0; 1]%nat)).

Definition always_off_cause_repertoire : Np.ndarray :=
  force (Np.array1 1) (cause_repertoire always_off_subsystem [0%nat] [0%nat]).

(** ** [pyphi/models/subsystem.py]: ordering of system-level analyses *)

#[global] Instance Q_eq_dec : EqDecision Q.
Proof. solve_decision. Defined.

(** The key [order_by] returns: [[phi, len(subsystem), node_indices]]. *)
Definition OrderKey : Type := (Q * nat * list nat)%type.

(** [<] on tuples of integers: lexicographic, a proper prefix is smaller. *)
Fixpoint tuple_ltb (a b : list nat) : bool :=
  match a, b with
  | [], [] => false
  | [], _ :: _ => true
  | _ :: _, [] => false
  | x :: a', y :: b' =>
      if bool_decide (x = y) then tuple_ltb a' b' else bool_decide (x < y)%nat
  end.

(** [<] on the lists [order_by] returns: the first entries that differ
    decide. *)
Definition key_ltb (k1 k2 : OrderKey) : bool :=
  let '(phi1, n1, idx1) := k1 in
  let '(phi2, n2, idx2) := k2 in
  if negb (Qeq_bool phi1 phi2) then negb (Qle_bool phi2 phi1)
  else if negb (bool_decide (n1 = n2)) then bool_decide (n1 < n2)%nat
  else tuple_ltb idx1 idx2.

Definition key_eqb (k1 k2 : OrderKey) : bool :=
  let '(phi1, n1, idx1) := k1 in
  let '(phi2, n2, idx2) := k2 in
  Qeq_bool phi1 phi2 && bool_decide (n1 = n2) && bool_decide (idx1 = idx2).

(** [network == other.network] *)
Definition network_eqb (a b : Network) : bool :=
  Np.array_equal (net_tpm a) (net_tpm b) && bool_decide (net_cm a = net_cm b).

Record SystemIrreducibilityAnalysis (CES : Type) : Type := mkSIA {
  sia_phi : Q;
  sia_ces : CES;
  sia_partitioned_ces : CES;
  sia_subsystem : Subsystem;
  sia_cut_subsystem : Subsystem
}.
Arguments mkSIA {CES}.
Arguments sia_phi {CES}.
Arguments sia_ces {CES}.
Arguments sia_partitioned_ces {CES}.
Arguments sia_subsystem {CES}.
Arguments sia_cut_subsystem {CES}.

(** [SystemIrreducibilityAnalysis.cut] and [.network] *)
Definition sia_cut {CES} (a : SystemIrreducibilityAnalysis CES) : Cut :=
  cut (sia_cut_subsystem a).
Definition sia_network {CES} (a : SystemIrreducibilityAnalysis CES) : Network :=
  network (sia_subsystem a).

(** [SystemIrreducibilityAnalysis.order_by] *)
Definition order_by {CES} (a : SystemIrreducibilityAnalysis CES) : OrderKey :=
  (sia_phi a, length (node_indices (sia_subsystem a)),
   node_indices (sia_subsystem a)).

(** Modelled from the spec: [cmp.Orderable] is not among the sources.
    Results support "ordering by [(Φ, |subsystem|, node_indices)]", that is
    [self.order_by() < other.order_by()]; the attributes named in
    [unorderable_unless_eq] (here the network) must be equal, otherwise the
    comparison raises [TypeError]. *)
Definition sia_lt {CES} (a b : SystemIrreducibilityAnalysis CES) : result bool :=
  if network_eqb (sia_network a) (sia_network b)
  then Ok (key_ltb (order_by a) (order_by b))
  else Raise TypeError.

(** [min(xs)]: the first element that no other element is smaller than;
    [ValueError] on the empty sequence. *)
Definition py_min {A} (lt : A -> A -> result bool) (xs : list A) : result A :=
  match xs with
  | [] => Raise ValueError
  | x :: rest =>
      foldl (fun acc y =>
               best ← acc;
               b ← lt y best;
               Ok (if b : bool then y else best)) (Ok x) rest
  end.

(** Two analyses of the same subsystem with the same phi under the two
    opposite cuts. *)
Definition and_copy_cut_01 : Subsystem :=
  force empty_subsystem
        (Subsystem_apply_cut and_copy_subsystem (Some ([0%nat], [1%nat]))).
Definition and_copy_cut_10 : Subsystem :=
  force empty_subsystem
        (Subsystem_apply_cut and_copy_subsystem (Some ([1%nat], [0%nat]))).

Definition sia_cut_01 : SystemIrreducibilityAnalysis unit :=
  mkSIA (1 # 4) tt tt and_copy_subsystem and_copy_cut_01.
Definition sia_cut_10 : SystemIrreducibilityAnalysis unit :=
  mkSIA (1 # 4) tt tt and_copy_subsystem and_copy_cut_10.

(** ** [cyphi/utils.py] *)

(** [itertools.combinations(s, r)] *)
Fixpoint combinations {A} (s : list A) (r : nat) : list (list A) :=
  match r, s with
  | O, _ => [[]]
  | S _, [] => []
  | S r', x :: rest => map (cons x) (combinations rest r') ++ combinations rest r
  end.

(** [powerset(iterable)]: the subsets by increasing size. *)
Definition powerset {A} (s : list A) : list (list A) :=
  flat_map (combinations s) (seq 0 (S (length s))).

Module Utils.

(** [bin(i)[2:]]: the binary digits of [i], the most significant first,
    ["0"] for 0.  A digit is [true] for ['1']. *)
Definition bin (i : nat) : list bool :=
  map (fun k => Nat.testbit i (Nat.log2 i - k)) (seq 0 (S (Nat.log2 i))).

(** [s.zfill(width)] *)
Definition zfill (width : nat) (s : list bool) : list bool :=
  replicate (width - length s) false ++ s.

(** [_flip(bitstring)] *)
Definition _flip (bitstring : list bool) : list bool :=
  map (fun x : bool => if x then false else true) bitstring.

(** [_bitstring_index(a, bitstring)]: the elements at the positions of the
    ['1']s; [ValueError] when the lengths differ. *)
Definition _bitstring_index {A} (a : list A) (bitstring : list bool)
  : result (list A) :=
  let size := length a in
  if bool_decide (size <> length bitstring) then Raise ValueError
  else Ok (omap (fun i => match bitstring !! i, a !! i with
                          | Some true, Some x => Some x
                          | _, _ => None
                          end) (seq 0 size)).

(** [list(bipartition(a))]: what the generator yields.  For the empty list
    [2 ** (size - 1)] is the float 0.5, on which [range] raises
    [TypeError]. *)
Definition bipartition {A} (a : list A) : result (list (list A * list A)) :=
  let size := length a in
  if bool_decide (size = 0%nat) then Raise TypeError
  else
    mapM (fun bitstring =>
            part0 ← _bitstring_index a bitstring;
            part1 ← _bitstring_index a (_flip bitstring);
            Ok (part0, part1))
         (map (fun i => reverse (zfill size (bin i))) (seq 0 (2 ^ (size - 1)))).

(** [cdist(X, X, 'hamming')] on one pair of rows: the share of the columns
    in which the rows differ. *)
Definition hamming (u v : list bool) : Q :=
  inject_Z (Z.of_nat (length (filter (fun p : bool * bool => p.1 <> p.2) (zip u v))))
  / inject_Z (Z.of_nat (length u)).

(** [_hamming_matrix(N)] *)
Definition _hamming_matrix (N : nat) : list (list Q) :=
  let possible_states := map (fun state => zfill N (bin state)) (seq 0 (2 ^ N)) in
  map (fun u => map (fun v => hamming u v * inject_Z (Z.of_nat N)) possible_states)
      possible_states.

(** [uniform_distribution(number_of_nodes)] *)
Definition uniform_distribution (number_of_nodes : nat) : result Np.ndarray :=
  let number_of_states := (2 ^ number_of_nodes)%nat in
  Np.reshape (replicate number_of_nodes 2%nat)
             (Np.divide (Np.ones [number_of_states])
                        (inject_Z (Z.of_nat number_of_states))).

(** [marginalize_out(node, tpm)] for the node of index [index]:
    [np.divide(np.sum(tpm, node.index, keepdims=True),
    tpm.shape[node.index])].  The sum is taken first, then the length of
    the axis is looked up: [tpm.shape[index]] raises [IndexError] when the
    shape has no such entry, which only an array without axes and the index
    0 get to. *)
Definition marginalize_out (index : nat) (tpm : Np.ndarray) : result Np.ndarray :=
  summed ← Np.sum_axis index tpm;
  match Np.shape tpm !! index with
  | Some n => Ok (Np.divide summed (inject_Z (Z.of_nat n)))
  | None => Raise IndexError
  end.

(** [max_entropy_distribution(nodes, network)], with [network.nodes]
    given; [node in nodes] compares nodes, whatever they are, and
    [np.ufunc.reduce(np.multiply, max_ent_shape)] is the product of the
    lengths (1 for no length). *)
Definition max_entropy_distribution {Node} `{EqDecision Node}
           (nodes network_nodes : list Node) : Np.ndarray :=
  let max_ent_shape :=
    map (fun node => if bool_decide (node ∈ nodes) then 2%nat else 1%nat)
        network_nodes in
  Np.divide (Np.ones max_ent_shape)
            (inject_Z (Z.of_nat (foldl Nat.mul 1%nat max_ent_shape))).

End Utils.

(** [g[start:]] for a generator object [g], given by what iterating it
    would yield.  A generator has no [__getitem__]: subscripting it raises
    [TypeError], whatever it would yield, and nothing of its body runs. *)
Definition generator_getitem {A} (g : result (list A)) (start : nat)
  : result (list A) :=
  Raise TypeError.

(** ** [scipy.sparse.csgraph.connected_components]

    Called as [connected_components(csr_matrix(cm))], that is with the
    defaults [directed=True, connection='weak']: the number of weakly
    connected components of the graph whose edges are the non-zero entries
    of [cm]. *)

Definition weak_edge (m : CM) (i j : nat) : bool :=
  cm_entry m i j || cm_entry m j i.

(** The nodes with an edge from a node of [from]. *)
Definition successors (edge : nat -> nat -> bool) (n : nat) (from : gset nat)
  : gset nat :=
  list_to_set (filter (fun j => existsb (fun i => edge i j) (elements from))
                      (seq 0 n)).

(** The nodes reached from [from] along [edge] in at most [fuel] rounds. *)
Fixpoint closure (edge : nat -> nat -> bool) (n fuel : nat) (from : gset nat)
  : gset nat :=
  match fuel with
  | O => from
  | S fuel' => closure edge n fuel' (from ∪ successors edge n from)
  end.

Definition reachable (edge : nat -> nat -> bool) (n i : nat) : gset nat :=
  closure edge n n {[i]}.

(** A component is counted at its least node. *)
Definition connected_components (m : CM) : nat :=
  let n := length m in
  length (filter (fun i => forallb (fun j => bool_decide (i ∉ reachable (weak_edge m) n j))
                                   (seq 0 i))
                 (seq 0 n)).

(** Strong connectivity of the graph of a connectivity matrix: every node
    reaches every node. *)
Definition strongly_connected (m : CM) : bool :=
  let n := length m in
  forallb (fun i => forallb (fun j => bool_decide (j ∈ reachable (cm_entry m) n i))
                            (seq 0 n))
          (seq 0 n).

(** ** [cyphi/compute.py]

    Nodes are identified with their indices, so [subsystem.nodes] is
    [node_indices] and a mechanism is a list of indices.  The null cut
    ([subsystem.null_cut]) is [None]. *)

Section Compute.

(** What the module uses but does not define: the maximally irreducible
    cause and effect of a mechanism ([Subsystem.core_cause],
    [Subsystem.core_effect]), the connectivity predicates of [Subsystem],
    the keys under which concepts are stored ([db.generate_key] of the raw
    [MarblSet], and the normalised [MarblSet]), the options, the repertoire
    expansion of [Concept], and the EMD solvers of [utils]. *)
Context {Mice : Type} `{EqDecision Mice}.
Context {Key : Type} `{Countable Key}.
Variable mice_phi : Mice -> Q.
Variable core_cause core_effect : Subsystem -> list nat -> Cut -> Mice.
Variable _all_connect_to_any _any_connect_to_all :
  Subsystem -> list nat -> list nat -> bool.
Variable raw_key norm_key : Subsystem -> list nat -> Cut -> Key.
Variable EPSILON : Q.
Variable SINGLE_NODES_WITH_SELFLOOPS_HAVE_PHI : bool.
Variable null_cause null_effect : Subsystem -> Mice.

Record Concept : Type := mkConcept {
  mechanism : list nat;
  phi : Q;
  cause : Mice;
  effect : Mice
}.

#[global] Instance Concept_eq_dec : EqDecision Concept.
Proof. solve_decision. Defined.

Variable expand_cause_repertoire expand_effect_repertoire :
  Concept -> Subsystem -> Cut -> Np.ndarray.
Variable hamming_emd : Np.ndarray -> Np.ndarray -> Q.
Variable emd : list Q -> list Q -> list (list Q) -> Q.

(** The persistent stores: [db] (explicit in [concept]) and the memo
    table of the [memory.cache] decorator of [_concept]. *)
Record Caches : Type := mkCaches {
  db : gmap Key (option Concept);
  memo : gmap Key (option Concept)
}.

(** [min(a, b)] on floats: [b] only if [b < a]. *)
Definition min2 (a b : Q) : Q := if Qle_bool a b then a else b.

(** The body of [_concept]. *)
Definition _concept_body (subsystem : Subsystem) (mechanism : list nat)
           (cut : Cut) : option Concept :=
  let cause := core_cause subsystem mechanism cut in
  let effect := core_effect subsystem mechanism cut in
  let phi := min2 (mice_phi cause) (mice_phi effect) in
  if negb (Qle_bool EPSILON phi) then None
  else Some (mkConcept mechanism phi cause effect).

(** [_concept] under [@memory.cache(ignore=['subsystem', 'mechanism',
    'cut'])]: memoised on the marblset alone. *)
Definition _concept (caches : Caches) (marblset : Key) (subsystem : Subsystem)
           (mechanism : list nat) (cut : Cut) : option Concept * Caches :=
  match memo caches !! marblset with
  | Some r => (r, caches)
  | None =>
      let r := _concept_body subsystem mechanism cut in
      (r, mkCaches (db caches) (<[marblset := r]> (memo caches)))
  end.

Definition concept (caches : Caches) (subsystem : Subsystem)
           (mechanism : list nat) (cut : Cut) : option Concept * Caches :=
  match mechanism with
  | [] => (None, caches)
  | _ =>
      if negb (_all_connect_to_any subsystem mechanism (node_indices subsystem)
               && _any_connect_to_all subsystem (node_indices subsystem) mechanism)
      then (None, caches)
      else
        let raw_marblset := raw_key subsystem mechanism cut in
        match db caches !! raw_marblset with
        | Some (Some cached_value) => (Some cached_value, caches)
        | _ =>
            let marblset := norm_key subsystem mechanism cut in
            let '(concept, caches) :=
              _concept caches marblset subsystem mechanism cut in
            (concept,
             mkCaches (<[raw_marblset := concept]> (db caches)) (memo caches))
        end
  end.

(** The list comprehension of [constellation]: one entry per mechanism
    of the power set, in order. *)
Fixpoint concepts_of (caches : Caches) (subsystem : Subsystem) (cut : Cut)
         (mechanisms : list (list nat)) : list (option Concept) * Caches :=
  match mechanisms with
  | [] => ([], caches)
  | mechanism :: rest =>
      let '(c, caches) := concept caches subsystem mechanism cut in
      let '(cs, caches) := concepts_of caches subsystem cut rest in
      (c :: cs, caches)
  end.

(** [filter(None, concepts)] drops the [None] entries. *)
Definition constellation (caches : Caches) (subsystem : Subsystem) (cut : Cut)
  : list Concept * Caches :=
  let '(concepts, caches) :=
    concepts_of caches subsystem cut (powerset (node_indices subsystem)) in
  (omap id concepts, caches).

(** Modelled from the spec: [Subsystem.null_concept] of this revision is
    not among the sources.  "[null_concept] is the subsystem's
    unconstrained-cause / unconstrained-effect point"; its mechanism is
    empty and it carries no phi. *)
Definition null_concept (subsystem : Subsystem) : Concept :=
  mkConcept [] 0 (null_cause subsystem) (null_effect subsystem).

Definition concept_distance (c1 c2 : Concept) (subsystem : Subsystem)
           (cut : Cut) : Q :=
  qsum [hamming_emd (expand_cause_repertoire c1 subsystem cut)
                    (expand_cause_repertoire c2 subsystem cut);
        hamming_emd (expand_effect_repertoire c1 subsystem cut)
                    (expand_effect_repertoire c2 subsystem cut)].

Definition _constellation_distance_simple (C1 C2 : list Concept)
           (subsystem : Subsystem) (cut : Cut) : Q :=
  let '(C1, C2) :=
    if bool_decide (length C1 < length C2)%nat then (C2, C1) else (C1, C2) in
  let destroyed := filter (fun c => c ∉ C2) C1 in
  qsum (map (fun c => phi c * concept_distance c (null_concept subsystem)
                                              subsystem cut) destroyed).

(** [d[-1] = x] *)
Definition set_last (d : list Q) (x : Q) : list Q :=
  <[pred (length d) := x]> d.

(** [[c.phi if c in constellation else 0 for c in all_concepts]] *)
Definition histogram (constellation all_concepts : list Concept) : list Q :=
  map (fun c => if bool_decide (c ∈ constellation) then phi c else 0)
      all_concepts.

(** [[[concept_distance(i, j, subsystem, cut) for i in all_concepts]
      for j in all_concepts]] *)
Definition distance_matrix (all_concepts : list Concept)
           (subsystem : Subsystem) (cut : Cut) : list (list Q) :=
  map (fun j => map (fun i => concept_distance i j subsystem cut) all_concepts)
      all_concepts.

(** The concept list, the two phi distributions and the ground distance
    matrix that [_constellation_distance_emd] hands to [utils.emd]. *)
Definition emd_arguments (C1 C2 unique_C1 unique_C2 : list Concept)
           (subsystem : Subsystem) (cut : Cut)
  : list Concept * list Q * list Q * list (list Q) :=
  let shared_concepts := filter (fun c => c ∈ C2) C1 in
  let all_concepts :=
    shared_concepts ++ unique_C1 ++ unique_C2 ++ [null_concept subsystem] in
  let d1 := histogram C1 all_concepts in
  let d2 := histogram C2 all_concepts in
  let residual := qsum d1 - qsum d2 in
  let d2 := if negb (Qle_bool residual 0) then set_last d2 residual else d2 in
  let d1 := if negb (Qle_bool 0 residual) then set_last d1 residual else d1 in
  (all_concepts, d1, d2, distance_matrix all_concepts subsystem cut).

Definition _constellation_distance_emd (C1 C2 unique_C1 unique_C2 : list Concept)
           (subsystem : Subsystem) (cut : Cut) : Q :=
  let '(_, d1, d2, distance_matrix) :=
    emd_arguments C1 C2 unique_C1 unique_C2 subsystem cut in
  emd d1 d2 distance_matrix.

Definition constellation_distance (C1 C2 : list Concept)
           (subsystem : Subsystem) (cut : Cut) : Q :=
  let concepts_only_in_C1 := filter (fun c => c ∉ C2) C1 in
  let concepts_only_in_C2 := filter (fun c => c ∉ C1) C2 in
  if bool_decide (concepts_only_in_C1 = []) || bool_decide (concepts_only_in_C2 = [])
  then _constellation_distance_simple C1 C2 subsystem cut
  else _constellation_distance_emd C1 C2 concepts_only_in_C1 concepts_only_in_C2
                                   subsystem cut.

Record BigMip : Type := mkBigMip {
  bm_subsystem : Subsystem;
  bm_phi : Q;
  bm_cut : Cut;
  bm_unpartitioned_constellation : option (list Concept);
  bm_partitioned_constellation : option (list Concept)
}.

(** Modelled from the spec: the model class [BigMip] is not among the
    sources.  Results support "ordering by [(Φ, |subsystem|,
    node_indices)]". *)
Definition bigmip_key (m : BigMip) : OrderKey :=
  (bm_phi m, length (node_indices (bm_subsystem m)),
   node_indices (bm_subsystem m)).

Definition bigmip_lt (a b : BigMip) : result bool :=
  Ok (key_ltb (bigmip_key a) (bigmip_key b)).

Definition _null_mip (subsystem : Subsystem) : BigMip :=
  mkBigMip subsystem 0 None (Some []) (Some []).

Definition _single_node_mip (subsystem : Subsystem) : BigMip :=
  if SINGLE_NODES_WITH_SELFLOOPS_HAVE_PHI
  then mkBigMip subsystem (1 # 2)
                (Some (node_indices subsystem, node_indices subsystem))
                None None
  else _null_mip subsystem.

Definition _evaluate_cut (caches : Caches) (subsystem : Subsystem)
           (partition : list nat * list nat)
           (unpartitioned_constellation : list Concept) : BigMip * Caches :=
  let forward_cut : Cut := Some (partition.1, partition.2) in
  let '(forward_constellation, caches) :=
    constellation caches subsystem forward_cut in
  let forward_mip :=
    mkBigMip subsystem
             (constellation_distance unpartitioned_constellation
                                     forward_constellation subsystem forward_cut)
             forward_cut (Some unpartitioned_constellation)
             (Some forward_constellation) in
  let backward_cut : Cut := Some (partition.2, partition.1) in
  let '(backward_constellation, caches) :=
    constellation caches subsystem backward_cut in
  let backward_mip :=
    mkBigMip subsystem
             (constellation_distance unpartitioned_constellation
                                     backward_constellation subsystem backward_cut)
             backward_cut (Some unpartitioned_constellation)
             (Some backward_constellation) in
  let mip :=
    if key_ltb (bigmip_key backward_mip) (bigmip_key forward_mip)
    then backward_mip else forward_mip in
  (if negb (Qle_bool (bm_phi mip) EPSILON) then mip else _null_mip subsystem,
   caches).

(** The loop over the bipartitions ([Parallel(...)(delayed(_evaluate_cut)
    ...)]), run in order. *)
Fixpoint evaluate_cuts (caches : Caches) (subsystem : Subsystem)
         (bipartitions : list (list nat * list nat))
         (unpartitioned_constellation : list Concept)
  : list BigMip * Caches :=
  match bipartitions with
  | [] => ([], caches)
  | partition :: rest =>
      let '(mip, caches) :=
        _evaluate_cut caches subsystem partition unpartitioned_constellation in
      let '(mips, caches) :=
        evaluate_cuts caches subsystem rest unpartitioned_constellation in
      (mip :: mips, caches)
  end.

(** The body of [_big_mip].  The bipartitions are asked for as
    [utils.bipartition(subsystem.nodes)[1:]], a slice of what
    [utils.bipartition], a generator function, returns. *)
Definition _big_mip (caches : Caches) (subsystem : Subsystem)
  : result BigMip * Caches :=
  if bool_decide (length (node_indices subsystem) = 1%nat)
  then (Ok (_single_node_mip subsystem), caches)
  else if bool_decide (node_indices subsystem = [])
  then (Ok (_null_mip subsystem), caches)
  else
    match submatrix (net_cm (network subsystem)) (node_indices subsystem) with
    | Raise e => (Raise e, caches)
    | Ok cm =>
        let num_components := connected_components cm in
        if bool_decide (1 < num_components)%nat
        then (Ok (_null_mip subsystem), caches)
        else
          match generator_getitem (Utils.bipartition (node_indices subsystem))
                                  1 with
          | Raise e => (Raise e, caches)
          | Ok bipartitions =>
              let '(unpartitioned_constellation, caches) :=
                constellation caches subsystem None in
              let '(mip_candidates, caches) :=
                evaluate_cuts caches subsystem bipartitions
                              unpartitioned_constellation in
              (py_min bigmip_lt mip_candidates, caches)
          end
    end.

(** [big_mip(subsystem)] is [_big_mip(hash(subsystem), subsystem)], which
    [memory.cache] memoises on the hash; this is a call that the store
    does not answer, so that the body runs. *)
Definition big_mip := _big_mip.

End Compute.

(** ** The Earth Mover's Distance

    Modelled from the spec: the EMD solver behind [utils.emd] is a
    third-party library ("a third-party EMD solver is assumed available as a
    library call").  The Earth Mover's Distance of two histograms [d1] and
    [d2] under the ground distance matrix [M] is the least cost of a flow
    that moves the mass of [d1] onto [d2]. *)

Definition entry (d : list Q) (i : nat) : Q := default 0 (d !! i).

Definition matrix_entry (M : list (list Q)) (i j : nat) : Q :=
  entry (default [] (M !! i)) j.

(** [f i j] is the mass moved from bin [i] of [d1] to bin [j] of [d2]. *)
Definition feasible_flow (f : nat -> nat -> Q) (d1 d2 : list Q) : Prop :=
  let n := length d1 in
  (forall i j, (i < n)%nat -> (j < n)%nat -> 0 <= f i j) /\
  (forall i, (i < n)%nat -> qsum (map (fun j => f i j) (seq 0 n)) == entry d1 i) /\
  (forall j, (j < n)%nat -> qsum (map (fun i => f i j) (seq 0 n)) == entry d2 j).

Definition flow_cost (f : nat -> nat -> Q) (n : nat) (M : list (list Q)) : Q :=
  qsum (map (fun i => qsum (map (fun j => f i j * matrix_entry M i j) (seq 0 n)))
            (seq 0 n)).

Definition is_emd (d1 d2 : list Q) (M : list (list Q)) (v : Q) : Prop :=
  (exists f, feasible_flow f d1 d2 /\ flow_cost f (length d1) M == v) /\
  (forall f, feasible_flow f d1 d2 -> v <= flow_cost f (length d1) M).

(** A pseudo-metric on repertoires, as the Hamming EMD is. *)
Definition pseudo_metric (hamming_emd : Np.ndarray -> Np.ndarray -> Q) : Prop :=
  (forall x, hamming_emd x x == 0) /\
  (forall x y, hamming_emd x y == hamming_emd y x) /\
  (forall x y z, hamming_emd x z <= hamming_emd x y + hamming_emd y z).

(** The flow that leaves the mass [g2 i] of every bin in place and moves
    the rest [g1 i - g2 i] to the last bin. *)
Definition stay_or_drop (g1 g2 : nat -> Q) (n : nat) (i j : nat) : Q :=
  (if bool_decide (j = i) then g2 i else 0)
  + (if bool_decide (j = pred n) then g1 i - g2 i else 0).

(** *** Example constellations

    Three concepts of unit phi over a two-node subsystem; the maximally
    irreducible causes and effects are left out ([unit]). *)

Definition concept_0 : @Concept unit := mkConcept [0%nat] 1 tt tt.
Definition concept_1 : @Concept unit := mkConcept [1%nat] 1 tt tt.
Definition concept_01 : @Concept unit := mkConcept [0; 1]%nat 1 tt tt.
Definition example_null_mice (_ : Subsystem) : unit := tt.

(** A repertoire expansion, a pseudo-metric and a solver result to run the
    constellation distances on. *)
Definition example_expand {Mice} (c : @Concept Mice) (_ : Subsystem) (_ : Cut)
  : Np.ndarray :=
  Np.array1 (inject_Z (Z.of_nat (length (mechanism c)))).

Definition example_hamming_emd (a b : Np.ndarray) : Q :=
  Qabs (Np.sum a - Np.sum b).

Definition example_emd (_ _ : list Q) (_ : list (list Q)) : Q := 2.

(** ** What the caches of [concept] may hold *)

Section CacheInvariants.

Context {Mice : Type} `{EqDecision Mice}.
Context {Key : Type} `{Countable Key}.
Variable mice_phi : Mice -> Q.
Variable core_cause core_effect : Subsystem -> list nat -> Cut -> Mice.
Variable _all_connect_to_any _any_connect_to_all :
  Subsystem -> list nat -> list nat -> bool.
Variable raw_key norm_key : Subsystem -> list nat -> Cut -> Key.
Variable EPSILON : Q.

(** The concept of a mechanism when nothing is cached. *)
Definition concept_uncached (subsystem : Subsystem) (mechanism : list nat)
           (cut : Cut) : option Concept :=
  match mechanism with
  | [] => None
  | _ =>
      if negb (_all_connect_to_any subsystem mechanism (node_indices subsystem)
               && _any_connect_to_all subsystem (node_indices subsystem) mechanism)
      then None
      else _concept_body mice_phi core_cause core_effect EPSILON
                         subsystem mechanism cut
  end.

Definition constellation_uncached (subsystem : Subsystem) (cut : Cut)
  : list Concept :=
  omap (fun mechanism => concept_uncached subsystem mechanism cut)
       (powerset (node_indices subsystem)).

(** A proper concept: of a non-empty mechanism, with phi not below
    EPSILON.  The stores hold no other concept. *)
Definition proper_concept (r : option (@Concept Mice)) : Prop :=
  forall x, r = Some x -> mechanism x <> [] /\ EPSILON <= phi x.

Definition caches_proper (caches : @Caches Mice Key _ _) : Prop :=
  (forall k r, db caches !! k = Some r -> proper_concept r) /\
  (forall k r, memo caches !! k = Some r -> proper_concept r).

(** Every stored value was computed by [_concept] for a non-empty mechanism
    with that key. *)
Definition caches_coherent (caches : @Caches Mice Key _ _) : Prop :=
  (forall k r, db caches !! k = Some r ->
     exists s m c, m <> [] /\ raw_key s m c = k /\
       r = _concept_body mice_phi core_cause core_effect EPSILON s m c) /\
  (forall k r, memo caches !! k = Some r ->
     exists s m c, m <> [] /\ norm_key s m c = k /\
       r = _concept_body mice_phi core_cause core_effect EPSILON s m c).

(** "Equal fingerprints ⇒ equal concept (caching invariant)", for the raw
    and for the normalised fingerprint. *)
Definition fingerprint_sound : Prop :=
  (forall s m c s' m' c', raw_key s m c = raw_key s' m' c' ->
     _concept_body mice_phi core_cause core_effect EPSILON s m c
     = _concept_body mice_phi core_cause core_effect EPSILON s' m' c') /\
  (forall s m c s' m' c', norm_key s m c = norm_key s' m' c' ->
     _concept_body mice_phi core_cause core_effect EPSILON s m c
     = _concept_body mice_phi core_cause core_effect EPSILON s' m' c').

End CacheInvariants.

(** Keys and maximally irreducible causes and effects to run [concept] on:
    the key of a mechanism is the mechanism, the phi of its cause and of
    its effect the number of its nodes. *)
Definition example_key (_ : Subsystem) (m : list nat) (_ : Cut) : list nat := m.
Definition example_core (_ : Subsystem) (m : list nat) (_ : Cut) : Q :=
  inject_Z (Z.of_nat (length m)).
Definition example_connect (_ : Subsystem) (_ _ : list nat) : bool := true.
Definition empty_caches : @Caches Q (list nat) _ _ := mkCaches ∅ ∅.

(** ** Predicates the proofs are stated with *)

(** An axis of a repertoire has length 1 or 2. *)
Definition binary (d : nat) : Prop := d = 1%nat \/ d = 2%nat.

(** A shape over [N] nodes with axes of length 1 or 2. *)
Definition binary_shape (N : nat) (sh : list nat) : Prop :=
  length sh = N /\ Forall binary sh.

(** A shape over [N] nodes whose axes of length 2 all lie in [P]. *)
Definition dominated (P : list nat) (N : nat) (sh : list nat) : Prop :=
  length sh = N /\
  forall i, (i < N)%nat -> sh !! i = Some 1%nat \/ (sh !! i = Some 2%nat /\ i ∈ P).

(** The shape after marginalising out the axes [idxs]. *)
Definition set_ones (sh : list nat) (idxs : list nat) : list nat :=
  foldl (fun sh i => <[i := 1%nat]> sh) sh idxs.

(** What [wf_node] checks, as a proposition. *)
Record wf_node_spec (N : nat) (n : Node) : Prop := {
  wf_len : length (Np.shape (node_tpm n)) = S N;
  wf_axes : forall i, (i < N)%nat ->
            Np.shape (node_tpm n) !! i = Some 1%nat \/
            (Np.shape (node_tpm n) !! i = Some 2%nat /\ i ∈ node_inputs n);
  wf_last : Np.shape (node_tpm n) !! N = Some 2%nat;
  wf_inputs : Forall (fun i => (i < N)%nat) (node_inputs n);
  wf_index : (node_index n < N)%nat;
  wf_state : (node_state n < 2)%nat
}.

(** The node [index] has a row and a column in [cm]: every entry that
    [get_inputs_from_cm] and [get_outputs_from_cm] read is there. *)
Definition in_cm (cm : CM) (index : nat) : bool :=
  forallb (fun i => bool_decide (is_Some (cm !! i ≫= (.!! index)))
                    && bool_decide (is_Some (cm !! index ≫= (.!! i))))
          (seq 0 (length cm)).

(** The elements of [a] at the positions where the binary digit of [i] is
    1 ([flip = false]) or 0 ([flip = true]): what [_bitstring_index] selects
    for the bit string [bin(i)[2:].zfill(size)[::-1]] and for its flip. *)
Definition select_bits {A} (a : list A) (i : nat) (flip : bool) : list A :=
  omap (fun '(k, x) => if xorb (Nat.testbit i k) flip then Some x else None)
       (zip (seq 0 (length a)) a).

(** The pairs of parts of [a] by the binary digits of the numbers below
    [2 ** (size - 1)], in order. *)
Definition bit_pairs {A} (a : list A) : list (list A * list A) :=
  map (fun i => (select_bits a i false, select_bits a i true))
      (seq 0 (2 ^ (length a - 1))).

(** Outcome specifications for the [result] monad. *)
Definition rspec {A} (P : A -> Prop) (E : exn -> Prop) (r : result A) : Prop :=
  match r with Ok a => P a | Raise e => E e end.


(** * Further functions of the sources *)

(** Equality of arrays, entry by entry. *)
Definition array_eq (a b : Np.ndarray) : Prop :=
  Np.shape a = Np.shape b /\
  forall idx, idx ∈ Np.indices (Np.shape a) -> Np.item a idx == Np.item b idx.

(** The number of bits in which [i] and [j] differ among the lowest [N]. *)
Definition differing_bits (N i j : nat) : nat :=
  length (filter (fun k => Nat.testbit i k <> Nat.testbit j k) (seq 0 N)).

(** ** [cyphi/compute.py]: [conceptual_information], the stores over a run *)

Section ConceptualInformation.

Context {Mice : Type} `{EqDecision Mice}.
Context {Key : Type} `{Countable Key}.
Variable mice_phi : Mice -> Q.
Variable core_cause core_effect : Subsystem -> list nat -> Cut -> Mice.
Variable _all_connect_to_any _any_connect_to_all :
  Subsystem -> list nat -> list nat -> bool.
Variable raw_key norm_key : Subsystem -> list nat -> Cut -> Key.
Variable EPSILON : Q.
Variable null_cause null_effect : Subsystem -> Mice.
Variable expand_cause_repertoire expand_effect_repertoire :
  @Concept Mice -> Subsystem -> Cut -> Np.ndarray.
Variable hamming_emd : Np.ndarray -> Np.ndarray -> Q.
Variable emd : list Q -> list Q -> list (list Q) -> Q.

(** [conceptual_information(subsystem)] *)
Definition conceptual_information (caches : @Caches Mice Key _ _)
           (subsystem : Subsystem) : Q * @Caches Mice Key _ _ :=
  let '(C, caches) :=
    constellation mice_phi core_cause core_effect _all_connect_to_any
                  _any_connect_to_all raw_key norm_key EPSILON caches subsystem None in
  (constellation_distance null_cause null_effect expand_cause_repertoire
                          expand_effect_repertoire hamming_emd emd
                          C [] subsystem None,
   caches).

End ConceptualInformation.

(** A later state of the stores keeps what an earlier one holds: every
    memoised result, and every concept stored in [db]. *)
Definition stores_kept {Mice Key : Type} `{Countable Key}
           (before after : @Caches Mice Key _ _) : Prop :=
  (forall k r, memo before !! k = Some r -> memo after !! k = Some r) /\
  (forall k c, db before !! k = Some (Some c) -> db after !! k = Some (Some c)).

(** ** [pyphi/node.py]: the other members *)

(** [Node.tpm_off] and [Node.tpm_on]: [self.tpm[..., 0]], [self.tpm[..., 1]] *)
Definition Node_tpm_off (n : Node) : result Np.ndarray :=
  Np.select_last 0 (node_tpm n).

Definition Node_tpm_on (n : Node) : result Np.ndarray :=
  Np.select_last 1 (node_tpm n).

(** [expand_node_tpm(tpm)] *)
Definition expand_node_tpm (tpm : Np.ndarray) : result Np.ndarray :=
  let uc := Np.ones (map (fun _ => 2%nat) (Np.shape tpm)) in
  Np.multiply uc tpm.

(** ** [pyphi/subsystem.py]: [indices2nodes] *)

Definition indices2nodes (s : Subsystem) (indices : list nat)
  : result (list Node) :=
  if bool_decide (list_difference indices (node_indices s) <> [])
  then Raise ValueError
  else mapM (index2node s) indices.

(** ** [pyphi/subsystem.py]: the state of the loop of [find_mip]

    After the partitions [ps], of distances [ds], the loop holds nothing
    yet, or the first partition of least distance. *)
Definition first_least
           (repertoire_distance : Direction -> Np.ndarray -> Np.ndarray -> Q)
           (s : Subsystem) (direction : Direction)
           (mechanism purview : list nat) (rep : Np.ndarray)
           (mip : RepertoireIrreducibilityAnalysis)
           (ps : list Partition) (ds : list Q) : Prop :=
  (ria_phi mip = Infinity /\ ds = []) \/
  exists i partition d partitioned,
    ps !! i = Some partition /\ ds !! i = Some d /\
    evaluate_partition repertoire_distance s direction mechanism purview
                       partition (Some rep) = Ok (d, partitioned) /\
    ria_phi mip = Finite d /\ ria_partition mip = Some partition /\
    ria_partitioned_repertoire mip = Some partitioned /\
    (forall j d', ds !! j = Some d' -> d <= d') /\
    (forall j d', (j < i)%nat -> ds !! j = Some d' -> d < d').

(** ** [pyphi/models/subsystem.py]: [CauseEffectStructure]

    The concepts ([models.mechanism.Concept]) are kept abstract: the class
    reads their mechanism only. *)

Section CauseEffectStructure.

Context {C : Type}.
Variable concept_mechanism : C -> list nat.

(** [_concept_sort_key(concept)] *)
Definition _concept_sort_key (concept : C) : nat * list nat :=
  (length (concept_mechanism concept), concept_mechanism concept).

(** [<] on these keys: the lengths decide, then the mechanisms. *)
Definition sort_key_ltb (k1 k2 : nat * list nat) : bool :=
  (k1.1 <? k2.1)%nat || ((k1.1 =? k2.1)%nat && tuple_ltb k1.2 k2.2).

(** [sorted(concepts, key=_concept_sort_key)]: the sort is stable, so the
    result is that of inserting every concept before the sorted rest, after
    the concepts of smaller key only. *)
Fixpoint insert_sorted (x : C) (l : list C) : list C :=
  match l with
  | [] => [x]
  | y :: rest =>
      if sort_key_ltb (_concept_sort_key y) (_concept_sort_key x)
      then y :: insert_sorted x rest
      else x :: l
  end.

Definition sorted (concepts : list C) : list C :=
  foldr insert_sorted [] concepts.

Record CauseEffectStructure : Type := mkCES {
  ces_concepts : list C;
  ces_subsystem : option Subsystem
}.

(** [CauseEffectStructure.__init__] *)
Definition CES_init (concepts : list C) (subsystem : option Subsystem)
  : CauseEffectStructure :=
  mkCES (sorted concepts) subsystem.

(** [_null_ces(subsystem)] *)
Definition _null_ces (subsystem : Subsystem) : CauseEffectStructure :=
  CES_init [] (Some subsystem).

End CauseEffectStructure.

(** ** Node TPMs as probabilities

    At every state of the network, the probabilities that a node is OFF
    and that it is ON add up to 1. *)
Definition stochastic (N : nat) (a : Np.ndarray) : Prop :=
  forall J, length J = N ->
            Np.item a (J ++ [0%nat]) + Np.item a (J ++ [1%nat]) == 1.

(** * Proofs *)

(** ** Sums and normalisation *)

Lemma qsum_app xs ys : qsum (xs ++ ys) == qsum xs + qsum ys.
Proof. induction xs as [|x xs IH]; simpl; [ring | rewrite IH; ring]. Qed.

Lemma qsum_map_div {A} (f : A -> Q) (q : Q) (l : list A) :
  qsum (map (fun i => f i / q) l) == qsum (map f l) / q.
Proof.
  induction l as [|x l IH]; simpl.
  - unfold Qdiv. ring.
  - rewrite IH. unfold Qdiv. ring.
Qed.

Lemma qsum_const {A} (c : Q) (l : list A) :
  qsum (map (fun _ => c) l) == inject_Z (Z.of_nat (length l)) * c.
Proof.
  induction l as [|x l IH].
  - simpl. ring.
  - cbn [map qsum fold_right length]. fold (qsum (map (fun _ => c) l)). rewrite IH.
    rewrite Nat2Z.inj_succ. unfold Z.succ. rewrite inject_Z_plus. ring.
Qed.

Lemma length_indices sh : length (Np.indices sh) = Np.size_of sh.
Proof.
  induction sh as [|n sh IH]; [reflexivity|].
  cbn [Np.indices Np.size_of fold_right]. fold (Np.size_of sh).
  rewrite <- IH. generalize 0%nat as start.
  induction n as [|n IHn]; intros start; [reflexivity|].
  cbn [seq flat_map]. rewrite length_app, length_map, IHn. lia.
Qed.

Lemma sum_divide a q : Np.sum (Np.divide a q) == Np.sum a / q.
Proof. unfold Np.sum, Np.ravel. cbn [Np.divide Np.shape Np.item]. apply qsum_map_div. Qed.

Lemma sum_normalize a :
  ~ Np.sum a == 0 -> Np.sum (Distribution.normalize a) == 1.
Proof.
  intros Hne. unfold Distribution.normalize.
  destruct (Qeq_bool (Np.sum a) 0) eqn:E.
  - apply Qeq_bool_iff in E. contradiction.
  - rewrite sum_divide. field. exact Hne.
Qed.

Lemma sum_normalize_zero a :
  Np.sum a == 0 -> Distribution.normalize a = a.
Proof.
  intros H. unfold Distribution.normalize.
  apply Qeq_bool_iff in H. rewrite H. reflexivity.
Qed.

Lemma size_of_repertoire_shape_pos purview N :
  (0 < Np.size_of (Distribution.repertoire_shape purview N))%nat.
Proof.
  unfold Distribution.repertoire_shape. generalize (seq 0 N) as l.
  induction l as [|i l IH]; [cbn; lia|].
  unfold Np.size_of in *. cbn [map fold_right].
  destruct (bool_decide _); lia.
Qed.

Lemma sum_max_entropy purview N :
  Np.sum (Distribution.max_entropy_distribution purview N) == 1.
Proof.
  unfold Distribution.max_entropy_distribution.
  set (sh := Distribution.repertoire_shape purview N).
  rewrite sum_divide. unfold Np.sum, Np.ravel. cbn [Np.ones Np.shape Np.item].
  rewrite (qsum_const 1), length_indices.
  pose proof (size_of_repertoire_shape_pos purview N) as Hpos. fold sh in Hpos.
  field. intros H. unfold Qeq in H. simpl in H. lia.
Qed.

(** ** Broadcasting of repertoire shapes *)

Lemma bdim_binary x y : binary x -> binary y ->
  exists d, Np.bdim x y = Some d /\ binary d /\ d = Nat.max x y.
Proof.
  intros [->| ->] [->| ->]; vm_compute; eexists; split; try reflexivity; split; auto; red; auto.
Qed.

Lemma bzip_binary a b :
  length a = length b -> Forall binary a -> Forall binary b ->
  exists c, Np.bzip a b = Some c /\ length c = length a /\ Forall binary c
            /\ c = zip_with Nat.max a b.
Proof.
  revert b. induction a as [|x a IH]; intros [|y b] Hlen Ha Hb; try discriminate.
  - exists []. repeat split; constructor.
  - inversion Ha; subst. inversion Hb; subst. injection Hlen as Hlen.
    destruct (IH b Hlen) as (c & Hc & Hl & Hbin & Heq); auto.
    destruct (bdim_binary x y) as (d & Hd & Hdb & Hmax); auto.
    exists (d :: c). cbn [Np.bzip]. rewrite Hd, Hc. repeat split; cbn; auto.
    congruence.
Qed.

Lemma pad_same n sh : length sh = n -> Np.pad n sh = sh.
Proof. intros <-. unfold Np.pad. rewrite Nat.sub_diag. reflexivity. Qed.

Lemma broadcast_same_len a b :
  length a = length b -> Np.broadcast_shapes a b = Np.bzip a b.
Proof.
  intros H. unfold Np.broadcast_shapes. rewrite <- H, Nat.max_id.
  rewrite !pad_same; auto.
Qed.

Lemma bzip_ones a : Np.bzip a (replicate (length a) 1%nat) = Some a.
Proof.
  induction a as [|x a IH]; [reflexivity|].
  cbn [length replicate Np.bzip]. rewrite IH.
  unfold Np.bdim. repeat case_decide; subst; try reflexivity. congruence.
Qed.

Lemma broadcast_array1 a :
  Np.broadcast_shapes a [1%nat] = Some (if decide (a = []) then [1%nat] else a).
Proof.
  destruct a as [|x a]; [reflexivity|].
  unfold Np.broadcast_shapes. cbn [length].
  replace (Nat.max (S (length a)) 1) with (S (length a)) by lia.
  rewrite pad_same by reflexivity.
  unfold Np.pad. cbn [length].
  replace (replicate (S (length a) - 1) 1%nat ++ [1%nat]) with (replicate (length (x :: a)) 1%nat).
  - rewrite bzip_ones. reflexivity.
  - cbn [length]. replace (S (length a) - 1)%nat with (length a) by lia.
    apply replicate_S_end.
Qed.

Lemma repertoire_shape_length P N : length (Distribution.repertoire_shape P N) = N.
Proof. unfold Distribution.repertoire_shape. rewrite length_map, length_seq. reflexivity. Qed.

Lemma repertoire_shape_binary P N : Forall binary (Distribution.repertoire_shape P N).
Proof.
  unfold Distribution.repertoire_shape. apply Forall_map, Forall_forall.
  intros i _. cbn. case_bool_decide; red; auto.
Qed.

Lemma repertoire_shape_lookup P N i :
  Distribution.repertoire_shape P N !! i =
  if decide (i < N)%nat then Some (if bool_decide (i ∈ P) then 2%nat else 1%nat) else None.
Proof.
  unfold Distribution.repertoire_shape. rewrite list_lookup_fmap.
  case_decide.
  - rewrite lookup_seq_lt by lia. reflexivity.
  - rewrite lookup_seq_ge by lia. reflexivity.
Qed.

(** ** Outcomes of the array operations *)

Lemma rspec_bind {A B} (P : A -> Prop) (Q : B -> Prop) E (m : result A) (f : A -> result B) :
  rspec P E m -> (forall a, P a -> rspec Q E (f a)) -> rspec Q E (m ≫= f).
Proof. destruct m; cbn; auto. Qed.

Lemma rspec_weaken {A} (P P' : A -> Prop) (E E' : exn -> Prop) r :
  rspec P E r -> (forall a, P a -> P' a) -> (forall e, E e -> E' e) -> rspec P' E' r.
Proof. destruct r; cbn; auto. Qed.

Lemma rspec_mapM {A B} (f : A -> result B) (P : B -> Prop) E (l : list A) :
  (forall x, x ∈ l -> rspec P E (f x)) ->
  rspec (fun ys => Forall P ys /\ length ys = length l) E (mapM f l).
Proof.
  induction l as [|x l IH]; intros H.
  - cbn. split; [constructor | reflexivity].
  - cbn [mapM]. eapply rspec_bind; [apply H; left|].
    intros y Hy. eapply rspec_bind; [apply IH; intros; apply H; right; assumption|].
    intros ys [Hys Hlen]. cbn. split; [constructor; assumption | congruence].
Qed.

Lemma multiply_binary N a b :
  binary_shape N (Np.shape a) -> binary_shape N (Np.shape b) ->
  exists c, Np.multiply a b = Ok c /\ binary_shape N (Np.shape c)
            /\ Np.shape c = zip_with Nat.max (Np.shape a) (Np.shape b).
Proof.
  intros [La Ba] [Lb Bb]. unfold Np.multiply.
  rewrite broadcast_same_len by congruence.
  destruct (bzip_binary (Np.shape a) (Np.shape b)) as (c & Hc & Hl & Hb & Heq); auto; [congruence|].
  rewrite Hc. eexists; split; [reflexivity|]. cbn. repeat split; auto. congruence.
Qed.

Lemma multiply_array1 a b :
  Np.shape b = [1%nat] ->
  exists c, Np.multiply a b = Ok c /\
            Np.shape c = if decide (Np.shape a = []) then [1%nat] else Np.shape a.
Proof.
  intros Hb. unfold Np.multiply. rewrite Hb, broadcast_array1.
  eexists; split; reflexivity.
Qed.

Lemma foldl_raise {A B} (f : B -> A -> result B) e (l : list A) :
  foldl (fun acc y => a ← acc; f a y) (Raise e) l = Raise e.
Proof. induction l; cbn; auto. Qed.

Lemma reduce_multiply_binary N (l : list Np.ndarray) :
  l <> [] -> Forall (fun a => binary_shape N (Np.shape a)) l ->
  exists c, reduce Np.multiply l = Ok c /\ binary_shape N (Np.shape c).
Proof.
  destruct l as [|x l]; [congruence|]. intros _ H.
  inversion H as [|? ? Hx Hl]; subst. cbn [reduce]. clear H.
  revert x Hx. induction l as [|y l IH]; intros x Hx.
  - exists x. split; [reflexivity | assumption].
  - inversion Hl as [|? ? Hy Hl']; subst. cbn [foldl].
    destruct (multiply_binary N x y Hx Hy) as (c & Hc & Hcb & _).
    change (Ok x ≫= (fun a => Np.multiply a y)) with (Np.multiply x y).
    rewrite Hc. apply IH; assumption.
Qed.

Lemma set_ones_length sh idxs : length (set_ones sh idxs) = length sh.
Proof.
  revert sh. induction idxs as [|i idxs IH]; intros sh; [reflexivity|].
  cbn. unfold set_ones in IH. rewrite IH, length_insert. reflexivity.
Qed.

Lemma set_ones_lookup sh idxs j :
  set_ones sh idxs !! j =
  if bool_decide (j ∈ idxs) then (fun _ => 1%nat) <$> (sh !! j) else sh !! j.
Proof.
  revert sh. induction idxs as [|i idxs IH]; intros sh.
  - cbn. reflexivity.
  - cbn [set_ones foldl]. fold (set_ones (<[i:=1%nat]> sh) idxs). rewrite IH.
    destruct (decide (j = i)) as [->|Hne].
    + rewrite (bool_decide_eq_true_2 (i ∈ i :: idxs)) by left.
      destruct (decide (i < length sh)%nat).
      * rewrite list_lookup_insert_eq by assumption.
        destruct (lookup_lt_is_Some_2 sh i) as [x Hx]; [assumption|]. rewrite Hx.
        case_bool_decide; reflexivity.
      * rewrite list_insert_ge by lia. rewrite (lookup_ge_None_2 sh i) by lia.
        case_bool_decide; reflexivity.
    + rewrite list_lookup_insert_ne by congruence.
      case_bool_decide as H1; case_bool_decide as H2; try reflexivity.
      * exfalso. apply H2. right. assumption.
      * exfalso. apply elem_of_cons in H2 as [?|?]; [congruence | contradiction].
Qed.

Lemma marginalize_out_ok idxs a :
  Forall (fun i => (i < Np.ndim a)%nat) idxs ->
  exists a', Distribution.marginalize_out idxs a = Ok a' /\
             Np.shape a' = set_ones (Np.shape a) idxs.
Proof.
  unfold Distribution.marginalize_out. revert a.
  induction idxs as [|i idxs IH]; intros a H.
  - exists a. split; reflexivity.
  - inversion H as [|? ? Hi Hrest]; subst. cbn [foldl].
    change (Ok a ≫= (fun t => Distribution.marginalize_out1 i t))
      with (Distribution.marginalize_out1 i a).
    unfold Distribution.marginalize_out1, Np.sum_axis.
    destruct (lookup_lt_is_Some_2 (Np.shape a) i) as [n Hn]; [exact Hi|].
    rewrite Hn. cbn [mbind result_bind].
    match goal with |- context [foldl _ (Ok ?x) idxs] => set (a1 := x) end.
    destruct (IH a1) as (a' & Ha' & Hsh).
    { unfold a1, Np.ndim. cbn. rewrite length_insert. exact Hrest. }
    exists a'. split; [exact Ha'|]. rewrite Hsh. reflexivity.
Qed.

(** ** Outcomes of [mapM] *)

Lemma mapM_Ok_Forall2 {A B} (f : A -> result B) (l : list A) : forall r,
  mapM f l = Ok r -> Forall2 (fun x y => f x = Ok y) l r.
Proof.
  induction l as [|a l IH]; intros r; cbn [mapM].
  - intros [= <-]. constructor.
  - destruct (f a) as [b|e] eqn:Ea; cbn [mbind result_bind]; [|discriminate].
    destruct (mapM f l) as [bs|e] eqn:El; cbn [mbind result_bind mret result_ret];
      [|discriminate].
    intros [= <-]. constructor; [exact Ea | apply IH; reflexivity].
Qed.

Lemma mapM_Ok_intro {A B} (f : A -> result B) (l : list A) :
  (forall x, x ∈ l -> exists y, f x = Ok y) ->
  exists r, mapM f l = Ok r /\ Forall2 (fun x y => f x = Ok y) l r.
Proof.
  induction l as [|a l IH]; intros Hf; cbn [mapM].
  - exists []. split; [reflexivity | constructor].
  - destruct (Hf a) as [b Hb]; [left|]. rewrite Hb. cbn.
    destruct IH as (r & Hr & Hall); [intros x Hx; apply Hf; right; exact Hx|].
    rewrite Hr. cbn. exists (b :: r). split; [reflexivity|].
    constructor; assumption.
Qed.

Lemma mapM_is_Ok {A B} (f : A -> result B) (l : list A) :
  (forall x, x ∈ l -> exists y, f x = Ok y) -> exists r, mapM f l = Ok r.
Proof.
  intros Hf. destruct (mapM_Ok_intro f l Hf) as (r & Hr & _). eauto.
Qed.

Lemma mapM_Raise {A B} (f : A -> result B) (l : list A) e :
  mapM f l = Raise e -> exists x, x ∈ l /\ f x = Raise e.
Proof.
  induction l as [|a l IH]; cbn [mapM]; [discriminate|].
  destruct (f a) as [b|e'] eqn:Ea; cbn [mbind result_bind].
  - destruct (mapM f l) as [bs|e'] eqn:El; cbn [mbind result_bind mret result_ret];
      [discriminate|].
    intros [= ->]. destruct (IH eq_refl) as (x & Hx & Hfx).
    exists x. split; [right; exact Hx | exact Hfx].
  - intros [= ->]. exists a. split; [left | exact Ea].
Qed.

(** ** The nodes of a well-formed subsystem *)

Lemma size_of_app a b : Np.size_of (a ++ b) = (Np.size_of a * Np.size_of b)%nat.
Proof.
  unfold Np.size_of. induction a as [|x a IH]; cbn [app fold_right]; [lia|].
  rewrite IH. lia.
Qed.

Lemma size_of_replicate_1 n : Np.size_of (replicate n 1%nat) = 1%nat.
Proof. unfold Np.size_of. induction n as [|n IH]; cbn; [reflexivity | rewrite IH; reflexivity]. Qed.

Lemma repertoire_shape_single p N :
  (p < N)%nat ->
  Distribution.repertoire_shape [p] N =
  replicate p 1%nat ++ [2%nat] ++ replicate (N - S p) 1%nat.
Proof.
  intros Hp. apply list_eq. intros i. rewrite repertoire_shape_lookup.
  destruct (decide (i < p)%nat).
  - rewrite lookup_app_l by (rewrite length_replicate; lia).
    rewrite lookup_replicate_2 by lia. rewrite decide_True by lia.
    rewrite bool_decide_eq_false_2; [reflexivity|].
    intros H%list_elem_of_singleton. lia.
  - rewrite lookup_app_r by (rewrite length_replicate; lia).
    rewrite length_replicate. destruct (decide (i = p)) as [->|Hne].
    + rewrite Nat.sub_diag. cbn. rewrite decide_True by lia.
      rewrite bool_decide_eq_true_2; [reflexivity | apply list_elem_of_singleton; reflexivity].
    + destruct (i - p)%nat as [|k] eqn:Hk; [lia|].
      change (([2%nat] ++ replicate (N - S p) 1%nat) !! S k)
        with (replicate (N - S p) 1%nat !! k).
      case_decide.
      * rewrite lookup_replicate_2 by lia.
        rewrite bool_decide_eq_false_2; [reflexivity|].
        intros H'%list_elem_of_singleton. lia.
      * symmetry. apply lookup_replicate_None. lia.
Qed.

Lemma size_of_repertoire_shape_single p N :
  (p < N)%nat -> Np.size_of (Distribution.repertoire_shape [p] N) = 2%nat.
Proof.
  intros Hp. rewrite repertoire_shape_single by assumption.
  rewrite !size_of_app, !size_of_replicate_1. reflexivity.
Qed.

Lemma foldl_insert_lookup (l : list Node) (m0 : gmap nat Node) i n :
  foldl (fun m n => <[node_index n := n]> m) m0 l !! i = Some n ->
  n ∈ l \/ m0 !! i = Some n.
Proof.
  revert m0. induction l as [|x l IH]; intros m0 H; cbn in H; [right; assumption|].
  apply IH in H as [H|H]; [left; right; assumption|].
  destruct (decide (node_index x = i)) as [<-|Hne].
  - rewrite lookup_insert_eq in H. injection H as <-. left. left.
  - rewrite lookup_insert_ne in H by assumption. right. assumption.
Qed.

Lemma index2node_elem s i n : index2node s i = Ok n -> n ∈ nodes s.
Proof.
  unfold index2node, _index2node. intros H.
  destruct (foldl _ _ _ !! i) as [n'|] eqn:E; [|discriminate].
  injection H as <-. apply foldl_insert_lookup in E as [E|E]; [assumption|].
  rewrite lookup_empty in E. discriminate.
Qed.

Lemma index2node_spec s i :
  rspec (fun n => n ∈ nodes s) (fun e => e = KeyError) (index2node s i).
Proof.
  destruct (index2node s i) as [n|e] eqn:E; cbn.
  - eapply index2node_elem; eassumption.
  - unfold index2node in E. destruct (_ !! i); congruence.
Qed.

Lemma wf_node_true N n : wf_node N n = true -> wf_node_spec N n.
Proof.
  unfold wf_node. rewrite !andb_true_iff.
  intros [[[[[H1 H2] H3] H4] H5] H6].
  apply bool_decide_eq_true in H1, H3, H5, H6.
  split; auto.
  - intros i Hi. rewrite forallb_forall in H2.
    specialize (H2 i). rewrite in_seq in H2. specialize (H2 ltac:(lia)).
    destruct (Np.shape (node_tpm n) !! i) as [[|[|[|d]]]|]; try discriminate; auto.
    apply bool_decide_eq_true in H2. auto.
  - apply Forall_forall. intros i Hi. rewrite forallb_forall in H4.
    apply list_elem_of_In in Hi. apply H4 in Hi. apply bool_decide_eq_true in Hi. exact Hi.
Qed.

Lemma wf_subsystem_node s n :
  wf_subsystem s = true -> n ∈ nodes s -> wf_node_spec (tpm_size s) n.
Proof.
  unfold wf_subsystem. rewrite forallb_forall. intros H Hn.
  apply wf_node_true, H, list_elem_of_In, Hn.
Qed.

Lemma list_intersection_nil_r (l : list nat) : list_intersection l [] = [].
Proof.
  induction l as [|x l IH]; [reflexivity|]. cbn. rewrite IH.
  destruct (decide_rel _ _ _) as [H|H]; [inversion H | reflexivity].
Qed.

Lemma list_difference_nil_r (l : list nat) : list_difference l [] = l.
Proof.
  induction l as [|x l IH]; [reflexivity|]. cbn. rewrite IH.
  destruct (decide_rel _ _ _) as [H|H]; [inversion H | reflexivity].
Qed.

Lemma foldl_insert_index (l : list Node) (m0 : gmap nat Node) i n :
  (forall k v, m0 !! k = Some v -> node_index v = k) ->
  foldl (fun m n => <[node_index n := n]> m) m0 l !! i = Some n ->
  node_index n = i.
Proof.
  revert m0. induction l as [|x l IH]; intros m0 Hm0 H; cbn in H; [eauto|].
  eapply IH; [|exact H]. intros k v Hkv.
  destruct (decide (node_index x = k)) as [<-|Hne].
  - rewrite lookup_insert_eq in Hkv. congruence.
  - rewrite lookup_insert_ne in Hkv by assumption. eauto.
Qed.

Lemma index2node_index s i n : index2node s i = Ok n -> node_index n = i.
Proof.
  unfold index2node, _index2node. intros H.
  destruct (foldl _ _ _ !! i) as [n'|] eqn:E; [|discriminate].
  injection H as <-. eapply foldl_insert_index; [|exact E].
  intros k v Hkv. rewrite lookup_empty in Hkv. discriminate.
Qed.

Lemma marginalized_node_shape N n :
  wf_node_spec N n ->
  set_ones (Np.shape (node_tpm n)) (node_inputs n) = replicate N 1%nat ++ [2%nat].
Proof.
  intros W. apply list_eq. intros j. rewrite set_ones_lookup.
  destruct (decide (j < N)%nat) as [Hj|Hj].
  - rewrite lookup_app_l by (rewrite length_replicate; lia).
    rewrite lookup_replicate_2 by lia.
    destruct (wf_axes _ _ W j Hj) as [H1|[H2 Hin]].
    + rewrite H1. case_bool_decide; reflexivity.
    + rewrite H2. rewrite bool_decide_eq_true_2 by assumption. reflexivity.
  - rewrite bool_decide_eq_false_2.
    2:{ intros Hin. pose proof (wf_inputs _ _ W) as Hall.
        rewrite Forall_forall in Hall. apply Hall in Hin. lia. }
    rewrite lookup_app_r by (rewrite length_replicate; lia).
    rewrite length_replicate. destruct (decide (j = N)) as [->|Hne].
    + rewrite Nat.sub_diag. exact (wf_last _ _ W).
    + rewrite (lookup_ge_None_2 (Np.shape (node_tpm n)) j) by (rewrite (wf_len _ _ W); lia).
      destruct (j - N)%nat as [|k] eqn:Hk; [lia|]. reflexivity.
Qed.

(** The single-node effect repertoire of the empty mechanism over a
    well-formed node. *)
Lemma single_node_effect_unconstrained s p :
  wf_subsystem s = true ->
  rspec (fun r => binary_shape (tpm_size s) (Np.shape r))
        (fun e => e = KeyError)
        (_single_node_effect_repertoire s [] p).
Proof.
  intros Hwf. unfold _single_node_effect_repertoire.
  destruct (index2node s p) as [n|e] eqn:E; cbn [mbind result_bind rspec].
  2:{ pose proof (index2node_spec s p) as H. rewrite E in H. exact H. }
  pose proof (wf_subsystem_node s n Hwf (index2node_elem _ _ _ E)) as W.
  rewrite list_intersection_nil_r, list_difference_nil_r.
  cbn [Distribution.condition_tpm foldl mbind result_bind].
  destruct (marginalize_out_ok (node_inputs n) (node_tpm n)) as (a' & Ha' & Hsh).
  { eapply Forall_impl; [exact (wf_inputs _ _ W)|]. cbn. intros i Hi.
    unfold Np.ndim. rewrite (wf_len _ _ W). lia. }
  rewrite Ha'. cbn [mbind result_bind]. unfold Np.reshape.
  rewrite Hsh, (marginalized_node_shape _ _ W).
  rewrite size_of_repertoire_shape_single by exact (wf_index _ _ W).
  rewrite size_of_app, size_of_replicate_1.
  cbn [Np.size_of fold_right Nat.mul]. rewrite decide_True by reflexivity.
  cbn. split; [apply repertoire_shape_length | apply repertoire_shape_binary].
Qed.

Lemma foldl_insert_is_Some (l : list Node) (m0 : gmap nat Node) i :
  i ∈ map node_index l \/ is_Some (m0 !! i) ->
  is_Some (foldl (fun m n => <[node_index n := n]> m) m0 l !! i).
Proof.
  revert m0. induction l as [|x l IH]; intros m0 Hi; cbn.
  - destruct Hi as [Hi|Hi]; [inversion Hi | exact Hi].
  - apply IH. destruct Hi as [Hi|Hi].
    + cbn in Hi. apply elem_of_cons in Hi as [->|Hi]; [|left; exact Hi].
      right. rewrite lookup_insert_eq. eauto.
    + right. destruct (decide (node_index x = i)) as [<-|Hne].
      * rewrite lookup_insert_eq. eauto.
      * rewrite lookup_insert_ne by exact Hne. exact Hi.
Qed.

(** A node is found by its index exactly when the subsystem has a node of
    that index. *)
Lemma index2node_KeyError s i :
  index2node s i = Raise KeyError <-> i ∉ map node_index (nodes s).
Proof.
  split.
  - intros Hraise Hin.
    destruct (foldl_insert_is_Some (nodes s) ∅ i) as [n Hn]; [left; exact Hin|].
    unfold index2node, _index2node in Hraise. rewrite Hn in Hraise. discriminate.
  - intros Hnin. destruct (index2node s i) as [n|e] eqn:E.
    + exfalso. apply Hnin. rewrite <- (index2node_index _ _ _ E).
      apply list_elem_of_fmap. exists n. split; [reflexivity|].
      eapply index2node_elem. exact E.
    + pose proof (index2node_spec s i) as H. rewrite E in H. cbn in H.
      rewrite H. reflexivity.
Qed.

(** ** The cause repertoire is computed *)

Lemma dominated_binary P N sh : dominated P N sh -> binary_shape N sh.
Proof.
  intros [Hl H]. split; [assumption|]. apply Forall_lookup. intros i d Hd.
  assert (i < N)%nat as Hi by (rewrite <- Hl; eapply lookup_lt_Some; eassumption).
  destruct (H i Hi) as [H1|[H2 _]]; red; [left | right]; congruence.
Qed.

Lemma dominated_repertoire_shape P N : dominated P N (Distribution.repertoire_shape P N).
Proof.
  split; [apply repertoire_shape_length|]. intros i Hi.
  rewrite repertoire_shape_lookup, decide_True by assumption.
  case_bool_decide; auto.
Qed.

Lemma dominated_max P N a b :
  dominated P N a -> dominated P N b -> dominated P N (zip_with Nat.max a b).
Proof.
  intros [La Ha] [Lb Hb]. split.
  - rewrite length_zip_with. lia.
  - intros i Hi. rewrite lookup_zip_with.
    destruct (Ha i Hi) as [H1|[H1 ?]], (Hb i Hi) as [H2|[H2 ?]];
      rewrite H1, H2; cbn; auto.
Qed.

Lemma max_repertoire_shape P N b :
  dominated P N b -> zip_with Nat.max (Distribution.repertoire_shape P N) b
                     = Distribution.repertoire_shape P N.
Proof.
  intros [Lb Hb]. apply list_eq. intros i. rewrite lookup_zip_with.
  rewrite repertoire_shape_lookup. case_decide as Hi.
  - destruct (Hb i Hi) as [H1|[H1 Hin]]; rewrite H1; cbn.
    + case_bool_decide; reflexivity.
    + rewrite bool_decide_eq_true_2 by assumption. reflexivity.
  - reflexivity.
Qed.

Lemma reduce_multiply_dominated P N (l : list Np.ndarray) :
  l <> [] -> Forall (fun a => dominated P N (Np.shape a)) l ->
  exists c, reduce Np.multiply l = Ok c /\ dominated P N (Np.shape c).
Proof.
  destruct l as [|x l]; [congruence|]. intros _ H.
  inversion H as [|? ? Hx Hl]; subst. cbn [reduce]. clear H.
  revert x Hx. induction l as [|y l IH]; intros x Hx.
  - exists x. split; [reflexivity | assumption].
  - inversion Hl as [|? ? Hy Hl']; subst. cbn [foldl].
    destruct (multiply_binary N x y) as (c & Hc & _ & Hsh);
      [eapply dominated_binary; eassumption..|].
    change (Ok x ≫= (fun a => Np.multiply a y)) with (Np.multiply x y).
    rewrite Hc. apply IH; [assumption|]. rewrite Hsh. apply dominated_max; assumption.
Qed.

Lemma removelast_lookup {A} (l : list A) i :
  (S i < length l)%nat -> removelast l !! i = l !! i.
Proof.
  revert i. induction l as [|x l IH]; intros i Hi; [cbn in Hi; lia|].
  destruct l as [|y l]; [cbn in Hi; lia|].
  change (removelast (x :: y :: l)) with (x :: removelast (y :: l)).
  destruct i as [|i]; [reflexivity|]. cbn [lookup list_lookup].
  apply IH. cbn in *. lia.
Qed.

Lemma removelast_length {A} (l : list A) : length (removelast l) = pred (length l).
Proof.
  induction l as [|x l IH]; [reflexivity|]. destruct l as [|y l]; [reflexivity|].
  change (removelast (x :: y :: l)) with (x :: removelast (y :: l)).
  cbn [length]. rewrite IH. reflexivity.
Qed.

Lemma last_lookup_length {A} (l : list A) : last l = l !! pred (length l).
Proof.
  induction l as [|x l IH]; [reflexivity|]. destruct l as [|y l]; [reflexivity|].
  change (last (x :: y :: l)) with (last (y :: l)). rewrite IH. reflexivity.
Qed.

(** The single-node cause repertoire of a well-formed node. *)
Lemma single_node_cause_ok s m purview :
  wf_subsystem s = true -> is_ok (index2node s m) = true ->
  exists r, _single_node_cause_repertoire s m purview = Ok r /\
            dominated purview (tpm_size s) (Np.shape r).
Proof.
  intros Hwf Hm. unfold _single_node_cause_repertoire.
  destruct (index2node s m) as [n|e] eqn:E; [|discriminate].
  cbn [mbind result_bind].
  pose proof (wf_subsystem_node s n Hwf (index2node_elem _ _ _ E)) as W.
  set (N := tpm_size s) in *.
  unfold Np.select_last. rewrite last_lookup_length, (wf_len _ _ W). cbn [pred].
  rewrite (wf_last _ _ W). rewrite decide_True by exact (wf_state _ _ W).
  cbn [mbind result_bind].
  match goal with |- context [Distribution.marginalize_out ?i ?a] =>
    destruct (marginalize_out_ok i a) as (a' & Ha' & Hsh) end.
  { apply Forall_forall. intros i Hi. apply list_elem_of_difference in Hi as [Hi _].
    pose proof (wf_inputs _ _ W) as Hall. rewrite Forall_forall in Hall.
    unfold Np.ndim. cbn. rewrite removelast_length, (wf_len _ _ W). cbn. auto. }
  exists a'. split; [exact Ha'|]. rewrite Hsh. cbn [Np.shape]. split.
  - rewrite set_ones_length, removelast_length, (wf_len _ _ W). reflexivity.
  - intros i Hi. rewrite set_ones_lookup.
    rewrite removelast_lookup by (rewrite (wf_len _ _ W); lia).
    destruct (wf_axes _ _ W i Hi) as [H1|[H2 Hin]].
    + rewrite H1. case_bool_decide; auto.
    + rewrite H2. case_bool_decide as Hd; cbn; [auto|].
      right. split; [reflexivity|].
      destruct (decide (i ∈ purview)) as [?|Hnp]; [assumption|].
      exfalso. apply Hd. apply list_elem_of_difference. auto.
Qed.

Lemma mapM_ok {A B} (f : A -> result B) (P : B -> Prop) (l : list A) :
  (forall x, x ∈ l -> exists y, f x = Ok y /\ P y) ->
  exists ys, mapM f l = Ok ys /\ Forall P ys /\ length ys = length l.
Proof.
  intros H.
  pose proof (rspec_mapM f P (fun _ => False) l) as Hs.
  destruct (mapM f l) as [ys|e]; cbn in Hs.
  - exists ys. destruct Hs as [? ?]; auto.
    intros x Hx. destruct (H x Hx) as (y & -> & Hy). exact Hy.
  - exfalso. apply Hs. intros x Hx. destruct (H x Hx) as (y & -> & Hy). exact Hy.
Qed.

(** [cause_repertoire] returns on well-formed input, and what it returns. *)
Lemma cause_repertoire_ok s mechanism purview :
  wf_subsystem s = true ->
  Forall (fun m => is_ok (index2node s m) = true) mechanism ->
  exists r, cause_repertoire s mechanism purview = Ok r /\
    match purview, mechanism with
    | [], _ => r = Np.array1 1
    | _, [] => r = Distribution.max_entropy_distribution purview (tpm_size s)
    | _, _ => exists reps product joint,
        mapM (fun m => _single_node_cause_repertoire s m purview) mechanism
          = Ok reps /\
        reduce Np.multiply reps = Ok product /\
        imultiply (Np.ones (Distribution.repertoire_shape purview (tpm_size s)))
                  product = Ok joint /\
        Np.shape joint = Distribution.repertoire_shape purview (tpm_size s) /\
        r = Distribution.normalize joint
    end.
Proof.
  intros Hwf Hmech. unfold cause_repertoire, _cause_repertoire.
  destruct purview as [|p purview]; [eexists; split; reflexivity|].
  destruct mechanism as [|m mechanism]; [eexists; split; reflexivity|].
  set (P := p :: purview) in *. set (M := m :: mechanism) in *.
  destruct (mapM_ok (fun m => _single_node_cause_repertoire s m P)
              (fun r => dominated P (tpm_size s) (Np.shape r)) M) as (reps & Hreps & Hall & Hlen).
  { intros x Hx. apply single_node_cause_ok; [assumption|].
    rewrite Forall_forall in Hmech. auto. }
  rewrite Hreps. cbn [mbind result_bind].
  destruct (reduce_multiply_dominated P (tpm_size s) reps) as (c & Hc & Hdom); [|assumption|].
  { intros ->. discriminate Hlen. }
  rewrite Hc. cbn [mbind result_bind].
  assert (exists j, imultiply (Np.ones (Distribution.repertoire_shape P (tpm_size s))) c
                    = Ok j /\
                    Np.shape j = Distribution.repertoire_shape P (tpm_size s))
    as (j & Himul & Hshape).
  { unfold imultiply.
    destruct (multiply_binary (tpm_size s)
                (Np.ones (Distribution.repertoire_shape P (tpm_size s))) c)
      as (j & Hj & _ & Hsh).
    { cbn. split; [apply repertoire_shape_length | apply repertoire_shape_binary]. }
    { eapply dominated_binary; eassumption. }
    rewrite Hj. cbn [mbind result_bind].
    cbn [Np.ones Np.shape] in Hsh. rewrite max_repertoire_shape in Hsh by assumption.
    cbn [Np.ones Np.shape]. rewrite decide_True by assumption.
    exists j. split; [reflexivity | assumption]. }
  rewrite Himul. cbn [mbind result_bind].
  eexists. split; [reflexivity|]. exists reps, c, j. auto.
Qed.

(** ** Normalisation of the cause repertoire *)

(** C4 (amended): [cause_repertoire] returns the scalar 1 for the empty
    purview.  For a non-empty purview the returned array sums to 1 when the
    mechanism is empty.  For a non-empty mechanism the joint of the
    single-node cause repertoires is computed; when it does not sum to 0 the
    result is the joint divided by its sum and sums to 1, and when it sums
    to 0, as the all-zero joint of an unreachable state does, the result is
    the joint as it is and sums to 0. *)
Theorem cause_repertoire_normalized s mechanism purview :
  wf_subsystem s = true ->
  Forall (fun m => is_ok (index2node s m) = true) mechanism ->
  exists r, cause_repertoire s mechanism purview = Ok r /\
    (purview = [] -> r = Np.array1 1) /\
    (purview <> [] -> mechanism = [] -> Np.sum r == 1) /\
    (purview <> [] -> mechanism <> [] ->
     exists reps product joint,
       mapM (fun m => _single_node_cause_repertoire s m purview) mechanism
         = Ok reps /\
       reduce Np.multiply reps = Ok product /\
       imultiply (Np.ones (Distribution.repertoire_shape purview (tpm_size s)))
                 product = Ok joint /\
       Np.shape r = Np.shape joint /\
       (~ Np.sum joint == 0 ->
        Np.sum r == 1 /\
        forall idx, Np.item r idx == Np.item joint idx / Np.sum joint) /\
       (Np.sum joint == 0 -> r = joint /\ Np.sum r == 0)).
Proof.
  intros Hwf Hm.
  destruct (cause_repertoire_ok s mechanism purview Hwf Hm) as (r & Hr & Hspec).
  exists r. split; [exact Hr|].
  destruct purview as [|p purview].
  - subst r. repeat split; congruence.
  - destruct mechanism as [|m mechanism].
    + subst r. repeat split; try congruence; intros; apply sum_max_entropy.
    + destruct Hspec as (reps & product & joint & Hreps & Hprod & Hjoint & _ & ->).
      repeat split; try congruence.
      intros _ _. exists reps, product, joint.
      repeat (split; [assumption|]).
      split; [unfold Distribution.normalize;
              destruct (Qeq_bool (Np.sum joint) 0); reflexivity|].
      split.
      * intros Hnz. split; [apply sum_normalize; exact Hnz|].
        intros idx. unfold Distribution.normalize.
        destruct (Qeq_bool (Np.sum joint) 0) eqn:E;
          [apply Qeq_bool_iff in E; contradiction | reflexivity].
      * intros Hz. rewrite sum_normalize_zero by exact Hz. auto.
Qed.

Lemma cause_repertoire_normalized_witness :
  wf_subsystem and_copy_subsystem = true /\
  Forall (fun m => is_ok (index2node and_copy_subsystem m) = true) [0%nat] /\
  exists r, cause_repertoire and_copy_subsystem [0%nat] [0; 1]%nat = Ok r /\
    ([0; 1]%nat = [] -> r = Np.array1 1) /\
    ([0; 1]%nat <> [] -> [0%nat] = [] -> Np.sum r == 1) /\
    ([0; 1]%nat <> [] -> [0%nat] <> [] ->
     exists reps product joint,
       mapM (fun m => _single_node_cause_repertoire and_copy_subsystem m [0; 1]%nat)
            [0%nat] = Ok reps /\
       reduce Np.multiply reps = Ok product /\
       imultiply (Np.ones (Distribution.repertoire_shape
                             [0; 1]%nat (tpm_size and_copy_subsystem)))
                 product = Ok joint /\
       Np.shape r = Np.shape joint /\
       (~ Np.sum joint == 0 ->
        Np.sum r == 1 /\
        forall idx, Np.item r idx == Np.item joint idx / Np.sum joint) /\
       (Np.sum joint == 0 -> r = joint /\ Np.sum r == 0)).
Proof.
  assert (wf_subsystem and_copy_subsystem = true) as H1
    by (vm_compute; reflexivity).
  assert (Forall (fun m => is_ok (index2node and_copy_subsystem m) = true)
                 [0%nat]) as H2 by (repeat constructor).
  exact (conj H1 (conj H2
    (cause_repertoire_normalized and_copy_subsystem [0%nat] [0; 1]%nat H1 H2))).
Defined.

Lemma cause_repertoire_unreachable_sums_to_zero :
  ~ (forall s mechanism purview r,
        wf_subsystem s = true -> purview <> [] ->
        cause_repertoire s mechanism purview = Ok r ->
        Qabs (Np.sum r - 1) <= 1 # 2).
Proof.
  intros H.
  destruct (cause_repertoire always_off_subsystem [0%nat] [0%nat]) as [r|e] eqn:E;
    [|vm_compute in E; discriminate].
  specialize (H always_off_subsystem [0%nat] [0%nat] r eq_refl ltac:(discriminate) E).
  vm_compute in E. injection E as <-. vm_compute in H. apply H. reflexivity.
Qed.

(** ** Repertoires of the empty mechanism *)

Lemma size_of_repertoire_shape P N :
  Np.size_of (Distribution.repertoire_shape P N) =
  (2 ^ length (filter (fun i => i ∈ P) (seq 0 N)))%nat.
Proof.
  unfold Distribution.repertoire_shape, Np.size_of. generalize (seq 0 N) as l.
  induction l as [|i l IH]; [reflexivity|].
  cbn [map fold_right]. rewrite IH. rewrite filter_cons.
  case_bool_decide as Hd; [rewrite decide_True by assumption | rewrite decide_False by assumption].
  - cbn [length]. rewrite Nat.pow_succ_r'. reflexivity.
  - lia.
Qed.

Lemma count_purview (P : list nat) N :
  NoDup P -> Forall (fun i => (i < N)%nat) P ->
  length (filter (fun i => i ∈ P) (seq 0 N)) = length P.
Proof.
  intros Hnd Hall. apply Permutation_length. apply NoDup_Permutation.
  - apply NoDup_filter, NoDup_seq.
  - assumption.
  - intros x. rewrite list_elem_of_filter, elem_of_seq.
    rewrite Forall_forall in Hall. split; [tauto|].
    intros Hx. specialize (Hall x Hx). split; [assumption | lia].
Qed.

Lemma mapM_ext {A B} (f g : A -> result B) (l : list A) :
  (forall x, f x = g x) -> mapM f l = mapM g l.
Proof.
  intros H. induction l as [|x l IH]; [reflexivity|].
  cbn [mapM]. rewrite H, IH. reflexivity.
Qed.

(** Conditioned on nothing, the single-node effect repertoire is the node
    TPM marginalised over all the inputs of the node. *)
Lemma single_node_effect_repertoire_nil s p :
  _single_node_effect_repertoire s [] p =
  (purview_node ← index2node s p;
   tpm ← Distribution.marginalize_out (node_inputs purview_node)
                                      (node_tpm purview_node);
   Np.reshape
     (Distribution.repertoire_shape [node_index purview_node] (tpm_size s)) tpm).
Proof.
  unfold _single_node_effect_repertoire.
  destruct (index2node s p) as [n|e]; [|reflexivity]. cbn [mbind result_bind].
  rewrite list_intersection_nil_r, list_difference_nil_r. reflexivity.
Qed.

(** C5 (amended): for a non-empty purview the cause repertoire of the empty
    mechanism is the uniform distribution over the purview, every entry
    being 1/2^|purview|, on the shape with length 2 on the purview axes and
    1 elsewhere; the effect repertoire of the empty mechanism is the product
    over the purview nodes of the node TPMs, each marginalised over all the
    inputs of its node, which need not be uniform. *)
Theorem unconstrained_repertoires s purview :
  purview <> [] -> NoDup purview ->
  Forall (fun i => (i < tpm_size s)%nat) purview ->
  (exists r, cause_repertoire s [] purview = Ok r /\
             Np.shape r = Distribution.repertoire_shape purview (tpm_size s) /\
             forall idx, Np.item r idx
                         == 1 / inject_Z (Z.of_nat (2 ^ length purview))) /\
  effect_repertoire s [] purview =
    (reps ← mapM (fun p =>
                    purview_node ← index2node s p;
                    tpm ← Distribution.marginalize_out
                            (node_inputs purview_node) (node_tpm purview_node);
                    Np.reshape
                      (Distribution.repertoire_shape [node_index purview_node]
                                                     (tpm_size s)) tpm)
                 purview;
     product ← reduce Np.multiply reps;
     Np.multiply
       (Np.ones (Distribution.repertoire_shape purview (tpm_size s))) product).
Proof.
  intros Hne Hnd Hall. split.
  - destruct purview as [|p purview]; [congruence|].
    eexists. split; [reflexivity|]. split; [reflexivity|].
    intros idx. cbn [Distribution.max_entropy_distribution Np.divide Np.item Np.ones].
    rewrite size_of_repertoire_shape, count_purview by assumption. reflexivity.
  - destruct purview as [|p purview]; [congruence|].
    unfold effect_repertoire, _effect_repertoire_virtualized.
    change (remove_dups []) with (@nil nat).
    rewrite (mapM_ext _ _ _ (single_node_effect_repertoire_nil s)). reflexivity.
Qed.

Lemma unconstrained_repertoires_witness :
  [0%nat] <> [] /\ NoDup [0%nat] /\
  Forall (fun i => (i < tpm_size and_copy_subsystem)%nat) [0%nat] /\
  ((exists r, cause_repertoire and_copy_subsystem [] [0%nat] = Ok r /\
             Np.shape r = Distribution.repertoire_shape [0%nat] (tpm_size and_copy_subsystem) /\
             forall idx, Np.item r idx
                         == 1 / inject_Z (Z.of_nat (2 ^ length [0%nat]))) /\
  effect_repertoire and_copy_subsystem [] [0%nat] =
    (reps ← mapM (fun p =>
                    purview_node ← index2node and_copy_subsystem p;
                    tpm ← Distribution.marginalize_out
                            (node_inputs purview_node) (node_tpm purview_node);
                    Np.reshape
                      (Distribution.repertoire_shape [node_index purview_node]
                                                     (tpm_size and_copy_subsystem))
                      tpm)
                 [0%nat];
     product ← reduce Np.multiply reps;
     Np.multiply
       (Np.ones (Distribution.repertoire_shape [0%nat] (tpm_size and_copy_subsystem)))
       product)).
Proof.
  assert ([0%nat] <> []) as H1 by discriminate.
  assert (NoDup [0%nat]) as H2
    by (repeat constructor; intros Hin; inversion Hin).
  assert (Forall (fun i => (i < tpm_size and_copy_subsystem)%nat) [0%nat]) as H3
    by (repeat constructor; vm_compute; lia).
  exact (conj H1 (conj H2 (conj H3
           (unconstrained_repertoires and_copy_subsystem [0%nat] H1 H2 H3)))).
Defined.

(** The unconstrained effect repertoire of the AND node is (3/4, 1/4). *)
Lemma effect_repertoire_empty_mechanism_not_uniform :
  ~ (forall s purview r,
        wf_subsystem s = true -> purview <> [] -> NoDup purview ->
        Forall (fun i => (i < tpm_size s)%nat) purview ->
        effect_repertoire s [] purview = Ok r ->
        forall idx, idx ∈ Np.indices (Np.shape r) ->
           Np.item r idx == 1 / inject_Z (Z.of_nat (2 ^ length purview))).
Proof.
  intros H.
  destruct (effect_repertoire and_copy_subsystem [] [0%nat]) as [r|e] eqn:E;
    [|vm_compute in E; discriminate].
  specialize (H and_copy_subsystem [0%nat] r eq_refl ltac:(discriminate)).
  specialize (H ltac:(repeat constructor; intros Hin; inversion Hin)).
  specialize (H ltac:(repeat constructor; vm_compute; lia) E [0; 0]%nat).
  vm_compute in E. injection E as <-.
  cbn [Np.shape Np.indices] in H.
  specialize (H ltac:(vm_compute; left)).
  vm_compute in H. discriminate H.
Qed.

(** ** Expanding a repertoire *)

Lemma issubset_spec (a b : list nat) : issubset a b = true <-> a ⊆ b.
Proof.
  unfold issubset. rewrite forallb_forall. split.
  - intros H x Hx. apply list_elem_of_In in Hx. apply H in Hx.
    apply bool_decide_eq_true in Hx. exact Hx.
  - intros H x Hx. apply bool_decide_eq_true. apply H, list_elem_of_In, Hx.
Qed.

Lemma wf_repertoire_binary s r :
  wf_repertoire s r = true -> binary_shape (tpm_size s) (Np.shape r).
Proof.
  unfold wf_repertoire. rewrite andb_true_iff. intros [H1 H2].
  apply bool_decide_eq_true in H1. split; [exact H1|].
  apply Forall_forall. intros d Hd. rewrite forallb_forall in H2.
  apply list_elem_of_In, H2 in Hd. apply bool_decide_eq_true in Hd. exact Hd.
Qed.

(** The single-node effect repertoire of the empty mechanism is computed
    for every node of a well-formed subsystem; for an index that is not the
    index of a node the lookup raises [KeyError]. *)
Lemma single_node_effect_outcome s p :
  wf_subsystem s = true ->
  match index2node s p with
  | Ok _ => exists r, _single_node_effect_repertoire s [] p = Ok r /\
                      binary_shape (tpm_size s) (Np.shape r)
  | Raise _ => _single_node_effect_repertoire s [] p = Raise KeyError
  end.
Proof.
  intros Hwf.
  pose proof (single_node_effect_unconstrained s p Hwf) as Hspec.
  pose proof (index2node_spec s p) as Hidx.
  unfold _single_node_effect_repertoire in *.
  destruct (index2node s p) as [n|e] eqn:E; cbn [mbind result_bind rspec] in *.
  2:{ subst e. reflexivity. }
  pose proof (wf_subsystem_node s n Hwf (index2node_elem _ _ _ E)) as W.
  revert Hspec. rewrite list_intersection_nil_r, list_difference_nil_r.
  cbn [Distribution.condition_tpm foldl mbind result_bind].
  destruct (marginalize_out_ok (node_inputs n) (node_tpm n)) as (a' & Ha' & Hsh).
  { eapply Forall_impl; [exact (wf_inputs _ _ W)|]. cbn. intros i Hi.
    unfold Np.ndim. rewrite (wf_len _ _ W). lia. }
  rewrite Ha'. cbn [mbind result_bind]. unfold Np.reshape.
  rewrite Hsh, (marginalized_node_shape _ _ W).
  rewrite size_of_repertoire_shape_single by exact (wf_index _ _ W).
  rewrite size_of_app, size_of_replicate_1.
  cbn [Np.size_of fold_right Nat.mul]. rewrite decide_True by reflexivity.
  cbn [rspec]. intros Hb. eexists. split; [reflexivity | exact Hb].
Qed.

(** The unconstrained repertoire over a well-formed subsystem is an array
    that multiplies with every repertoire.  In the cause direction it is
    always computed; in the effect direction it is computed when every
    index is the index of a node, and raises [KeyError] otherwise. *)
Lemma unconstrained_repertoire_outcome s direction purview :
  wf_subsystem s = true ->
  (direction = EFFECT /\ exists i, i ∈ purview /\ i ∉ map node_index (nodes s)) /\
  repertoire s direction [] purview = Raise KeyError
  \/
  ~ (direction = EFFECT /\ exists i, i ∈ purview /\ i ∉ map node_index (nodes s)) /\
  exists uc, repertoire s direction [] purview = Ok uc /\
             (Np.shape uc = [1%nat] \/ binary_shape (tpm_size s) (Np.shape uc)).
Proof.
  intros Hwf. unfold repertoire. destruct direction.
  - right. split; [intros [? _]; discriminate|].
    unfold cause_repertoire, _cause_repertoire.
    destruct purview as [|p purview]; eexists; (split; [reflexivity|]);
      [left; reflexivity|].
    right. split; [apply repertoire_shape_length | apply repertoire_shape_binary].
  - unfold effect_repertoire.
    destruct purview as [|p purview].
    { right. split; [intros (_ & i & Hi & _); inversion Hi|].
      eexists. split; [reflexivity | left; reflexivity]. }
    change (remove_dups []) with (@nil nat).
    set (P := p :: purview). unfold _effect_repertoire_virtualized.
    destruct (mapM (fun p0 => _single_node_effect_repertoire s [] p0) P)
      as [reps|e] eqn:Ereps.
    + right. split.
      { intros (_ & i & Hi & Hout). apply index2node_KeyError in Hout.
        apply mapM_Ok_Forall2 in Ereps.
        apply list_elem_of_lookup in Hi as [k Hk].
        destruct (Forall2_lookup_l _ _ _ _ _ Ereps Hk) as (x & _ & Hx).
        cbn beta in Hx. pose proof (single_node_effect_outcome s i Hwf) as H.
        rewrite Hout in H. congruence. }
      assert (Forall (fun x => binary_shape (tpm_size s) (Np.shape x)) reps
              /\ length reps = length P) as [Hall Hlen].
      { pose proof (rspec_mapM (fun p0 => _single_node_effect_repertoire s [] p0)
                      (fun r => binary_shape (tpm_size s) (Np.shape r))
                      (fun e => e = KeyError) P
                      (fun x _ => single_node_effect_unconstrained s x Hwf)) as H.
        rewrite Ereps in H. exact H. }
      cbn [mbind result_bind].
      destruct (reduce_multiply_binary (tpm_size s) reps) as (c & Hc & Hb);
        [|exact Hall|].
      { intros ->. discriminate Hlen. }
      rewrite Hc. cbn [mbind result_bind].
      destruct (multiply_binary (tpm_size s)
                  (Np.ones (Distribution.repertoire_shape P (tpm_size s))) c)
        as (j & Hj & Hjb & _); [|exact Hb|].
      { cbn. split; [apply repertoire_shape_length | apply repertoire_shape_binary]. }
      rewrite Hj. exists j. split; [reflexivity | right; exact Hjb].
    + left. apply mapM_Raise in Ereps as (i & Hi & Hraise).
      pose proof (single_node_effect_outcome s i Hwf) as H.
      destruct (index2node s i) as [n|e'] eqn:E.
      { destruct H as (r & Hr & _). congruence. }
      rewrite H in Hraise. injection Hraise as <-.
      split; [|reflexivity]. split; [reflexivity|].
      exists i. split; [exact Hi|]. apply index2node_KeyError.
      pose proof (index2node_spec s i) as Hk. rewrite E in Hk. cbn in Hk.
      rewrite <- Hk. exact E.
Qed.

Lemma multiply_repertoire_ok s r uc :
  wf_repertoire s r = true ->
  Np.shape uc = [1%nat] \/ binary_shape (tpm_size s) (Np.shape uc) ->
  exists e, Np.multiply r uc = Ok e.
Proof.
  intros Hr [H1|Hb].
  - destruct (multiply_array1 r uc H1) as (c & Hc & _). eauto.
  - destruct (multiply_binary (tpm_size s) r uc) as (c & Hc & _); eauto.
    apply wf_repertoire_binary. exact Hr.
Qed.

(** C10 (amended): [expand_repertoire] returns [None] for a [None]
    repertoire.  For a repertoire over the network of a well-formed
    subsystem it raises [ValueError] if and only if the purview read off
    the repertoire's shape is not a subset of the new purview (the whole
    subsystem by default).  It raises [KeyError] if and only if the purview
    is a subset, the direction is EFFECT and one of the missing nodes is no
    node of the subsystem.  In every other case it returns the repertoire
    multiplied by the unconstrained repertoire over the missing nodes,
    normalised. *)
Theorem expand_repertoire_spec s direction r new_purview :
  wf_subsystem s = true ->
  wf_repertoire s r = true ->
  let purview := Distribution.purview r in
  let target := default (node_indices s) new_purview in
  let missing := list_difference (remove_dups target) purview in
  let outside :=
    direction = EFFECT /\
    exists i, i ∈ missing /\ i ∉ map node_index (nodes s) in
  expand_repertoire s direction None new_purview = Ok None /\
  (expand_repertoire s direction (Some r) new_purview = Raise ValueError
   <-> ~ purview ⊆ target) /\
  (expand_repertoire s direction (Some r) new_purview = Raise KeyError
   <-> purview ⊆ target /\ outside) /\
  (purview ⊆ target -> ~ outside ->
   exists uc expanded,
     repertoire s direction [] missing = Ok uc /\
     Np.multiply r uc = Ok expanded /\
     expand_repertoire s direction (Some r) new_purview
     = Ok (Some (Distribution.normalize expanded))).
Proof.
  intros Hwf Hrep. cbn zeta.
  set (purview := Distribution.purview r).
  set (target := default (node_indices s) new_purview).
  set (missing := list_difference (remove_dups target) purview).
  split; [reflexivity|].
  unfold expand_repertoire. fold purview target missing.
  destruct (issubset purview target) eqn:Esub; cbn [negb].
  2:{ assert (~ purview ⊆ target) as Hns.
      { intros Hs. apply issubset_spec in Hs. congruence. }
      split; [tauto|]. split; [|contradiction].
      split; [discriminate | tauto]. }
  apply issubset_spec in Esub. unfold unconstrained_repertoire.
  destruct (unconstrained_repertoire_outcome s direction missing Hwf)
    as [[Hout ->]|[Hin (uc & -> & Huc)]]; cbn [mbind result_bind].
  - split; [split; [discriminate | contradiction]|].
    split; [tauto | contradiction].
  - destruct (multiply_repertoire_ok s r uc Hrep Huc) as (e & He).
    rewrite He. cbn [mbind result_bind].
    split; [split; [discriminate | contradiction]|].
    split; [split; [discriminate | tauto]|].
    intros _ _. exists uc, e. auto.
Qed.

Lemma expand_repertoire_spec_witness :
  wf_subsystem and_copy_subsystem = true /\
  wf_repertoire and_copy_subsystem and_copy_cause_repertoire = true /\
  let purview := Distribution.purview and_copy_cause_repertoire in
  let target := default (node_indices and_copy_subsystem) None in
  let missing := list_difference (remove_dups target) purview in
  let outside :=
    EFFECT = EFFECT /\
    exists i, i ∈ missing /\ i ∉ map node_index (nodes and_copy_subsystem) in
  expand_repertoire and_copy_subsystem EFFECT None None = Ok None /\
  (expand_repertoire and_copy_subsystem EFFECT (Some and_copy_cause_repertoire) None
   = Raise ValueError <-> ~ purview ⊆ target) /\
  (expand_repertoire and_copy_subsystem EFFECT (Some and_copy_cause_repertoire) None
   = Raise KeyError <-> purview ⊆ target /\ outside) /\
  (purview ⊆ target -> ~ outside ->
   exists uc expanded,
     repertoire and_copy_subsystem EFFECT [] missing = Ok uc /\
     Np.multiply and_copy_cause_repertoire uc = Ok expanded /\
     expand_repertoire and_copy_subsystem EFFECT (Some and_copy_cause_repertoire) None
     = Ok (Some (Distribution.normalize expanded))).
Proof.
  assert (wf_subsystem and_copy_subsystem = true) as H1 by (vm_compute; reflexivity).
  assert (wf_repertoire and_copy_subsystem and_copy_cause_repertoire = true) as H2
    by (vm_compute; reflexivity).
  exact (conj H1 (conj H2
    (expand_repertoire_spec and_copy_subsystem EFFECT
       and_copy_cause_repertoire None H1 H2))).
Defined.

(** The claim as stated fails for a new purview that reaches outside the
    subsystem: over the subsystem of node 0 alone, the effect repertoire of
    node 0 over itself, expanded to the whole network [(0, 1)].  The
    purview [(0,)] is a subset of the new purview, and
    [expand_repertoire] does not return: it raises [KeyError]. *)
Lemma expand_repertoire_outside_subsystem :
  exists rep,
    effect_repertoire and_copy_node0 [0%nat] [0%nat] = Ok rep /\
    wf_subsystem and_copy_node0 = true /\
    wf_repertoire and_copy_node0 rep = true /\
    Distribution.purview rep ⊆ [0; 1]%nat /\
    expand_repertoire and_copy_node0 EFFECT (Some rep) (Some [0; 1]%nat)
    = Raise KeyError.
Proof.
  destruct (effect_repertoire and_copy_node0 [0%nat] [0%nat]) as [rep|e] eqn:E;
    [|vm_compute in E; discriminate].
  exists rep. split; [reflexivity|].
  split; [vm_compute; reflexivity|].
  vm_compute in E. injection E as <-.
  split; [vm_compute; reflexivity|].
  split; [intros x Hx; vm_compute in Hx; set_solver|].
  vm_compute. reflexivity.
Qed.

(** ** The minimum information partition of a mechanism *)

Section FindMipProofs.

Variable mip_partitions : list nat -> list nat -> list Partition.
Variable repertoire_distance : Direction -> Np.ndarray -> Np.ndarray -> Q.

Lemma _mip_ok s direction mechanism purview rep phi partition partitioned :
  is_ok (state_of mechanism (state s)) = true ->
  is_ok (state_of purview (state s)) = true ->
  exists ria, _mip s direction mechanism purview rep phi partition partitioned = Ok ria
              /\ ria_phi ria = Finite phi.
Proof using Type.
  intros Hm Hp. unfold _mip.
  destruct (state_of mechanism (state s)); [|discriminate].
  destruct (state_of purview (state s)); [|discriminate].
  eexists. split; reflexivity.
Qed.

Lemma distances_cons s direction mechanism purview rep partition rest ds :
  partition_distances repertoire_distance s direction mechanism purview rep
                      (partition :: rest) = Ok ds ->
  exists d partitioned ds',
    evaluate_partition repertoire_distance s direction mechanism purview
                       partition (Some rep) = Ok (d, partitioned) /\
    partition_distances repertoire_distance s direction mechanism purview rep
                        rest = Ok ds' /\
    ds = d :: ds'.
Proof using Type.
  unfold partition_distances. cbn [mapM].
  destruct (evaluate_partition _ _ _ _ _ partition (Some rep)) as [[d pr]|e];
    cbn [mbind result_bind]; [|discriminate].
  destruct (mapM _ rest) as [ds'|e]; cbn [mbind result_bind mret result_ret];
    [|discriminate].
  intros [= <-]. eauto 6.
Qed.

Lemma phi_ltb_spec a v :
  phi_ltb (Finite a) v = true <->
  match v with Finite b => a < b | Infinity => True end.
Proof using Type.
  destruct v as [b|]; cbn; [|tauto].
  rewrite negb_true_iff. split.
  - intros H. apply Qnot_le_lt. intros Hle. apply Qle_bool_iff in Hle. congruence.
  - intros H. destruct (Qle_bool b a) eqn:E; [|reflexivity].
    apply Qle_bool_iff in E. apply Qlt_not_le in H. contradiction.
Qed.

(** The distances of the partitions are the distances between the
    unpartitioned repertoire and their partitioned repertoires. *)
Lemma partition_distances_map s direction mechanism purview rep partitions prs :
  mapM (partitioned_repertoire s direction) partitions = Ok prs ->
  partition_distances repertoire_distance s direction mechanism purview rep
                      partitions
  = Ok (map (repertoire_distance direction rep) prs).
Proof using Type.
  revert prs. induction partitions as [|partition rest IH]; intros prs Hprs.
  - cbn in Hprs. injection Hprs as <-. reflexivity.
  - cbn [mapM] in Hprs.
    destruct (partitioned_repertoire s direction partition) as [pr|e] eqn:E;
      cbn [mbind result_bind] in Hprs; [|discriminate].
    destruct (mapM (partitioned_repertoire s direction) rest) as [prs'|e];
      cbn [mbind result_bind mret result_ret] in Hprs; [|discriminate].
    injection Hprs as <-. specialize (IH prs' eq_refl).
    unfold partition_distances in IH |- *. cbn [mapM]. rewrite IH.
    unfold evaluate_partition. rewrite E. reflexivity.
Qed.

(** The loop of [find_mip]: a distance 0 ends it with phi 0, whatever was
    seen before; without one the least distance is kept. *)
Lemma find_mip_loop_outcome s direction mechanism purview rep :
  is_ok (state_of mechanism (state s)) = true ->
  is_ok (state_of purview (state s)) = true ->
  forall partitions mip seen ds,
    partition_distances repertoire_distance s direction mechanism purview rep
                        partitions = Ok ds ->
    exists ria,
      find_mip_loop repertoire_distance s direction mechanism purview rep mip
                    partitions = Ok ria /\
      ((exists d, d ∈ ds /\ d == 0) -> ria_phi ria = Finite 0) /\
      ((forall d, d ∈ ds -> ~ d == 0) ->
       phi_is_min (ria_phi mip) seen -> phi_is_min (ria_phi ria) (seen ++ ds)).
Proof using Type.
  intros Hm Hp.
  induction partitions as [|partition rest IH]; intros mip seen ds Hds.
  - cbn in Hds. injection Hds as <-. exists mip. split; [reflexivity|].
    split; [intros (d & Hd & _); inversion Hd|].
    intros _ Hmin. rewrite app_nil_r. exact Hmin.
  - apply distances_cons in Hds as (d & pr & ds' & Hev & Hrest & ->).
    cbn [find_mip_loop]. rewrite Hev. cbn [mbind result_bind].
    destruct (Qeq_bool d 0) eqn:Ez.
    + apply Qeq_bool_iff in Ez.
      destruct (_mip_ok s direction mechanism purview rep 0 (Some partition)
                        (Some pr) Hm Hp) as (ria & Hria & Hphi).
      exists ria. split; [exact Hria|]. split; [intros _; exact Hphi|].
      intros Hnz. exfalso. apply (Hnz d); [left | exact Ez].
    + assert (~ d == 0) as Hdz.
      { intros H. apply Qeq_bool_iff in H. congruence. }
      destruct (phi_ltb (Finite d) (ria_phi mip)) eqn:El.
      * destruct (_mip_ok s direction mechanism purview rep d (Some partition)
                          (Some pr) Hm Hp) as (mip' & Hmip' & Hphi).
        rewrite Hmip'. cbn [mbind result_bind].
        destruct (IH mip' (seen ++ [d]) ds' Hrest) as (ria & Hria & Hzero & Hmin').
        exists ria. split; [exact Hria|]. split.
        -- intros (x & Hx & Hxz). apply Hzero.
           apply elem_of_cons in Hx as [->|Hx]; [contradiction | eauto].
        -- intros Hnz Hmin.
           replace (seen ++ d :: ds') with ((seen ++ [d]) ++ ds')
             by (rewrite <- app_assoc; reflexivity).
           apply Hmin'.
           { intros x Hx. apply Hnz. right. exact Hx. }
           rewrite Hphi. cbn. split.
           ++ exists d. split; [|reflexivity]. apply elem_of_app. right. left.
           ++ intros x Hx. apply elem_of_app in Hx as [Hx|Hx].
              ** apply phi_ltb_spec in El. destruct (ria_phi mip) as [b|]; cbn in Hmin.
                 --- destruct Hmin as [_ Hle]. specialize (Hle x Hx). lra.
                 --- subst seen. inversion Hx.
              ** apply list_elem_of_singleton in Hx as ->. lra.
      * destruct (IH mip (seen ++ [d]) ds' Hrest) as (ria & Hria & Hzero & Hmin').
        exists ria. split; [exact Hria|]. split.
        -- intros (x & Hx & Hxz). apply Hzero.
           apply elem_of_cons in Hx as [->|Hx]; [contradiction | eauto].
        -- intros Hnz Hmin.
           replace (seen ++ d :: ds') with ((seen ++ [d]) ++ ds')
             by (rewrite <- app_assoc; reflexivity).
           apply Hmin'.
           { intros x Hx. apply Hnz. right. exact Hx. }
           destruct (ria_phi mip) as [b|] eqn:Eb; [|discriminate El]. cbn in *.
           assert (b <= d) as Hbd.
           { destruct (Qle_bool b d) eqn:E; [apply Qle_bool_iff; exact E|].
             discriminate El. }
           destruct Hmin as [(x & Hx & Hbx) Hle]. split.
           ++ exists x. split; [apply elem_of_app; left; exact Hx | exact Hbx].
           ++ intros y Hy. apply elem_of_app in Hy as [Hy|Hy]; [auto|].
              apply list_elem_of_singleton in Hy as ->. exact Hbd.
Qed.

Lemma zero_among_dec (ds : list Q) :
  (exists d, d ∈ ds /\ d == 0) \/ (forall d, d ∈ ds -> ~ d == 0).
Proof using Type.
  induction ds as [|d ds [IH|IH]].
  - right. intros d Hd. inversion Hd.
  - left. destruct IH as (x & Hx & Hz). exists x. split; [right; exact Hx | exact Hz].
  - destruct (Qeq_dec d 0) as [Hz|Hnz].
    + left. exists d. split; [left | exact Hz].
    + right. intros x Hx. apply elem_of_cons in Hx as [->|Hx]; auto.
Qed.

(** C2 (amended): for a non-empty purview whose unpartitioned repertoire is
    not identically zero, with the states of the mechanism and of the
    purview defined and the partitioned repertoire of every enumerated
    partition computed, [find_mip] returns an analysis.  Its phi is 0 as
    soon as the distance between the unpartitioned repertoire and the
    partitioned repertoire of some partition is 0; when no partition is at
    distance 0 its phi is the minimum of these distances, over all
    enumerated partitions.  Hence, when no distance is negative, the phi is
    the minimum of the distances in either case. *)
Theorem find_mip_minimum s direction mechanism purview rep prs :
  purview <> [] ->
  repertoire s direction mechanism purview = Ok rep ->
  Np.all_zero rep = false ->
  is_ok (state_of mechanism (state s)) = true ->
  is_ok (state_of purview (state s)) = true ->
  mapM (partitioned_repertoire s direction) (mip_partitions mechanism purview)
    = Ok prs ->
  exists ria,
    find_mip mip_partitions repertoire_distance s direction mechanism purview
      = Ok ria /\
    ((exists pr, pr ∈ prs /\ repertoire_distance direction rep pr == 0) ->
     ria_phi ria = Finite 0) /\
    ((forall pr, pr ∈ prs -> ~ repertoire_distance direction rep pr == 0) ->
     phi_is_min (ria_phi ria) (map (repertoire_distance direction rep) prs)) /\
    ((forall pr, pr ∈ prs -> 0 <= repertoire_distance direction rep pr) ->
     phi_is_min (ria_phi ria) (map (repertoire_distance direction rep) prs)).
Proof using Type.
  intros Hne Hrep Hnz Hm Hp Hprs.
  pose proof (partition_distances_map s direction mechanism purview rep _ _ Hprs)
    as Hds.
  set (ds := map (repertoire_distance direction rep) prs) in *.
  destruct (find_mip_loop_outcome s direction mechanism purview rep Hm Hp
              (mip_partitions mechanism purview)
              (_null_ria direction mechanism purview None Infinity) [] ds Hds)
    as (ria & Hria & Hzero & Hmin).
  cbn [app] in Hmin.
  assert (forall P : Q -> Prop,
             (forall pr, pr ∈ prs -> P (repertoire_distance direction rep pr)) ->
             forall d, d ∈ ds -> P d) as Hall.
  { intros P HP d Hd. apply list_elem_of_fmap in Hd as (pr & -> & Hpr). auto. }
  assert ((exists pr, pr ∈ prs /\ repertoire_distance direction rep pr == 0) ->
          exists d, d ∈ ds /\ d == 0) as Hex.
  { intros (pr & Hpr & Hz). exists (repertoire_distance direction rep pr).
    split; [apply list_elem_of_fmap; eauto | exact Hz]. }
  exists ria. split.
  { unfold find_mip. destruct purview as [|p purview]; [congruence|].
    rewrite Hrep. cbn [mbind result_bind]. rewrite Hnz, andb_false_r. exact Hria. }
  split; [intros H; apply Hzero, Hex, H|].
  split.
  - intros H. apply Hmin; [apply (Hall (fun d => ~ d == 0)); exact H | reflexivity].
  - intros Hnn. pose proof (Hall (fun d => 0 <= d) Hnn) as Hnn'.
    destruct (zero_among_dec ds) as [Hz|Hnone].
    + rewrite (Hzero Hz). destruct Hz as (d & Hd & Hdz). cbn. split.
      * exists d. split; [exact Hd | symmetry; exact Hdz].
      * exact Hnn'.
    + apply Hmin; [exact Hnone | reflexivity].
Qed.

(** C8: in the cause direction, when the unpartitioned cause repertoire
    is identically zero (the current state is unreachable), [find_mip]
    returns normally, with phi = 0, whatever the partitions and the
    distance are. *)
Theorem find_mip_unreachable s mechanism purview rep :
  repertoire s CAUSE mechanism purview = Ok rep ->
  Np.all_zero rep = true ->
  is_ok (state_of mechanism (state s)) = true ->
  is_ok (state_of purview (state s)) = true ->
  exists ria,
    find_mip mip_partitions repertoire_distance s CAUSE mechanism purview = Ok ria /\
    ria_phi ria = Finite 0.
Proof using Type.
  intros Hrep Hz Hm Hp. unfold find_mip.
  destruct purview as [|p purview]; [eexists; split; reflexivity|].
  rewrite Hrep. cbn [mbind result_bind]. rewrite Hz.
  rewrite bool_decide_eq_true_2 by reflexivity. cbn [andb].
  apply _mip_ok; assumption.
Qed.

End FindMipProofs.

Lemma find_mip_minimum_witness :
  [0; 1]%nat <> [] /\
  repertoire and_copy_subsystem EFFECT [0; 1]%nat [0; 1]%nat
    = Ok and_copy_effect_repertoire /\
  Np.all_zero and_copy_effect_repertoire = false /\
  is_ok (state_of [0; 1]%nat (state and_copy_subsystem)) = true /\
  mapM (partitioned_repertoire and_copy_subsystem EFFECT)
       (example_partitions [0; 1]%nat [0; 1]%nat)
    = Ok and_copy_partitioned_repertoires /\
  exists ria,
    find_mip example_partitions l1_distance and_copy_subsystem EFFECT
             [0; 1]%nat [0; 1]%nat = Ok ria /\
    ((exists pr, pr ∈ and_copy_partitioned_repertoires /\
                 l1_distance EFFECT and_copy_effect_repertoire pr == 0) ->
     ria_phi ria = Finite 0) /\
    ((forall pr, pr ∈ and_copy_partitioned_repertoires ->
                 ~ l1_distance EFFECT and_copy_effect_repertoire pr == 0) ->
     phi_is_min (ria_phi ria)
                (map (l1_distance EFFECT and_copy_effect_repertoire)
                     and_copy_partitioned_repertoires)) /\
    ((forall pr, pr ∈ and_copy_partitioned_repertoires ->
                 0 <= l1_distance EFFECT and_copy_effect_repertoire pr) ->
     phi_is_min (ria_phi ria)
                (map (l1_distance EFFECT and_copy_effect_repertoire)
                     and_copy_partitioned_repertoires)).
Proof.
  assert ([0; 1]%nat <> []) as H1 by discriminate.
  assert (repertoire and_copy_subsystem EFFECT [0; 1]%nat [0; 1]%nat
          = Ok and_copy_effect_repertoire) as H2 by reflexivity.
  assert (Np.all_zero and_copy_effect_repertoire = false) as H3
    by (vm_compute; reflexivity).
  assert (is_ok (state_of [0; 1]%nat (state and_copy_subsystem)) = true) as H4
    by (vm_compute; reflexivity).
  assert (mapM (partitioned_repertoire and_copy_subsystem EFFECT)
               (example_partitions [0; 1]%nat [0; 1]%nat)
          = Ok and_copy_partitioned_repertoires) as H5 by reflexivity.
  exact (conj H1 (conj H2 (conj H3 (conj H4 (conj H5
    (find_mip_minimum example_partitions l1_distance and_copy_subsystem EFFECT
       [0; 1]%nat [0; 1]%nat and_copy_effect_repertoire
       and_copy_partitioned_repertoires H1 H2 H3 H4 H4 H5)))))).
Defined.

(** The claim as stated fails for a signed distance: on the chain of two
    nodes, in the effect direction, the first enumerated partition is at
    distance -1/2 and the second at distance 0.  The search ends at the
    second with phi 0, which is not the minimum of the distances. *)
Lemma find_mip_zero_is_not_the_minimum :
  exists rep pr1 pr2 ria,
    repertoire chain_subsystem EFFECT [0; 1]%nat [0; 1]%nat = Ok rep /\
    Np.all_zero rep = false /\
    mapM (partitioned_repertoire chain_subsystem EFFECT)
         (example_partitions [0; 1]%nat [0; 1]%nat) = Ok [pr1; pr2] /\
    signed_distance EFFECT rep pr1 == - (1 # 2) /\
    signed_distance EFFECT rep pr2 == 0 /\
    find_mip example_partitions signed_distance chain_subsystem EFFECT
             [0; 1]%nat [0; 1]%nat = Ok ria /\
    ria_phi ria = Finite 0 /\
    ~ phi_is_min (ria_phi ria)
                 [signed_distance EFFECT rep pr1; signed_distance EFFECT rep pr2].
Proof.
  destruct (repertoire chain_subsystem EFFECT [0; 1]%nat [0; 1]%nat)
    as [rep|e] eqn:Erep; [|vm_compute in Erep; discriminate].
  destruct (mapM (partitioned_repertoire chain_subsystem EFFECT)
                 (example_partitions [0; 1]%nat [0; 1]%nat))
    as [[|pr1 [|pr2 [|pr3 prs]]]|e] eqn:Eprs;
    try (vm_compute in Eprs; discriminate).
  assert (signed_distance EFFECT rep pr1 == - (1 # 2)) as Hd1.
  { vm_compute in Erep. injection Erep as <-.
    vm_compute in Eprs. injection Eprs as <- <-. vm_compute. reflexivity. }
  assert (signed_distance EFFECT rep pr2 == 0) as Hd2.
  { vm_compute in Erep. injection Erep as <-.
    vm_compute in Eprs. injection Eprs as <- <-. vm_compute. reflexivity. }
  assert (Np.all_zero rep = false) as Hnz.
  { vm_compute in Erep. injection Erep as <-. vm_compute. reflexivity. }
  assert (is_ok (state_of [0; 1]%nat (state chain_subsystem)) = true) as Hst
    by (vm_compute; reflexivity).
  pose proof (partition_distances_map signed_distance chain_subsystem EFFECT
                [0; 1]%nat [0; 1]%nat rep _ _ Eprs) as Hds.
  destruct (find_mip_loop_outcome signed_distance chain_subsystem EFFECT
              [0; 1]%nat [0; 1]%nat rep Hst Hst
              (example_partitions [0; 1]%nat [0; 1]%nat)
              (_null_ria EFFECT [0; 1]%nat [0; 1]%nat None Infinity) [] _ Hds)
    as (ria & Hloop & Hzero & _).
  assert (find_mip example_partitions signed_distance chain_subsystem EFFECT
                   [0; 1]%nat [0; 1]%nat = Ok ria) as Hria.
  { unfold find_mip. rewrite Erep. cbn [mbind result_bind].
    rewrite Hnz, andb_false_r. exact Hloop. }
  exists rep, pr1, pr2, ria.
  assert (ria_phi ria = Finite 0) as Hphi.
  { apply Hzero. exists (signed_distance EFFECT rep pr2).
    split; [right; left | exact Hd2]. }
  repeat (split; [assumption || reflexivity|]).
  rewrite Hphi. cbn. intros [_ Hle].
  assert (0 <= signed_distance EFFECT rep pr1) as H by (apply Hle; left).
  rewrite Hd1 in H. revert H. apply Qlt_not_le. reflexivity.
Qed.

Lemma find_mip_unreachable_witness :
  repertoire always_off_subsystem CAUSE [0%nat] [0%nat]
    = Ok always_off_cause_repertoire /\
  Np.all_zero always_off_cause_repertoire = true /\
  is_ok (state_of [0%nat] (state always_off_subsystem)) = true /\
  exists ria,
    find_mip example_partitions l1_distance always_off_subsystem CAUSE
             [0%nat] [0%nat] = Ok ria /\
    ria_phi ria = Finite 0.
Proof.
  assert (repertoire always_off_subsystem CAUSE [0%nat] [0%nat]
          = Ok always_off_cause_repertoire) as H1 by reflexivity.
  assert (Np.all_zero always_off_cause_repertoire = true) as H2
    by (vm_compute; reflexivity).
  assert (is_ok (state_of [0%nat] (state always_off_subsystem)) = true) as H3
    by (vm_compute; reflexivity).
  exact (conj H1 (conj H2 (conj H3
    (find_mip_unreachable example_partitions l1_distance always_off_subsystem
       [0%nat] [0%nat] always_off_cause_repertoire H1 H2 H3 H3)))).
Defined.

(** ** The order of system irreducibility analyses *)

Lemma tuple_ltb_irrefl a : tuple_ltb a a = false.
Proof.
  induction a as [|x a IH]; [reflexivity|]. cbn.
  rewrite bool_decide_eq_true_2 by reflexivity. exact IH.
Qed.

Lemma tuple_ltb_trans a b c :
  tuple_ltb a b = true -> tuple_ltb b c = true -> tuple_ltb a c = true.
Proof.
  revert b c. induction a as [|x a IH]; intros [|y b] [|z c]; cbn; try congruence.
  repeat case_bool_decide; subst; try congruence; try lia; eauto.
  all: intros; apply bool_decide_eq_true; lia.
Qed.

Lemma tuple_ltb_total a b :
  tuple_ltb a b = true \/ a = b \/ tuple_ltb b a = true.
Proof.
  revert b. induction a as [|x a IH]; intros [|y b]; cbn; auto.
  destruct (IH b) as [H|[H|H]]; repeat case_bool_decide; subst; auto; try lia.
  all: destruct (lt_eq_lt_dec x y) as [[?|?]|?]; try lia; auto.
Qed.

Lemma key_ltb_spec k1 k2 :
  key_ltb k1 k2 = true <->
  (k1.1.1 < k2.1.1 \/
   (k1.1.1 == k2.1.1 /\
    ((k1.1.2 < k2.1.2)%nat \/ (k1.1.2 = k2.1.2 /\ tuple_ltb k1.2 k2.2 = true)))).
Proof.
  destruct k1 as [[p1 n1] i1], k2 as [[p2 n2] i2]. cbn.
  destruct (Qeq_bool p1 p2) eqn:Eq; cbn.
  - apply Qeq_bool_iff in Eq. case_bool_decide as En; cbn.
    + subst. split; [intros H; right; split; auto|].
      intros [H|[_ [H|[_ H]]]]; [lra | lia | exact H].
    + rewrite bool_decide_eq_true. split; [intros; right; split; auto|].
      intros [H'|[_ [H'|[H' _]]]]; [lra | lia | congruence].
  - apply Qeq_bool_neq in Eq. rewrite negb_true_iff. split.
    + intros H. left. apply Qnot_le_lt. intros Hle.
      apply Qle_bool_iff in Hle. congruence.
    + intros [H|[H _]]; [|contradiction].
      destruct (Qle_bool p2 p1) eqn:E; [|reflexivity].
      apply Qle_bool_iff in E. lra.
Qed.

Lemma array_equal_refl a : Np.array_equal a a = true.
Proof.
  unfold Np.array_equal. rewrite bool_decide_eq_true_2 by reflexivity. cbn.
  apply forallb_forall. intros i _. apply Qeq_bool_iff. reflexivity.
Qed.

Lemma network_eqb_refl n : network_eqb n n = true.
Proof.
  unfold network_eqb. rewrite array_equal_refl, bool_decide_eq_true_2 by reflexivity.
  reflexivity.
Qed.

(** Two analyses of the same subsystem are compared by phi alone. *)
Lemma sia_lt_same_subsystem {CES} (a b : SystemIrreducibilityAnalysis CES) :
  sia_subsystem a = sia_subsystem b ->
  sia_lt a b = Ok (negb (Qle_bool (sia_phi b) (sia_phi a))).
Proof.
  intros Hs. unfold sia_lt, sia_network. rewrite Hs, network_eqb_refl.
  f_equal. unfold order_by. rewrite Hs. cbn.
  destruct (Qeq_bool (sia_phi a) (sia_phi b)) eqn:Eq; cbn.
  - rewrite bool_decide_eq_true_2 by reflexivity. cbn. rewrite tuple_ltb_irrefl.
    apply Qeq_bool_iff in Eq. symmetry. apply negb_false_iff, Qle_bool_iff. lra.
  - reflexivity.
Qed.

Lemma key_ltb_irrefl k : key_ltb k k = false.
Proof.
  destruct (key_ltb k k) eqn:E; [|reflexivity].
  apply key_ltb_spec in E. destruct E as [E|[_ [E|[_ E]]]].
  - lra.
  - lia.
  - rewrite tuple_ltb_irrefl in E. discriminate.
Qed.

Lemma key_ltb_trans k1 k2 k3 :
  key_ltb k1 k2 = true -> key_ltb k2 k3 = true -> key_ltb k1 k3 = true.
Proof.
  intros H12 H23. apply key_ltb_spec in H12, H23. apply key_ltb_spec.
  destruct H12 as [H12|[E12 H12]], H23 as [H23|[E23 H23]].
  - left. lra.
  - left. lra.
  - left. lra.
  - right. split; [lra|].
    destruct H12 as [H12|[N12 H12]], H23 as [H23|[N23 H23]].
    + left. lia.
    + left. lia.
    + left. lia.
    + right. split; [congruence|]. eapply tuple_ltb_trans; eassumption.
Qed.

Lemma key_ltb_total k1 k2 :
  key_ltb k1 k2 = true \/ key_eqb k1 k2 = true \/ key_ltb k2 k1 = true.
Proof.
  destruct (Q_dec k1.1.1 k2.1.1) as [[Hlt|Hgt]|Heq].
  - left. apply key_ltb_spec. left. exact Hlt.
  - right. right. apply key_ltb_spec. left. exact Hgt.
  - destruct (lt_eq_lt_dec k1.1.2 k2.1.2) as [[Hn|Hn]|Hn].
    + left. apply key_ltb_spec. right. split; [exact Heq|]. left. exact Hn.
    + destruct (tuple_ltb_total k1.2 k2.2) as [Ht|[Ht|Ht]].
      * left. apply key_ltb_spec. right. split; [exact Heq|]. right. split; assumption.
      * right. left. destruct k1 as [[p1 n1] i1], k2 as [[p2 n2] i2]. cbn in *.
        apply Qeq_bool_iff in Heq. rewrite Heq.
        rewrite !bool_decide_eq_true_2 by assumption. reflexivity.
      * right. right. apply key_ltb_spec. right. split; [symmetry; exact Heq|].
        right. split; [congruence | assumption].
    + right. right. apply key_ltb_spec. right. split; [symmetry; exact Heq|].
      left. exact Hn.
Qed.

(** C9 (amended): the comparison of system irreducibility analyses is the
    strict total order of their keys [(phi, size of the subsystem, node
    indices)]: irreflexive, transitive, and any two keys are ordered or
    equal.  The cut is not part of the key: two analyses of the same
    subsystem are ordered by phi alone; when their phi are equal neither is
    smaller, and [min] returns the first of the two. *)
Theorem sia_order_by_phi_then_subsystem (CES : Type) :
  (forall k, key_ltb k k = false) /\
  (forall k1 k2 k3,
      key_ltb k1 k2 = true -> key_ltb k2 k3 = true -> key_ltb k1 k3 = true) /\
  (forall k1 k2,
      key_ltb k1 k2 = true \/ key_eqb k1 k2 = true \/ key_ltb k2 k1 = true) /\
  (forall a b : SystemIrreducibilityAnalysis CES,
      network_eqb (sia_network a) (sia_network b) = true ->
      sia_lt a b = Ok (key_ltb (order_by a) (order_by b))) /\
  (forall a b : SystemIrreducibilityAnalysis CES,
      sia_subsystem a = sia_subsystem b ->
      sia_lt a b = Ok (negb (Qle_bool (sia_phi b) (sia_phi a)))) /\
  (forall a b : SystemIrreducibilityAnalysis CES,
      sia_subsystem a = sia_subsystem b -> sia_phi a == sia_phi b ->
      sia_lt a b = Ok false /\ sia_lt b a = Ok false /\
      py_min sia_lt [a; b] = Ok a).
Proof.
  split; [exact key_ltb_irrefl|]. split; [exact key_ltb_trans|].
  split; [exact key_ltb_total|]. split; [|split].
  - intros a b Hn. unfold sia_lt. rewrite Hn. reflexivity.
  - intros a b. apply sia_lt_same_subsystem.
  - intros a b Hs Hphi.
    assert (sia_lt a b = Ok false) as Hab.
    { rewrite (sia_lt_same_subsystem a b Hs). f_equal.
      apply negb_false_iff, Qle_bool_iff. lra. }
    assert (sia_lt b a = Ok false) as Hba.
    { rewrite (sia_lt_same_subsystem b a (eq_sym Hs)). f_equal.
      apply negb_false_iff, Qle_bool_iff. lra. }
    split; [exact Hab|]. split; [exact Hba|].
    cbn [py_min foldl mbind result_bind]. rewrite Hba. reflexivity.
Qed.

Lemma sia_order_by_phi_then_subsystem_witness :
  sia_subsystem sia_cut_01 = sia_subsystem sia_cut_10 /\
  sia_phi sia_cut_01 == sia_phi sia_cut_10 /\
  sia_lt sia_cut_01 sia_cut_10 = Ok false /\
  sia_lt sia_cut_10 sia_cut_01 = Ok false /\
  py_min sia_lt [sia_cut_01; sia_cut_10] = Ok sia_cut_01.
Proof.
  assert (sia_subsystem sia_cut_01 = sia_subsystem sia_cut_10) as H1
    by reflexivity.
  assert (sia_phi sia_cut_01 == sia_phi sia_cut_10) as H2 by reflexivity.
  exact (conj H1 (conj H2
    (proj2 (proj2 (proj2 (proj2 (proj2 (sia_order_by_phi_then_subsystem unit)))))
       sia_cut_01 sia_cut_10 H1 H2))).
Defined.

(** The two analyses [sia_cut_01] and [sia_cut_10] differ in their cut only:
    neither is smaller than the other, and [min] returns whichever comes
    first. *)
Lemma sia_ties_not_broken_by_cut :
  ~ (forall a b : SystemIrreducibilityAnalysis unit,
        sia_subsystem a = sia_subsystem b ->
        sia_cut a <> sia_cut b ->
        sia_lt a b = Ok true \/ sia_lt b a = Ok true).
Proof.
  intros H.
  destruct (H sia_cut_01 sia_cut_10 eq_refl) as [E|E].
  - vm_compute. discriminate.
  - vm_compute in E. discriminate.
  - vm_compute in E. discriminate.
Qed.

Lemma min_of_tied_candidates_depends_on_order :
  py_min sia_lt [sia_cut_01; sia_cut_10] = Ok sia_cut_01 /\
  py_min sia_lt [sia_cut_10; sia_cut_01] = Ok sia_cut_10.
Proof. split; reflexivity. Qed.

(** ** Optimal transport *)

(** Sums of floats over lists. *)

Lemma qsum_ext {A} (f g : A -> Q) (l : list A) :
  (forall x, x ∈ l -> f x == g x) -> qsum (map f l) == qsum (map g l).
Proof.
  induction l as [|x l IH]; intros H; cbn; [reflexivity|].
  rewrite (H x) by left. rewrite IH; [reflexivity|].
  intros y Hy. apply H. right. exact Hy.
Qed.

Lemma qsum_le {A} (f g : A -> Q) (l : list A) :
  (forall x, x ∈ l -> f x <= g x) -> qsum (map f l) <= qsum (map g l).
Proof.
  unfold qsum. induction l as [|x l IH]; intros H; cbn; [lra|].
  pose proof (H x ltac:(left)).
  assert (fold_right Qplus 0 (map f l) <= fold_right Qplus 0 (map g l))
    by (apply IH; intros y Hy; apply H; right; exact Hy).
  lra.
Qed.

Lemma qsum_plus {A} (f g : A -> Q) (l : list A) :
  qsum (map (fun x => f x + g x) l) == qsum (map f l) + qsum (map g l).
Proof. induction l as [|x l IH]; simpl; [ring | rewrite IH; ring]. Qed.

Lemma qsum_minus {A} (f g : A -> Q) (l : list A) :
  qsum (map (fun x => f x - g x) l) == qsum (map f l) - qsum (map g l).
Proof. induction l as [|x l IH]; simpl; [ring | rewrite IH; ring]. Qed.

Lemma qsum_scale {A} (a : Q) (f : A -> Q) (l : list A) :
  qsum (map (fun x => a * f x) l) == a * qsum (map f l).
Proof. induction l as [|x l IH]; simpl; [ring | rewrite IH; ring]. Qed.

Lemma qsum_zero {A} (f : A -> Q) (l : list A) :
  (forall x, x ∈ l -> f x == 0) -> qsum (map f l) == 0.
Proof.
  induction l as [|x l IH]; intros H; cbn; [reflexivity|].
  rewrite (H x) by left. rewrite IH; [ring|]. intros y Hy. apply H. right. exact Hy.
Qed.

Lemma qsum_nonneg {A} (f : A -> Q) (l : list A) :
  (forall x, x ∈ l -> 0 <= f x) -> 0 <= qsum (map f l).
Proof.
  unfold qsum. induction l as [|x l IH]; intros H; cbn; [lra|].
  pose proof (H x ltac:(left)).
  assert (0 <= fold_right Qplus 0 (map f l))
    by (apply IH; intros y Hy; apply H; right; exact Hy).
  lra.
Qed.

Lemma qsum_swap {A B} (f : A -> B -> Q) (l1 : list A) (l2 : list B) :
  qsum (map (fun i => qsum (map (fun j => f i j) l2)) l1)
  == qsum (map (fun j => qsum (map (fun i => f i j) l1)) l2).
Proof.
  induction l1 as [|x l1 IH]; cbn.
  - symmetry. apply qsum_zero. reflexivity.
  - rewrite IH. rewrite (qsum_plus (fun j => f x j)). reflexivity.
Qed.

Lemma qsum_indicator {A} `{EqDecision A} (a : A) (F : A -> Q) (l : list A) :
  NoDup l -> a ∈ l ->
  qsum (map (fun j => if bool_decide (j = a) then F j else 0) l) == F a.
Proof.
  induction l as [|x l IH]; intros Hnd Hin; [inversion Hin|].
  apply NoDup_cons in Hnd as [Hx Hnd]. cbn.
  destruct (decide (x = a)) as [->|Hne].
  - rewrite bool_decide_eq_true_2 by reflexivity.
    rewrite qsum_zero; [ring|]. intros y Hy.
    rewrite bool_decide_eq_false_2; [reflexivity|]. intros ->. contradiction.
  - rewrite bool_decide_eq_false_2 by assumption.
    apply elem_of_cons in Hin as [?|Hin]; [congruence|].
    rewrite IH by assumption. ring.
Qed.

Lemma qsum_app_map {A} (f : A -> Q) (l1 l2 : list A) :
  qsum (map f (l1 ++ l2)) == qsum (map f l1) + qsum (map f l2).
Proof. rewrite map_app. apply qsum_app. Qed.

(** A sum over the indices of a list is the sum over the list. *)
Lemma qsum_seq_lookup {A} (d : A) (F : A -> Q) (l : list A) :
  qsum (map (fun i => F (default d (l !! i))) (seq 0 (length l)))
  == qsum (map F l).
Proof.
  induction l as [|x l IH]; [reflexivity|].
  cbn [length seq map qsum fold_right]. fold (qsum (map F l)).
  rewrite <- IH. cbn [lookup list_lookup default]. 
  apply Qplus_comp; [reflexivity|].
  rewrite <- seq_shift, map_map. reflexivity.
Qed.

Lemma entry_map {A} (d : A) (G : A -> Q) (l : list A) i :
  (i < length l)%nat -> entry (map G l) i = G (default d (l !! i)).
Proof.
  intros Hi. unfold entry. rewrite list_lookup_fmap.
  destruct (lookup_lt_is_Some_2 l i Hi) as [x Hx]. rewrite Hx. reflexivity.
Qed.

(** Optimal transport: a lower bound from a potential, and the cost of the
    flow [stay_or_drop]. *)

Lemma Qmult_le_nonneg_l (a b c : Q) : 0 <= a -> b <= c -> a * b <= a * c.
Proof. intros Ha Hbc. nra. Qed.

Lemma transport_lower_bound (f : nat -> nat -> Q) (d1 d2 : list Q)
      (M : list (list Q)) (u : nat -> Q) :
  feasible_flow f d1 d2 ->
  (forall i j, (i < length d1)%nat -> (j < length d1)%nat ->
               u i - u j <= matrix_entry M i j) ->
  qsum (map (fun i => u i * (entry d1 i - entry d2 i)) (seq 0 (length d1)))
  <= flow_cost f (length d1) M.
Proof.
  intros (Hnn & Hrow & Hcol) Hu. set (n := length d1) in *.
  assert (qsum (map (fun i => qsum (map (fun j => f i j * (u i - u j)) (seq 0 n)))
                    (seq 0 n))
          <= flow_cost f n M) as Hle.
  { unfold flow_cost. apply qsum_le. intros i Hi. apply elem_of_seq in Hi.
    apply qsum_le. intros j Hj. apply elem_of_seq in Hj.
    apply Qmult_le_nonneg_l; [apply Hnn; lia | apply Hu; lia]. }
  eapply Qle_trans; [|exact Hle]. apply Qle_lteq. right.
  transitivity (qsum (map (fun i => u i * entry d1 i) (seq 0 n))
                - qsum (map (fun j => u j * entry d2 j) (seq 0 n))).
  { rewrite <- qsum_minus. apply qsum_ext. intros i _. ring. }
  transitivity (qsum (map (fun i => qsum (map (fun j => u i * f i j) (seq 0 n))) (seq 0 n))
                - qsum (map (fun i => qsum (map (fun j => u j * f i j) (seq 0 n))) (seq 0 n))).
  { apply Qplus_comp.
    - apply qsum_ext. intros i Hi. apply elem_of_seq in Hi.
      rewrite qsum_scale, Hrow by lia. reflexivity.
    - apply Qopp_comp. rewrite qsum_swap. apply qsum_ext. intros j Hj.
      apply elem_of_seq in Hj. rewrite qsum_scale, Hcol by lia. reflexivity. }
  rewrite <- qsum_minus. apply qsum_ext. intros i _.
  rewrite <- qsum_minus. apply qsum_ext. intros j _. ring.
Qed.

Lemma stay_or_drop_feasible (g1 g2 : nat -> Q) (d1 d2 : list Q) :
  let n := length d1 in
  (0 < n)%nat ->
  (forall i, (i < n)%nat -> 0 <= g2 i /\ g2 i <= g1 i) ->
  (forall i, (i < n)%nat -> entry d1 i == g1 i) ->
  (forall j, (j < pred n)%nat -> entry d2 j == g2 j) ->
  entry d2 (pred n)
  == g2 (pred n) + qsum (map (fun i => g1 i - g2 i) (seq 0 n)) ->
  feasible_flow (stay_or_drop g1 g2 n) d1 d2.
Proof.
  intros n Hn Hg Hd1 Hd2 Hlast. unfold feasible_flow. fold n. repeat split.
  - intros i j Hi Hj. unfold stay_or_drop. destruct (Hg i Hi).
    repeat case_bool_decide; lra.
  - intros i Hi. unfold stay_or_drop. rewrite qsum_plus.
    rewrite (qsum_indicator i (fun _ => g2 i));
      [|apply NoDup_seq | apply elem_of_seq; lia].
    rewrite (qsum_indicator (pred n) (fun _ => g1 i - g2 i));
      [|apply NoDup_seq | apply elem_of_seq; lia].
    rewrite Hd1 by assumption. ring.
  - intros j Hj. unfold stay_or_drop. rewrite qsum_plus.
    assert (qsum (map (fun i => if bool_decide (j = i) then g2 i else 0) (seq 0 n))
            == g2 j) as ->.
    { rewrite <- (qsum_indicator j g2 (seq 0 n));
        [|apply NoDup_seq | apply elem_of_seq; lia].
      apply qsum_ext. intros i _. repeat case_bool_decide; subst; congruence || reflexivity. }
    destruct (decide (j = pred n)) as [->|Hne].
    + rewrite Hlast. apply Qplus_comp; [reflexivity|].
      apply qsum_ext. intros i _. rewrite bool_decide_eq_true_2 by reflexivity. reflexivity.
    + rewrite qsum_zero.
      * rewrite Hd2 by lia. ring.
      * intros i _. rewrite bool_decide_eq_false_2 by assumption. reflexivity.
Qed.

Lemma stay_or_drop_cost (g1 g2 : nat -> Q) (n : nat) (M : list (list Q)) :
  (0 < n)%nat ->
  (forall i, (i < n)%nat -> matrix_entry M i i == 0) ->
  flow_cost (stay_or_drop g1 g2 n) n M
  == qsum (map (fun i => (g1 i - g2 i) * matrix_entry M i (pred n)) (seq 0 n)).
Proof.
  intros Hn Hdiag. unfold flow_cost. apply qsum_ext. intros i Hi.
  apply elem_of_seq in Hi. unfold stay_or_drop.
  transitivity
    (qsum (map (fun j => if bool_decide (j = i) then g2 i * matrix_entry M i j else 0)
               (seq 0 n))
     + qsum (map (fun j => if bool_decide (j = pred n)
                           then (g1 i - g2 i) * matrix_entry M i j else 0)
                 (seq 0 n))).
  { rewrite <- qsum_plus. apply qsum_ext. intros j _. repeat case_bool_decide; ring. }
  rewrite (qsum_indicator i (fun j => g2 i * matrix_entry M i j));
    [|apply NoDup_seq | apply elem_of_seq; lia].
  rewrite (qsum_indicator (pred n) (fun j => (g1 i - g2 i) * matrix_entry M i j));
    [|apply NoDup_seq | apply elem_of_seq; lia].
  rewrite Hdiag by lia. ring.
Qed.

(** ** The fast path of the constellation distance *)

Lemma filter_nil_intro {A} (P : A -> Prop) `{forall x, Decision (P x)} (l : list A) :
  (forall x, x ∈ l -> ~ P x) -> filter P l = [].
Proof.
  induction l as [|x l IH]; intros Hl; [reflexivity|].
  rewrite filter_cons, decide_False by (apply Hl; left).
  apply IH. intros y Hy. apply Hl. right. exact Hy.
Qed.

Lemma entry_set_last (d : list Q) (x : Q) i :
  (i < length d)%nat ->
  entry (set_last d x) i = if decide (i = pred (length d)) then x else entry d i.
Proof.
  intros Hi. unfold entry, set_last. case_decide as E.
  - subst i. rewrite list_lookup_insert_eq by lia. reflexivity.
  - rewrite list_lookup_insert_ne by congruence. reflexivity.
Qed.

Lemma length_set_last (d : list Q) x : length (set_last d x) = length d.
Proof. unfold set_last. apply length_insert. Qed.

Section FastPath.

Context {Mice : Type} `{EqDecision Mice}.
Variables null_cause null_effect : Subsystem -> Mice.
Variables ecr eer : @Concept Mice -> Subsystem -> Cut -> Np.ndarray.
Variable hamming_emd : Np.ndarray -> Np.ndarray -> Q.
Variable s : Subsystem.
Variable cut : Cut.
Variables C1 C2 : list (@Concept Mice).

Hypothesis HC2 : NoDup C2.
Hypothesis Hsub : C2 ⊆ C1.
Hypothesis Hnull : null_concept null_cause null_effect s ∉ C1.
Hypothesis Hphi : forall c, c ∈ C1 -> 0 <= phi c.
Hypothesis Hmetric : pseudo_metric hamming_emd.

Lemma cd_refl a : concept_distance ecr eer hamming_emd a a s cut == 0.
Proof using Hmetric.
  destruct Hmetric as (Hr & _ & _). unfold concept_distance. cbn. rewrite !Hr. ring.
Qed.

Lemma cd_sym a b :
  concept_distance ecr eer hamming_emd a b s cut
  == concept_distance ecr eer hamming_emd b a s cut.
Proof using Hmetric.
  destruct Hmetric as (_ & Hs & _). unfold concept_distance. cbn.
  rewrite (Hs (ecr a s cut)), (Hs (eer a s cut)). reflexivity.
Qed.

Lemma cd_tri a b c :
  concept_distance ecr eer hamming_emd a c s cut
  <= concept_distance ecr eer hamming_emd a b s cut
     + concept_distance ecr eer hamming_emd b c s cut.
Proof using Hmetric.
  destruct Hmetric as (_ & _ & Ht). unfold concept_distance. cbn.
  pose proof (Ht (ecr a s cut) (ecr b s cut) (ecr c s cut)).
  pose proof (Ht (eer a s cut) (eer b s cut) (eer c s cut)). lra.
Qed.

Lemma only_in_C2_nil : filter (fun c => c ∉ C1) C2 = [].
Proof using Hsub. apply filter_nil_intro. intros c Hc Hn. apply Hn, Hsub, Hc. Qed.

Lemma null_not_in_C2 : null_concept null_cause null_effect s ∉ C2.
Proof using Hsub Hnull. intros Hin. apply Hnull, Hsub, Hin. Qed.

(** The mass that a concept has in [C1] but not in [C2]. *)
Lemma excess_mass c :
  (if bool_decide (c ∈ C1) then phi c else 0)
  - (if bool_decide (c ∈ C2) then phi c else 0)
  == if bool_decide (c ∈ C1 /\ c ∉ C2) then phi c else 0.
Proof using Hsub.
  pose proof (Hsub c) as Hc. clear -Hc.
  repeat case_bool_decide; try ring; exfalso; tauto.
Qed.

Lemma excess_mass_nonneg c :
  0 <= (if bool_decide (c ∈ C2) then phi c else 0) /\
  (if bool_decide (c ∈ C2) then phi c else 0)
  <= (if bool_decide (c ∈ C1) then phi c else 0).
Proof using Hsub Hphi.
  pose proof (Hsub c) as Hc. pose proof (Hphi c) as Hp. clear -Hc Hp.
  repeat case_bool_decide; try (exfalso; tauto); split; try lra; auto.
Qed.

Lemma residual_nonneg all :
  0 <= qsum (histogram C1 all) - qsum (histogram C2 all).
Proof using Hsub Hphi.
  unfold histogram. rewrite <- qsum_minus. apply qsum_nonneg. intros c _.
  pose proof (excess_mass_nonneg c). lra.
Qed.

Lemma emd_arguments_fast_path :
  let all := filter (fun c => c ∈ C2) C1 ++ filter (fun c => c ∉ C2) C1
             ++ [null_concept null_cause null_effect s] in
  let R := qsum (histogram C1 all) - qsum (histogram C2 all) in
  emd_arguments null_cause null_effect ecr eer hamming_emd C1 C2
                (filter (fun c => c ∉ C2) C1) (filter (fun c => c ∉ C1) C2) s cut
  = (all, histogram C1 all,
     if negb (Qle_bool R 0) then set_last (histogram C2 all) R else histogram C2 all,
     distance_matrix ecr eer hamming_emd all s cut).
Proof using Hsub Hphi.
  intros all R. unfold emd_arguments. rewrite only_in_C2_nil. cbn [app].
  fold all. fold R.
  assert (Qle_bool 0 R = true) as -> by (apply Qle_bool_iff, residual_nonneg).
  reflexivity.
Qed.

Lemma simple_unfold :
  _constellation_distance_simple null_cause null_effect ecr eer hamming_emd C1 C2 s cut
  = qsum (map (fun c => phi c * concept_distance ecr eer hamming_emd c
                                 (null_concept null_cause null_effect s) s cut)
              (filter (fun c => c ∉ C2) C1)).
Proof using HC2 Hsub.
  unfold _constellation_distance_simple.
  rewrite bool_decide_eq_false_2; [reflexivity|].
  pose proof (submseteq_length _ _ (NoDup_submseteq _ _ HC2 Hsub)). lia.
Qed.

(** The value both formulas compute: the excess mass of every concept times
    its distance from the null concept. *)
Lemma excess_cost_simple :
  let all := filter (fun c => c ∈ C2) C1 ++ filter (fun c => c ∉ C2) C1
             ++ [null_concept null_cause null_effect s] in
  qsum (map (fun c =>
               ((if bool_decide (c ∈ C1) then phi c else 0)
                - (if bool_decide (c ∈ C2) then phi c else 0))
               * concept_distance ecr eer hamming_emd
                                  (null_concept null_cause null_effect s) c s cut) all)
  == _constellation_distance_simple null_cause null_effect ecr eer hamming_emd
                                    C1 C2 s cut.
Proof using HC2 Hsub Hnull Hmetric.
  intros all. unfold all. rewrite simple_unfold, !qsum_app_map.
  rewrite qsum_zero.
  2:{ intros c Hc. apply list_elem_of_filter in Hc as [Hc2 Hc1].
      rewrite excess_mass, bool_decide_eq_false_2 by tauto. ring. }
  rewrite (qsum_ext _ (fun c => phi c * concept_distance ecr eer hamming_emd c
                            (null_concept null_cause null_effect s) s cut)
                    (filter (fun c => c ∉ C2) C1)).
  2:{ intros c Hc. apply list_elem_of_filter in Hc as [Hc2 Hc1].
      rewrite excess_mass, bool_decide_eq_true_2 by tauto.
      rewrite (cd_sym c). reflexivity. }
  cbn [map qsum fold_right]. rewrite excess_mass.
  rewrite bool_decide_eq_false_2 by tauto. ring.
Qed.

Lemma matrix_entry_distance (all : list (@Concept Mice)) d i j :
  (i < length all)%nat -> (j < length all)%nat ->
  matrix_entry (distance_matrix ecr eer hamming_emd all s cut) i j
  = concept_distance ecr eer hamming_emd (default d (all !! j)) (default d (all !! i)) s cut.
Proof using Type.
  intros Hi Hj. unfold matrix_entry, distance_matrix.
  rewrite list_lookup_fmap.
  destruct (lookup_lt_is_Some_2 all i Hi) as [ci Hci]. rewrite Hci.
  cbn [fmap option_fmap option_map from_option id].
  rewrite (entry_map d) by assumption. reflexivity.
Qed.

(** The simple formula is the Earth Mover's Distance of the histograms that
    the general formula builds. *)
Lemma simple_is_emd :
  let '(_, d1, d2, M) :=
    emd_arguments null_cause null_effect ecr eer hamming_emd C1 C2
                  (filter (fun c => c ∉ C2) C1) (filter (fun c => c ∉ C1) C2) s cut in
  is_emd d1 d2 M
         (_constellation_distance_simple null_cause null_effect ecr eer hamming_emd
                                         C1 C2 s cut).
Proof using HC2 Hsub Hnull Hphi Hmetric.
  rewrite emd_arguments_fast_path. cbv zeta.
  set (null := null_concept null_cause null_effect s).
  set (all := filter (fun c => c ∈ C2) C1 ++ filter (fun c => c ∉ C2) C1 ++ [null]).
  set (R := qsum (histogram C1 all) - qsum (histogram C2 all)).
  set (d2 := if negb (Qle_bool R 0) then set_last (histogram C2 all) R
             else histogram C2 all).
  set (G1 := fun c : @Concept Mice => if bool_decide (c ∈ C1) then phi c else 0).
  set (G2 := fun c : @Concept Mice => if bool_decide (c ∈ C2) then phi c else 0).
  set (cAt := fun i : nat => default null (all !! i)).
  set (n := length all).
  assert (length (histogram C1 all) = n) as Hlen1 by apply length_map.
  assert (length (histogram C2 all) = n) as Hlen2 by apply length_map.
  assert (0 < n)%nat as Hn by (unfold n, all; rewrite !length_app; cbn [length]; lia).
  assert (cAt (pred n) = null) as Hlast.
  { unfold cAt, n, all. rewrite app_assoc.
    rewrite lookup_app_r by (rewrite !length_app; cbn [length]; lia).
    rewrite !length_app. cbn [length].
    match goal with |- context [[null] !! ?k] => replace k with 0%nat by lia end.
    reflexivity. }
  assert (0 <= R) as HR by apply residual_nonneg.
  assert (forall i, (i < n)%nat -> entry (histogram C1 all) i = G1 (cAt i)) as Hd1.
  { intros i Hi. unfold histogram. apply (entry_map null). exact Hi. }
  assert (forall i, (i < n)%nat -> entry (histogram C2 all) i = G2 (cAt i)) as Hd2raw.
  { intros i Hi. unfold histogram. apply (entry_map null). exact Hi. }
  assert (forall j, (j < pred n)%nat -> entry d2 j = G2 (cAt j)) as Hd2.
  { intros j Hj. unfold d2. destruct (negb (Qle_bool R 0)).
    - rewrite entry_set_last by lia. rewrite Hlen2, decide_False by lia.
      apply Hd2raw. lia.
    - apply Hd2raw. lia. }
  assert (G1 null = 0 /\ G2 null = 0) as [HG1 HG2].
  { unfold G1, G2. rewrite !bool_decide_eq_false_2; auto using null_not_in_C2. }
  assert (qsum (map (fun i => G1 (cAt i) - G2 (cAt i)) (seq 0 n)) == R) as Hsum.
  { unfold R, histogram. fold G1 G2. rewrite <- qsum_minus.
    apply (qsum_seq_lookup null (fun c => G1 c - G2 c)). }
  assert (entry d2 (pred n) == R) as Hd2last.
  { unfold d2. destruct (Qle_bool R 0) eqn:E; cbn [negb].
    - rewrite Hd2raw by lia. rewrite Hlast, HG2. apply Qle_bool_iff in E. lra.
    - rewrite entry_set_last by lia. rewrite Hlen2, decide_True by reflexivity.
      reflexivity. }
  set (V := qsum (map (fun c => (G1 c - G2 c)
                   * concept_distance ecr eer hamming_emd null c s cut) all)).
  assert (V == _constellation_distance_simple null_cause null_effect ecr eer
                  hamming_emd C1 C2 s cut) as HV by apply excess_cost_simple.
  split.
  - exists (stay_or_drop (fun i => G1 (cAt i)) (fun i => G2 (cAt i)) n). split.
    + rewrite <- Hlen1. apply stay_or_drop_feasible; rewrite ?Hlen1.
      * exact Hn.
      * intros i Hi. apply excess_mass_nonneg.
      * intros i Hi. rewrite Hd1 by assumption. reflexivity.
      * intros j Hj. rewrite Hd2 by assumption. reflexivity.
      * cbv beta. rewrite Hd2last, Hsum, Hlast, HG2. ring.
    + rewrite Hlen1, stay_or_drop_cost; [|exact Hn|].
      * rewrite <- HV. unfold V.
        rewrite <- (qsum_seq_lookup null). fold n cAt.
        apply qsum_ext. intros i Hi. apply elem_of_seq in Hi.
        rewrite (matrix_entry_distance all null) by (fold n; lia).
        pose proof Hlast as Hlast'. unfold cAt in Hlast'. cbv beta in Hlast'.
        rewrite Hlast'. reflexivity.
      * intros i Hi. rewrite (matrix_entry_distance all null) by (fold n; lia).
        apply cd_refl.
  - intros f Hf. rewrite <- HV.
    pose proof (transport_lower_bound f (histogram C1 all) d2
                  (distance_matrix ecr eer hamming_emd all s cut)
                  (fun i => concept_distance ecr eer hamming_emd null (cAt i) s cut) Hf)
      as Hlb.
    rewrite Hlen1 in Hlb |- *. eapply Qle_trans; [|apply Hlb].
    + apply Qle_lteq. right. unfold V.
      rewrite <- (qsum_seq_lookup null). fold n cAt.
      apply qsum_ext. intros i Hi. apply elem_of_seq in Hi.
      cbv beta. change (default null (all !! i)) with (cAt i).
      rewrite Hd1 by lia. destruct (decide (i = pred n)) as [->|Hne].
      * rewrite Hlast, HG1, HG2. rewrite cd_refl. ring.
      * rewrite Hd2 by lia. ring.
    + intros i j Hi Hj.
      rewrite (matrix_entry_distance all null) by (fold n; lia).
      pose proof (cd_tri null (cAt j) (cAt i)) as Ht. unfold cAt in *. lra.
Qed.

End FastPath.

Lemma is_emd_unique d1 d2 M v w : is_emd d1 d2 M v -> is_emd d1 d2 M w -> v == w.
Proof.
  intros [(fv & Hfv & Hcv) Hminv] [(fw & Hfw & Hcw) Hminw].
  pose proof (Hminv fw Hfw). pose proof (Hminw fv Hfv). lra.
Qed.

Lemma is_emd_wd d1 d2 M v w : v == w -> is_emd d1 d2 M v -> is_emd d1 d2 M w.
Proof.
  intros E [(f & Hf & Hc) Hmin]. split.
  - exists f. split; [exact Hf | lra].
  - intros g Hg. specialize (Hmin g Hg). lra.
Qed.


Lemma example_hamming_emd_pseudo_metric : pseudo_metric example_hamming_emd.
Proof.
  unfold pseudo_metric, example_hamming_emd. repeat split.
  - intros x. assert (Np.sum x - Np.sum x == 0) as -> by ring. reflexivity.
  - intros x y. rewrite Qabs_Qminus. reflexivity.
  - intros x y z.
    assert (Np.sum x - Np.sum z
            == (Np.sum x - Np.sum y) + (Np.sum y - Np.sum z)) as -> by ring.
    apply Qabs_triangle.
Qed.


(** ** Concepts and their stores *)

Section ConceptCaches.

Context {Mice : Type} `{EqDecision Mice}.
Context {Key : Type} `{Countable Key}.
Variable mice_phi : Mice -> Q.
Variable core_cause core_effect : Subsystem -> list nat -> Cut -> Mice.
Variable _all_connect_to_any _any_connect_to_all :
  Subsystem -> list nat -> list nat -> bool.
Variable raw_key norm_key : Subsystem -> list nat -> Cut -> Key.
Variable EPSILON : Q.

Lemma _concept_body_some s m c x :
  _concept_body mice_phi core_cause core_effect EPSILON s m c = Some x ->
  mechanism x = m /\
  phi x = min2 (mice_phi (core_cause s m c)) (mice_phi (core_effect s m c)) /\
  EPSILON <= phi x.
Proof using Type.
  unfold _concept_body.
  destruct (Qle_bool EPSILON _) eqn:E; cbn [negb]; [|discriminate].
  intros [= <-]. cbn. apply Qle_bool_iff in E. auto.
Qed.

Lemma _concept_body_proper s m c :
  m <> [] ->
  proper_concept EPSILON (_concept_body mice_phi core_cause core_effect EPSILON s m c).
Proof using Type.
  intros Hm x Hx. apply _concept_body_some in Hx as (-> & _ & ?). auto.
Qed.

Lemma proper_None : proper_concept EPSILON (@None (@Concept Mice)).
Proof using Type. intros x. discriminate. Qed.

(** *** The stores hold proper concepts only *)

Lemma concept_proper caches s m c :
  caches_proper EPSILON caches ->
  let res := concept mice_phi core_cause core_effect _all_connect_to_any
                     _any_connect_to_all raw_key norm_key EPSILON caches s m c in
  proper_concept EPSILON res.1 /\ caches_proper EPSILON res.2.
Proof using Type.
  intros [Hdb Hmemo]. unfold concept.
  destruct m as [|n m]; [cbn; split; [apply proper_None | split; assumption]|].
  set (mech := n :: m).
  assert (forall (k : Key) (r : option (@Concept Mice)) (cs : @Caches Mice Key _ _),
             (forall k r, db cs !! k = Some r -> proper_concept EPSILON r) ->
             (forall k r, memo cs !! k = Some r -> proper_concept EPSILON r) ->
             let res := _concept mice_phi core_cause core_effect EPSILON cs k s mech c in
             proper_concept EPSILON res.1 /\ db res.2 = db cs /\
             (forall k r, memo res.2 !! k = Some r -> proper_concept EPSILON r)) as Hc.
  { intros k _ cs Hd Hm. unfold _concept.
    destruct (memo cs !! k) as [r|] eqn:E; cbn.
    - split; [eapply Hm; exact E|]. split; [reflexivity | exact Hm].
    - split; [apply _concept_body_proper; discriminate|]. split; [reflexivity|].
      intros k' r' Hk'. destruct (decide (k = k')) as [<-|Hne].
      + rewrite lookup_insert_eq in Hk'. injection Hk' as <-.
        apply _concept_body_proper. discriminate.
      + rewrite lookup_insert_ne in Hk' by assumption. eauto. }
  assert (forall r cs,
             _concept mice_phi core_cause core_effect EPSILON caches
                      (norm_key s mech c) s mech c = (r, cs) ->
             proper_concept EPSILON r /\
             caches_proper EPSILON
               (mkCaches (<[raw_key s mech c := r]> (db cs)) (memo cs))) as Hstore.
  { intros r cs Er.
    destruct (Hc (norm_key s mech c) None caches Hdb Hmemo) as (Hp & Hd & Hm).
    rewrite Er in Hp, Hd, Hm. cbn in Hp, Hd, Hm.
    split; [exact Hp|]. split; [|exact Hm]. cbn.
    intros k' r' Hk'. destruct (decide (raw_key s mech c = k')) as [<-|Hne].
    - rewrite lookup_insert_eq in Hk'. injection Hk' as <-. exact Hp.
    - rewrite lookup_insert_ne in Hk' by assumption. rewrite Hd in Hk'. eauto. }
  destruct (negb _); [cbn; split; [apply proper_None | split; assumption]|].
  destruct (db caches !! raw_key s mech c) as [[cv|]|] eqn:E.
  - cbn. split; [eapply Hdb; exact E | split; assumption].
  - destruct (_concept _ _ _ _ caches _ s mech c) as [r cs] eqn:Er.
    cbn. apply Hstore. reflexivity.
  - destruct (_concept _ _ _ _ caches _ s mech c) as [r cs] eqn:Er.
    cbn. apply Hstore. reflexivity.
Qed.

Lemma concepts_of_proper s c mechanisms : forall caches,
  caches_proper EPSILON caches ->
  let res := concepts_of mice_phi core_cause core_effect _all_connect_to_any
                         _any_connect_to_all raw_key norm_key EPSILON
                         caches s c mechanisms in
  Forall (proper_concept EPSILON) res.1 /\ caches_proper EPSILON res.2.
Proof using Type.
  induction mechanisms as [|m rest IH]; intros caches Hp; cbn.
  - split; [constructor | exact Hp].
  - pose proof (concept_proper caches s m c Hp) as [Hr Hp'].
    destruct (concept _ _ _ _ _ _ _ _ caches s m c) as [r caches'].
    cbn in Hr, Hp'. specialize (IH caches' Hp').
    destruct (concepts_of _ _ _ _ _ _ _ _ caches' s c rest) as [rs caches''].
    cbn in *. destruct IH as [Hrs Hp'']. split; [constructor; assumption | exact Hp''].
Qed.

(** *** The stores are transparent when fingerprints are sound *)

Lemma concept_transparent caches s m c :
  fingerprint_sound mice_phi core_cause core_effect raw_key norm_key EPSILON ->
  caches_coherent mice_phi core_cause core_effect raw_key norm_key EPSILON caches ->
  let res := concept mice_phi core_cause core_effect _all_connect_to_any
                     _any_connect_to_all raw_key norm_key EPSILON caches s m c in
  res.1 = concept_uncached mice_phi core_cause core_effect _all_connect_to_any
                           _any_connect_to_all EPSILON s m c /\
  caches_coherent mice_phi core_cause core_effect raw_key norm_key EPSILON res.2.
Proof using Type.
  intros [Hraw Hnorm] [Hdb Hmemo]. unfold concept, concept_uncached.
  destruct m as [|n m]; [cbn; split; [reflexivity | split; assumption]|].
  set (mech := n :: m).
  destruct (negb _); [cbn; split; [reflexivity | split; assumption]|].
  assert (forall r cs,
             _concept mice_phi core_cause core_effect EPSILON caches
                      (norm_key s mech c) s mech c = (r, cs) ->
             r = _concept_body mice_phi core_cause core_effect EPSILON s mech c /\
             caches_coherent mice_phi core_cause core_effect raw_key norm_key EPSILON
               (mkCaches (<[raw_key s mech c := r]> (db cs)) (memo cs))) as Hstore.
  { intros r cs. unfold _concept.
    destruct (memo caches !! norm_key s mech c) as [r0|] eqn:E; intros [= <- <-].
    - destruct (Hmemo _ _ E) as (s' & m' & c' & Hm' & Hk & ->).
      rewrite (Hnorm _ _ _ _ _ _ Hk). split; [reflexivity|]. split; [|exact Hmemo].
      cbn. intros k r Hkr. destruct (decide (raw_key s mech c = k)) as [<-|Hne].
      + rewrite lookup_insert_eq in Hkr. injection Hkr as <-.
        exists s, mech, c. split; [discriminate|]. split; reflexivity.
      + rewrite lookup_insert_ne in Hkr by assumption. eauto.
    - split; [reflexivity|]. split; cbn.
      + intros k r Hkr. destruct (decide (raw_key s mech c = k)) as [<-|Hne].
        * rewrite lookup_insert_eq in Hkr. injection Hkr as <-.
          exists s, mech, c. split; [discriminate|]. split; reflexivity.
        * rewrite lookup_insert_ne in Hkr by assumption. eauto.
      + intros k r Hkr. destruct (decide (norm_key s mech c = k)) as [<-|Hne].
        * rewrite lookup_insert_eq in Hkr. injection Hkr as <-.
          exists s, mech, c. split; [discriminate|]. split; reflexivity.
        * rewrite lookup_insert_ne in Hkr by assumption. eauto. }
  destruct (db caches !! raw_key s mech c) as [[cv|]|] eqn:E.
  - cbn. split; [|split; assumption].
    destruct (Hdb _ _ E) as (s' & m' & c' & Hm' & Hk & Hr).
    rewrite Hr. apply Hraw. exact Hk.
  - destruct (_concept _ _ _ _ caches _ s mech c) as [r cs] eqn:Er.
    cbn. apply Hstore. reflexivity.
  - destruct (_concept _ _ _ _ caches _ s mech c) as [r cs] eqn:Er.
    cbn. apply Hstore. reflexivity.
Qed.

Lemma concepts_of_transparent s c mechanisms : forall caches,
  fingerprint_sound mice_phi core_cause core_effect raw_key norm_key EPSILON ->
  caches_coherent mice_phi core_cause core_effect raw_key norm_key EPSILON caches ->
  let res := concepts_of mice_phi core_cause core_effect _all_connect_to_any
                         _any_connect_to_all raw_key norm_key EPSILON
                         caches s c mechanisms in
  res.1 = map (fun m => concept_uncached mice_phi core_cause core_effect
                          _all_connect_to_any _any_connect_to_all EPSILON s m c)
              mechanisms /\
  caches_coherent mice_phi core_cause core_effect raw_key norm_key EPSILON res.2.
Proof using Type.
  induction mechanisms as [|m rest IH]; intros caches Hs Hco; cbn.
  - split; [reflexivity | exact Hco].
  - pose proof (concept_transparent caches s m c Hs Hco) as [Hr Hco'].
    destruct (concept _ _ _ _ _ _ _ _ caches s m c) as [r caches'].
    cbn in Hr, Hco'. specialize (IH caches' Hs Hco').
    destruct (concepts_of _ _ _ _ _ _ _ _ caches' s c rest) as [rs caches''].
    cbn in *. destruct IH as [Hrs Hco'']. split; [congruence | exact Hco''].
Qed.

Lemma constellation_transparent caches s c :
  fingerprint_sound mice_phi core_cause core_effect raw_key norm_key EPSILON ->
  caches_coherent mice_phi core_cause core_effect raw_key norm_key EPSILON caches ->
  let res := constellation mice_phi core_cause core_effect _all_connect_to_any
                           _any_connect_to_all raw_key norm_key EPSILON caches s c in
  res.1 = constellation_uncached mice_phi core_cause core_effect _all_connect_to_any
                                 _any_connect_to_all EPSILON s c /\
  caches_coherent mice_phi core_cause core_effect raw_key norm_key EPSILON res.2.
Proof using Type.
  intros Hs Hco. unfold constellation, constellation_uncached.
  generalize (powerset (node_indices s)). intros ms.
  pose proof (concepts_of_transparent s c ms caches Hs Hco) as [Hr Hco'].
  destruct (concepts_of _ _ _ _ _ _ _ _ caches s c _) as [rs caches'].
  cbn in *. split; [|exact Hco']. rewrite Hr. clear.
  induction ms as [|m ms IH]; [reflexivity|]. cbn.
  destruct (concept_uncached _ _ _ _ _ _ s m c); cbn; congruence.
Qed.

(** [min(a, b)]: the smaller of the two, one of them. *)
Lemma min2_spec (a b : Q) :
  min2 a b <= a /\ min2 a b <= b /\ (min2 a b = a \/ min2 a b = b).
Proof using Type.
  unfold min2. destruct (Qle_bool a b) eqn:E.
  - apply Qle_bool_iff in E. split; [apply Qle_refl|]. split; [exact E | left; reflexivity].
  - assert (b <= a) as Hba.
    { apply Qlt_le_weak, Qnot_le_lt. intros Hab. apply Qle_bool_iff in Hab.
      congruence. }
    split; [exact Hba|]. split; [apply Qle_refl | right; reflexivity].
Qed.

Lemma constellation_proper caches s c :
  caches_proper EPSILON caches ->
  let res := constellation mice_phi core_cause core_effect _all_connect_to_any
                           _any_connect_to_all raw_key norm_key EPSILON caches s c in
  Forall (fun x => mechanism x <> [] /\ EPSILON <= phi x) res.1 /\
  caches_proper EPSILON res.2.
Proof using Type.
  intros Hp. unfold constellation. generalize (powerset (node_indices s)). intros ms.
  pose proof (concepts_of_proper s c ms caches Hp) as [Hr Hp'].
  destruct (concepts_of _ _ _ _ _ _ _ _ caches s c _) as [rs caches'].
  cbn in *. split; [|exact Hp'].
  induction Hr as [|r rs Hr Hrs IH]; [constructor|].
  cbn. destruct r as [x|]; cbn; [|exact IH].
  constructor; [apply Hr; reflexivity | exact IH].
Qed.

(** C3 (amended): when the stores hold only concepts of non-empty
    mechanisms with phi at least EPSILON, every concept of the
    constellation returned by [constellation] has a non-empty mechanism and
    phi at least EPSILON, and the stores hold only such concepts afterwards
    (a concept found in [db] is returned as stored, before the comparison
    with EPSILON).  When moreover the stores hold what [_concept] computed
    and equal fingerprints mean equal concepts, a concept of the
    constellation carries the maximally irreducible cause and effect of its
    mechanism, its phi is the smaller of their two phi, and a mechanism
    whose cause phi or effect phi is below EPSILON is the mechanism of no
    concept of the constellation. *)
Theorem constellation_concept_filter caches s c :
  caches_proper EPSILON caches ->
  let res := constellation mice_phi core_cause core_effect _all_connect_to_any
                           _any_connect_to_all raw_key norm_key EPSILON caches s c in
  Forall (fun x => mechanism x <> [] /\ EPSILON <= phi x) res.1 /\
  caches_proper EPSILON res.2 /\
  (fingerprint_sound mice_phi core_cause core_effect raw_key norm_key EPSILON ->
   caches_coherent mice_phi core_cause core_effect raw_key norm_key EPSILON caches ->
   (forall x, x ∈ res.1 ->
      cause x = core_cause s (mechanism x) c /\
      effect x = core_effect s (mechanism x) c /\
      phi x <= mice_phi (cause x) /\ phi x <= mice_phi (effect x) /\
      (phi x = mice_phi (cause x) \/ phi x = mice_phi (effect x))) /\
   (forall m,
      mice_phi (core_cause s m c) < EPSILON \/
      mice_phi (core_effect s m c) < EPSILON ->
      forall x, x ∈ res.1 -> mechanism x <> m)).
Proof using Type.
  intros Hp res.
  destruct (constellation_proper caches s c Hp) as [Hall Hp'].
  split; [exact Hall|]. split; [exact Hp'|].
  intros Hs Hco.
  pose proof (constellation_transparent caches s c Hs Hco) as [Hr _].
  fold res in Hr.
  assert (forall x, x ∈ res.1 ->
            cause x = core_cause s (mechanism x) c /\
            effect x = core_effect s (mechanism x) c /\
            phi x = min2 (mice_phi (cause x)) (mice_phi (effect x)) /\
            EPSILON <= phi x) as Hform.
  { intros x Hx. rewrite Hr in Hx. unfold constellation_uncached in Hx.
    apply list_elem_of_omap in Hx as (m' & _ & Hm').
    unfold concept_uncached in Hm'. destruct m' as [|n m']; [discriminate|].
    destruct (negb _); [discriminate|].
    unfold _concept_body in Hm'.
    destruct (negb (Qle_bool EPSILON _)) eqn:E; [discriminate|].
    injection Hm' as <-. cbn [cause effect mechanism phi].
    repeat (split; [reflexivity|]).
    apply negb_false_iff, Qle_bool_iff in E. exact E. }
  split.
  - intros x Hx. destruct (Hform x Hx) as (Hc & He & Hphi & _).
    split; [exact Hc|]. split; [exact He|]. rewrite Hphi.
    destruct (min2_spec (mice_phi (cause x)) (mice_phi (effect x)))
      as (H1 & H2 & H3).
    auto.
  - intros m Hlt x Hx Hmx. destruct (Hform x Hx) as (Hc & He & Hphi & Hge).
    destruct (min2_spec (mice_phi (cause x)) (mice_phi (effect x)))
      as (H1 & H2 & _).
    rewrite <- Hphi in H1, H2. rewrite Hc, Hmx in H1. rewrite He, Hmx in H2.
    destruct Hlt as [Hlt|Hlt]; lra.
Qed.

End ConceptCaches.

Lemma example_fingerprint_sound EPSILON :
  fingerprint_sound (fun q : Q => q) example_core example_core example_key
                    example_key EPSILON.
Proof.
  split; intros s m c s' m' c' Hk; unfold example_key in Hk; subst m';
    reflexivity.
Qed.

Lemma empty_caches_coherent EPSILON :
  caches_coherent (fun q : Q => q) example_core example_core example_key
                  example_key EPSILON empty_caches.
Proof.
  split; intros k r Hk; cbn in Hk; rewrite lookup_empty in Hk; discriminate.
Qed.

Lemma empty_caches_proper EPSILON : caches_proper EPSILON empty_caches.
Proof.
  split; intros k r Hk; cbn in Hk; rewrite lookup_empty in Hk; discriminate.
Qed.

Lemma constellation_concept_filter_witness :
  caches_proper (3 # 2) empty_caches /\
  fingerprint_sound (fun q : Q => q) example_core example_core example_key
                    example_key (3 # 2) /\
  caches_coherent (fun q : Q => q) example_core example_core example_key
                  example_key (3 # 2) empty_caches /\
  example_core and_copy_subsystem [0%nat] None < 3 # 2 /\
  let res := constellation (fun q : Q => q) example_core example_core
                           example_connect example_connect example_key
                           example_key (3 # 2) empty_caches and_copy_subsystem
                           None in
  Forall (fun x => mechanism x <> [] /\ 3 # 2 <= phi x) res.1 /\
  caches_proper (3 # 2) res.2 /\
  (fingerprint_sound (fun q : Q => q) example_core example_core example_key
                     example_key (3 # 2) ->
   caches_coherent (fun q : Q => q) example_core example_core example_key
                   example_key (3 # 2) empty_caches ->
   (forall x, x ∈ res.1 ->
      cause x = example_core and_copy_subsystem (mechanism x) None /\
      effect x = example_core and_copy_subsystem (mechanism x) None /\
      phi x <= cause x /\ phi x <= effect x /\
      (phi x = cause x \/ phi x = effect x)) /\
   (forall m,
      example_core and_copy_subsystem m None < 3 # 2 \/
      example_core and_copy_subsystem m None < 3 # 2 ->
      forall x, x ∈ res.1 -> mechanism x <> m)).
Proof.
  assert (example_core and_copy_subsystem [0%nat] None < 3 # 2) as H0
    by reflexivity.
  exact (conj (empty_caches_proper (3 # 2))
          (conj (example_fingerprint_sound (3 # 2))
            (conj (empty_caches_coherent (3 # 2))
              (conj H0
                (constellation_concept_filter (fun q : Q => q) example_core
                   example_core example_connect example_connect example_key
                   example_key (3 # 2) empty_caches and_copy_subsystem None
                   (empty_caches_proper (3 # 2))))))).
Defined.

(** The claim as stated fails on stores filled under a smaller EPSILON.
    A run with EPSILON = 1/2 stores the concepts of the mechanisms [(0,)]
    and [(1,)], of phi 1; with EPSILON = 3/2 on these stores
    [constellation] returns them from [db], though their phi is below
    EPSILON. *)
Lemma constellation_returns_stored_concept :
  let stores :=
    (constellation (fun q : Q => q) example_core example_core example_connect
                   example_connect example_key example_key (1 # 2)
                   empty_caches and_copy_subsystem None).2 in
  let C :=
    (constellation (fun q : Q => q) example_core example_core example_connect
                   example_connect example_key example_key (3 # 2)
                   stores and_copy_subsystem None).1 in
  exists x, x ∈ C /\ mechanism x = [0%nat] /\ phi x == 1 /\ phi x < 3 # 2 /\
            cause x < 3 # 2 /\ effect x < 3 # 2.
Proof.
  cbv zeta.
  exists (mkConcept [0%nat] (example_core and_copy_subsystem [0%nat] None)
                    (example_core and_copy_subsystem [0%nat] None)
                    (example_core and_copy_subsystem [0%nat] None)).
  split; [vm_compute; set_solver|].
  cbn [mechanism phi cause effect]. split; [reflexivity|].
  split; [reflexivity|]. split; [reflexivity|]. split; reflexivity.
Qed.

(** ** The EMD path in both orders *)

Lemma no_flow_from_negative_mass d1 d2 M v i :
  (i < length d1)%nat -> entry d1 i < 0 -> ~ is_emd d1 d2 M v.
Proof.
  intros Hi Hneg [(f & (Hnn & Hrow & _) & _) _].
  specialize (Hrow i Hi).
  assert (0 <= qsum (map (fun j => f i j) (seq 0 (length d1)))) as H0.
  { apply qsum_nonneg. intros j Hj. apply elem_of_seq in Hj. apply Hnn; lia. }
  lra.
Qed.

(** C6: the two orders of the constellations [[concept_01]] and
    [[concept_0; concept_1]] on the EMD path.  With the first constellation
    lighter than the second the residual is negative and is written as it
    is into the last bin of the first histogram: the solver receives a
    histogram with a negative entry and total mass 0 against one of total
    mass 2, for which no flow exists, so that no value is their Earth
    Mover's Distance.  In the opposite order both histograms have mass 2. *)
Theorem constellation_distance_emd_signed_histogram
    (expand_cause_repertoire expand_effect_repertoire :
       @Concept unit -> Subsystem -> Cut -> Np.ndarray)
    (hamming_emd : Np.ndarray -> Np.ndarray -> Q)
    (emd : list Q -> list Q -> list (list Q) -> Q)
    (subsystem : Subsystem) (cut : Cut) :
  let distance :=
    constellation_distance example_null_mice example_null_mice
      expand_cause_repertoire expand_effect_repertoire hamming_emd emd in
  let matrix all_concepts :=
    distance_matrix expand_cause_repertoire expand_effect_repertoire
      hamming_emd all_concepts subsystem cut in
  let null := null_concept example_null_mice example_null_mice subsystem in
  let M12 := matrix [concept_01; concept_0; concept_1; null] in
  let M21 := matrix [concept_0; concept_1; concept_01; null] in
  distance [concept_01] [concept_0; concept_1] subsystem cut
    = emd [1; 0; 0; -1] [0; 1; 1; 0] M12 /\
  distance [concept_0; concept_1] [concept_01] subsystem cut
    = emd [1; 1; 0; 0] [0; 0; 1; 1] M21 /\
  (forall v, ~ is_emd [1; 0; 0; -1] [0; 1; 1; 0] M12 v) /\
  qsum [1; 0; 0; -1] == 0 /\ qsum [0; 1; 1; 0] == 2 /\
  qsum [1; 1; 0; 0] == 2 /\ qsum [0; 0; 1; 1] == 2.
Proof.
  cbv zeta. split; [reflexivity|]. split; [reflexivity|]. split.
  - intros v. apply (no_flow_from_negative_mass _ _ _ _ 3); cbn; [lia|reflexivity].
  - repeat split; reflexivity.
Qed.

(** ** Selections by binary digits *)

Lemma exists_bits (f : nat -> bool) m :
  exists k, forall p, Nat.testbit k p = (p <? m)%nat && f p.
Proof.
  induction m as [|m (k & Hk)].
  - exists 0%nat. intros p. rewrite Nat.bits_0. reflexivity.
  - destruct (f m) eqn:E.
    + exists (Nat.setbit k m). intros p. rewrite Nat.setbit_eqb, Hk.
      destruct (Nat.eqb_spec m p) as [->|Hne].
      * rewrite orb_true_l, E, andb_true_r. symmetry. apply Nat.ltb_lt. lia.
      * rewrite orb_false_l.
        destruct (Nat.ltb_spec p m), (Nat.ltb_spec p (S m)); try lia; reflexivity.
    + exists k. intros p. rewrite Hk.
      destruct (Nat.ltb_spec p m), (Nat.ltb_spec p (S m)); try lia; try reflexivity.
      assert (p = m) as -> by lia. rewrite E. reflexivity.
Qed.

Lemma bits_lt_pow2 k m :
  (forall p, (m <= p)%nat -> Nat.testbit k p = false) -> (k < 2 ^ m)%nat.
Proof.
  intros H. destruct (Nat.eq_dec k 0%nat) as [->|Hk].
  - apply Nat.neq_0_lt_0, Nat.pow_nonzero. discriminate.
  - apply Nat.log2_lt_pow2; [lia|].
    destruct (Nat.lt_ge_cases (Nat.log2 k) m) as [Hlt|Hge]; [exact Hlt|].
    specialize (H _ Hge). rewrite Nat.bit_log2 in H by exact Hk. discriminate.
Qed.

Lemma elem_of_zip_seq {A} (a : list A) p x :
  (p, x) ∈ zip (seq 0 (length a)) a <-> a !! p = Some x.
Proof.
  rewrite list_elem_of_lookup. split.
  - intros (i & Hi). rewrite lookup_zip_with in Hi.
    destruct (seq 0 (length a) !! i) as [p'|] eqn:Es; [|discriminate].
    destruct (a !! i) as [x'|] eqn:Ea; [|discriminate].
    cbn in Hi. injection Hi as -> ->. apply lookup_seq in Es as [-> _]. exact Ea.
  - intros Hp. exists p. rewrite lookup_zip_with, Hp.
    rewrite (lookup_seq_lt 0 (length a) p) by (eapply lookup_lt_Some; exact Hp).
    reflexivity.
Qed.

Lemma elem_of_bitstring_index {A} (a : list A) k flip x :
  x ∈ select_bits a k flip <->
  exists p, a !! p = Some x /\ xorb (Nat.testbit k p) flip = true.
Proof.
  unfold select_bits. rewrite list_elem_of_omap. split.
  - intros ([p y] & Hin & Hsel). apply elem_of_zip_seq in Hin.
    destruct (xorb (Nat.testbit k p) flip) eqn:E; [|discriminate].
    injection Hsel as ->. eauto.
  - intros (p & Hp & Hsel). exists (p, x). split; [apply elem_of_zip_seq; exact Hp|].
    rewrite Hsel. reflexivity.
Qed.

(** ** The guards of [_big_mip] and the slice of the bipartitions *)

Section BigMipProofs.

Context {Mice : Type} `{EqDecision Mice}.
Context {Key : Type} `{Countable Key}.
Variable mice_phi : Mice -> Q.
Variable core_cause core_effect : Subsystem -> list nat -> Cut -> Mice.
Variable _all_connect_to_any _any_connect_to_all :
  Subsystem -> list nat -> list nat -> bool.
Variable raw_key norm_key : Subsystem -> list nat -> Cut -> Key.
Variable EPSILON : Q.
Variable SINGLE_NODES_WITH_SELFLOOPS_HAVE_PHI : bool.
Variable null_cause null_effect : Subsystem -> Mice.
Variable expand_cause_repertoire expand_effect_repertoire :
  @Concept Mice -> Subsystem -> Cut -> Np.ndarray.
Variable hamming_emd : Np.ndarray -> Np.ndarray -> Q.
Variable emd : list Q -> list Q -> list (list Q) -> Q.

(** Two or more nodes: the guards for one node and for no node do not
    fire, and the outcome is decided by the number of components. *)
Lemma _big_mip_components caches s cm :
  (2 <= length (node_indices s))%nat ->
  submatrix (net_cm (network s)) (node_indices s) = Ok cm ->
  _big_mip mice_phi core_cause core_effect _all_connect_to_any
           _any_connect_to_all raw_key norm_key EPSILON
           SINGLE_NODES_WITH_SELFLOOPS_HAVE_PHI null_cause null_effect
           expand_cause_repertoire expand_effect_repertoire hamming_emd emd
           caches s
  = if bool_decide (1 < connected_components cm)%nat
    then (Ok (_null_mip s), caches)
    else (Raise TypeError, caches).
Proof using Type.
  intros Hlen Hcm. unfold _big_mip.
  rewrite bool_decide_eq_false_2 by lia.
  rewrite bool_decide_eq_false_2
    by (intros E; rewrite E in Hlen; cbn in Hlen; lia).
  rewrite Hcm. destruct (bool_decide (1 < connected_components cm)%nat);
    reflexivity.
Qed.

End BigMipProofs.

(** C1: [big_mip] on the chain of two nodes (the only connection is
    0 -> 1).  The subsystem has two nodes and its connectivity matrix is
    not strongly connected, but it is one component for
    [connected_components], which counts weakly connected components; the
    guard does not fire, and the slice of the generator of bipartitions
    raises [TypeError].  No BigMip is returned, whatever the options, the
    cause and effect search and the stores; the stores are left as they
    were. *)
Theorem big_mip_chain_raises_TypeError :
  length (node_indices chain_subsystem) = 2%nat /\
  submatrix (net_cm (network chain_subsystem)) (node_indices chain_subsystem)
    = Ok [[0; 1]; [0; 0]]%nat /\
  strongly_connected [[0; 1]; [0; 0]]%nat = false /\
  connected_components [[0; 1]; [0; 0]]%nat = 1%nat /\
  forall (Mice : Type) (Mice_eq_dec : EqDecision Mice)
         (Key : Type) (Key_eq_dec : EqDecision Key) (Key_countable : Countable Key)
         (mice_phi : Mice -> Q)
         (core_cause core_effect : Subsystem -> list nat -> Cut -> Mice)
         (_all_connect_to_any _any_connect_to_all :
            Subsystem -> list nat -> list nat -> bool)
         (raw_key norm_key : Subsystem -> list nat -> Cut -> Key)
         (EPSILON : Q) (SINGLE_NODES_WITH_SELFLOOPS_HAVE_PHI : bool)
         (null_cause null_effect : Subsystem -> Mice)
         (expand_cause_repertoire expand_effect_repertoire :
            @Concept Mice -> Subsystem -> Cut -> Np.ndarray)
         (hamming_emd : Np.ndarray -> Np.ndarray -> Q)
         (emd : list Q -> list Q -> list (list Q) -> Q)
         (caches : @Caches Mice Key _ _),
    big_mip mice_phi core_cause core_effect _all_connect_to_any
            _any_connect_to_all raw_key norm_key EPSILON
            SINGLE_NODES_WITH_SELFLOOPS_HAVE_PHI null_cause null_effect
            expand_cause_repertoire expand_effect_repertoire hamming_emd emd
            caches chain_subsystem
    = (Raise TypeError, caches).
Proof.
  assert (length (node_indices chain_subsystem) = 2%nat) as H1
    by (vm_compute; reflexivity).
  assert (submatrix (net_cm (network chain_subsystem))
                    (node_indices chain_subsystem) = Ok [[0; 1]; [0; 0]]%nat)
    as H2 by (vm_compute; reflexivity).
  assert (strongly_connected [[0; 1]; [0; 0]]%nat = false) as H3
    by (vm_compute; reflexivity).
  assert (connected_components [[0; 1]; [0; 0]]%nat = 1%nat) as H4
    by (vm_compute; reflexivity).
  repeat (split; [assumption|]). intros. unfold big_mip.
  rewrite (_big_mip_components _ _ _ _ _ _ _ _ _ _ _ _ _ _ _ _ _
             [[0; 1]; [0; 0]]%nat); [|rewrite H1; lia|exact H2].
  rewrite H4. reflexivity.
Qed.

(** * Properties of the further functions *)

(** ** Bit strings *)

Lemma length_bin i : length (Utils.bin i) = S (Nat.log2 i).
Proof. unfold Utils.bin. rewrite length_map, length_seq. reflexivity. Qed.

Lemma log2_lt_of_lt_pow2 i N : (0 < N)%nat -> (i < 2 ^ N)%nat -> (Nat.log2 i < N)%nat.
Proof.
  intros HN Hi. destruct (Nat.eq_dec i 0%nat) as [->|Hne]; [cbn; lia|].
  apply Nat.log2_lt_pow2; lia.
Qed.

Lemma length_zfill_bin i N :
  (0 < N)%nat -> (i < 2 ^ N)%nat -> length (Utils.zfill N (Utils.bin i)) = N.
Proof.
  intros HN Hi. pose proof (log2_lt_of_lt_pow2 i N HN Hi).
  unfold Utils.zfill. rewrite length_app, length_replicate, length_bin. lia.
Qed.

(** The digits of [bin(i).zfill(N)], counted from the right, are the bits
    of [i]. *)
Lemma reverse_zfill_bin i N :
  (0 < N)%nat -> (i < 2 ^ N)%nat ->
  reverse (Utils.zfill N (Utils.bin i)) = map (Nat.testbit i) (seq 0 N).
Proof.
  intros HN Hi. pose proof (log2_lt_of_lt_pow2 i N HN Hi) as Hlog.
  apply list_eq. intros k. unfold Utils.zfill.
  rewrite reverse_app, reverse_replicate.
  change (map (Nat.testbit i) (seq 0 N)) with (Nat.testbit i <$> seq 0 N).
  rewrite list_lookup_fmap.
  destruct (Nat.lt_ge_cases k N) as [Hk|Hk].
  2:{ rewrite lookup_seq_ge by lia. cbn [fmap option_fmap option_map].
      apply lookup_ge_None.
      rewrite length_app, length_reverse, length_replicate, length_bin. lia. }
  rewrite lookup_seq_lt by lia. cbn [fmap option_fmap option_map Nat.add].
  destruct (Nat.lt_ge_cases k (S (Nat.log2 i))) as [Hl|Hl].
  - rewrite lookup_app_l by (rewrite length_reverse, length_bin; lia).
    rewrite reverse_lookup by (rewrite length_bin; lia).
    rewrite length_bin. unfold Utils.bin.
    change (map ?f ?l) with (f <$> l). rewrite list_lookup_fmap.
    rewrite lookup_seq_lt by lia. cbn [fmap option_fmap option_map Nat.add].
    do 2 f_equal. lia.
  - rewrite lookup_app_r by (rewrite length_reverse, length_bin; lia).
    rewrite length_reverse, length_bin.
    rewrite lookup_replicate_2 by lia.
    f_equal. symmetry. apply Nat.bits_above_log2. lia.
Qed.

Lemma flip_testbits i N :
  Utils._flip (map (Nat.testbit i) (seq 0 N))
  = map (fun k => negb (Nat.testbit i k)) (seq 0 N).
Proof.
  unfold Utils._flip. rewrite map_map. apply map_ext. intros k.
  destruct (Nat.testbit i k); reflexivity.
Qed.

(** Selection by a bit string and selection by the bits of a number. *)
Lemma omap_zip_seq {A B} (F : nat -> A -> option B) (a : list A) : forall s,
  omap (fun '(k, x) => F k x) (zip (seq s (length a)) a)
  = omap (fun k => match a !! (k - s)%nat with
                   | Some x => F k x
                   | None => None
                   end) (seq s (length a)).
Proof.
  induction a as [|x a IH]; intros s; [reflexivity|].
  cbn [length seq zip zip_with omap list_omap]. rewrite Nat.sub_diag.
  cbn [lookup list_lookup]. fold (@omap list _ (nat * A) B).
  fold (@omap list _ nat B). rewrite IH. destruct (F s x); [f_equal|].
  all: apply list_omap_ext, Forall_Forall2_diag, Forall_forall; intros k Hk;
    apply elem_of_seq in Hk; replace (k - s)%nat with (S (k - S s)) by lia;
    reflexivity.
Qed.

Lemma bitstring_index_bits {A} (a : list A) (p : nat -> bool) :
  Utils._bitstring_index a (map p (seq 0 (length a)))
  = Ok (omap (fun '(k, x) => if p k then Some x else None)
             (zip (seq 0 (length a)) a)).
Proof.
  unfold Utils._bitstring_index.
  rewrite length_map, length_seq.
  rewrite bool_decide_eq_false_2 by (intros Hne; apply Hne; reflexivity).
  f_equal. rewrite (omap_zip_seq (fun k x => if p k then Some x else None)).
  apply list_omap_ext, Forall_Forall2_diag, Forall_forall. intros k Hk.
  apply elem_of_seq in Hk. rewrite Nat.sub_0_r.
  change (map p ?l) with (p <$> l). rewrite list_lookup_fmap.
  rewrite lookup_seq_lt by lia. cbn.
  destruct (p k), (a !! k); reflexivity.
Qed.

Lemma bitstring_index_testbit {A} (a : list A) i :
  Utils._bitstring_index a (map (Nat.testbit i) (seq 0 (length a)))
    = Ok (select_bits a i false) /\
  Utils._bitstring_index a (Utils._flip (map (Nat.testbit i) (seq 0 (length a))))
    = Ok (select_bits a i true).
Proof.
  rewrite flip_testbits, !bitstring_index_bits. unfold select_bits.
  split; f_equal; apply list_omap_ext, Forall_Forall2_diag, Forall_forall;
    intros [k x] _; rewrite ?xorb_false_r, ?xorb_true_r; reflexivity.
Qed.

Lemma mapM_map_Ok {A B C} (h : A -> B) (f : B -> result C) (g : A -> C)
      (l : list A) :
  (forall x, x ∈ l -> f (h x) = Ok (g x)) -> mapM f (map h l) = Ok (map g l).
Proof.
  induction l as [|x l IH]; intros H; [reflexivity|].
  cbn [mapM map]. rewrite (H x) by left. cbn [mbind result_bind].
  rewrite IH by (intros y Hy; apply H; right; exact Hy). reflexivity.
Qed.

(** The generator yields the pairs that the bits of [i] select, for every
    [i] below [2 ** (size - 1)]. *)
Lemma bipartition_bits {A} (a : list A) :
  a <> [] -> Utils.bipartition a = Ok (bit_pairs a).
Proof.
  intros Hne. unfold Utils.bipartition, bit_pairs.
  assert (0 < length a)%nat as Hlen by (destruct a; [congruence | cbn; lia]).
  rewrite bool_decide_eq_false_2 by lia.
  apply mapM_map_Ok. intros i Hi. apply elem_of_seq in Hi.
  assert (i < 2 ^ length a)%nat as Hi'.
  { replace (length a) with (S (length a - 1)) by lia. cbn. lia. }
  rewrite reverse_zfill_bin by assumption.
  destruct (bitstring_index_testbit a i) as [-> ->]. reflexivity.
Qed.

(** ** What [bipartition] yields *)

Lemma select_split {A} (p : nat -> bool) (l : list (nat * A)) :
  let sel flip :=
    omap (fun '(k, x) => if xorb (p k) flip then Some x else None) l in
  sel false ++ sel true ≡ₚ l.*2 /\
  sel false `sublist_of` l.*2 /\ sel true `sublist_of` l.*2.
Proof.
  cbv zeta. induction l as [|[k x] l (IHp & IH0 & IH1)].
  - cbn. split; [reflexivity|]. split; constructor.
  - cbn [omap list_omap fmap list_fmap snd].
    fold (@omap list _ (nat * A) A). fold (@fmap list _ (nat * A) A).
    destruct (p k); cbn [xorb app].
    + split; [constructor; exact IHp|]. split; constructor; assumption.
    + split; [rewrite <- Permutation_middle; constructor; exact IHp|].
      split; constructor; assumption.
Qed.

Lemma bitstring_index_split {A} (a : list A) i :
  select_bits a i false ++ select_bits a i true ≡ₚ a /\
  select_bits a i false `sublist_of` a /\
  select_bits a i true `sublist_of` a.
Proof.
  pose proof (select_split (Nat.testbit i) (zip (seq 0 (length a)) a)) as H.
  cbv zeta in H. rewrite snd_zip in H by (rewrite length_seq; lia). exact H.
Qed.

Lemma bitstring_index_0 {A} (a : list A) :
  select_bits a 0 false = [] /\ select_bits a 0 true = a.
Proof.
  unfold select_bits.
  assert (forall l : list (nat * A),
             omap (fun '(k, x) => if xorb (Nat.testbit 0 k) false
                                  then Some x else None) l = [] /\
             omap (fun '(k, x) => if xorb (Nat.testbit 0 k) true
                                  then Some x else None) l = l.*2) as H.
  { induction l as [|[k x] l [IH0 IH1]]; [split; reflexivity|].
    cbn [omap list_omap fmap list_fmap snd].
    fold (@omap list _ (nat * A) A). fold (@fmap list _ (nat * A) A).
    rewrite Nat.bits_0. cbn [xorb]. rewrite IH0, IH1. split; reflexivity. }
  destruct (H (zip (seq 0 (length a)) a)) as [H0 H1].
  rewrite H0, H1, snd_zip by (rewrite length_seq; lia). split; reflexivity.
Qed.

Lemma testbit_above i N k : (i < 2 ^ N)%nat -> (N <= k)%nat -> Nat.testbit i k = false.
Proof.
  intros Hi Hk. destruct (Nat.eq_dec i 0%nat) as [->|Hne]; [apply Nat.bits_0|].
  apply Nat.bits_above_log2. apply Nat.log2_lt_pow2 in Hi; lia.
Qed.

(** Over a list without duplicates an element is selected exactly when the
    bit of its position is set. *)
Lemma elem_of_bitstring_index_NoDup {A} (a : list A) i flip k x :
  NoDup a -> a !! k = Some x ->
  x ∈ select_bits a i flip <-> xorb (Nat.testbit i k) flip = true.
Proof.
  intros Hnd Hk. rewrite elem_of_bitstring_index. split.
  - intros (p & Hp & Hb). rewrite (NoDup_lookup a k p x Hnd Hk Hp). exact Hb.
  - intros Hb. eauto.
Qed.

Lemma bipartition_index {A} (a : list A) p :
  p ∈ bit_pairs a <->
  exists i, (i < 2 ^ (length a - 1))%nat /\
            p = (select_bits a i false, select_bits a i true).
Proof.
  unfold bit_pairs. split.
  - intros Hp. apply list_elem_of_fmap in Hp as (i & -> & Hi).
    apply elem_of_seq in Hi. exists i. split; [lia | reflexivity].
  - intros (i & Hi & ->).
    apply (list_elem_of_fmap_2
             (fun i => (select_bits a i false, select_bits a i true))).
    apply elem_of_seq. lia.
Qed.

Lemma tail_bipartition_index {A} (a : list A) p :
  p ∈ tail (bit_pairs a) ->
  exists i, (1 <= i < 2 ^ (length a - 1))%nat /\
            p = (select_bits a i false, select_bits a i true).
Proof.
  unfold bit_pairs.
  destruct (2 ^ (length a - 1))%nat as [|M] eqn:EM; [intros H; inversion H|].
  cbn [seq map tail]. intros Hp. apply list_elem_of_fmap in Hp as (i & -> & Hi).
  apply elem_of_seq in Hi. exists i. split; [lia | reflexivity].
Qed.

(** X3: [bipartition]: [TypeError] on the empty list; on a list of [n > 0]
    elements [2 ** (n - 1)] pairs, the first of them [([], a)], each pair two
    complementary subsequences of the list. *)
Theorem bipartition_splits {A} (a : list A) :
  match a with
  | [] => Utils.bipartition a = Raise TypeError
  | _ =>
      exists parts, Utils.bipartition a = Ok parts /\
        length parts = (2 ^ (length a - 1))%nat /\
        head parts = Some ([], a) /\
        forall p, p ∈ parts ->
          p.1 ++ p.2 ≡ₚ a /\ p.1 `sublist_of` a /\ p.2 `sublist_of` a
  end.
Proof.
  destruct a as [|x a]; [reflexivity|]. set (l := x :: a).
  exists (bit_pairs l). split; [apply bipartition_bits; discriminate|].
  split; [unfold bit_pairs; rewrite length_map, length_seq; reflexivity|].
  split.
  - unfold bit_pairs.
    destruct (2 ^ (length l - 1))%nat as [|M] eqn:EM.
    + pose proof (Nat.pow_nonzero 2 (length l - 1)). lia.
    + cbn [seq map head]. destruct (bitstring_index_0 l) as [-> ->]. reflexivity.
  - intros p Hp. apply bipartition_index in Hp as (i & _ & ->).
    apply bitstring_index_split.
Qed.

(** X4: In every pair that [bipartition] yields, the last element of the list
    is in the second part; after the first pair both parts are non-empty. *)
Theorem bipartition_proper_parts {A} (a : list A) parts :
  Utils.bipartition a = Ok parts ->
  (forall p x, p ∈ parts -> last a = Some x -> x ∈ p.2) /\
  (forall p, p ∈ tail parts -> p.1 <> [] /\ p.2 <> []).
Proof.
  intros Hparts.
  assert (a <> []) as Hne by (intros ->; discriminate Hparts).
  rewrite bipartition_bits in Hparts by exact Hne. injection Hparts as <-.
  assert (0 < length a)%nat as Hlen by (destruct a; [congruence | cbn; lia]).
  assert (forall i x, (i < 2 ^ (length a - 1))%nat -> last a = Some x ->
                      x ∈ select_bits a i true) as Hlast.
  { intros i x Hi Hx. rewrite last_lookup_length in Hx.
    apply elem_of_bitstring_index. exists (pred (length a)). split; [exact Hx|].
    rewrite (testbit_above i (length a - 1)) by lia. reflexivity. }
  split.
  - intros p x Hp Hx. apply bipartition_index in Hp as (i & Hi & ->). cbn.
    apply Hlast; assumption.
  - intros p Hp. apply tail_bipartition_index in Hp as (i & Hi & ->). cbn. split.
    + assert (Nat.log2 i < length a - 1)%nat as Hlog
        by (apply Nat.log2_lt_pow2; lia).
      destruct (lookup_lt_is_Some_2 a (Nat.log2 i)) as [x Hx]; [lia|].
      assert (x ∈ select_bits a i false) as Hin.
      { apply elem_of_bitstring_index. exists (Nat.log2 i). split; [exact Hx|].
        rewrite Nat.bit_log2 by lia. reflexivity. }
      intros E. rewrite E in Hin. inversion Hin.
    + destruct (lookup_lt_is_Some_2 a (pred (length a))) as [x Hx]; [lia|].
      rewrite <- last_lookup_length in Hx.
      pose proof (Hlast i x ltac:(lia) Hx) as Hin.
      intros E. rewrite E in Hin. inversion Hin.
Qed.

Lemma bipartition_proper_parts_witness :
  Utils.bipartition [1; 2; 3]%nat
    = Ok [([], [1; 2; 3]); ([1], [2; 3]); ([2], [1; 3]); ([1; 2], [3])]%nat /\
  (forall p x, p ∈ [([], [1; 2; 3]); ([1], [2; 3]); ([2], [1; 3]); ([1; 2], [3])]%nat ->
               last [1; 2; 3]%nat = Some x -> x ∈ p.2) /\
  (forall p, p ∈ tail [([], [1; 2; 3]); ([1], [2; 3]); ([2], [1; 3]); ([1; 2], [3])]%nat
      ->
             p.1 <> [] /\ p.2 <> []).
Proof.
  assert (Utils.bipartition [1; 2; 3]%nat
          = Ok [([], [1; 2; 3]); ([1], [2; 3]); ([2], [1; 3]); ([1; 2], [3])]%nat)
    as H1 by reflexivity.
  exact (conj H1 (bipartition_proper_parts [1; 2; 3]%nat _ H1)).
Defined.

Lemma bitstring_index_inj {A} (a : list A) i j :
  NoDup a -> (i < 2 ^ length a)%nat -> (j < 2 ^ length a)%nat ->
  select_bits a i false = select_bits a j false -> i = j.
Proof.
  intros Hnd Hi Hj E. apply Nat.bits_inj. intros k.
  destruct (Nat.lt_ge_cases k (length a)) as [Hk|Hk].
  - destruct (lookup_lt_is_Some_2 a k Hk) as [x Hx].
    pose proof (elem_of_bitstring_index_NoDup a i false k x Hnd Hx) as Hi'.
    pose proof (elem_of_bitstring_index_NoDup a j false k x Hnd Hx) as Hj'.
    rewrite E in Hi'. rewrite xorb_false_r in Hi', Hj'.
    destruct (Nat.testbit i k), (Nat.testbit j k); try reflexivity.
    + symmetry. apply Hj', Hi'. reflexivity.
    + apply Hi', Hj'. reflexivity.
  - rewrite !(testbit_above _ (length a)) by assumption. reflexivity.
Qed.

(** X5: Over a list without duplicates [bipartition] yields no pair twice,
    and no pair together with its mirror image. *)
Theorem bipartition_distinct {A} (a : list A) parts :
  NoDup a -> Utils.bipartition a = Ok parts ->
  NoDup parts /\ forall p, p ∈ parts -> (p.2, p.1) ∉ parts.
Proof.
  intros Hnd Hparts.
  assert (a <> []) as Hne by (intros ->; discriminate Hparts).
  rewrite bipartition_bits in Hparts by exact Hne. injection Hparts as <-.
  assert (0 < length a)%nat as Hlen by (destruct a; [congruence | cbn; lia]).
  assert (2 ^ (length a - 1) <= 2 ^ length a)%nat as Hpow
    by (apply Nat.pow_le_mono_r; lia).
  split.
  - unfold bit_pairs. apply NoDup_fmap_2_strong; [|apply NoDup_seq].
    intros i j Hi Hj E. apply elem_of_seq in Hi, Hj. injection E as E _.
    apply (bitstring_index_inj a i j Hnd); [lia | lia | exact E].
  - intros p Hp Hmirror.
    apply bipartition_index in Hp as (i & Hi & ->).
    apply bipartition_index in Hmirror as (j & Hj & E). cbn in E.
    injection E as E1 E2.
    destruct (lookup_lt_is_Some_2 a (pred (length a))) as [x Hx]; [lia|].
    assert (Nat.testbit i (pred (length a)) = false) as Hbi
      by (apply (testbit_above i (length a - 1)); lia).
    assert (Nat.testbit j (pred (length a)) = false) as Hbj
      by (apply (testbit_above j (length a - 1)); lia).
    assert (x ∈ select_bits a j true) as Hin.
    { apply (elem_of_bitstring_index_NoDup a j true _ x Hnd Hx).
      rewrite Hbj. reflexivity. }
    rewrite <- E2 in Hin.
    apply (elem_of_bitstring_index_NoDup a i false _ x Hnd Hx) in Hin.
    rewrite Hbi in Hin. discriminate Hin.
Qed.

Lemma bipartition_distinct_witness :
  NoDup [1; 2; 3]%nat /\
  Utils.bipartition [1; 2; 3]%nat
    = Ok [([], [1; 2; 3]); ([1], [2; 3]); ([2], [1; 3]); ([1; 2], [3])]%nat /\
  NoDup [([], [1; 2; 3]); ([1], [2; 3]); ([2], [1; 3]); ([1; 2], [3])]%nat /\
  forall p, p ∈ [([], [1; 2; 3]); ([1], [2; 3]); ([2], [1; 3]); ([1; 2], [3])]%nat ->
            (p.2, p.1) ∉ [([], [1; 2; 3]); ([1], [2; 3]); ([2], [1; 3]); ([1; 2],
                [3])]%nat.
Proof.
  assert (NoDup [1; 2; 3]%nat) as H1 by exact (NoDup_seq 1 3).
  assert (Utils.bipartition [1; 2; 3]%nat
          = Ok [([], [1; 2; 3]); ([1], [2; 3]); ([2], [1; 3]); ([1; 2], [3])]%nat)
    as H2 by reflexivity.
  exact (conj H1 (conj H2 (bipartition_distinct [1; 2; 3]%nat _ H1 H2))).
Defined.

Lemma filter_ext_in {A} (P Q : A -> Prop) `{forall x, Decision (P x)}
      `{forall x, Decision (Q x)} (l : list A) :
  (forall x, x ∈ l -> P x <-> Q x) -> filter P l = filter Q l.
Proof.
  induction l as [|x l IH]; intros Hl; [reflexivity|].
  rewrite !filter_cons.
  rewrite IH by (intros y Hy; apply Hl; right; exact Hy).
  destruct (decide (P x)) as [HP|HP], (decide (Q x)) as [HQ|HQ]; try reflexivity.
  - exfalso. apply HQ, (Hl x); [left | exact HP].
  - exfalso. apply HP, (Hl x); [left | exact HQ].
Qed.

(** A subsequence of a list without duplicates is the list filtered by
    membership in the subsequence. *)
Lemma sublist_NoDup_filter `{EqDecision A} (l a : list A) :
  l `sublist_of` a -> NoDup a -> l = filter (fun x => x ∈ l) a.
Proof.
  induction 1 as [|x l1 l2 Hsub IH|x l1 l2 Hsub IH]; intros Hnd.
  - reflexivity.
  - apply NoDup_cons in Hnd as [Hx Hnd].
    rewrite filter_cons, decide_True by left. f_equal.
    rewrite (IH Hnd) at 1. apply filter_ext_in. intros y Hy. split.
    + intros Hin. right. exact Hin.
    + intros Hin. apply elem_of_cons in Hin as [->|Hin]; [contradiction | exact Hin].
  - apply NoDup_cons in Hnd as [Hx Hnd].
    rewrite filter_cons, decide_False.
    + apply IH. exact Hnd.
    + intros Hin. apply Hx. eapply elem_of_sublist; eassumption.
Qed.

Lemma select_filter {A} (P : A -> Prop) `{forall x, Decision (P x)}
      (g : nat -> bool) (a : list A) : forall s,
  (forall k y, a !! k = Some y -> g (s + k)%nat = true <-> P y) ->
  omap (fun '(k, x) => if g k then Some x else None) (zip (seq s (length a)) a)
  = filter P a.
Proof.
  induction a as [|x a IH]; intros s Hg; [reflexivity|].
  cbn [length seq zip zip_with omap list_omap].
  fold (@omap list _ (nat * A) A). rewrite filter_cons.
  rewrite (IH (S s)).
  2:{ intros k y Hk. rewrite <- (Hg (S k) y Hk). rewrite Nat.add_succ_r. reflexivity. }
  pose proof (Hg 0%nat x eq_refl) as H0. rewrite Nat.add_0_r in H0.
  destruct (g s), (decide (P x)) as [HP|HP]; try reflexivity.
  - exfalso. apply HP, H0. reflexivity.
  - apply H0 in HP. discriminate HP.
Qed.

(** A division of the list into two subsequences, the last element in the
    second, is one of the pairs. *)
Lemma bipartition_complete `{EqDecision A} (a L L' : list A) :
  NoDup a -> L `sublist_of` a -> L' `sublist_of` a -> L ++ L' ≡ₚ a ->
  (forall x, last a = Some x -> x ∉ L) ->
  (L, L') ∈ bit_pairs a.
Proof.
  intros Hnd HL HL' Hperm Hlast.
  set (f := fun p => match a !! p with
                     | Some y => bool_decide (y ∈ L)
                     | None => false
                     end).
  destruct (exists_bits f (length a - 1)) as (i & Hi).
  assert (i < 2 ^ (length a - 1))%nat as Hlt.
  { apply bits_lt_pow2. intros p Hp. rewrite Hi.
    destruct (Nat.ltb_spec p (length a - 1)); [lia | reflexivity]. }
  assert (forall k y, a !! k = Some y -> Nat.testbit i k = true <-> y ∈ L) as Hbit.
  { intros k y Hk. rewrite Hi. unfold f. rewrite Hk.
    pose proof (lookup_lt_Some _ _ _ Hk) as Hklt.
    destruct (Nat.ltb_spec k (length a - 1)) as [Hk'|Hk'].
    - rewrite andb_true_l. apply bool_decide_eq_true.
    - assert (k = pred (length a)) as -> by lia.
      rewrite <- last_lookup_length in Hk. cbn. split; [discriminate|].
      intros Hin. exfalso. exact (Hlast y Hk Hin). }
  apply bipartition_index. exists i. split; [exact Hlt|].
  assert (NoDup (L ++ L')) as HndLL by (rewrite Hperm; exact Hnd).
  apply NoDup_app in HndLL as (_ & Hdisj & _).
  f_equal.
  - rewrite (sublist_NoDup_filter L a HL Hnd) at 1. symmetry.
    apply (select_filter (fun x => x ∈ L) (fun k => xorb (Nat.testbit i k) false) a 0).
    intros k y Hk. rewrite xorb_false_r. apply Hbit. exact Hk.
  - rewrite (sublist_NoDup_filter L' a HL' Hnd) at 1. symmetry.
    apply (select_filter (fun x => x ∈ L') (fun k => xorb (Nat.testbit i k) true) a 0).
    intros k y Hk. rewrite xorb_true_r, negb_true_iff. cbn [Nat.add].
    assert (y ∈ L ++ L') as Hy
       by (rewrite Hperm; eapply list_elem_of_lookup_2; exact Hk).
    apply elem_of_app in Hy. split.
    + intros Hb. destruct Hy as [Hy|Hy]; [|exact Hy].
      apply (Hbit k y Hk) in Hy. congruence.
    + intros Hin. destruct (Nat.testbit i k) eqn:E; [|reflexivity].
      exfalso. apply (Hdisj y); [apply (Hbit k y Hk); exact E | exact Hin].
Qed.

(** X6: Over a list without duplicates [bipartition] yields every division of
    the list into two subsequences, in one order of its parts or in the
    other. *)
Theorem bipartition_exhaustive `{EqDecision A} (a : list A) parts l1 l2 :
  NoDup a -> Utils.bipartition a = Ok parts ->
  l1 `sublist_of` a -> l2 `sublist_of` a -> l1 ++ l2 ≡ₚ a ->
  (l1, l2) ∈ parts \/ (l2, l1) ∈ parts.
Proof.
  intros Hnd Hparts H1 H2 Hperm.
  assert (a <> []) as Hne by (intros ->; discriminate Hparts).
  rewrite bipartition_bits in Hparts by exact Hne. injection Hparts as <-.
  assert (NoDup (l1 ++ l2)) as HndLL by (rewrite Hperm; exact Hnd).
  apply NoDup_app in HndLL as (_ & Hdisj & _).
  destruct (last a) as [x|] eqn:Ex.
  2:{ destruct a; [congruence|]. rewrite last_lookup_length in Ex.
      apply lookup_ge_None in Ex. cbn in Ex. lia. }
  destruct (decide (x ∈ l1)) as [Hx|Hx].
  - right. apply bipartition_complete; auto.
    + rewrite <- Hperm. apply Permutation_app_comm.
    + intros y Hl Hy. rewrite Ex in Hl. injection Hl as <-. exact (Hdisj x Hx Hy).
  - left. apply bipartition_complete; auto.
    intros y Hl. rewrite Ex in Hl. injection Hl as <-. exact Hx.
Qed.

Lemma bipartition_exhaustive_witness :
  NoDup [1; 2; 3]%nat /\
  Utils.bipartition [1; 2; 3]%nat
    = Ok [([], [1; 2; 3]); ([1], [2; 3]); ([2], [1; 3]); ([1; 2], [3])]%nat /\
  [3]%nat `sublist_of` [1; 2; 3]%nat /\
  [1; 2]%nat `sublist_of` [1; 2; 3]%nat /\
  [3]%nat ++ [1; 2]%nat ≡ₚ [1; 2; 3]%nat /\
  (([3], [1; 2])%nat ∈ [([], [1; 2; 3]); ([1], [2; 3]); ([2], [1; 3]); ([1; 2],
      [3])]%nat \/
   ([1; 2], [3])%nat ∈ [([], [1; 2; 3]); ([1], [2; 3]); ([2], [1; 3]); ([1; 2],
       [3])]%nat).
Proof.
  assert (NoDup [1; 2; 3]%nat) as H1 by exact (NoDup_seq 1 3).
  assert (Utils.bipartition [1; 2; 3]%nat
          = Ok [([], [1; 2; 3]); ([1], [2; 3]); ([2], [1; 3]); ([1; 2], [3])]%nat)
    as H2 by reflexivity.
  assert ([3]%nat `sublist_of` [1; 2; 3]%nat) as H3 by (repeat constructor).
  assert ([1; 2]%nat `sublist_of` [1; 2; 3]%nat) as H4 by (repeat constructor).
  assert ([3]%nat ++ [1; 2]%nat ≡ₚ [1; 2; 3]%nat) as H5
    by (apply (Permutation_app_comm [3]%nat [1; 2]%nat)).
  exact (conj H1 (conj H2 (conj H3 (conj H4 (conj H5
    (bipartition_exhaustive [1; 2; 3]%nat _ [3]%nat [1; 2]%nat H1 H2 H3 H4 H5)))))).
Defined.

(** ** [powerset] *)

Lemma elem_of_combinations {A} (s : list A) : forall r l,
  l ∈ combinations s r <-> l `sublist_of` s /\ length l = r.
Proof.
  induction s as [|x s IH]; intros r l.
  - destruct r as [|r]; cbn [combinations].
    + rewrite list_elem_of_singleton, sublist_nil_r. split.
      * intros ->. split; reflexivity.
      * intros [-> _]. reflexivity.
    + rewrite sublist_nil_r. split; [intros H; inversion H|].
      intros [-> Hl]. discriminate Hl.
  - destruct r as [|r]; cbn [combinations].
    + rewrite list_elem_of_singleton. split.
      * intros ->. split; [apply sublist_nil_l | reflexivity].
      * intros [_ Hl]. destruct l; [reflexivity | discriminate Hl].
    + rewrite elem_of_app, sublist_cons_r.
      change (map (cons x) ?k) with (cons x <$> k). rewrite list_elem_of_fmap.
      setoid_rewrite IH. split.
      * intros [(l' & -> & Hs & Hl)|[Hs Hl]].
        -- split; [right; eauto | cbn; congruence].
        -- split; [left; exact Hs | exact Hl].
      * intros [[Hs|(l' & -> & Hs)] Hl].
        -- right. split; assumption.
        -- left. exists l'. cbn in Hl. split; [reflexivity|]. split; [exact Hs | lia].
Qed.

Lemma combinations_too_long {A} (s : list A) r :
  (length s < r)%nat -> combinations s r = [].
Proof.
  intros Hr. destruct (combinations s r) as [|l k] eqn:E; [reflexivity|].
  assert (l ∈ combinations s r) as Hl by (rewrite E; left).
  apply elem_of_combinations in Hl as [Hs Hl]. apply sublist_length in Hs. lia.
Qed.

Lemma length_flat_map_seq (f : nat -> nat) {A} (g : nat -> list A) s n :
  (forall r, length (g r) = f r) ->
  length (flat_map g (seq s n)) = fold_right Nat.add 0%nat (map f (seq s n)).
Proof.
  intros Hg. revert s. induction n as [|n IH]; intros s; [reflexivity|].
  cbn [seq flat_map map fold_right]. rewrite length_app, Hg, IH. reflexivity.
Qed.

Lemma nat_sum_shift (f : nat -> nat) s n :
  fold_right Nat.add 0%nat (map f (seq (S s) n))
  = fold_right Nat.add 0%nat (map (fun r => f (S r)) (seq s n)).
Proof. rewrite <- seq_shift, map_map. reflexivity. Qed.

Lemma nat_sum_snoc (f : nat -> nat) s n :
  fold_right Nat.add 0%nat (map f (seq s (S n)))
  = (fold_right Nat.add 0%nat (map f (seq s n)) + f (s + n)%nat)%nat.
Proof.
  rewrite seq_S, map_app. cbn [map].
  generalize (map f (seq s n)) as l. intros l.
  induction l as [|y l IH]; cbn; [lia | rewrite IH; lia].
Qed.

Lemma nat_sum_add (f g : nat -> nat) (l : list nat) :
  fold_right Nat.add 0%nat (map (fun r => f r + g r)%nat l)
  = (fold_right Nat.add 0%nat (map f l) + fold_right Nat.add 0%nat (map g l))%nat.
Proof. induction l as [|y l IH]; cbn; [reflexivity | rewrite IH; lia]. Qed.

(** The number of combinations of every size, together. *)
Lemma combinations_total {A} (s : list A) :
  fold_right Nat.add 0%nat
    (map (fun r => length (combinations s r)) (seq 0 (S (length s))))
  = (2 ^ length s)%nat.
Proof.
  induction s as [|x s IH]; [reflexivity|].
  cbn [length].
  change (seq 0 (S (S (length s)))) with (0%nat :: seq 1 (S (length s))).
  cbn [map fold_right]. rewrite nat_sum_shift.
  rewrite (map_ext (fun r => length (combinations (x :: s) (S r)))
                   (fun r => (length (combinations s r)
                              + length (combinations s (S r)))%nat))
    by (intros r; cbn [combinations]; rewrite length_app, length_map; reflexivity).
  rewrite nat_sum_add, IH.
  rewrite <- (nat_sum_shift (fun r => length (combinations s r))).
  rewrite (nat_sum_snoc _ 1 (length s)).
  rewrite (combinations_too_long s (1 + length s)) by lia.
  change (seq 0 (S (length s))) with (0%nat :: seq 1 (length s)) in IH.
  cbn [map fold_right length] in IH |- *.
  assert (length (combinations s 0) = 1%nat) as H0 by (destruct s; reflexivity).
  assert (length (combinations (x :: s) 0) = 1%nat) as -> by reflexivity.
  rewrite H0 in IH. cbn [Nat.pow]. lia.
Qed.

Lemma powerset_count {A} (s : list A) :
  length (powerset s) = (2 ^ length s)%nat.
Proof.
  unfold powerset.
  rewrite (length_flat_map_seq (fun r => length (combinations s r)))
    by reflexivity.
  apply combinations_total.
Qed.

Lemma powerset_head {A} (s : list A) : exists rest, powerset s = [] :: rest.
Proof.
  unfold powerset. change (seq 0 (S (length s))) with (0%nat :: seq 1 (length s)).
  cbn [flat_map]. destruct s; eexists; reflexivity.
Qed.

Lemma StronglySorted_app {A} (R : A -> A -> Prop) (l1 l2 : list A) :
  StronglySorted R l1 -> StronglySorted R l2 ->
  (forall x y, x ∈ l1 -> y ∈ l2 -> R x y) ->
  StronglySorted R (l1 ++ l2).
Proof.
  intros H1 H2 H12. induction H1 as [|x l1 H1 IH Hx]; [exact H2|].
  cbn. constructor.
  - apply IH. intros y z Hy Hz. apply H12; [right; exact Hy | exact Hz].
  - apply Forall_app. split; [exact Hx|].
    apply Forall_forall. intros y Hy. apply H12; [left | exact Hy].
Qed.

Lemma StronglySorted_same_length {A} (l : list (list A)) r :
  (forall x, x ∈ l -> length x = r) ->
  StronglySorted (fun x y => (length x <= length y)%nat) l.
Proof.
  induction l as [|x l IH]; intros H; constructor.
  - apply IH. intros y Hy. apply H. right. exact Hy.
  - apply Forall_forall. intros y Hy.
    rewrite (H x) by left. rewrite (H y) by (right; exact Hy). lia.
Qed.

Lemma NoDup_combinations {A} (s : list A) : forall r,
  NoDup s -> NoDup (combinations s r).
Proof.
  induction s as [|x s IH]; intros r Hnd.
  - destruct r; cbn; [apply NoDup_singleton | constructor].
  - apply NoDup_cons in Hnd as [Hx Hnd].
    destruct r as [|r]; cbn [combinations]; [apply NoDup_singleton|].
    apply NoDup_app. split; [|split].
    + change (map (cons x) ?k) with (cons x <$> k).
      apply NoDup_fmap_2; [|apply IH; exact Hnd].
      intros l1 l2 E. injection E as ->. reflexivity.
    + intros l Hl Hl'.
      change (map (cons x) ?k) with (cons x <$> k) in Hl.
      apply list_elem_of_fmap in Hl as (l' & -> & _).
      apply elem_of_combinations in Hl' as [Hs _].
      apply Hx. eapply elem_of_sublist; [left | exact Hs].
    + apply IH. exact Hnd.
Qed.

(** X1: [powerset] yields [2 ** n] tuples: exactly the subsequences, by
    increasing size, the empty one first; each of them once when the
    elements are distinct. *)
Theorem powerset_enumerates {A} (s : list A) :
  length (powerset s) = (2 ^ length s)%nat /\
  (forall l, l ∈ powerset s <-> l `sublist_of` s) /\
  head (powerset s) = Some [] /\
  StronglySorted (fun x y => (length x <= length y)%nat) (powerset s) /\
  (NoDup s -> NoDup (powerset s)).
Proof.
  split; [apply powerset_count|]. split; [|split; [|split]].
  - intros l. unfold powerset. rewrite list_elem_of_In, in_flat_map. split.
    + intros (r & _ & Hl). apply list_elem_of_In, elem_of_combinations in Hl.
      tauto.
    + intros Hs. exists (length l). split.
      * apply in_seq. apply sublist_length in Hs. lia.
      * apply list_elem_of_In, elem_of_combinations. split; [exact Hs | reflexivity].
  - unfold powerset. cbn [seq flat_map]. destruct s; reflexivity.
  - unfold powerset. generalize (S (length s)) as n. generalize 0%nat as r0.
    intros r0 n. revert r0. induction n as [|n IH]; intros r0; [constructor|].
    cbn [seq flat_map]. apply StronglySorted_app.
    + apply (StronglySorted_same_length _ r0). intros x Hx.
      apply elem_of_combinations in Hx. tauto.
    + apply IH.
    + intros x y Hx Hy. apply elem_of_combinations in Hx as [_ Hx].
      apply list_elem_of_In, in_flat_map in Hy as (r & Hr & Hy).
      apply in_seq in Hr. apply list_elem_of_In, elem_of_combinations in Hy as [_ Hy].
      lia.
  - intros Hnd. unfold powerset. generalize (S (length s)) as n.
    generalize 0%nat as r0. intros r0 n. revert r0.
    induction n as [|n IH]; intros r0; [constructor|].
    cbn [seq flat_map]. apply NoDup_app. split; [|split].
    + apply NoDup_combinations. exact Hnd.
    + intros l Hl Hl'. apply elem_of_combinations in Hl as [_ Hl].
      apply list_elem_of_In, in_flat_map in Hl' as (r & Hr & Hl').
      apply in_seq in Hr. apply list_elem_of_In, elem_of_combinations in Hl' as [_ Hl'].
      lia.
    + apply IH.
Qed.

(** ** Selection by a bit string *)

Lemma flip_map {B} (p : B -> bool) (l : list B) :
  Utils._flip (map p l) = map (fun k => negb (p k)) l.
Proof.
  unfold Utils._flip. rewrite map_map. apply map_ext. intros k.
  destruct (p k); reflexivity.
Qed.

Lemma bits_as_map (bitstring : list bool) :
  bitstring = map (fun k => default false (bitstring !! k))
                  (seq 0 (length bitstring)).
Proof.
  apply list_eq. intros k.
  change (map ?f ?l) with (f <$> l). rewrite list_lookup_fmap.
  destruct (Nat.lt_ge_cases k (length bitstring)) as [Hk|Hk].
  - rewrite lookup_seq_lt by lia. cbn.
    destruct (lookup_lt_is_Some_2 bitstring k Hk) as [b Hb]. rewrite Hb. reflexivity.
  - rewrite lookup_seq_ge by lia. cbn. apply lookup_ge_None. exact Hk.
Qed.

(** X2: [_bitstring_index] and [_flip]: a bit string of the length of the list
    and its flip select two complementary subsequences; a bit string of
    another length is refused.  Flipping twice gives the bit string back. *)
Theorem bitstring_index_complement {A} (a : list A) (bitstring : list bool) :
  Utils._flip (Utils._flip bitstring) = bitstring /\
  if bool_decide (length a = length bitstring)
  then exists part0 part1,
      Utils._bitstring_index a bitstring = Ok part0 /\
      Utils._bitstring_index a (Utils._flip bitstring) = Ok part1 /\
      part0 ++ part1 ≡ₚ a /\ part0 `sublist_of` a /\ part1 `sublist_of` a
  else
    Utils._bitstring_index a bitstring = Raise ValueError /\
    Utils._bitstring_index a (Utils._flip bitstring) = Raise ValueError.
Proof.
  split.
  - unfold Utils._flip. rewrite map_map. rewrite <- (map_id bitstring) at 2.
    apply map_ext. intros []; reflexivity.
  - case_bool_decide as Hlen.
    + set (p := fun k => default false (bitstring !! k)).
      rewrite (bits_as_map bitstring). fold p. rewrite <- Hlen.
      rewrite flip_map, !bitstring_index_bits.
      pose proof (select_split p (zip (seq 0 (length a)) a)) as (Hp & H0 & H1).
      rewrite snd_zip in Hp, H0, H1 by (rewrite length_seq; lia).
      eexists _, _. split; [reflexivity|]. split; [reflexivity|].
      assert (forall l : list (nat * A),
                omap (fun '(k, x) => if xorb (p k) false then Some x else None) l
                = omap (fun '(k, x) => if p k then Some x else None) l) as E0.
      { intros l. apply list_omap_ext, Forall_Forall2_diag, Forall_forall.
        intros [k x] _. rewrite xorb_false_r. reflexivity. }
      assert (forall l : list (nat * A),
                omap (fun '(k, x) => if xorb (p k) true then Some x else None) l
                = omap (fun '(k, x) => if negb (p k) then Some x else None) l) as E1.
      { intros l. apply list_omap_ext, Forall_Forall2_diag, Forall_forall.
        intros [k x] _. rewrite xorb_true_r. reflexivity. }
      rewrite E0, E1 in Hp. rewrite E0 in H0. rewrite E1 in H1.
      split; [exact Hp|]. split; assumption.
    + unfold Utils._bitstring_index, Utils._flip. rewrite length_map.
      rewrite bool_decide_eq_true_2 by exact Hlen. split; reflexivity.
Qed.

(** ** [_hamming_matrix] *)

Lemma length_filter_fmap {B C} (P : C -> Prop) `{forall x, Decision (P x)}
      (h : B -> C) (l : list B) :
  length (filter P (h <$> l)) = length (filter (fun x => P (h x)) l).
Proof.
  induction l as [|x l IH]; [reflexivity|].
  cbn [fmap list_fmap]. fold (@fmap list _ B C). rewrite !filter_cons.
  destruct (decide (P (h x))); cbn [length]; rewrite IH; reflexivity.
Qed.

Lemma zfill_bin_bits i N :
  (0 < N)%nat -> (i < 2 ^ N)%nat ->
  Utils.zfill N (Utils.bin i) = Nat.testbit i <$> reverse (seq 0 N).
Proof.
  intros HN Hi. rewrite fmap_reverse.
  rewrite <- (reverse_involutive (Utils.zfill N (Utils.bin i))).
  f_equal. apply reverse_zfill_bin; assumption.
Qed.

Lemma hamming_bits i j N :
  (0 < N)%nat -> (i < 2 ^ N)%nat -> (j < 2 ^ N)%nat ->
  Utils.hamming (Utils.zfill N (Utils.bin i)) (Utils.zfill N (Utils.bin j))
  == inject_Z (Z.of_nat (differing_bits N i j)) / inject_Z (Z.of_nat N).
Proof.
  intros HN Hi Hj. unfold Utils.hamming.
  rewrite !zfill_bin_bits by assumption.
  rewrite length_fmap, length_reverse, length_seq.
  rewrite zip_with_fmap_l, zip_with_fmap_r, zip_with_diag.
  rewrite (length_filter_fmap (fun p : bool * bool => p.1 <> p.2)).
  cbn [fst snd]. rewrite filter_reverse, length_reverse. reflexivity.
Qed.

Lemma lookup_hamming_matrix N i j :
  (i < 2 ^ N)%nat -> (j < 2 ^ N)%nat ->
  matrix_entry (Utils._hamming_matrix N) i j
  = Utils.hamming (Utils.zfill N (Utils.bin i)) (Utils.zfill N (Utils.bin j))
    * inject_Z (Z.of_nat N).
Proof.
  intros Hi Hj. unfold matrix_entry, entry, Utils._hamming_matrix.
  change (map ?f ?l) with (f <$> l).
  rewrite !list_lookup_fmap, lookup_seq_lt by exact Hi. cbn.
  rewrite !list_lookup_fmap, lookup_seq_lt by exact Hj. reflexivity.
Qed.

Lemma hamming_matrix_entry N i j :
  (i < 2 ^ N)%nat -> (j < 2 ^ N)%nat ->
  matrix_entry (Utils._hamming_matrix N) i j
  == inject_Z (Z.of_nat (differing_bits N i j)).
Proof.
  intros Hi Hj. rewrite lookup_hamming_matrix by assumption.
  destruct N as [|N].
  - cbn in Hi, Hj. assert (i = 0%nat) as -> by lia. assert (j = 0%nat) as -> by lia.
    vm_compute. reflexivity.
  - rewrite hamming_bits by (assumption || lia).
    field. intros H. unfold Qeq in H. cbn [Qnum Qden inject_Z] in H. lia.
Qed.

Lemma length_filter_or {B} (P Q R : B -> Prop) `{forall x, Decision (P x)}
      `{forall x, Decision (Q x)} `{forall x, Decision (R x)} (l : list B) :
  (forall x, P x -> Q x \/ R x) ->
  (length (filter P l) <= length (filter Q l) + length (filter R l))%nat.
Proof.
  intros HPQR. induction l as [|x l IH]; [reflexivity|].
  rewrite !filter_cons.
  destruct (decide (P x)) as [HP|HP], (decide (Q x)) as [HQ|HQ],
           (decide (R x)) as [HR|HR]; cbn [length]; try lia.
  destruct (HPQR x HP); contradiction.
Qed.

Lemma differing_bits_sym N i j : differing_bits N i j = differing_bits N j i.
Proof.
  unfold differing_bits. f_equal. apply list_filter_iff. intros k.
  split; intros H E; apply H; symmetry; exact E.
Qed.

Lemma differing_bits_refl N i : differing_bits N i i = 0%nat.
Proof.
  unfold differing_bits. induction (seq 0 N) as [|k l IH]; [reflexivity|].
  rewrite filter_cons, decide_False by (intros H; apply H; reflexivity). exact IH.
Qed.

Lemma differing_bits_triangle N i j k :
  (differing_bits N i k <= differing_bits N i j + differing_bits N j k)%nat.
Proof.
  unfold differing_bits. apply length_filter_or. intros b Hb.
  destruct (decide (Nat.testbit i b = Nat.testbit j b)) as [E|E]; [|left; exact E].
  right. rewrite <- E. exact Hb.
Qed.

(** X7: [_hamming_matrix(N)] has [2 ** N] rows of [2 ** N] entries; the entry
    at [(i, j)] is the number of bits in which [i] and [j] differ, so the
    matrix is zero on the diagonal, symmetric, and satisfies the triangle
    inequality. *)
Theorem hamming_matrix_metric N i j k :
  (i < 2 ^ N)%nat -> (j < 2 ^ N)%nat -> (k < 2 ^ N)%nat ->
  length (Utils._hamming_matrix N) = (2 ^ N)%nat /\
  Forall (fun row => length row = (2 ^ N)%nat) (Utils._hamming_matrix N) /\
  matrix_entry (Utils._hamming_matrix N) i j
    == inject_Z (Z.of_nat (differing_bits N i j)) /\
  matrix_entry (Utils._hamming_matrix N) i i == 0 /\
  matrix_entry (Utils._hamming_matrix N) i j
    == matrix_entry (Utils._hamming_matrix N) j i /\
  matrix_entry (Utils._hamming_matrix N) i k
    <= matrix_entry (Utils._hamming_matrix N) i j
       + matrix_entry (Utils._hamming_matrix N) j k.
Proof.
  intros Hi Hj Hk.
  split; [unfold Utils._hamming_matrix; rewrite !length_map, length_seq; reflexivity|].
  split.
  { unfold Utils._hamming_matrix. apply Forall_forall. intros row Hrow.
    apply list_elem_of_fmap in Hrow as (u & -> & _).
    rewrite !length_map, length_seq. reflexivity. }
  rewrite !hamming_matrix_entry by assumption.
  split; [reflexivity|]. split; [rewrite differing_bits_refl; reflexivity|].
  split; [rewrite differing_bits_sym; reflexivity|].
  rewrite <- inject_Z_plus, <- Zle_Qle, <- Nat2Z.inj_add. apply Nat2Z.inj_le.
  apply differing_bits_triangle.
Qed.

Lemma hamming_matrix_metric_witness :
  (1 < 2 ^ 2)%nat /\ (2 < 2 ^ 2)%nat /\ (3 < 2 ^ 2)%nat /\
  length (Utils._hamming_matrix 2) = (2 ^ 2)%nat /\
  Forall (fun row => length row = (2 ^ 2)%nat) (Utils._hamming_matrix 2) /\
  matrix_entry (Utils._hamming_matrix 2) 1 2
    == inject_Z (Z.of_nat (differing_bits 2 1 2)) /\
  matrix_entry (Utils._hamming_matrix 2) 1 1 == 0 /\
  matrix_entry (Utils._hamming_matrix 2) 1 2
    == matrix_entry (Utils._hamming_matrix 2) 2 1 /\
  matrix_entry (Utils._hamming_matrix 2) 1 3
    <= matrix_entry (Utils._hamming_matrix 2) 1 2
       + matrix_entry (Utils._hamming_matrix 2) 2 3.
Proof.
  assert (1 < 2 ^ 2)%nat as H1 by (cbn; lia).
  assert (2 < 2 ^ 2)%nat as H2 by (cbn; lia).
  assert (3 < 2 ^ 2)%nat as H3 by (cbn; lia).
  exact (conj H1 (conj H2 (conj H3 (hamming_matrix_metric 2 1 2 3 H1 H2 H3)))).
Defined.

(** ** Distributions of [cyphi/utils.py] *)

Lemma size_of_replicate_2 n : Np.size_of (replicate n 2%nat) = (2 ^ n)%nat.
Proof.
  induction n as [|n IH]; [reflexivity|].
  cbn [replicate Np.size_of fold_right]. fold (Np.size_of (replicate n 2%nat)).
  rewrite IH. cbn [Nat.pow]. reflexivity.
Qed.

Lemma sum_full sh (f : list nat -> Q) c :
  (forall idx, f idx == c) ->
  Np.sum (Np.NdArray sh f) == inject_Z (Z.of_nat (Np.size_of sh)) * c.
Proof.
  intros Hf. unfold Np.sum, Np.ravel. cbn [Np.shape Np.item].
  rewrite (qsum_ext f (fun _ => c)) by (intros; apply Hf).
  rewrite qsum_const, length_indices. reflexivity.
Qed.

Lemma inject_nat_nonzero n : (0 < n)%nat -> ~ inject_Z (Z.of_nat n) == 0.
Proof. intros Hn H. unfold Qeq in H. cbn [Qnum Qden inject_Z] in H. lia. Qed.

Lemma pow2_pos n : (0 < 2 ^ n)%nat.
Proof. induction n; cbn [Nat.pow]; lia. Qed.

(** X8: [uniform_distribution(n)] never raises: it is an array with one axis
    of length 2 per node, every entry of which is [1 / 2 ** n], so that the
    entries sum to 1 (also for [n = 0], where it is the scalar 1). *)
Theorem uniform_distribution_spec (n : nat) :
  exists d,
    Utils.uniform_distribution n = Ok d /\
    Np.shape d = replicate n 2%nat /\
    (forall idx, Np.item d idx == 1 / inject_Z (Z.of_nat (2 ^ n))) /\
    Np.sum d == 1.
Proof.
  unfold Utils.uniform_distribution, Np.reshape.
  cbn [Np.divide Np.ones Np.shape Np.item].
  rewrite decide_True
    by (rewrite size_of_replicate_2; cbn [Np.size_of fold_right]; lia).
  eexists. split; [reflexivity|]. cbn [Np.shape Np.item].
  split; [reflexivity|]. split; [reflexivity|].
  rewrite (sum_full _ _ (1 / inject_Z (Z.of_nat (2 ^ n)))) by reflexivity.
  rewrite size_of_replicate_2. field. apply inject_nat_nonzero, pow2_pos.
Qed.

Lemma foldl_mul_size_of (sh : list nat) : foldl Nat.mul 1%nat sh = Np.size_of sh.
Proof.
  enough (forall a, foldl Nat.mul a sh = (a * Np.size_of sh)%nat) as H
      by (rewrite H; lia).
  induction sh as [|n sh IH]; intros a; cbn [foldl Np.size_of fold_right].
  - lia.
  - fold (Np.size_of sh). rewrite IH. lia.
Qed.

Lemma size_of_max_ent_shape {Node} `{EqDecision Node} (nodes net : list Node) :
  Np.size_of (map (fun node => if bool_decide (node ∈ nodes) then 2%nat else 1%nat) net)
  = (2 ^ length (filter (fun node => node ∈ nodes) net))%nat.
Proof.
  induction net as [|x net IH]; [reflexivity|].
  cbn [map Np.size_of fold_right].
  fold (Np.size_of (map (fun node => if bool_decide (node ∈ nodes) then 2%nat else
      1%nat) net)).
  rewrite IH, filter_cons. case_bool_decide as Hx.
  - rewrite decide_True by exact Hx. cbn [length Nat.pow]. reflexivity.
  - rewrite decide_False by exact Hx. lia.
Qed.

(** X9: [max_entropy_distribution(nodes, network)] has one axis per node of
    the network, of length 2 for the nodes in [nodes] and 1 for the others;
    every entry is [1 / 2 ** k], where [k] is the number of network nodes
    that are in [nodes], and the entries sum to 1. *)
Theorem utils_max_entropy_distribution_spec {Node} `{EqDecision Node}
        (nodes network_nodes : list Node) :
  let d := Utils.max_entropy_distribution nodes network_nodes in
  let k := length (filter (fun node => node ∈ nodes) network_nodes) in
  Np.ndim d = length network_nodes /\
  (forall i node, network_nodes !! i = Some node ->
                  Np.shape d !! i = Some (if bool_decide (node ∈ nodes) then 2%nat else
                      1%nat)) /\
  (forall idx, Np.item d idx == 1 / inject_Z (Z.of_nat (2 ^ k))) /\
  Np.sum d == 1.
Proof.
  intros d k. subst d. unfold Utils.max_entropy_distribution, Np.ndim.
  unfold Np.divide, Np.ones. cbn [Np.shape Np.item].
  rewrite foldl_mul_size_of, size_of_max_ent_shape. fold k.
  split; [apply length_map|]. split.
  { intros i node Hi. change (map ?f ?l) with (f <$> l).
    rewrite list_lookup_fmap, Hi. reflexivity. }
  split; [reflexivity|].
  rewrite (sum_full _ _ (1 / inject_Z (Z.of_nat (2 ^ k)))) by reflexivity.
  rewrite size_of_max_ent_shape. fold k. field. apply inject_nat_nonzero, pow2_pos.
Qed.

(** ** [marginalize_out] *)

Lemma marginalize_out_Ok i tpm n :
  Np.shape tpm !! i = Some n ->
  Utils.marginalize_out i tpm
  = Ok (Np.NdArray (<[i := 1%nat]> (Np.shape tpm))
          (fun idx => qsum (map (fun k => Np.item tpm (<[i := k]> idx)) (seq 0 n))
                      / inject_Z (Z.of_nat n))).
Proof.
  intros Hn. unfold Utils.marginalize_out, Np.sum_axis. rewrite Hn.
  reflexivity.
Qed.

Lemma marginalize_out_Raise i tpm :
  Np.shape tpm !! i = None ->
  Utils.marginalize_out i tpm
  = Raise (if bool_decide (Np.shape tpm = [] /\ i = 0%nat)
           then IndexError else ValueError).
Proof.
  intros Hn. unfold Utils.marginalize_out, Np.sum_axis. rewrite Hn.
  destruct (bool_decide (Np.shape tpm = [] /\ i = 0%nat));
    reflexivity.
Qed.

(** X10: [marginalize_out] on an index that is no axis of the array raises
    [ValueError] (the [AxisError] of [np.sum]), except for an array without
    axes and the index 0, where the sum is accepted and [tpm.shape[0]]
    raises [IndexError].  On an axis it returns an array with the same
    number of axes, the marginalized axis of length 1; marginalizing the same
    node out again returns again.  For an axis that is not empty (the mean
    over an empty axis is not a number) every entry is the mean of the
    entries along the axis, whatever its own coordinate on that axis, and
    marginalizing out again changes nothing. *)
Theorem marginalize_out_idempotent (i : nat) (tpm : Np.ndarray) :
  match Np.shape tpm !! i with
  | None =>
      Utils.marginalize_out i tpm
      = Raise (if bool_decide (Np.shape tpm = [] /\ i = 0%nat)
               then IndexError else ValueError)
  | Some n =>
      exists r r',
        Utils.marginalize_out i tpm = Ok r /\
        Np.shape r = <[i := 1%nat]> (Np.shape tpm) /\
        Utils.marginalize_out i r = Ok r' /\
        Np.shape r' = Np.shape r /\
        ((0 < n)%nat ->
         (forall idx k,
            Np.item r (<[i := k]> idx)
            == qsum (map (fun k0 => Np.item tpm (<[i := k0]> idx)) (seq 0 n))
               / inject_Z (Z.of_nat n)) /\
         array_eq r' r)
  end.
Proof.
  destruct (Np.shape tpm !! i) as [n|] eqn:Hn;
    [|apply marginalize_out_Raise; exact Hn].
  rewrite (marginalize_out_Ok _ _ _ Hn).
  assert (<[i:=1%nat]> (Np.shape tpm) !! i = Some 1%nat) as H1.
  { apply list_lookup_insert_eq. apply lookup_lt_Some in Hn. exact Hn. }
  eexists _, _. split; [reflexivity|]. cbn [Np.shape Np.item].
  split; [reflexivity|].
  split; [apply marginalize_out_Ok; exact H1|].
  cbn [Np.shape Np.item].
  split; [apply list_insert_insert_eq|].
  assert (forall idx k,
             qsum (map (fun k0 => Np.item tpm (<[i:=k0]> (<[i:=k]> idx))) (seq 0 n))
             = qsum (map (fun k0 => Np.item tpm (<[i:=k0]> idx)) (seq 0 n))) as Hins.
  { intros idx k. f_equal. apply map_ext. intros k0.
    rewrite list_insert_insert_eq. reflexivity. }
  intros Hpos.
  split; [intros idx k; rewrite Hins; reflexivity|].
  split; cbn [Np.shape Np.item]; [apply list_insert_insert_eq|].
  intros idx _. change (seq 0 1) with [0%nat]. cbn [map qsum fold_right].
  rewrite Hins. unfold Qdiv. change (/ inject_Z (Z.of_nat 1)) with 1. ring.
Qed.

Lemma marginalize_out_idempotent_witness :
  exists r r',
    Utils.marginalize_out 0 (Np.of_rows [[1; 2]; [3; 5]]) = Ok r /\
    Np.shape r = [1; 2]%nat /\
    Utils.marginalize_out 0 r = Ok r' /\
    Np.shape r' = Np.shape r /\
    ((0 < 2)%nat ->
     (forall idx k,
        Np.item r (<[0%nat := k]> idx)
        == qsum (map (fun k0 => Np.item (Np.of_rows [[1; 2]; [3; 5]])
                                        (<[0%nat := k0]> idx)) (seq 0 2))
           / inject_Z (Z.of_nat 2)) /\
     array_eq r' r).
Proof.
  exact (marginalize_out_idempotent 0 (Np.of_rows [[1; 2]; [3; 5]])).
Defined.

(** ** The stores of [concept] over a run *)

Lemma stores_kept_refl {Mice Key : Type} `{Countable Key}
      (caches : @Caches Mice Key _ _) : stores_kept caches caches.
Proof. split; auto. Qed.

Lemma stores_kept_trans {Mice Key : Type} `{Countable Key}
      (a b c : @Caches Mice Key _ _) :
  stores_kept a b -> stores_kept b c -> stores_kept a c.
Proof. intros [H1 H2] [H3 H4]. split; auto. Qed.

Section Stores.

Context {Mice : Type} `{EqDecision Mice}.
Context {Key : Type} `{Countable Key}.
Variable mice_phi : Mice -> Q.
Variable core_cause core_effect : Subsystem -> list nat -> Cut -> Mice.
Variable _all_connect_to_any _any_connect_to_all :
  Subsystem -> list nat -> list nat -> bool.
Variable raw_key norm_key : Subsystem -> list nat -> Cut -> Key.
Variable EPSILON : Q.
Variable SINGLE_NODES_WITH_SELFLOOPS_HAVE_PHI : bool.
Variable null_cause null_effect : Subsystem -> Mice.
Variable expand_cause_repertoire expand_effect_repertoire :
  @Concept Mice -> Subsystem -> Cut -> Np.ndarray.
Variable hamming_emd : Np.ndarray -> Np.ndarray -> Q.
Variable emd : list Q -> list Q -> list (list Q) -> Q.

(** What a call of [concept] that reaches the stores leaves behind. *)
Lemma concept_stored caches s m c :
  let res := (concept mice_phi core_cause core_effect _all_connect_to_any
      _any_connect_to_all raw_key norm_key EPSILON) caches s m c in
  res.2 = caches \/
  (db caches !! raw_key s m c = None \/ db caches !! raw_key s m c = Some None) /\
  db res.2 = <[raw_key s m c := res.1]> (db caches) /\
  (memo res.2 = memo caches /\ memo caches !! norm_key s m c = Some res.1 \/
   memo res.2 = <[norm_key s m c := res.1]> (memo caches) /\
   memo caches !! norm_key s m c = None).
Proof using Type.
  unfold concept. destruct m as [|n m]; [left; reflexivity|].
  set (mech := n :: m).
  destruct (negb _); [left; reflexivity|].
  assert (forall P : Prop, P -> P) as _ by auto.
  unfold _concept.
  destruct (db caches !! raw_key s mech c) as [[cv|]|] eqn:E;
    [left; reflexivity| |];
    (destruct (memo caches !! norm_key s mech c) as [r0|] eqn:Em; cbn;
     right; (split; [auto|]); (split; [reflexivity|]); auto).
Qed.

(** X12: A second call of [concept] with the same arguments, on the stores
    the first call left, gives the same answer and changes the stores no
    more. *)
Theorem concept_memoised caches s m c :
  let res := concept mice_phi core_cause core_effect _all_connect_to_any
                     _any_connect_to_all raw_key norm_key EPSILON caches s m c in
  concept mice_phi core_cause core_effect _all_connect_to_any
          _any_connect_to_all raw_key norm_key EPSILON res.2 s m c = res.
Proof using Type.
  unfold concept. destruct m as [|n m]; [reflexivity|].
  set (mech := n :: m).
  destruct (negb (_all_connect_to_any s mech (node_indices s)
                  && _any_connect_to_all s (node_indices s) mech)) eqn:Econn.
  { cbn [fst snd]. reflexivity. }
  unfold _concept.
  assert (forall r (memo' : gmap Key (option (@Concept Mice))),
             memo' !! norm_key s mech c = Some r ->
             (match <[raw_key s mech c := r]> (db caches) !! raw_key s mech c with
              | Some (Some cached_value) =>
                  (Some cached_value,
                   mkCaches (<[raw_key s mech c := r]> (db caches)) memo')
              | _ =>
                  let '(concept, caches0) :=
                    match memo' !! norm_key s mech c with
                    | Some r0 =>
                        (r0, mkCaches (<[raw_key s mech c := r]> (db caches)) memo')
                    | None =>
                        (_concept_body mice_phi core_cause core_effect EPSILON s mech c,
                         mkCaches (<[raw_key s mech c := r]> (db caches))
                                  (<[norm_key s mech c :=
                                       _concept_body mice_phi core_cause core_effect
                                                     EPSILON s mech c]> memo'))
                    end in
                  (concept,
                   mkCaches (<[raw_key s mech c := concept]> (db caches0))
                            (memo caches0))
              end)
             = (r, mkCaches (<[raw_key s mech c := r]> (db caches)) memo')) as Hagain.
  { intros r memo' Hm. rewrite lookup_insert_eq, Hm.
    destruct r as [x|]; [reflexivity|].
    cbn [db memo]. rewrite insert_insert_eq. reflexivity. }
  destruct (db caches !! raw_key s mech c) as [[cv|]|] eqn:E.
  - cbn [fst snd]. rewrite E. reflexivity.
  - destruct (memo caches !! norm_key s mech c) as [r0|] eqn:Em; cbn [fst snd db memo].
    + apply Hagain. exact Em.
    + apply Hagain. apply lookup_insert_eq.
  - destruct (memo caches !! norm_key s mech c) as [r0|] eqn:Em; cbn [fst snd db memo].
    + apply Hagain. exact Em.
    + apply Hagain. apply lookup_insert_eq.
Qed.

Lemma concept_keeps caches s m c :
  stores_kept caches ((concept mice_phi core_cause core_effect _all_connect_to_any
      _any_connect_to_all raw_key norm_key EPSILON) caches s m c).2.
Proof using Type.
  destruct (concept_stored caches s m c) as [->|(Hdb & Edb & Hmemo)];
    [apply stores_kept_refl|].
  split.
  - intros k r Hk. destruct Hmemo as [[-> _]|[-> Hnone]]; [exact Hk|].
    rewrite lookup_insert_ne; [exact Hk|]. intros <-. congruence.
  - intros k x Hk. rewrite Edb. rewrite lookup_insert_ne; [exact Hk|].
    intros <-. destruct Hdb; congruence.
Qed.

Lemma concepts_of_keeps s c mechanisms : forall caches,
  stores_kept caches ((concepts_of mice_phi core_cause core_effect _all_connect_to_any
      _any_connect_to_all raw_key norm_key EPSILON) caches s c mechanisms).2.
Proof using Type.
  induction mechanisms as [|m rest IH]; intros caches; cbn.
  - apply stores_kept_refl.
  - pose proof (concept_keeps caches s m c) as H1.
    destruct ((concept mice_phi core_cause core_effect _all_connect_to_any
        _any_connect_to_all raw_key norm_key EPSILON) caches s m c) as [r caches']. cbn
        in H1.
    specialize (IH caches').
    destruct ((concepts_of mice_phi core_cause core_effect _all_connect_to_any
        _any_connect_to_all raw_key norm_key EPSILON) caches' s c rest) as [rs
        caches'']. cbn in *.
    eapply stores_kept_trans; eassumption.
Qed.

Lemma constellation_keeps caches s c :
  stores_kept caches ((constellation mice_phi core_cause core_effect _all_connect_to_any
      _any_connect_to_all raw_key norm_key EPSILON) caches s c).2.
Proof using Type.
  unfold constellation.
  pose proof (concepts_of_keeps s c (powerset (node_indices s)) caches) as Hk.
  destruct ((concepts_of mice_phi core_cause core_effect _all_connect_to_any
      _any_connect_to_all raw_key norm_key EPSILON) caches s c _) as [rs caches']. exact
      Hk.
Qed.

Lemma _evaluate_cut_keeps caches s partition C :
  stores_kept caches ((_evaluate_cut mice_phi core_cause core_effect _all_connect_to_any
      _any_connect_to_all raw_key norm_key EPSILON null_cause null_effect
      expand_cause_repertoire expand_effect_repertoire hamming_emd emd) caches s
      partition C).2.
Proof using Type.
  unfold _evaluate_cut.
  pose proof (constellation_keeps caches s (Some (partition.1, partition.2))) as H1.
  destruct ((constellation mice_phi core_cause core_effect _all_connect_to_any
      _any_connect_to_all raw_key norm_key EPSILON) caches s (Some (partition.1,
      partition.2)))
    as [fc caches1].
  pose proof (constellation_keeps caches1 s (Some (partition.2, partition.1))) as H2.
  destruct ((constellation mice_phi core_cause core_effect _all_connect_to_any
      _any_connect_to_all raw_key norm_key EPSILON) caches1 s (Some (partition.2,
      partition.1)))
    as [bc caches2].
  cbn in *. eapply stores_kept_trans; eassumption.
Qed.

Lemma evaluate_cuts_keeps s C bipartitions : forall caches,
  stores_kept caches ((evaluate_cuts mice_phi core_cause core_effect _all_connect_to_any
      _any_connect_to_all raw_key norm_key EPSILON null_cause null_effect
      expand_cause_repertoire expand_effect_repertoire hamming_emd emd) caches s
      bipartitions C).2.
Proof using Type.
  induction bipartitions as [|p rest IH]; intros caches; cbn.
  - apply stores_kept_refl.
  - pose proof (_evaluate_cut_keeps caches s p C) as H1.
    destruct ((_evaluate_cut mice_phi core_cause core_effect _all_connect_to_any
        _any_connect_to_all raw_key norm_key EPSILON null_cause null_effect
        expand_cause_repertoire expand_effect_repertoire hamming_emd emd) caches s p C)
        as [mip caches']. cbn in H1.
    specialize (IH caches').
    destruct ((evaluate_cuts mice_phi core_cause core_effect _all_connect_to_any
        _any_connect_to_all raw_key norm_key EPSILON null_cause null_effect
        expand_cause_repertoire expand_effect_repertoire hamming_emd emd) caches' s rest
        C) as [mips caches'']. cbn in *.
    eapply stores_kept_trans; eassumption.
Qed.

(** X13: Nothing that [big_mip] runs replaces what the stores hold: a result
    memoised by [_concept] and a concept stored in [db] before the call are
    there after it, for [concept], [constellation] and [big_mip] alike. *)
Theorem big_mip_keeps_stores caches s m c :
  stores_kept caches
    (concept mice_phi core_cause core_effect _all_connect_to_any
             _any_connect_to_all raw_key norm_key EPSILON caches s m c).2 /\
  stores_kept caches
    (constellation mice_phi core_cause core_effect _all_connect_to_any
                   _any_connect_to_all raw_key norm_key EPSILON caches s c).2 /\
  stores_kept caches
    (_big_mip mice_phi core_cause core_effect _all_connect_to_any
              _any_connect_to_all raw_key norm_key EPSILON
              SINGLE_NODES_WITH_SELFLOOPS_HAVE_PHI null_cause null_effect
              expand_cause_repertoire expand_effect_repertoire hamming_emd emd
              caches s).2.
Proof using Type.
  split; [apply concept_keeps|]. split; [apply constellation_keeps|].
  unfold _big_mip.
  case_bool_decide; [apply stores_kept_refl|].
  case_bool_decide; [apply stores_kept_refl|].
  destruct (submatrix _ _) as [cm|e]; [|apply stores_kept_refl].
  case_bool_decide; [apply stores_kept_refl|].
  destruct (generator_getitem _ _) as [bipartitions|e];
    [|apply stores_kept_refl].
  pose proof (constellation_keeps caches s None) as Hk1.
  destruct ((constellation mice_phi core_cause core_effect _all_connect_to_any
      _any_connect_to_all raw_key norm_key EPSILON) caches s None) as [uc caches1].
  pose proof (evaluate_cuts_keeps s uc bipartitions caches1) as Hk2.
  destruct ((evaluate_cuts mice_phi core_cause core_effect _all_connect_to_any
      _any_connect_to_all raw_key norm_key EPSILON null_cause null_effect
      expand_cause_repertoire expand_effect_repertoire hamming_emd emd) caches1 s _ uc)
      as [mips caches2].
  cbn in *. eapply stores_kept_trans; eassumption.
Qed.

End Stores.

(** ** Constellations and their distances *)

Lemma length_omap_le {A B} (f : A -> option B) (l : list A) :
  (length (omap f l) <= length l)%nat.
Proof.
  induction l as [|x l IH]; [reflexivity|].
  cbn [omap list_omap]. fold (@omap list _ A B).
  destruct (f x); cbn [length]; lia.
Qed.

Lemma filter_all {A} (P : A -> Prop) `{forall x, Decision (P x)} (l : list A) :
  (forall x, x ∈ l -> P x) -> filter P l = l.
Proof.
  induction l as [|x l IH]; intros Hall; [reflexivity|].
  rewrite filter_cons, decide_True by (apply Hall; left).
  f_equal. apply IH. intros y Hy. apply Hall. right. exact Hy.
Qed.

Lemma submatrix_error m indices e :
  submatrix m indices = Raise e -> e = IndexError.
Proof.
  unfold submatrix.
  assert (forall {A B} (f : A -> result B) (l : list A),
             (forall x e, f x = Raise e -> e = IndexError) ->
             forall e, mapM f l = Raise e -> e = IndexError) as HmapM.
  { intros A B f l Hf. induction l as [|x l IH]; intros e0; [discriminate|].
    cbn [mapM]. destruct (f x) as [y|e1] eqn:Ex; cbn.
    - destruct (mapM f l) as [ys|e2]; cbn; [discriminate|].
      intros [= <-]. apply IH. reflexivity.
    - intros [= <-]. eapply Hf. exact Ex. }
  apply HmapM. intros i e1. destruct (m !! i) as [row|]; [|intros [= <-]; reflexivity].
  apply HmapM. intros j e2. destruct (row !! j); [discriminate|].
  intros [= <-]. reflexivity.
Qed.

Section Results.

Context {Mice : Type} `{EqDecision Mice}.
Context {Key : Type} `{Countable Key}.
Variable mice_phi : Mice -> Q.
Variable core_cause core_effect : Subsystem -> list nat -> Cut -> Mice.
Variable _all_connect_to_any _any_connect_to_all :
  Subsystem -> list nat -> list nat -> bool.
Variable raw_key norm_key : Subsystem -> list nat -> Cut -> Key.
Variable EPSILON : Q.
Variable SINGLE_NODES_WITH_SELFLOOPS_HAVE_PHI : bool.
Variable null_cause null_effect : Subsystem -> Mice.
Variable expand_cause_repertoire expand_effect_repertoire :
  @Concept Mice -> Subsystem -> Cut -> Np.ndarray.
Variable hamming_emd : Np.ndarray -> Np.ndarray -> Q.
Variable emd : list Q -> list Q -> list (list Q) -> Q.

Lemma length_concepts_of s c mechanisms : forall caches,
  length ((concepts_of mice_phi core_cause core_effect _all_connect_to_any
      _any_connect_to_all raw_key norm_key EPSILON) caches s c mechanisms).1 = length
      mechanisms.
Proof using Type.
  induction mechanisms as [|m rest IH]; intros caches; [reflexivity|].
  cbn [concepts_of]. destruct ((concept mice_phi core_cause core_effect
      _all_connect_to_any _any_connect_to_all raw_key norm_key EPSILON) caches s m c) as
      [r caches'].
  specialize (IH caches'). destruct ((concepts_of mice_phi core_cause core_effect
      _all_connect_to_any _any_connect_to_all raw_key norm_key EPSILON) caches' s c
      rest) as [rs caches''].
  cbn in *. rewrite IH. reflexivity.
Qed.

(** X14: A subsystem of [n] nodes has at most [2 ** n - 1] concepts, whatever
    the stores hold: the empty mechanism, the first of the power set, has
    none. *)
Theorem constellation_size caches s c :
  (length (constellation mice_phi core_cause core_effect _all_connect_to_any
                         _any_connect_to_all raw_key norm_key EPSILON
                         caches s c).1
   <= 2 ^ length (node_indices s) - 1)%nat.
Proof using Type.
  unfold constellation.
  pose proof (powerset_count (node_indices s)) as Hlen.
  destruct (powerset_head (node_indices s)) as [rest Hps]. rewrite Hps in *.
  cbn [concepts_of concept].
  pose proof (length_concepts_of s c rest caches) as Hrest.
  destruct ((concepts_of mice_phi core_cause core_effect _all_connect_to_any
      _any_connect_to_all raw_key norm_key EPSILON) caches s c rest) as [rs caches'].
      cbn [fst snd] in *.
  change (omap id (None :: rs)) with (omap id rs).
  pose proof (length_omap_le id rs). cbn [length] in Hlen. lia.
Qed.

(** X15: The distance of a constellation from one it contains is the sum, over
    the concepts of the larger that the smaller lacks, of phi times the
    distance from the null concept; it is the same in both orders of the
    arguments, and the EMD solver is not used.  (The contained
    constellation lists no concept twice.) *)
Theorem constellation_distance_nested (C1 C2 : list (@Concept Mice)) s cut :
  NoDup C1 -> C1 ⊆ C2 ->
  let lost :=
    qsum (map (fun c =>
                 phi c * concept_distance expand_cause_repertoire
                                          expand_effect_repertoire hamming_emd
                                          c (null_concept null_cause null_effect s)
                                          s cut)
              (filter (fun c => c ∉ C1) C2)) in
  constellation_distance null_cause null_effect expand_cause_repertoire
                         expand_effect_repertoire hamming_emd emd
                         C1 C2 s cut = lost /\
  constellation_distance null_cause null_effect expand_cause_repertoire
                         expand_effect_repertoire hamming_emd emd
                         C2 C1 s cut = lost.
Proof using Type.
  intros Hnd Hsub lost. subst lost.
  assert (filter (fun c => c ∉ C2) C1 = []) as Hnone.
  { apply filter_nil_intro. intros x Hx Hn. apply Hn, Hsub, Hx. }
  assert (length C1 <= length C2)%nat as Hle
      by (apply submseteq_length, NoDup_submseteq; assumption).
  unfold constellation_distance. rewrite Hnone.
  rewrite bool_decide_eq_true_2 by reflexivity. rewrite orb_true_r. cbn [orb].
  unfold _constellation_distance_simple. split.
  - case_bool_decide as Hlt; [reflexivity|].
    rewrite Hnone.
    assert (filter (fun c => c ∉ C1) C2 = []) as ->; [|reflexivity].
    apply filter_nil_intro. intros x Hx Hn. apply Hn.
    assert (C1 ≡ₚ C2) as Hp.
    { apply submseteq_length_Permutation; [|lia].
      apply NoDup_submseteq; assumption. }
    rewrite Hp. exact Hx.
  - rewrite bool_decide_eq_false_2 by lia. reflexivity.
Qed.

End Results.

Lemma constellation_distance_nested_witness :
  NoDup [concept_0] /\ [concept_0] ⊆ [concept_0; concept_1] /\
  let lost :=
    qsum (map (fun c => phi c * concept_distance example_expand example_expand
                                 example_hamming_emd c
                                 (null_concept example_null_mice example_null_mice
                                               and_copy_subsystem)
                                 and_copy_subsystem None)
              (filter (fun c => c ∉ [concept_0]) [concept_0; concept_1])) in
  constellation_distance example_null_mice example_null_mice example_expand
                         example_expand example_hamming_emd example_emd
                         [concept_0] [concept_0; concept_1]
                         and_copy_subsystem None = lost /\
  constellation_distance example_null_mice example_null_mice example_expand
                         example_expand example_hamming_emd example_emd
                         [concept_0; concept_1] [concept_0]
                         and_copy_subsystem None = lost.
Proof.
  assert (NoDup [concept_0]) as H1 by (apply NoDup_singleton).
  assert ([concept_0] ⊆ [concept_0; concept_1]) as H2
      by (intros x Hx; apply list_elem_of_singleton in Hx as ->; left).
  exact (conj H1 (conj H2
    (constellation_distance_nested example_null_mice example_null_mice
       example_expand example_expand example_hamming_emd example_emd
       [concept_0] [concept_0; concept_1] and_copy_subsystem None H1 H2))).
Defined.

(** ** What [big_mip] returns *)

Section BigMipResult.

Context {Mice : Type} `{EqDecision Mice}.
Context {Key : Type} `{Countable Key}.
Variable mice_phi : Mice -> Q.
Variable core_cause core_effect : Subsystem -> list nat -> Cut -> Mice.
Variable _all_connect_to_any _any_connect_to_all :
  Subsystem -> list nat -> list nat -> bool.
Variable raw_key norm_key : Subsystem -> list nat -> Cut -> Key.
Variable EPSILON : Q.
Variable SINGLE_NODES_WITH_SELFLOOPS_HAVE_PHI : bool.
Variable null_cause null_effect : Subsystem -> Mice.
Variable expand_cause_repertoire expand_effect_repertoire :
  @Concept Mice -> Subsystem -> Cut -> Np.ndarray.
Variable hamming_emd : Np.ndarray -> Np.ndarray -> Q.
Variable emd : list Q -> list Q -> list (list Q) -> Q.

(** X17: The outcomes of [big_mip], which leaves the stores as they are
    in every case.  A result is returned for a subsystem of no node (the
    null result), of one node (the single-node result), and of two or more
    nodes in more than one component of the connectivity matrix (the null
    result).  For two or more nodes it raises otherwise: [IndexError] when a
    node is no row or column of the connectivity matrix, and [TypeError],
    from the slice of the generator of bipartitions, when the nodes are one
    component; no cut is evaluated. *)
Theorem big_mip_outcome caches s :
  (_big_mip mice_phi core_cause core_effect _all_connect_to_any
            _any_connect_to_all raw_key norm_key EPSILON
            SINGLE_NODES_WITH_SELFLOOPS_HAVE_PHI null_cause null_effect
            expand_cause_repertoire expand_effect_repertoire hamming_emd emd
            caches s).2 = caches /\
  match (_big_mip mice_phi core_cause core_effect _all_connect_to_any
                  _any_connect_to_all raw_key norm_key EPSILON
                  SINGLE_NODES_WITH_SELFLOOPS_HAVE_PHI null_cause null_effect
                  expand_cause_repertoire expand_effect_repertoire hamming_emd emd
                  caches s).1 with
  | Ok mip =>
      bm_subsystem mip = s /\
      ((node_indices s = [] /\ mip = _null_mip s) \/
       (length (node_indices s) = 1%nat /\
        mip = _single_node_mip SINGLE_NODES_WITH_SELFLOOPS_HAVE_PHI s) \/
       ((2 <= length (node_indices s))%nat /\ mip = _null_mip s /\
        exists cm, submatrix (net_cm (network s)) (node_indices s) = Ok cm /\
                   (1 < connected_components cm)%nat))
  | Raise e =>
      (2 <= length (node_indices s))%nat /\
      ((e = IndexError /\
        submatrix (net_cm (network s)) (node_indices s) = Raise IndexError) \/
       (e = TypeError /\
        exists cm, submatrix (net_cm (network s)) (node_indices s) = Ok cm /\
                   (connected_components cm <= 1)%nat))
  end.
Proof using Type.
  unfold _big_mip.
  case_bool_decide as Hone.
  { cbn [fst snd]. split; [reflexivity|].
    split; [unfold _single_node_mip;
            destruct SINGLE_NODES_WITH_SELFLOOPS_HAVE_PHI; reflexivity|].
    right. left. split; [exact Hone | reflexivity]. }
  case_bool_decide as Hnil.
  { cbn [fst snd]. split; [reflexivity|]. split; [reflexivity|].
    left. split; [exact Hnil | reflexivity]. }
  assert (2 <= length (node_indices s))%nat as Hlen.
  { destruct (node_indices s) as [|x [|y l]]; cbn in *; try congruence; lia. }
  destruct (submatrix _ _) as [cm|e] eqn:Esub.
  2:{ cbn [fst snd]. pose proof (submatrix_error _ _ _ Esub) as ->. auto. }
  case_bool_decide as Hcomp.
  { cbn [fst snd]. split; [reflexivity|]. split; [reflexivity|].
    right. right. split; [exact Hlen|]. split; [reflexivity|]. eauto. }
  unfold generator_getitem. cbn [fst snd]. split; [reflexivity|].
  split; [exact Hlen|]. right. split; [reflexivity|].
  exists cm. split; [reflexivity | lia].
Qed.

(** X16: [conceptual_information] is the sum, over the concepts of the
    unpartitioned constellation, of phi times the distance from the null
    concept; the EMD solver is not used.  It is not negative when the
    stores hold proper concepts only, EPSILON is not negative and
    [hamming_emd] is not negative. *)
Theorem conceptual_information_spec caches s :
  caches_proper EPSILON caches ->
  0 <= EPSILON ->
  (forall a b, 0 <= hamming_emd a b) ->
  let res :=
    conceptual_information mice_phi core_cause core_effect _all_connect_to_any
                           _any_connect_to_all raw_key norm_key EPSILON
                           null_cause null_effect expand_cause_repertoire
                           expand_effect_repertoire hamming_emd emd caches s in
  let C :=
    constellation mice_phi core_cause core_effect _all_connect_to_any
                  _any_connect_to_all raw_key norm_key EPSILON caches s None in
  res.1 = qsum (map (fun c =>
                       phi c * concept_distance expand_cause_repertoire
                                                expand_effect_repertoire hamming_emd
                                                c (null_concept null_cause null_effect s)
                                                s None)
                    C.1) /\
  res.2 = C.2 /\
  0 <= res.1.
Proof using Type.
  intros Hp Heps Hemd res C. subst res C. unfold conceptual_information.
  assert (Forall (fun x => EPSILON <= phi x) ((constellation mice_phi core_cause
      core_effect _all_connect_to_any _any_connect_to_all raw_key norm_key EPSILON)
      caches s None).1) as Hphi.
  { unfold constellation. generalize (powerset (node_indices s)). intros ms.
    pose proof (concepts_of_proper mice_phi core_cause core_effect
                  _all_connect_to_any _any_connect_to_all raw_key norm_key
                  EPSILON s None ms caches Hp) as [Hr _].
    destruct ((concepts_of mice_phi core_cause core_effect _all_connect_to_any
        _any_connect_to_all raw_key norm_key EPSILON) caches s None ms) as [rs caches'].
    cbn [fst snd] in *. induction Hr as [|r rs Hr Hrs IH]; [constructor|].
    destruct r as [x|]; [|exact IH].
    constructor; [apply Hr; reflexivity | exact IH]. }
  destruct ((constellation mice_phi core_cause core_effect _all_connect_to_any
      _any_connect_to_all raw_key norm_key EPSILON) caches s None) as [C caches']. cbn
      [fst snd] in *.
  assert ((constellation_distance null_cause null_effect expand_cause_repertoire
      expand_effect_repertoire hamming_emd emd) C [] s None
          = qsum (map (fun c => phi c * (concept_distance expand_cause_repertoire
              expand_effect_repertoire hamming_emd) c ((null_concept null_cause
              null_effect) s) s None) C))
    as ->.
  { unfold constellation_distance. rewrite filter_nil.
    rewrite (bool_decide_eq_true_2 ([] = [])) by reflexivity. rewrite orb_true_r.
    unfold _constellation_distance_simple.
    rewrite bool_decide_eq_false_2 by (cbn; lia).
    rewrite filter_all by (intros x _ Hx; inversion Hx). reflexivity. }
  split; [reflexivity|]. split; [reflexivity|].
  apply (qsum_nonneg (fun c => phi c * (concept_distance expand_cause_repertoire
      expand_effect_repertoire hamming_emd) c ((null_concept null_cause null_effect) s)
      s None)).
  intros c Hc. rewrite Forall_forall in Hphi. specialize (Hphi c Hc).
  apply Qmult_le_0_compat; [lra|].
  unfold concept_distance. cbn [qsum fold_right].
  pose proof (Hemd (expand_cause_repertoire c s None)
                   (expand_cause_repertoire ((null_concept null_cause null_effect) s) s
                       None)).
  pose proof (Hemd (expand_effect_repertoire c s None)
                   (expand_effect_repertoire ((null_concept null_cause null_effect) s) s
                       None)).
  lra.
Qed.

End BigMipResult.

Lemma conceptual_information_spec_witness :
  caches_proper (1 # 2) empty_caches /\
  0 <= 1 # 2 /\
  (forall a b, 0 <= example_hamming_emd a b) /\
  let res :=
    conceptual_information (fun q : Q => q) example_core example_core
      example_connect example_connect example_key example_key (1 # 2)
      (fun _ => 0) (fun _ => 0) example_expand example_expand
      example_hamming_emd example_emd empty_caches and_copy_subsystem in
  let C :=
    constellation (fun q : Q => q) example_core example_core example_connect
                  example_connect example_key example_key (1 # 2)
                  empty_caches and_copy_subsystem None in
  res.1 = qsum (map (fun c => phi c * concept_distance example_expand example_expand
                                       example_hamming_emd c
                                       (null_concept (fun _ => 0) (fun _ => 0)
                                                     and_copy_subsystem)
                                       and_copy_subsystem None)
                    C.1) /\
  res.2 = C.2 /\
  0 <= res.1.
Proof.
  assert (caches_proper (1 # 2) empty_caches) as H1.
  { split; intros k r Hk; cbn in Hk; rewrite lookup_empty in Hk; discriminate. }
  assert (0 <= 1 # 2) as H2 by discriminate.
  assert (forall a b, 0 <= example_hamming_emd a b) as H3
    by (intros a b; apply Qabs_nonneg).
  exact (conj H1 (conj H2 (conj H3
    (conceptual_information_spec (fun q : Q => q) example_core example_core
       example_connect example_connect example_key example_key (1 # 2)
       (fun _ => 0) (fun _ => 0) example_expand example_expand
       example_hamming_emd example_emd empty_caches and_copy_subsystem
       H1 H2 H3)))).
Defined.

(** ** [pyphi/node.py] *)

Lemma removelast_snoc {A} (l : list A) x : removelast (l ++ [x]) = l.
Proof. apply removelast_last. Qed.

Lemma select_last_stack a0 a1 k :
  Np.shape a0 = Np.shape a1 -> (k < 2)%nat ->
  exists t r,
    Np.stack_last a0 a1 = Ok t /\
    Np.shape t = Np.shape a1 ++ [2%nat] /\
    Np.select_last k t = Ok r /\
    Np.shape r = Np.shape a1 /\
    forall idx, Np.item r idx = Np.item (match k with O => a0 | _ => a1 end) idx.
Proof.
  intros Hsh Hk. unfold Np.stack_last. rewrite decide_True by exact Hsh.
  eexists _, _. split; [reflexivity|]. cbn [Np.shape]. rewrite Hsh.
  split; [reflexivity|]. unfold Np.select_last. cbn [Np.shape Np.item].
  rewrite last_snoc, decide_True by exact Hk.
  split; [reflexivity|]. cbn [Np.shape Np.item]. rewrite removelast_snoc.
  split; [reflexivity|]. intros idx. rewrite last_snoc, removelast_snoc.
  destruct k as [|k]; reflexivity.
Qed.

(** What a successful [Node.__init__] has computed. *)
Lemma Node_init_Ok tpm cm index state n :
  Node_init tpm cm index state = Ok n ->
  exists ins outs on0 on1 t,
    get_inputs_from_cm index cm = Ok ins /\
    get_outputs_from_cm index cm = Ok outs /\
    Np.select_last index tpm = Ok on0 /\
    Distribution.marginalize_out (list_difference (tpm_indices tpm) ins) on0
      = Ok on1 /\
    Np.stack_last (Np.one_minus on1) on1 = Ok t /\
    n = mkNode index state ins outs t.
Proof.
  unfold Node_init. intros Hn.
  destruct (get_inputs_from_cm index cm) as [ins|e]; cbn in Hn; [|discriminate].
  destruct (get_outputs_from_cm index cm) as [outs|e]; cbn in Hn; [|discriminate].
  destruct (Np.select_last index tpm) as [on0|e]; cbn in Hn; [|discriminate].
  destruct (Distribution.marginalize_out _ on0) as [on1|e] eqn:E1; cbn in Hn;
    [|discriminate].
  destruct (Np.stack_last _ _) as [t|e] eqn:Et; cbn in Hn; [|discriminate].
  injection Hn as <-. exists ins, outs, on0, on1, t. auto 10.
Qed.

(** X20: A node that [Node.__init__] has built carries the index and the state
    given, and the two halves of its TPM, [tpm_off] and [tpm_on], are
    arrays of one shape that add up to 1 at every index. *)
Theorem Node_init_on_off tpm cm index state n :
  Node_init tpm cm index state = Ok n ->
  node_index n = index /\ node_state n = state /\
  exists off on,
    Node_tpm_off n = Ok off /\ Node_tpm_on n = Ok on /\
    Np.shape off = Np.shape on /\
    Np.shape (node_tpm n) = Np.shape on ++ [2%nat] /\
    forall idx, Np.item off idx + Np.item on idx == 1.
Proof.
  intros Hn.
  apply Node_init_Ok in Hn as (ins & outs & on0 & on1 & t0 & _ & _ & _ & _ & Ht0 & ->).
  destruct (select_last_stack (Np.one_minus on1) on1 0) as (t & off & Ht & Hsh & Hoff &
      Hoffsh & Hoffi);
    [reflexivity | lia |].
  destruct (select_last_stack (Np.one_minus on1) on1 1) as (t' & on & Ht' & _ & Hon &
      Honsh & Honi);
    [reflexivity | lia |].
  rewrite Ht in Ht'. injection Ht' as <-.
  rewrite Ht in Ht0. injection Ht0 as <-.
  cbn [node_index node_state]. split; [reflexivity|]. split; [reflexivity|].
  exists off, on. unfold Node_tpm_off, Node_tpm_on. cbn [node_tpm].
  split; [exact Hoff|]. split; [exact Hon|].
  split; [congruence|]. split; [congruence|].
  intros idx. rewrite Hoffi, Honi. cbn [Np.one_minus Np.item]. ring.
Qed.

Lemma Node_init_index tpm cm index state n :
  Node_init tpm cm index state = Ok n ->
  node_index n = index /\ node_state n = state.
Proof.
  intros Hn.
  apply Node_init_Ok in Hn as (ins & outs & on0 & on1 & t0 & _ & _ & _ & _ & _ & ->).
  split; reflexivity.
Qed.

Lemma generate_nodes_nodes tpm cm network_state indices nodes :
  generate_nodes tpm cm network_state indices = Ok nodes ->
  map node_index nodes = indices /\
  Forall (fun n => network_state !! node_index n = Some (node_state n)) nodes.
Proof.
  unfold generate_nodes, state_of. intros Hg.
  destruct (mapM _ indices) as [node_state|e] eqn:Est; cbn in Hg; [|discriminate].
  apply mapM_Ok_Forall2 in Est. apply mapM_Ok_Forall2 in Hg.
  revert nodes Hg. induction Est as [|i v indices states Hv Hrest IH]; intros nodes Hg.
  - inversion Hg; subst. split; [reflexivity | constructor].
  - cbn in Hg. inversion Hg as [|? n ? nodes' Hn Hnodes]; subst.
    destruct (IH _ Hnodes) as [Hidx Hst].
    apply Node_init_index in Hn as [Hi Hs].
    split; [cbn; congruence|]. constructor; [|exact Hst].
    destruct (network_state !! i) eqn:E; [|discriminate].
    injection Hv as <-. rewrite Hi, Hs. exact E.
Qed.

(** X21: [generate_nodes] builds one node per index, in the order of the
    indices, each in the state that the network state gives its index. *)
Theorem generate_nodes_spec tpm cm network_state indices nodes :
  generate_nodes tpm cm network_state indices = Ok nodes ->
  length nodes = length indices /\
  map node_index nodes = indices /\
  Forall (fun n => network_state !! node_index n = Some (node_state n)) nodes.
Proof.
  intros Hg. apply generate_nodes_nodes in Hg as [Hidx Hst].
  split; [rewrite <- Hidx, length_map; reflexivity|]. split; assumption.
Qed.

Lemma bzip_twos sh :
  Np.bzip (map (fun _ => 2%nat) sh) sh
  = if forallb (fun d => (d =? 1)%nat || (d =? 2)%nat) sh
    then Some (replicate (length sh) 2%nat) else None.
Proof.
  induction sh as [|d sh IH]; [reflexivity|].
  cbn [map Np.bzip forallb length replicate]. rewrite IH.
  unfold Np.bdim.
  destruct (decide (2%nat = d)) as [<-|Hd2].
  - cbn. destruct (forallb _ sh); reflexivity.
  - rewrite decide_False by lia.
    destruct (decide (d = 1%nat)) as [->|Hd1].
    + cbn. destruct (forallb _ sh); reflexivity.
    + assert ((d =? 1)%nat = false) as -> by (apply Nat.eqb_neq; exact Hd1).
      assert ((d =? 2)%nat = false) as -> by (apply Nat.eqb_neq; lia).
      reflexivity.
Qed.

(** X22: [expand_node_tpm] broadcasts a node TPM whose axes have length 1 or 2
    to the array with every axis of length 2, reading index 0 along the
    axes of length 1; a TPM with an axis of another length is refused. *)
Theorem expand_node_tpm_spec (tpm : Np.ndarray) :
  if forallb (fun d => (d =? 1)%nat || (d =? 2)%nat) (Np.shape tpm)
  then exists r,
      expand_node_tpm tpm = Ok r /\
      Np.shape r = replicate (Np.ndim tpm) 2%nat /\
      forall idx, Np.item r idx == Np.item tpm (Np.bindex (Np.shape tpm) idx)
  else expand_node_tpm tpm = Raise ValueError.
Proof.
  unfold expand_node_tpm, Np.multiply. cbn [Np.ones Np.shape Np.item].
  rewrite broadcast_same_len by apply length_map.
  rewrite bzip_twos. destruct (forallb _ _); [|reflexivity].
  eexists. split; [reflexivity|]. cbn [Np.shape Np.item].
  split; [reflexivity|]. intros idx. ring.
Qed.

(** ** [pyphi/subsystem.py] *)

(** What a successful [Subsystem.__init__] has computed. *)
Lemma Subsystem_init_from_Ok net st ni c parent s :
  Subsystem_init_from net st ni c parent = Ok s ->
  exists t sub ns,
    length st = net_size net /\
    Distribution.condition_tpm
      (net_tpm net)
      (list_difference (net_node_indices net) (coerce_to_indices ni)) st = Ok t /\
    submatrix (apply_cut c (net_cm net)) (coerce_to_indices ni) = Ok sub /\
    MICECache parent = Ok tt /\
    generate_nodes t (apply_cut c (net_cm net)) st (coerce_to_indices ni) = Ok ns /\
    validate_subsystem st = Ok tt /\
    s = mkSubsystem net st (coerce_to_indices ni)
                    (list_difference (net_node_indices net) (coerce_to_indices ni))
                    t c (apply_cut c (net_cm net)) ns.
Proof.
  unfold Subsystem_init_from, validate_state_length. intros Hs.
  case_bool_decide as Hlen; cbn in Hs; [|discriminate].
  destruct (Distribution.condition_tpm _ _ _) as [t|e] eqn:Et; cbn in Hs;
    [|discriminate].
  destruct (submatrix _ _) as [sub|e] eqn:Esub; cbn in Hs; [|discriminate].
  destruct (MICECache parent) as [[]|e] eqn:Ec; cbn in Hs; [|discriminate].
  destruct (generate_nodes t _ st _) as [ns|e] eqn:En; cbn in Hs; [|discriminate].
  destruct (validate_subsystem st) as [[]|e] eqn:Ev; cbn in Hs; [|discriminate].
  injection Hs as <-. exists t, sub, ns. auto 10.
Qed.

Lemma Subsystem_init_nodes net st ni c s :
  Subsystem_init net st ni c = Ok s ->
  node_indices s = coerce_to_indices ni /\
  map node_index (nodes s) = node_indices s.
Proof.
  intros Hs. apply Subsystem_init_from_Ok in Hs
    as (t & sub & ns & _ & _ & _ & _ & En & _ & ->).
  cbn. split; [reflexivity|].
  apply generate_nodes_nodes in En as [Hidx _]. exact Hidx.
Qed.

Lemma list_difference_nil_iff (l k : list nat) :
  list_difference l k = [] <-> l ⊆ k.
Proof.
  split.
  - intros Hnil x Hx. destruct (decide (x ∈ k)) as [Hk|Hk]; [exact Hk|].
    assert (x ∈ list_difference l k) as Hd
        by (apply list_elem_of_difference; split; assumption).
    rewrite Hnil in Hd. inversion Hd.
  - intros Hsub. destruct (list_difference l k) as [|y r] eqn:E; [reflexivity|].
    assert (y ∈ list_difference l k) as Hd by (rewrite E; left).
    apply list_elem_of_difference in Hd as [Hl Hk]. exfalso. apply Hk, Hsub, Hl.
Qed.

(** X24: On a subsystem that [Subsystem.__init__] has built, [indices2nodes]
    returns the nodes of the indices asked for, in the order asked, when
    they are all indices of the subsystem; otherwise it raises
    [ValueError].  It never fails with [KeyError]. *)
Theorem indices2nodes_spec net st ni c s indices :
  Subsystem_init net st ni c = Ok s ->
  if bool_decide (indices ⊆ node_indices s)
  then exists ns,
      indices2nodes s indices = Ok ns /\
      map node_index ns = indices /\
      Forall (fun n => n ∈ nodes s) ns
  else indices2nodes s indices = Raise ValueError.
Proof.
  intros Hs. apply Subsystem_init_nodes in Hs as [Hni Hnodes].
  unfold indices2nodes. case_bool_decide as Hsub.
  - rewrite bool_decide_eq_false_2.
    2:{ intros Hne. apply Hne. apply list_difference_nil_iff. exact Hsub. }
    destruct (mapM_Ok_intro (index2node s) indices) as (ns & Hns & Hall).
    { intros i Hi. unfold index2node, _index2node.
      destruct (foldl_insert_is_Some (nodes s) ∅ i) as [n Hn].
      - left. rewrite Hnodes. apply Hsub, Hi.
      - rewrite Hn. eauto. }
    exists ns. split; [exact Hns|]. split.
    + clear Hns Hsub. induction Hall as [|i n indices' ns' Hn Hrest IH]; [reflexivity|].
      cbn. rewrite (index2node_index _ _ _ Hn), IH. reflexivity.
    + clear Hns Hsub. induction Hall as [|i n indices' ns' Hn Hrest IH]; constructor.
      * eapply index2node_elem. exact Hn.
      * exact IH.
  - rewrite bool_decide_eq_true_2; [reflexivity|].
    intros Hnil. apply Hsub. apply list_difference_nil_iff. exact Hnil.
Qed.

(** ** [Subsystem.__init__] and [apply_cut] *)

Lemma remove_dups_NoDup {A} `{EqDecision A} (l : list A) :
  NoDup l -> remove_dups l = l.
Proof.
  induction 1 as [|x l Hx Hl IH]; [reflexivity|]. cbn.
  destruct (decide_rel elem_of x l) as [Hin|_]; [contradiction|].
  rewrite IH. reflexivity.
Qed.

Lemma coerce_to_indices_sorted nodes :
  Sorted le (coerce_to_indices nodes) /\ NoDup (coerce_to_indices nodes) /\
  forall i, i ∈ coerce_to_indices nodes <-> i ∈ nodes.
Proof.
  unfold coerce_to_indices. split; [apply Sorted_merge_sort; apply _|].
  split.
  - rewrite merge_sort_Permutation. apply NoDup_remove_dups.
  - intros i. rewrite merge_sort_Permutation. apply elem_of_remove_dups.
Qed.

Lemma coerce_to_indices_idemp nodes :
  coerce_to_indices (coerce_to_indices nodes) = coerce_to_indices nodes.
Proof.
  destruct (coerce_to_indices_sorted nodes) as (Hs & Hnd & _).
  unfold coerce_to_indices at 1. rewrite (remove_dups_NoDup _ Hnd).
  apply (Sorted_unique le); [apply Sorted_merge_sort; apply _ | exact Hs|].
  apply merge_sort_Permutation.
Qed.

(** The selection of rows and columns succeeds when every entry asked for
    is in the matrix, whatever the entries are. *)
Lemma submatrix_Ok_iff (m : list (list nat)) idx :
  (exists sub, submatrix m idx = Ok sub) <->
  forall i j, i ∈ idx -> j ∈ idx ->
    exists row x, m !! i = Some row /\ row !! j = Some x.
Proof.
  unfold submatrix, CM. split.
  - intros [sub Hsub] i j Hi Hj.
    apply mapM_Ok_Forall2 in Hsub.
    apply list_elem_of_lookup in Hi as [p Hp].
    destruct (Forall2_lookup_l _ _ _ _ _ Hsub Hp) as (r & _ & Hr).
    cbn beta in Hr.
    destruct (m !! i) as [row|] eqn:Erow; [|discriminate].
    apply mapM_Ok_Forall2 in Hr.
    apply list_elem_of_lookup in Hj as [q Hq].
    destruct (Forall2_lookup_l _ _ _ _ _ Hr Hq) as (x & _ & Hx).
    cbn beta in Hx.
    destruct (row !! j) as [y|] eqn:Ey; [|discriminate]. eauto.
  - intros Hall. apply mapM_is_Ok. intros i Hi.
    destruct idx as [|j0 idx0] eqn:E; [inversion Hi|]. rewrite <- E in *.
    destruct (Hall i j0) as (row & _ & Hrow & _); [exact Hi | rewrite E; left|].
    rewrite Hrow. apply mapM_is_Ok.
    intros j Hj. destruct (Hall i j Hi Hj) as (row' & x & Hrow' & Hx).
    rewrite Hrow in Hrow'. injection Hrow' as <-. rewrite Hx. eauto.
Qed.

Lemma apply_cut_lookup c (m : list (list nat)) i j :
  (exists row x, apply_cut c m !! i = Some row /\ row !! j = Some x) <->
  (exists row x, m !! i = Some row /\ row !! j = Some x).
Proof.
  unfold apply_cut, CM. destruct c as [[from_nodes to_nodes]|]; [|reflexivity].
  rewrite list_lookup_imap. split.
  - intros (row & x & Hrow & Hx). destruct (m !! i) as [row0|]; [|discriminate].
    cbn in Hrow. injection Hrow as <-. rewrite list_lookup_imap in Hx.
    destruct (row0 !! j) as [x0|] eqn:Ex0; [|discriminate].
    exists row0, x0. split; [reflexivity | exact Ex0].
  - intros (row & x & Hrow & Hx). rewrite Hrow. cbn.
    eexists _, _. split; [reflexivity|]. rewrite list_lookup_imap, Hx.
    reflexivity.
Qed.

Lemma submatrix_apply_cut c c' (m : list (list nat)) idx sub :
  submatrix (apply_cut c m) idx = Ok sub ->
  exists sub', submatrix (apply_cut c' m) idx = Ok sub'.
Proof.
  intros Hsub. apply submatrix_Ok_iff. intros i j Hi Hj.
  apply apply_cut_lookup.
  apply (apply_cut_lookup c). revert i j Hi Hj. apply submatrix_Ok_iff. eauto.
Qed.

(** X23: [apply_cut] on an uncut subsystem that [Subsystem.__init__] has
    built is the construction of the subsystem with the cut: the network,
    the state, the node indices (sorted, without duplicates), the external
    indices and the conditioned TPM are those of the subsystem, the
    connectivity matrix is that of the network with the cut applied.  Cuts
    do not add up: a subsystem that carries a cut is not cut again,
    [apply_cut] raises [ValueError] on it. *)
Theorem apply_cut_of_uncut net st ni c s :
  Subsystem_init net st ni None = Ok s ->
  StronglySorted lt (node_indices s) /\
  (forall i, i ∈ node_indices s <-> i ∈ ni) /\
  Subsystem_apply_cut s c = Subsystem_init net st ni c /\
  forall s', Subsystem_apply_cut s c = Ok s' ->
    network s' = network s /\ state s' = state s /\
    node_indices s' = node_indices s /\
    external_indices s' = external_indices s /\ tpm s' = tpm s /\
    cut s' = c /\ cm s' = apply_cut c (net_cm net) /\
    (c <> None -> forall c', Subsystem_apply_cut s' c' = Raise ValueError).
Proof.
  intros Hs. apply Subsystem_init_from_Ok in Hs
    as (t & sub & ns & Hlen & Et & Esub & _ & En & Ev & ->).
  cbn [network state node_indices external_indices tpm cut cm].
  destruct (coerce_to_indices_sorted ni) as (Hsorted & Hnd & Hel).
  split.
  { apply Sorted_StronglySorted in Hsorted; [|intros x y z; apply Nat.le_trans].
    clear -Hsorted Hnd. induction Hsorted as [|x l Hl IH Hx]; constructor.
    - apply IH. apply NoDup_cons in Hnd as [_ Hnd]. exact Hnd.
    - apply NoDup_cons in Hnd as [Hnx _]. rewrite Forall_forall in Hx |- *.
      intros y Hy. specialize (Hx y Hy).
      assert (x <> y) by (intros ->; contradiction). lia. }
  split; [exact Hel|].
  assert (forall c0, Subsystem_apply_cut
                       (mkSubsystem net st (coerce_to_indices ni)
                          (list_difference (net_node_indices net)
                                           (coerce_to_indices ni))
                          t None (apply_cut None (net_cm net)) ns) c0
                     = Subsystem_init net st ni c0) as Heq.
  { intros c0. unfold Subsystem_apply_cut, Subsystem_init, Subsystem_init_from.
    cbn [network state node_indices external_indices tpm cut cm MICECache is_cut].
    rewrite coerce_to_indices_idemp. reflexivity. }
  split; [apply Heq|].
  rewrite Heq. intros s' Hs'. apply Subsystem_init_from_Ok in Hs'
    as (t' & sub' & ns' & _ & Et' & Esub' & _ & En' & _ & ->).
  cbn [network state node_indices external_indices tpm cut cm].
  rewrite Et in Et'. injection Et' as <-.
  repeat (split; [reflexivity|]).
  intros Hc c'. unfold Subsystem_apply_cut, Subsystem_init_from.
  cbn [network state node_indices external_indices tpm cut cm].
  rewrite coerce_to_indices_idemp.
  unfold validate_state_length. rewrite bool_decide_eq_true_2 by exact Hlen.
  cbn [mbind result_bind]. rewrite Et. cbn [mbind result_bind].
  destruct (submatrix_apply_cut c c' _ _ _ Esub') as [sub'' ->].
  cbn [mbind result_bind MICECache is_cut cut].
  destruct c as [cc|]; [reflexivity | congruence].
Qed.

Lemma and_copy_subsystem_init :
  Subsystem_init and_copy_network [0; 0]%nat [0; 1]%nat None = Ok and_copy_subsystem.
Proof. vm_compute. reflexivity. Qed.

Lemma Node_init_on_off_witness :
  let n := force (mkNode 0 0 [] [] (Np.array1 0))
                 (Node_init and_copy_tpm [[1; 1]; [1; 0]]%nat 0 0) in
  Node_init and_copy_tpm [[1; 1]; [1; 0]]%nat 0 0 = Ok n /\
  node_index n = 0%nat /\ node_state n = 0%nat /\
  exists off on,
    Node_tpm_off n = Ok off /\ Node_tpm_on n = Ok on /\
    Np.shape off = Np.shape on /\
    Np.shape (node_tpm n) = Np.shape on ++ [2%nat] /\
    forall idx, Np.item off idx + Np.item on idx == 1.
Proof.
  intros n.
  assert (Node_init and_copy_tpm [[1; 1]; [1; 0]]%nat 0 0 = Ok n) as H
      by (vm_compute; reflexivity).
  exact (conj H (Node_init_on_off and_copy_tpm [[1; 1]; [1; 0]]%nat 0 0 n H)).
Defined.

Lemma generate_nodes_spec_witness :
  generate_nodes (tpm and_copy_subsystem) (cm and_copy_subsystem)
                 [0; 0]%nat [0; 1]%nat = Ok (nodes and_copy_subsystem) /\
  length (nodes and_copy_subsystem) = length [0; 1]%nat /\
  map node_index (nodes and_copy_subsystem) = [0; 1]%nat /\
  Forall (fun n => [0; 0]%nat !! node_index n = Some (node_state n))
         (nodes and_copy_subsystem).
Proof.
  assert (generate_nodes (tpm and_copy_subsystem) (cm and_copy_subsystem)
                         [0; 0]%nat [0; 1]%nat = Ok (nodes and_copy_subsystem)) as H
      by (vm_compute; reflexivity).
  exact (conj H (generate_nodes_spec _ _ _ _ _ H)).
Defined.

Lemma and_copy_subsystem_unsorted :
  Subsystem_init and_copy_network [0; 0]%nat [1; 0; 1]%nat None
  = Ok and_copy_subsystem.
Proof. vm_compute. reflexivity. Qed.

Lemma apply_cut_of_uncut_witness :
  Subsystem_init and_copy_network [0; 0]%nat [1; 0; 1]%nat None
  = Ok and_copy_subsystem /\
  StronglySorted lt (node_indices and_copy_subsystem) /\
  (forall i, i ∈ node_indices and_copy_subsystem <-> i ∈ [1; 0; 1]%nat) /\
  Subsystem_apply_cut and_copy_subsystem (Some ([0%nat], [1%nat]))
  = Subsystem_init and_copy_network [0; 0]%nat [1; 0; 1]%nat
                   (Some ([0%nat], [1%nat])) /\
  forall s',
    Subsystem_apply_cut and_copy_subsystem (Some ([0%nat], [1%nat])) = Ok s' ->
    network s' = network and_copy_subsystem /\
    state s' = state and_copy_subsystem /\
    node_indices s' = node_indices and_copy_subsystem /\
    external_indices s' = external_indices and_copy_subsystem /\
    tpm s' = tpm and_copy_subsystem /\
    cut s' = Some ([0%nat], [1%nat]) /\
    cm s' = apply_cut (Some ([0%nat], [1%nat])) (net_cm and_copy_network) /\
    (Some ([0%nat], [1%nat]) <> None ->
     forall c', Subsystem_apply_cut s' c' = Raise ValueError).
Proof.
  exact (conj and_copy_subsystem_unsorted
              (apply_cut_of_uncut _ _ _ (Some ([0%nat], [1%nat])) _
                                  and_copy_subsystem_unsorted)).
Defined.

Lemma indices2nodes_spec_witness :
  Subsystem_init and_copy_network [0; 0]%nat [0; 1]%nat None = Ok and_copy_subsystem /\
  if bool_decide ([1; 0]%nat ⊆ node_indices and_copy_subsystem)
  then exists ns,
      indices2nodes and_copy_subsystem [1; 0]%nat = Ok ns /\
      map node_index ns = [1; 0]%nat /\
      Forall (fun n => n ∈ nodes and_copy_subsystem) ns
  else indices2nodes and_copy_subsystem [1; 0]%nat = Raise ValueError.
Proof.
  exact (conj and_copy_subsystem_init
              (indices2nodes_spec _ _ _ _ _ [1; 0]%nat and_copy_subsystem_init)).
Defined.

(** ** Which partition [find_mip] reports *)

Section FindMipPartition.

Variable mip_partitions : list nat -> list nat -> list Partition.
Variable repertoire_distance : Direction -> Np.ndarray -> Np.ndarray -> Q.

Lemma _mip_fields s direction mechanism purview rep phi partition partitioned :
  is_ok (state_of mechanism (state s)) = true ->
  is_ok (state_of purview (state s)) = true ->
  exists ria,
    _mip s direction mechanism purview rep phi partition partitioned = Ok ria /\
    ria_phi ria = Finite phi /\ ria_partition ria = partition /\
    ria_partitioned_repertoire ria = partitioned /\
    ria_repertoire ria = Some rep.
Proof using Type.
  intros Hm Hp. unfold _mip.
  destruct (state_of mechanism (state s)); [|discriminate].
  destruct (state_of purview (state s)); [|discriminate].
  eexists. repeat split; reflexivity.
Qed.

Lemma find_mip_loop_first s direction mechanism purview rep :
  is_ok (state_of mechanism (state s)) = true ->
  is_ok (state_of purview (state s)) = true ->
  forall partitions mip seen_ps seen_ds ds,
    (first_least repertoire_distance) s direction mechanism purview rep mip seen_ps
        seen_ds ->
    length seen_ps = length seen_ds ->
    (partition_distances repertoire_distance) s direction mechanism purview rep
        partitions = Ok ds ->
    Forall (fun d => ~ d == 0) ds ->
    exists ria,
      (find_mip_loop repertoire_distance) s direction mechanism purview rep mip
          partitions = Ok ria /\
      (first_least repertoire_distance) s direction mechanism purview rep ria
                  (seen_ps ++ partitions) (seen_ds ++ ds).
Proof using Type.
  intros Hm Hp.
  induction partitions as [|partition rest IH];
    intros mip seen_ps seen_ds ds Hinv Hlen Hds Hnz.
  - cbn in Hds. injection Hds as <-. exists mip. rewrite !app_nil_r. auto.
  - apply distances_cons in Hds as (d & pr & ds' & Hev & Hrest & ->).
    inversion Hnz as [|? ? Hd Hnz']; subst.
    cbn [find_mip_loop]. rewrite Hev. cbn [mbind result_bind].
    destruct (Qeq_bool d 0) eqn:Ez; [apply Qeq_bool_iff in Ez; contradiction|].
    replace (seen_ps ++ partition :: rest) with ((seen_ps ++ [partition]) ++ rest)
      by (rewrite <- app_assoc; reflexivity).
    replace (seen_ds ++ d :: ds') with ((seen_ds ++ [d]) ++ ds')
      by (rewrite <- app_assoc; reflexivity).
    destruct (phi_ltb (Finite d) (ria_phi mip)) eqn:El.
    + destruct (_mip_fields s direction mechanism purview rep d (Some partition)
                            (Some pr) Hm Hp)
        as (mip' & Hmip' & Hphi & Hpart & Hpr & _).
      rewrite Hmip'. cbn [mbind result_bind].
      apply IH; [|rewrite !length_app; cbn; lia | exact Hrest | exact Hnz'].
      right. exists (length seen_ps), partition, d, pr.
      split; [apply list_lookup_middle; reflexivity|].
      split; [apply list_lookup_middle; exact Hlen|].
      split; [exact Hev|]. split; [exact Hphi|]. split; [exact Hpart|].
      split; [exact Hpr|].
      apply phi_ltb_spec in El.
      assert (forall j d', seen_ds !! j = Some d' -> d < d') as Hbelow.
      { intros j d' Hj. destruct Hinv as [[_ ->]|(i & p0 & d0 & pr0 & _ & _ & _ & Hphi0
          & _ & _ & Hle & _)];
          [discriminate Hj|].
        rewrite Hphi0 in El. specialize (Hle j d' Hj). lra. }
      split.
      * intros j d' Hj. apply lookup_app_Some in Hj as [Hj|[Hge Hj]].
        -- apply Qlt_le_weak. eapply Hbelow. exact Hj.
        -- apply list_lookup_singleton_Some in Hj as [_ <-]. lra.
      * intros j d' Hlt Hj. rewrite lookup_app_l in Hj by lia.
        eapply Hbelow. exact Hj.
    + apply IH; [|rewrite !length_app; cbn; lia | exact Hrest | exact Hnz'].
      destruct Hinv as [[Hinf ->]|(i & p0 & d0 & pr0 & Hi & Hdi & Hev0 & Hphi0 & Hpart0
          & Hpr0 & Hle & Hlt)].
      { rewrite Hinf in El. discriminate El. }
      right. exists i, p0, d0, pr0.
      split; [apply lookup_app_l_Some; exact Hi|].
      split; [apply lookup_app_l_Some; exact Hdi|].
      split; [exact Hev0|]. split; [exact Hphi0|]. split; [exact Hpart0|].
      split; [exact Hpr0|].
      assert (d0 <= d) as Hd0.
      { rewrite Hphi0 in El. cbn in El.
        destruct (Qle_bool d0 d) eqn:E; [apply Qle_bool_iff; exact E | discriminate El].
            }
      split.
      * intros j d' Hj. apply lookup_app_Some in Hj as [Hj|[Hge Hj]].
        -- eapply Hle. exact Hj.
        -- apply list_lookup_singleton_Some in Hj as [_ <-]. exact Hd0.
      * intros j d' Hji Hj. apply lookup_app_Some in Hj as [Hj|[Hge Hj]].
        -- eapply Hlt; eassumption.
        -- apply lookup_lt_Some in Hdi. lia.
Qed.

(** X27: When no partition is at distance 0, [find_mip] reports the first
    partition of least distance: its phi is that distance, which no
    partition undercuts and every earlier partition exceeds, and the
    partitioned repertoire is the one of that partition. *)
Theorem find_mip_first_minimum s direction mechanism purview rep ds :
  purview <> [] ->
  repertoire s direction mechanism purview = Ok rep ->
  Np.all_zero rep = false ->
  is_ok (state_of mechanism (state s)) = true ->
  is_ok (state_of purview (state s)) = true ->
  mip_partitions mechanism purview <> [] ->
  partition_distances repertoire_distance s direction mechanism purview rep
                      (mip_partitions mechanism purview) = Ok ds ->
  Forall (fun d => ~ d == 0) ds ->
  exists ria i partition d partitioned,
    find_mip mip_partitions repertoire_distance s direction mechanism purview
      = Ok ria /\
    mip_partitions mechanism purview !! i = Some partition /\
    ds !! i = Some d /\
    evaluate_partition repertoire_distance s direction mechanism purview
                       partition (Some rep) = Ok (d, partitioned) /\
    ria_phi ria = Finite d /\
    ria_partition ria = Some partition /\
    ria_partitioned_repertoire ria = Some partitioned /\
    (forall j d', ds !! j = Some d' -> d <= d') /\
    (forall j d', (j < i)%nat -> ds !! j = Some d' -> d < d').
Proof using Type.
  intros Hne Hrep Hz Hm Hp Hps Hds Hnz.
  destruct (find_mip_loop_first s direction mechanism purview rep Hm Hp
              (mip_partitions mechanism purview)
              (_null_ria direction mechanism purview None Infinity) [] [] ds)
    as (ria & Hria & Hinv); auto.
  { left. split; reflexivity. }
  cbn [app] in Hinv.
  destruct Hinv as [[_ ->]|(i & partition & d & pr & H1 & H2 & H3 & H4 & H5 & H6 & H7 &
      H8)].
  { exfalso. destruct (mip_partitions mechanism purview) as [|p ps]; [congruence|].
    apply distances_cons in Hds as (? & ? & ? & _ & _ & ?). discriminate. }
  exists ria, i, partition, d, pr.
  split; [|repeat (split; [assumption|]); assumption].
  unfold find_mip. destruct purview as [|p purview]; [congruence|].
  rewrite Hrep. cbn [mbind result_bind]. rewrite Hz, andb_false_r. exact Hria.
Qed.

Lemma find_mip_loop_exit s direction mechanism purview rep :
  is_ok (state_of mechanism (state s)) = true ->
  is_ok (state_of purview (state s)) = true ->
  forall pre mip partition post ds d partitioned,
    (partition_distances repertoire_distance) s direction mechanism purview rep pre = Ok
        ds ->
    Forall (fun d => ~ d == 0) ds ->
    (evaluate_partition repertoire_distance) s direction mechanism purview partition
        (Some rep)
      = Ok (d, partitioned) ->
    d == 0 ->
    exists ria,
      (find_mip_loop repertoire_distance) s direction mechanism purview rep mip
                     (pre ++ partition :: post) = Ok ria /\
      ria_phi ria = Finite 0 /\ ria_partition ria = Some partition /\
      ria_partitioned_repertoire ria = Some partitioned /\
      ria_repertoire ria = Some rep.
Proof using Type.
  intros Hm Hp.
  induction pre as [|p pre IH]; intros mip partition post ds d pr Hds Hnz Hev Hd.
  - cbn [app find_mip_loop]. rewrite Hev. cbn [mbind result_bind].
    apply Qeq_bool_iff in Hd. rewrite Hd.
    apply _mip_fields; assumption.
  - apply distances_cons in Hds as (d0 & pr0 & ds' & Hev0 & Hrest & ->).
    inversion Hnz as [|? ? Hd0 Hnz']; subst.
    cbn [app find_mip_loop]. rewrite Hev0. cbn [mbind result_bind].
    destruct (Qeq_bool d0 0) eqn:Ez; [apply Qeq_bool_iff in Ez; contradiction|].
    destruct (phi_ltb (Finite d0) (ria_phi mip)).
    + destruct (_mip_fields s direction mechanism purview rep d0 (Some p)
                            (Some pr0) Hm Hp) as (mip' & Hmip' & _).
      rewrite Hmip'. cbn [mbind result_bind]. eapply IH; eassumption.
    + eapply IH; eassumption.
Qed.

(** X28: [find_mip] returns at the first partition at distance 0, with phi 0
    and that partition: the partitions after it are not evaluated, so
    whatever they would give or raise does not matter. *)
Theorem find_mip_early_exit s direction mechanism purview rep
        pre partition post ds d partitioned :
  purview <> [] ->
  repertoire s direction mechanism purview = Ok rep ->
  Np.all_zero rep = false ->
  is_ok (state_of mechanism (state s)) = true ->
  is_ok (state_of purview (state s)) = true ->
  mip_partitions mechanism purview = pre ++ partition :: post ->
  partition_distances repertoire_distance s direction mechanism purview rep pre
    = Ok ds ->
  Forall (fun d => ~ d == 0) ds ->
  evaluate_partition repertoire_distance s direction mechanism purview
                     partition (Some rep) = Ok (d, partitioned) ->
  d == 0 ->
  exists ria,
    find_mip mip_partitions repertoire_distance s direction mechanism purview
      = Ok ria /\
    ria_phi ria = Finite 0 /\ ria_partition ria = Some partition /\
    ria_partitioned_repertoire ria = Some partitioned /\
    ria_repertoire ria = Some rep.
Proof using Type.
  intros Hne Hrep Hz Hm Hp Hps Hds Hnz Hev Hd.
  unfold find_mip. destruct purview as [|p purview]; [congruence|].
  rewrite Hrep. cbn [mbind result_bind]. rewrite Hz, andb_false_r, Hps.
  eapply find_mip_loop_exit; eassumption.
Qed.

End FindMipPartition.

Lemma find_mip_first_minimum_witness :
  [0; 1]%nat <> [] /\
  repertoire and_copy_subsystem EFFECT [0; 1]%nat [0; 1]%nat
    = Ok and_copy_effect_repertoire /\
  Np.all_zero and_copy_effect_repertoire = false /\
  is_ok (state_of [0; 1]%nat (state and_copy_subsystem)) = true /\
  example_partitions [0; 1]%nat [0; 1]%nat <> [] /\
  partition_distances l1_distance and_copy_subsystem EFFECT [0; 1]%nat [0; 1]%nat
    and_copy_effect_repertoire (example_partitions [0; 1]%nat [0; 1]%nat)
    = Ok and_copy_distances /\
  Forall (fun d => ~ d == 0) and_copy_distances /\
  exists ria i partition d partitioned,
    find_mip example_partitions l1_distance and_copy_subsystem EFFECT
             [0; 1]%nat [0; 1]%nat = Ok ria /\
    example_partitions [0; 1]%nat [0; 1]%nat !! i = Some partition /\
    and_copy_distances !! i = Some d /\
    evaluate_partition l1_distance and_copy_subsystem EFFECT [0; 1]%nat [0; 1]%nat
                       partition (Some and_copy_effect_repertoire)
      = Ok (d, partitioned) /\
    ria_phi ria = Finite d /\
    ria_partition ria = Some partition /\
    ria_partitioned_repertoire ria = Some partitioned /\
    (forall j d', and_copy_distances !! j = Some d' -> d <= d') /\
    (forall j d', (j < i)%nat -> and_copy_distances !! j = Some d' -> d < d').
Proof.
  assert ([0; 1]%nat <> []) as H1 by discriminate.
  assert (repertoire and_copy_subsystem EFFECT [0; 1]%nat [0; 1]%nat
          = Ok and_copy_effect_repertoire) as H2 by reflexivity.
  assert (Np.all_zero and_copy_effect_repertoire = false) as H3
    by (vm_compute; reflexivity).
  assert (is_ok (state_of [0; 1]%nat (state and_copy_subsystem)) = true) as H4
    by (vm_compute; reflexivity).
  assert (example_partitions [0; 1]%nat [0; 1]%nat <> []) as H5 by discriminate.
  assert (partition_distances l1_distance and_copy_subsystem EFFECT [0; 1]%nat
            [0; 1]%nat and_copy_effect_repertoire
            (example_partitions [0; 1]%nat [0; 1]%nat)
          = Ok and_copy_distances) as H6 by reflexivity.
  assert (Forall (fun d => ~ d == 0) and_copy_distances) as H7
    by (vm_compute; repeat constructor; discriminate).
  exact (conj H1 (conj H2 (conj H3 (conj H4 (conj H5 (conj H6 (conj H7
    (find_mip_first_minimum example_partitions l1_distance and_copy_subsystem
       EFFECT [0; 1]%nat [0; 1]%nat and_copy_effect_repertoire and_copy_distances
       H1 H2 H3 H4 H4 H5 H6 H7)))))))).
Defined.

Lemma find_mip_early_exit_witness :
  let rep := force (Np.array1 0)
                   (effect_repertoire chain_subsystem [0; 1]%nat [0; 1]%nat) in
  let pre := [[mkPart [0%nat] [0%nat]; mkPart [1%nat] [1%nat]]] in
  let partition := [mkPart [] [0%nat]; mkPart [0; 1]%nat [1%nat]] in
  let ev := force (1, Np.array1 0)
                  (evaluate_partition l1_distance chain_subsystem EFFECT
                                      [0; 1]%nat [0; 1]%nat partition (Some rep)) in
  let ds := force []
                  (partition_distances l1_distance chain_subsystem EFFECT
                                       [0; 1]%nat [0; 1]%nat rep pre) in
  [0; 1]%nat <> [] /\
  repertoire chain_subsystem EFFECT [0; 1]%nat [0; 1]%nat = Ok rep /\
  Np.all_zero rep = false /\
  is_ok (state_of [0; 1]%nat (state chain_subsystem)) = true /\
  example_partitions [0; 1]%nat [0; 1]%nat = pre ++ partition :: [] /\
  partition_distances l1_distance chain_subsystem EFFECT [0; 1]%nat [0; 1]%nat
                      rep pre = Ok ds /\
  Forall (fun d => ~ d == 0) ds /\
  evaluate_partition l1_distance chain_subsystem EFFECT [0; 1]%nat [0; 1]%nat
                     partition (Some rep) = Ok (ev.1, ev.2) /\
  ev.1 == 0 /\
  exists ria,
    find_mip example_partitions l1_distance chain_subsystem EFFECT
             [0; 1]%nat [0; 1]%nat = Ok ria /\
    ria_phi ria = Finite 0 /\ ria_partition ria = Some partition /\
    ria_partitioned_repertoire ria = Some ev.2 /\
    ria_repertoire ria = Some rep.
Proof.
  intros rep pre partition ev ds.
  assert ([0; 1]%nat <> []) as H1 by discriminate.
  assert (repertoire chain_subsystem EFFECT [0; 1]%nat [0; 1]%nat = Ok rep) as H2
    by reflexivity.
  assert (Np.all_zero rep = false) as H3 by (vm_compute; reflexivity).
  assert (is_ok (state_of [0; 1]%nat (state chain_subsystem)) = true) as H4
    by (vm_compute; reflexivity).
  assert (example_partitions [0; 1]%nat [0; 1]%nat = pre ++ partition :: []) as H5
    by reflexivity.
  assert (partition_distances l1_distance chain_subsystem EFFECT [0; 1]%nat
            [0; 1]%nat rep pre = Ok ds) as H6 by reflexivity.
  assert (Forall (fun d => ~ d == 0) ds) as H7
    by (vm_compute; repeat constructor; discriminate).
  assert (evaluate_partition l1_distance chain_subsystem EFFECT [0; 1]%nat
            [0; 1]%nat partition (Some rep) = Ok (ev.1, ev.2)) as H8
    by (vm_compute; reflexivity).
  assert (ev.1 == 0) as H9 by (vm_compute; reflexivity).
  exact (conj H1 (conj H2 (conj H3 (conj H4 (conj H5 (conj H6 (conj H7 (conj H8
    (conj H9
    (find_mip_early_exit example_partitions l1_distance chain_subsystem EFFECT
       [0; 1]%nat [0; 1]%nat rep pre partition [] ds ev.1 ev.2
       H1 H2 H3 H4 H4 H5 H6 H7 H8 H9)))))))))).
Defined.

(** ** [CauseEffectStructure]: the order of the concepts *)

Lemma sort_key_ltb_irrefl k : sort_key_ltb k k = false.
Proof.
  unfold sort_key_ltb. rewrite Nat.ltb_irrefl, Nat.eqb_refl, tuple_ltb_irrefl.
  reflexivity.
Qed.

Lemma sort_key_ltb_spec k1 k2 :
  sort_key_ltb k1 k2 = true <->
  ((k1.1 < k2.1)%nat \/ (k1.1 = k2.1 /\ tuple_ltb k1.2 k2.2 = true)).
Proof.
  unfold sort_key_ltb. rewrite orb_true_iff, andb_true_iff, Nat.ltb_lt, Nat.eqb_eq.
  reflexivity.
Qed.

Lemma sort_key_ltb_trans k1 k2 k3 :
  sort_key_ltb k1 k2 = true -> sort_key_ltb k2 k3 = true ->
  sort_key_ltb k1 k3 = true.
Proof.
  rewrite !sort_key_ltb_spec. intros [H1|[H1 T1]] [H2|[H2 T2]]; try (left; lia).
  right. split; [lia|]. eapply tuple_ltb_trans; eassumption.
Qed.

Lemma sort_key_ltb_total k1 k2 :
  sort_key_ltb k1 k2 = true \/ k1 = k2 \/ sort_key_ltb k2 k1 = true.
Proof.
  rewrite !sort_key_ltb_spec. destruct k1 as [n1 m1], k2 as [n2 m2]. cbn.
  destruct (lt_eq_lt_dec n1 n2) as [[?| ->]|?]; [left; left; lia| |right; right; left;
      lia].
  destruct (tuple_ltb_total m1 m2) as [?|[-> |?]]; auto.
Qed.

(** [k1 <= k2]: not [k2 < k1]. *)
Lemma sort_key_le_trans k1 k2 k3 :
  sort_key_ltb k2 k1 = false -> sort_key_ltb k3 k2 = false ->
  sort_key_ltb k3 k1 = false.
Proof.
  intros H12 H23. destruct (sort_key_ltb k3 k1) eqn:E; [|reflexivity].
  destruct (sort_key_ltb_total k1 k2) as [H|[-> |H]]; [|congruence|congruence].
  rewrite (sort_key_ltb_trans _ _ _ E H) in H23. discriminate.
Qed.

Lemma sort_key_le_antisym k1 k2 :
  sort_key_ltb k2 k1 = false -> sort_key_ltb k1 k2 = false -> k1 = k2.
Proof.
  intros H1 H2. destruct (sort_key_ltb_total k1 k2) as [H|[H|H]]; congruence.
Qed.

Lemma StronglySorted_weaken {A} (R R' : A -> A -> Prop) (l : list A) :
  (forall a b, R a b -> R' a b) -> StronglySorted R l -> StronglySorted R' l.
Proof.
  intros HR. induction 1 as [|x l Hl IH Hx]; constructor; [exact IH|].
  eapply Forall_impl; [exact Hx|]. intros y. apply HR.
Qed.

Section Sorted.

Context {C : Type}.
Variable concept_mechanism : C -> list nat.

Lemma key_inj_mechanism a b : (_concept_sort_key concept_mechanism) a =
    (_concept_sort_key concept_mechanism) b <-> concept_mechanism a = concept_mechanism
    b.
Proof using Type.
  unfold _concept_sort_key. split; [intros [= _ H]; exact H | intros ->; reflexivity].
Qed.

Lemma insert_sorted_Permutation x l : (insert_sorted concept_mechanism) x l ≡ₚ x :: l.
Proof using Type.
  induction l as [|y l IH]; [reflexivity|]. cbn [insert_sorted].
  destruct (sort_key_ltb ((_concept_sort_key concept_mechanism) y) ((_concept_sort_key
      concept_mechanism) x)); [|reflexivity].
  rewrite IH. apply Permutation_swap.
Qed.

Lemma sorted_Permutation l : (sorted concept_mechanism) l ≡ₚ l.
Proof using Type.
  induction l as [|x l IH]; [reflexivity|]. cbn [sorted foldr].
  fold ((sorted concept_mechanism) l). rewrite insert_sorted_Permutation, IH.
      reflexivity.
Qed.

Lemma insert_sorted_sorted x l :
  StronglySorted (fun a b : C => sort_key_ltb ((_concept_sort_key concept_mechanism) b)
      ((_concept_sort_key concept_mechanism) a) = false) l -> StronglySorted (fun a b :
      C => sort_key_ltb ((_concept_sort_key concept_mechanism) b) ((_concept_sort_key
      concept_mechanism) a) = false) ((insert_sorted concept_mechanism) x l).
Proof using Type.
  induction 1 as [|y l Hl IH Hy]; cbn [insert_sorted].
  - repeat constructor.
  - destruct (sort_key_ltb ((_concept_sort_key concept_mechanism) y) ((_concept_sort_key
      concept_mechanism) x)) eqn:E.
    + constructor; [exact IH|].
      apply Forall_forall. intros z Hz.
      rewrite insert_sorted_Permutation in Hz.
      apply elem_of_cons in Hz as [-> |Hz].
      * destruct (sort_key_ltb ((_concept_sort_key concept_mechanism) x)
          ((_concept_sort_key concept_mechanism) y)) eqn:E'; [|reflexivity].
        pose proof (sort_key_ltb_trans _ _ _ E E') as Hc.
        rewrite sort_key_ltb_irrefl in Hc. discriminate.
      * rewrite Forall_forall in Hy. apply Hy, Hz.
    + constructor; [constructor; assumption|].
      constructor; [exact E|].
      apply Forall_forall. intros z Hz. rewrite Forall_forall in Hy.
      eapply sort_key_le_trans; [exact E | apply Hy, Hz].
Qed.

Lemma sorted_sorted l : StronglySorted (fun a b : C => sort_key_ltb ((_concept_sort_key
    concept_mechanism) b) ((_concept_sort_key concept_mechanism) a) = false) ((sorted
    concept_mechanism) l).
Proof using Type.
  induction l as [|x l IH]; [constructor|]. cbn [sorted foldr].
  apply insert_sorted_sorted. exact IH.
Qed.

Lemma sorted_fixed l : StronglySorted (fun a b : C => sort_key_ltb ((_concept_sort_key
    concept_mechanism) b) ((_concept_sort_key concept_mechanism) a) = false) l ->
    (sorted concept_mechanism) l = l.
Proof using Type.
  induction 1 as [|x l Hl IH Hx]; [reflexivity|]. cbn [sorted foldr].
  fold ((sorted concept_mechanism) l). rewrite IH. destruct l as [|y l]; [reflexivity|].
  cbn [insert_sorted]. inversion Hx as [|? ? Hxy _]; subst. rewrite Hxy. reflexivity.
Qed.

Lemma insert_sorted_filter (m : list nat) x l :
  filter (fun c => concept_mechanism c = m) ((insert_sorted concept_mechanism) x l)
  = filter (fun c => concept_mechanism c = m) (x :: l).
Proof using Type.
  induction l as [|y l IH]; [reflexivity|]. cbn [insert_sorted].
  destruct (sort_key_ltb ((_concept_sort_key concept_mechanism) y) ((_concept_sort_key
      concept_mechanism) x)) eqn:E; [|reflexivity].
  rewrite (filter_cons _ y), IH, !(filter_cons _ x), !(filter_cons _ y).
  destruct (decide (concept_mechanism y = m)) as [Hy|Hy];
    destruct (decide (concept_mechanism x = m)) as [Hx|Hx]; try reflexivity.
  exfalso. assert ((_concept_sort_key concept_mechanism) y = (_concept_sort_key
      concept_mechanism) x) as Hk by (apply key_inj_mechanism; congruence).
  rewrite Hk, sort_key_ltb_irrefl in E. discriminate.
Qed.

Lemma sorted_filter (m : list nat) l :
  filter (fun c => concept_mechanism c = m) ((sorted concept_mechanism) l)
  = filter (fun c => concept_mechanism c = m) l.
Proof using Type.
  induction l as [|x l IH]; [reflexivity|]. cbn [sorted foldr]. fold ((sorted
      concept_mechanism) l).
  rewrite insert_sorted_filter, !(filter_cons _ x), IH. reflexivity.
Qed.

Lemma sorted_unique (l1 l2 : list C) :
  StronglySorted (fun a b : C => sort_key_ltb ((_concept_sort_key concept_mechanism) b)
      ((_concept_sort_key concept_mechanism) a) = false) l1 -> StronglySorted (fun a b :
      C => sort_key_ltb ((_concept_sort_key concept_mechanism) b) ((_concept_sort_key
      concept_mechanism) a) = false) l2 -> l1 ≡ₚ l2 ->
  NoDup (map concept_mechanism l1) -> l1 = l2.
Proof using Type.
  intros H1. revert l2. induction H1 as [|a l1 Hl1 IH Ha]; intros l2 H2 Hp Hnd.
  - apply Permutation_nil_l in Hp. congruence.
  - destruct H2 as [|b l2 Hl2 Hb].
    { apply Permutation_nil_r in Hp. discriminate. }
    assert (a = b) as <-.
    { assert (b ∈ a :: l1) as Hbin by (rewrite Hp; left).
      assert (a ∈ b :: l2) as Hain by (rewrite <- Hp; left).
      apply elem_of_cons in Hbin as [-> |Hbin]; [reflexivity|].
      apply elem_of_cons in Hain as [-> |Hain]; [reflexivity|].
      rewrite Forall_forall in Ha, Hb.
      pose proof (sort_key_le_antisym _ _ (Ha b Hbin) (Hb a Hain)) as Hk.
      apply key_inj_mechanism in Hk. cbn [map] in Hnd. apply NoDup_cons in Hnd as [Hnot
          _].
      exfalso. apply Hnot. rewrite Hk.
      change (map ?f ?l) with (f <$> l). apply list_elem_of_fmap. eauto. }
    f_equal. apply IH; [exact Hl2 | eapply Permutation_cons_inv; exact Hp|].
    cbn [map] in Hnd. apply NoDup_cons in Hnd as [_ Hnd]. exact Hnd.
Qed.

(** X29: The concepts of a [CauseEffectStructure] are those given, ordered by
    the length of their mechanism and then by the mechanism; concepts of
    one mechanism keep the order in which they were given, and a list that
    is in order already is kept as it is. *)
Theorem CES_init_sorted (concepts : list C) subsystem :
  let ces := CES_init concept_mechanism concepts subsystem in
  ces_concepts ces ≡ₚ concepts /\
  StronglySorted (fun a b =>
      (length (concept_mechanism a) < length (concept_mechanism b))%nat \/
      (length (concept_mechanism a) = length (concept_mechanism b) /\
       tuple_ltb (concept_mechanism b) (concept_mechanism a) = false))
    (ces_concepts ces) /\
  (forall m, filter (fun c => concept_mechanism c = m) (ces_concepts ces)
             = filter (fun c => concept_mechanism c = m) concepts) /\
  ces_concepts (CES_init concept_mechanism (ces_concepts ces) subsystem)
  = ces_concepts ces.
Proof using Type.
  cbn [CES_init ces_concepts]. split; [apply sorted_Permutation|].
  split; [|split; [intros m; apply sorted_filter | apply sorted_fixed, sorted_sorted]].
  eapply StronglySorted_weaken; [|apply sorted_sorted].
  intros a b Hab. cbn beta in Hab.
  destruct (sort_key_ltb ((_concept_sort_key concept_mechanism) b) ((_concept_sort_key
      concept_mechanism) a)) eqn:E; [discriminate|].
  unfold sort_key_ltb, _concept_sort_key in E. cbn [fst snd] in E.
  apply orb_false_iff in E as [E1 E2]. apply Nat.ltb_ge in E1.
  apply andb_false_iff in E2 as [E2|E2].
  - apply Nat.eqb_neq in E2. left. lia.
  - destruct (Nat.eq_dec (length (concept_mechanism a)) (length (concept_mechanism b)));
      [right; split; assumption | left; lia].
Qed.

(** X30: Two lists of the same concepts of distinct mechanisms, in whatever
    order, give the same [CauseEffectStructure]. *)
Theorem CES_init_order_independent (l1 l2 : list C) subsystem :
  l1 ≡ₚ l2 -> NoDup (map concept_mechanism l1) ->
  CES_init concept_mechanism l1 subsystem = CES_init concept_mechanism l2 subsystem.
Proof using Type.
  intros Hp Hnd. unfold CES_init. f_equal.
  apply sorted_unique; [apply sorted_sorted | apply sorted_sorted | |].
  - rewrite !sorted_Permutation. exact Hp.
  - change (NoDup (concept_mechanism <$> (sorted concept_mechanism) l1)).
    rewrite sorted_Permutation. exact Hnd.
Qed.

End Sorted.

Lemma CES_init_order_independent_witness :
  [[0]; [0; 1]; [1]]%nat ≡ₚ [[1]; [0]; [0; 1]]%nat /\
  NoDup (map (fun m : list nat => m) [[0]; [0; 1]; [1]]%nat) /\
  CES_init (fun m : list nat => m) [[0]; [0; 1]; [1]]%nat None
  = CES_init (fun m : list nat => m) [[1]; [0]; [0; 1]]%nat None.
Proof.
  assert ([[0]; [0; 1]; [1]]%nat ≡ₚ [[1]; [0]; [0; 1]]%nat) as H1.
  { change ([[0]; [0; 1]] ++ [[1]] ≡ₚ [[1]] ++ [[0]; [0; 1]])%nat.
    apply Permutation_app_comm. }
  assert (NoDup (map (fun m : list nat => m) [[0]; [0; 1]; [1]]%nat)) as H2.
  { cbn [map]. apply (@bool_decide_unpack _ (NoDup_dec _)). vm_compute. exact I. }
  exact (conj H1 (conj H2
    (CES_init_order_independent (fun m : list nat => m) _ _ None H1 H2))).
Defined.

(** ** The shape of a node TPM *)

Lemma elem_of_tpm_indices tpm i :
  i ∈ tpm_indices tpm <-> (i < Np.ndim tpm - 1)%nat /\ Np.shape tpm !! i = Some 2%nat.
Proof.
  unfold tpm_indices. rewrite list_elem_of_filter, elem_of_seq. split.
  - intros [H1 H2]. split; [lia | exact H1].
  - intros [H1 H2]. split; [exact H2 | lia].
Qed.

Lemma cm_get_lookup (cm : CM) i j :
  cm_get cm i j = match cm !! i ≫= (.!! j) with
                  | Some x => Ok x
                  | None => Raise IndexError
                  end.
Proof.
  unfold cm_get. destruct (cm !! i) as [row|]; [|reflexivity]. cbn.
  destruct (row !! j); reflexivity.
Qed.

(** Reading a row or a column entry by entry succeeds when every entry is
    there, and raises [IndexError] otherwise. *)
Lemma read_entries (g : nat -> option nat) n :
  (exists r, mapM (fun i => match g i with
                           | Some x => Ok x
                           | None => Raise IndexError
                           end) (seq 0 n) = Ok r) /\
    forallb (fun i => bool_decide (is_Some (g i))) (seq 0 n) = true
  \/
  mapM (fun i => match g i with
                 | Some x => Ok x
                 | None => Raise IndexError
                 end) (seq 0 n) = Raise IndexError /\
    forallb (fun i => bool_decide (is_Some (g i))) (seq 0 n) = false.
Proof.
  destruct (mapM _ (seq 0 n)) as [r|e] eqn:E.
  - left. split; [eauto|]. apply forallb_forall. intros i Hi.
    apply bool_decide_eq_true_2. apply mapM_Ok_Forall2 in E.
    apply list_elem_of_In, list_elem_of_lookup in Hi as [p Hp].
    destruct (Forall2_lookup_l _ _ _ _ _ E Hp) as (x & _ & Hx). cbn beta in Hx.
    destruct (g i); [eauto | discriminate].
  - right. apply mapM_Raise in E as (i & Hi & Hgi).
    destruct (g i) eqn:Eg; [discriminate|]. injection Hgi as <-.
    split; [reflexivity|]. apply not_true_is_false. intros Hall.
    rewrite forallb_forall in Hall. specialize (Hall i).
    rewrite bool_decide_eq_true, Eg in Hall.
    destruct Hall as [x Hx]; [apply list_elem_of_In; exact Hi | discriminate].
Qed.

Lemma in_cm_split (cm : CM) index :
  in_cm cm index
  = forallb (fun i => bool_decide (is_Some (cm !! i ≫= (.!! index))))
            (seq 0 (length cm))
    && forallb (fun i => bool_decide (is_Some (cm !! index ≫= (.!! i))))
               (seq 0 (length cm)).
Proof.
  unfold in_cm. generalize (seq 0 (length cm)). intros l.
  induction l as [|i l IH]; [reflexivity|].
  cbn [forallb]. rewrite IH.
  repeat match goal with
         | |- context [forallb ?f l] => generalize (forallb f l); intros []
         | |- context [@bool_decide ?P ?d] => generalize (@bool_decide P d); intros []
         end; reflexivity.
Qed.

Lemma get_inputs_outputs (cm : CM) index :
  if in_cm cm index
  then get_inputs_from_cm index cm
       = Ok (filter (fun i => cm_entry cm i index = true) (seq 0 (length cm))) /\
       get_outputs_from_cm index cm
       = Ok (filter (fun j => cm_entry cm index j = true) (seq 0 (length cm)))
  else get_inputs_from_cm index cm = Raise IndexError \/
       (exists ins, get_inputs_from_cm index cm = Ok ins) /\
       get_outputs_from_cm index cm = Raise IndexError.
Proof.
  rewrite in_cm_split. unfold get_inputs_from_cm, get_outputs_from_cm.
  rewrite (mapM_ext _ _ (seq 0 (length cm)) (fun i => cm_get_lookup cm i index)).
  rewrite (mapM_ext (fun i => cm_get cm index i) _ (seq 0 (length cm))
                    (fun i => cm_get_lookup cm index i)).
  destruct (read_entries (fun i => cm !! i ≫= (.!! index)) (length cm))
    as [[[r1 ->] ->]|[-> ->]]; cbn [andb mbind result_bind]; [|left; reflexivity].
  destruct (read_entries (fun i => cm !! index ≫= (.!! i)) (length cm))
    as [[[r2 ->] ->]|[-> ->]]; cbn [andb mbind result_bind];
    [split; reflexivity|].
  right. split; [eauto | reflexivity].
Qed.

(** X19: [Node.__init__] raises [IndexError] when the node has no row and
    column in the connectivity matrix or is no column of the TPM, and builds
    a node otherwise.  The inputs of the node are the nodes with a
    connection to it, its outputs the nodes it has a connection to.  The
    node TPM has the axes of the TPM, the last one of length 2 for the two
    states of the node; an axis of an input of the node is as long as in the
    TPM, and an axis of another node, of length 1 or 2 in the TPM, has
    length 1. *)
Theorem Node_init_shape tpm cm index state :
  match last (Np.shape tpm) with
  | Some columns =>
      if in_cm cm index && bool_decide (index < columns)%nat
      then exists n,
          Node_init tpm cm index state = Ok n /\
          node_inputs n
          = filter (fun i => cm_entry cm i index = true) (seq 0 (length cm)) /\
          node_outputs n
          = filter (fun j => cm_entry cm index j = true) (seq 0 (length cm)) /\
          Np.ndim (node_tpm n) = Np.ndim tpm /\
          Np.shape (node_tpm n) !! (Np.ndim tpm - 1)%nat = Some 2%nat /\
          forall i, (i < Np.ndim tpm - 1)%nat ->
            (i ∈ node_inputs n ->
             Np.shape (node_tpm n) !! i = Np.shape tpm !! i) /\
            (i ∉ node_inputs n ->
             Np.shape tpm !! i = Some 1%nat \/ Np.shape tpm !! i = Some 2%nat ->
             Np.shape (node_tpm n) !! i = Some 1%nat)
      else Node_init tpm cm index state = Raise IndexError
  | None => Node_init tpm cm index state = Raise IndexError
  end.
Proof.
  unfold Node_init, Np.select_last.
  pose proof (get_inputs_outputs cm index) as Hio.
  destruct (in_cm cm index); cbn [andb].
  2:{ assert (forall k : list nat -> list nat -> result Node,
                 (get_inputs_from_cm index cm ≫= fun ins =>
                  get_outputs_from_cm index cm ≫= fun outs => k ins outs)
                 = Raise IndexError) as Hraise.
      { intros k. destruct Hio as [->|[[ins ->] ->]]; reflexivity. }
      destruct (last (Np.shape tpm)); apply Hraise. }
  destruct Hio as [-> ->]. cbn [mbind result_bind].
  destruct (last (Np.shape tpm)) as [columns|] eqn:Elast; [|reflexivity].
  case_bool_decide as Hlt.
  2:{ rewrite decide_False by exact Hlt. reflexivity. }
  rewrite decide_True by exact Hlt.
  cbn [mbind result_bind].
  set (_inputs := filter (fun i => cm_entry cm i index = true) (seq 0 (length cm))).
  set (on0 := Np.NdArray (removelast (Np.shape tpm)) _).
  set (non_inputs := list_difference (tpm_indices tpm) _inputs).
  assert (Np.ndim tpm <> 0%nat) as Hnd.
  { unfold Np.ndim. destruct (Np.shape tpm); [discriminate Elast | discriminate]. }
  destruct (marginalize_out_ok non_inputs on0) as (on1 & Hon1 & Hsh).
  { apply Forall_forall. intros i Hi. unfold non_inputs in Hi.
    apply list_elem_of_difference in Hi as [Hi _].
    apply elem_of_tpm_indices in Hi as [Hi _].
    unfold Np.ndim, on0. cbn [Np.shape]. rewrite removelast_length.
    unfold Np.ndim in Hi. lia. }
  rewrite Hon1. cbn [mbind result_bind]. unfold Np.stack_last.
  rewrite decide_True by reflexivity. cbn [mbind result_bind].
  eexists. split; [reflexivity|].
  cbn [node_inputs node_outputs node_tpm Np.shape Np.one_minus].
  split; [reflexivity|]. split; [reflexivity|].
  rewrite Hsh. unfold on0. cbn [Np.shape].
  assert (length (set_ones (removelast (Np.shape tpm)) non_inputs)
          = (Np.ndim tpm - 1)%nat) as Hlen.
  { rewrite set_ones_length, removelast_length. unfold Np.ndim. lia. }
  split; [unfold Np.ndim at 1; cbn [Np.shape Np.one_minus]; rewrite length_app, Hlen;
      cbn; lia|].
  split.
  { rewrite lookup_app_r by lia. rewrite Hlen, Nat.sub_diag. reflexivity. }
  intros i Hi. rewrite lookup_app_l by lia. rewrite set_ones_lookup.
  rewrite removelast_lookup by (unfold Np.ndim in Hi; lia).
  split.
  - intros Hin. rewrite bool_decide_eq_false_2; [reflexivity|].
    unfold non_inputs. rewrite list_elem_of_difference. tauto.
  - intros Hnin [H1|H2].
    + rewrite H1. case_bool_decide; reflexivity.
    + rewrite H2. rewrite bool_decide_eq_true_2; [reflexivity|].
      unfold non_inputs. apply list_elem_of_difference. split; [|exact Hnin].
      apply elem_of_tpm_indices. split; assumption.
Qed.

(** ** The mechanism of an effect repertoire is a set *)

Lemma list_intersection_ext (l k k' : list nat) :
  (forall x, x ∈ k <-> x ∈ k') -> list_intersection l k = list_intersection l k'.
Proof.
  intros Hk. induction l as [|x l IH]; [reflexivity|]. cbn [list_intersection].
  rewrite IH. destruct (decide_rel elem_of x k) as [H|H];
    destruct (decide_rel elem_of x k') as [H'|H']; try reflexivity.
  - exfalso. apply H', Hk, H.
  - exfalso. apply H, Hk, H'.
Qed.

Lemma list_difference_ext (l k k' : list nat) :
  (forall x, x ∈ k <-> x ∈ k') -> list_difference l k = list_difference l k'.
Proof.
  intros Hk. induction l as [|x l IH]; [reflexivity|]. cbn [list_difference].
  rewrite IH. destruct (decide_rel elem_of x k) as [H|H];
    destruct (decide_rel elem_of x k') as [H'|H']; try reflexivity.
  - exfalso. apply H', Hk, H.
  - exfalso. apply H, Hk, H'.
Qed.

(** X25: [effect_repertoire] takes the mechanism as a set: two mechanisms of
    the same nodes, in whatever order and however often repeated, have the
    same effect repertoire over every purview, errors included. *)
Theorem effect_repertoire_mechanism_set s (mechanism mechanism' purview : list nat) :
  (forall x, x ∈ mechanism <-> x ∈ mechanism') ->
  effect_repertoire s mechanism purview = effect_repertoire s mechanism' purview.
Proof.
  intros Hm. unfold effect_repertoire. destruct purview as [|p purview]; [reflexivity|].
  unfold _effect_repertoire_virtualized.
  assert (forall x, x ∈ remove_dups mechanism <-> x ∈ remove_dups mechanism') as Hd
      by (intros x; rewrite !elem_of_remove_dups; apply Hm).
  rewrite (mapM_ext
             (fun q => _single_node_effect_repertoire s (remove_dups mechanism) q)
             (fun q => _single_node_effect_repertoire s (remove_dups mechanism') q));
    [reflexivity|].
  intros q.
  unfold _single_node_effect_repertoire.
  destruct (index2node s q) as [n|e]; [|reflexivity]. cbn [mbind result_bind].
  rewrite (list_intersection_ext _ _ _ Hd), (list_difference_ext _ _ _ Hd).
  reflexivity.
Qed.

Lemma effect_repertoire_mechanism_set_witness :
  (forall x, x ∈ [0; 1]%nat <-> x ∈ [1; 0; 1]%nat) /\
  effect_repertoire and_copy_subsystem [0; 1]%nat [0; 1]%nat
  = effect_repertoire and_copy_subsystem [1; 0; 1]%nat [0; 1]%nat.
Proof.
  assert (forall x, x ∈ [0; 1]%nat <-> x ∈ [1; 0; 1]%nat) as H.
  { intros x. rewrite !elem_of_cons, elem_of_nil. tauto. }
  exact (conj H (effect_repertoire_mechanism_set and_copy_subsystem _ _ _ H)).
Defined.

(** ** Sums over the indices of a shape *)

Lemma qsum_flat_map {A} (f : A -> list Q) (l : list A) :
  qsum (flat_map f l) == qsum (map (fun x => qsum (f x)) l).
Proof.
  induction l as [|x l IH]; [reflexivity|].
  cbn [flat_map map]. rewrite qsum_app, IH. reflexivity.
Qed.

Lemma sum_indices_cons (d : nat) (sh : list nat) (g : list nat -> Q) :
  qsum (map g (Np.indices (d :: sh)))
  == qsum (map (fun i => qsum (map (fun idx => g (i :: idx)) (Np.indices sh)))
               (seq 0 d)).
Proof.
  cbn [Np.indices]. rewrite flat_map_concat_map, concat_map, map_map.
  rewrite <- flat_map_concat_map, qsum_flat_map.
  apply qsum_ext. intros i _. rewrite map_map. reflexivity.
Qed.

Lemma length_elem_of_indices sh idx : idx ∈ Np.indices sh -> length idx = length sh.
Proof.
  revert idx. induction sh as [|d sh IH]; intros idx Hidx.
  - apply list_elem_of_singleton in Hidx as ->. reflexivity.
  - cbn [Np.indices] in Hidx. apply list_elem_of_In, in_flat_map in Hidx as (i & _ &
      Hidx).
    apply list_elem_of_In in Hidx. change (map ?f ?l) with (f <$> l) in Hidx.
    apply list_elem_of_fmap in Hidx as (idx' & -> & Hidx'). cbn. f_equal. apply IH,
        Hidx'.
Qed.

(** The operand index of a result index of the same length. *)
Lemma bindex_cons d sa i idx :
  length idx = length sa ->
  Np.bindex (d :: sa) (i :: idx)
  = (if decide (d = 1%nat) then 0%nat else i) :: Np.bindex sa idx.
Proof.
  intros Hlen. unfold Np.bindex. cbn [length]. rewrite Hlen, !Nat.sub_diag.
  reflexivity.
Qed.

Lemma bindex_nil : Np.bindex [] [] = [].
Proof. reflexivity. Qed.

Lemma bindex_indices sh idx : idx ∈ Np.indices sh -> Np.bindex sh idx = idx.
Proof.
  revert idx. induction sh as [|d sh IH]; intros idx Hidx.
  - apply list_elem_of_singleton in Hidx as ->. reflexivity.
  - cbn [Np.indices] in Hidx. apply list_elem_of_In, in_flat_map in Hidx as (i & Hi &
      Hidx).
    apply in_seq in Hi.
    apply list_elem_of_In in Hidx. change (map ?f ?l) with (f <$> l) in Hidx.
    apply list_elem_of_fmap in Hidx as (idx' & -> & Hidx').
    rewrite bindex_cons by (apply length_elem_of_indices; exact Hidx').
    rewrite (IH _ Hidx'). case_decide; [|reflexivity]. f_equal. lia.
Qed.

(** Two operands no axis of which is longer than 1 in both: the sum of
    the product is the product of the sums. *)
Lemma sum_product_disjoint (sa sb : list nat) :
  Forall2 (fun da db => (da = 1%nat /\ binary db) \/ (binary da /\ db = 1%nat)) sa sb ->
  forall ga gb : list nat -> Q,
    qsum (map (fun idx => ga (Np.bindex sa idx) * gb (Np.bindex sb idx))
              (Np.indices (zip_with Nat.max sa sb)))
    == qsum (map ga (Np.indices sa)) * qsum (map gb (Np.indices sb)).
Proof.
  induction 1 as [|da db sa sb Hd Hrest IH]; intros ga gb.
  - cbn. ring.
  - assert (length sa = length sb) as Hlen by (eapply Forall2_length; exact Hrest).
    assert (forall (h : list nat -> Q) (i : nat),
               forall idx, idx ∈ Np.indices (zip_with Nat.max sa sb) ->
                           length idx = length sa /\ length idx = length sb) as Hl.
    { intros _ _ idx Hidx. apply length_elem_of_indices in Hidx.
      rewrite length_zip_with in Hidx. lia. }
    cbn [zip_with]. rewrite sum_indices_cons.
    rewrite (sum_indices_cons da sa ga), (sum_indices_cons db sb gb).
    assert (forall ia ib,
               qsum (map (fun idx => ga (ia :: Np.bindex sa idx) * gb (ib :: Np.bindex
                   sb idx))
                         (Np.indices (zip_with Nat.max sa sb)))
               == qsum (map (fun idx => ga (ia :: idx)) (Np.indices sa))
                  * qsum (map (fun idx => gb (ib :: idx)) (Np.indices sb))) as Hstep
        by (intros ia ib; apply (IH (fun l => ga (ia :: l)) (fun l => gb (ib :: l)))).
    assert (forall i,
               qsum (map (fun idx => ga (Np.bindex (da :: sa) (i :: idx))
                                     * gb (Np.bindex (db :: sb) (i :: idx)))
                         (Np.indices (zip_with Nat.max sa sb)))
               == qsum (map (fun idx => ga ((if decide (da = 1%nat) then 0%nat else i)
                   :: idx))
                            (Np.indices sa))
                  * qsum (map (fun idx => gb ((if decide (db = 1%nat) then 0%nat else i)
                      :: idx))
                              (Np.indices sb))) as Hi.
    { intros i. rewrite <- Hstep. apply qsum_ext. intros idx Hidx.
      destruct (Hl ga i idx Hidx) as [La Lb].
      rewrite !bindex_cons by assumption. reflexivity. }
    rewrite (qsum_ext _ _ _ (fun i _ => Hi i)).
    destruct Hd as [[-> [-> | ->]]|[[-> | ->] ->]]; cbn [Nat.max seq map qsum
        fold_right];
      repeat case_decide; try lia; ring.
Qed.

Lemma sum_multiply_disjoint a b c :
  Forall2 (fun da db => (da = 1%nat /\ binary db) \/ (binary da /\ db = 1%nat))
          (Np.shape a) (Np.shape b) ->
  Np.multiply a b = Ok c ->
  Np.shape c = zip_with Nat.max (Np.shape a) (Np.shape b) /\
  Np.sum c == Np.sum a * Np.sum b.
Proof.
  intros Hd Hc.
  assert (length (Np.shape a) = length (Np.shape b)) as Hlen
      by (eapply Forall2_length; exact Hd).
  assert (Forall binary (Np.shape a) /\ Forall binary (Np.shape b)) as [Ha Hb].
  { clear Hc Hlen. induction Hd as [|da db sa sb Hx _ [IHa IHb]];
      [split; constructor|].
    destruct Hx as [[-> Hx]|[Hx ->]]; split; constructor; auto; left; reflexivity. }
  destruct (bzip_binary (Np.shape a) (Np.shape b) Hlen Ha Hb)
    as (sc & Hsc & _ & _ & Heq).
  unfold Np.multiply in Hc. rewrite broadcast_same_len, Hsc in Hc by exact Hlen.
  injection Hc as <-. cbn [Np.shape]. split; [exact Heq|].
  unfold Np.sum, Np.ravel. cbn [Np.shape Np.item]. rewrite Heq.
  apply (sum_product_disjoint _ _ Hd (Np.item a) (Np.item b)).
Qed.

Lemma sum_multiply_ones sh b c :
  Np.shape b = sh -> Np.multiply (Np.ones sh) b = Ok c ->
  Np.shape c = sh /\ Np.sum c == Np.sum b.
Proof.
  intros Hb Hc. unfold Np.multiply in Hc. cbn [Np.ones Np.shape Np.item] in Hc.
  rewrite Hb, broadcast_same_len in Hc by reflexivity.
  assert (Np.bzip sh sh = Some sh) as Hz.
  { clear. induction sh as [|d sh IH]; [reflexivity|]. cbn [Np.bzip].
    rewrite IH. unfold Np.bdim. rewrite decide_True by reflexivity. reflexivity. }
  rewrite Hz in Hc. injection Hc as <-. cbn [Np.shape]. split; [reflexivity|].
  unfold Np.sum, Np.ravel. cbn [Np.shape Np.item]. rewrite Hb.
  apply qsum_ext. intros idx Hidx. rewrite (bindex_indices _ _ Hidx). ring.
Qed.

(** ** Conditioning and marginalizing keep probabilities *)

Lemma foldl_result_Ok {A B} (f : B -> A -> result B) (l : list A) :
  forall b r,
    foldl (fun acc y => a ← acc; f a y) (Ok b) l = Ok r ->
    match l with
    | [] => r = b
    | y :: rest =>
        exists b', f b y = Ok b' /\
                   foldl (fun acc y => a ← acc; f a y) (Ok b') rest = Ok r
    end.
Proof.
  destruct l as [|y rest]; intros b r H; cbn in H.
  - congruence.
  - destruct (f b y) as [b'|e] eqn:E.
    + exists b'. split; [reflexivity | exact H].
    + cbn in H. rewrite foldl_raise in H. discriminate.
Qed.

Lemma select_keep_stochastic N a i v a' :
  (i < N)%nat -> stochastic N a -> Np.select_keep i v a = Ok a' ->
  stochastic N a' /\ Np.shape a' = <[i := 1%nat]> (Np.shape a).
Proof.
  intros Hi Hst. unfold Np.select_keep.
  destruct (Np.shape a !! i) as [n|]; [|discriminate].
  case_decide; [|discriminate]. intros [= <-]. split; [|reflexivity].
  intros J HJ. cbn [Np.item]. rewrite !insert_app_l by lia.
  apply Hst. rewrite length_insert. exact HJ.
Qed.

Lemma condition_tpm_stochastic N idxs st :
  Forall (fun i => (i < N)%nat) idxs ->
  forall a a',
    stochastic N a -> Distribution.condition_tpm a idxs st = Ok a' ->
    stochastic N a' /\ Np.shape a' = set_ones (Np.shape a) idxs.
Proof.
  unfold Distribution.condition_tpm.
  induction 1 as [|i idxs Hi Hrest IH]; intros a a' Hst Hc.
  - cbn in Hc. injection Hc as <-. split; [exact Hst | reflexivity].
  - apply (foldl_result_Ok (fun t i => match st !! i with
                                       | Some v => Np.select_keep i v t
                                       | None => Raise IndexError
                                       end)) in Hc as (a1 & H1 & Hc).
    destruct (st !! i) as [v|]; [|discriminate].
    destruct (select_keep_stochastic N a i v a1 Hi Hst H1) as [Hst1 Hsh1].
    destruct (IH a1 a' Hst1 Hc) as [Hst' Hsh'].
    split; [exact Hst'|]. rewrite Hsh', Hsh1. reflexivity.
Qed.

Lemma marginalize_out1_stochastic N a i a' :
  (i < N)%nat -> Forall (fun d => (0 < d)%nat) (Np.shape a) ->
  stochastic N a -> Distribution.marginalize_out1 i a = Ok a' ->
  stochastic N a' /\ Np.shape a' = <[i := 1%nat]> (Np.shape a).
Proof.
  intros Hi Hpos Hst. unfold Distribution.marginalize_out1, Np.sum_axis.
  destruct (Np.shape a !! i) as [n|] eqn:En;
    [|destruct (bool_decide _); discriminate].
  cbn [mbind result_bind]. intros [= <-]. split; [|reflexivity].
  assert (0 < n)%nat as Hn.
  { rewrite Forall_forall in Hpos. apply Hpos. eapply list_elem_of_lookup_2. exact En. }
  intros J HJ. cbn [Np.divide Np.item Np.shape default].
  set (f0 := fun k => Np.item a (<[i:=k]> (J ++ [0%nat]))).
  set (f1 := fun k => Np.item a (<[i:=k]> (J ++ [1%nat]))).
  assert (qsum (map f0 (seq 0 n)) + qsum (map f1 (seq 0 n))
          == inject_Z (Z.of_nat n)) as Hsum.
  { rewrite <- (qsum_plus f0 f1).
    rewrite (qsum_ext (fun x => f0 x + f1 x) (fun _ => 1)).
    - rewrite qsum_const, length_seq. ring.
    - intros k _. unfold f0, f1. rewrite !insert_app_l by lia.
      apply Hst. rewrite length_insert. exact HJ. }
  assert (~ inject_Z (Z.of_nat n) == 0) as Hnz.
  { intros H. unfold Qeq in H. cbn [Qnum Qden inject_Z] in H. lia. }
  transitivity ((qsum (map f0 (seq 0 n)) + qsum (map f1 (seq 0 n)))
                / inject_Z (Z.of_nat n)).
  - field. exact Hnz.
  - rewrite Hsum. field. exact Hnz.
Qed.

Lemma marginalize_out_stochastic N idxs :
  Forall (fun i => (i < N)%nat) idxs ->
  forall a a',
    Forall (fun d => (0 < d)%nat) (Np.shape a) ->
    stochastic N a -> Distribution.marginalize_out idxs a = Ok a' ->
    stochastic N a' /\ Np.shape a' = set_ones (Np.shape a) idxs.
Proof.
  unfold Distribution.marginalize_out.
  induction 1 as [|i idxs Hi Hrest IH]; intros a a' Hpos Hst Hc.
  - cbn in Hc. injection Hc as <-. split; [exact Hst | reflexivity].
  - apply (foldl_result_Ok (fun t i => Distribution.marginalize_out1 i t)) in Hc
      as (a1 & H1 & Hc).
    destruct (marginalize_out1_stochastic N a i a1 Hi Hpos Hst H1) as [Hst1 Hsh1].
    destruct (IH a1 a') as [Hst' Hsh']; [|exact Hst1 | exact Hc|].
    + rewrite Hsh1. apply Forall_insert; [exact Hpos | lia].
    + split; [exact Hst'|]. rewrite Hsh', Hsh1. reflexivity.
Qed.

(** ** Reading a node TPM as a repertoire over the node *)

Lemma indices_replicate_1 m : Np.indices (replicate m 1%nat) = [replicate m 0%nat].
Proof.
  induction m as [|m IH]; [reflexivity|].
  cbn [replicate Np.indices seq flat_map]. rewrite IH. reflexivity.
Qed.

Lemma indices_single q m :
  Np.indices (replicate q 1%nat ++ [2%nat] ++ replicate m 1%nat)
  = [replicate q 0%nat ++ [0%nat] ++ replicate m 0%nat;
     replicate q 0%nat ++ [1%nat] ++ replicate m 0%nat].
Proof.
  induction q as [|q IH].
  - cbn [replicate app Np.indices seq flat_map]. rewrite indices_replicate_1.
      reflexivity.
  - cbn [replicate app Np.indices seq flat_map]. cbn [replicate app] in IH.
    rewrite IH. reflexivity.
Qed.

Lemma offset_single q m k :
  Np.offset (replicate q 1%nat ++ [2%nat] ++ replicate m 1%nat)
            (replicate q 0%nat ++ [k] ++ replicate m 0%nat) = k.
Proof.
  unfold Np.offset.
  assert (forall n acc, foldl (fun acc (di : nat * nat) => (acc * di.1 + di.2)%nat) acc
                              (zip (replicate n 1%nat) (replicate n 0%nat)) = acc) as
                                  Hones.
  { induction n as [|n IH]; intros acc; [reflexivity|]. cbn. rewrite IH. lia. }
  rewrite zip_with_app by (rewrite !length_replicate; reflexivity).
  rewrite foldl_app, Hones. cbn. rewrite Hones. lia.
Qed.

Lemma replicate_snoc {A} n (x : A) : replicate n x ++ [x] = x :: replicate n x.
Proof. induction n as [|n IH]; [reflexivity|]. cbn. rewrite IH. reflexivity. Qed.

Lemma rev_replicate {A} n (x : A) : rev (replicate n x) = replicate n x.
Proof.
  induction n as [|n IH]; [reflexivity|]. cbn [replicate rev].
  rewrite IH. apply replicate_snoc.
Qed.

Lemma unravel_single N k :
  (k < 2)%nat -> Np.unravel (replicate N 1%nat ++ [2%nat]) k = replicate N 0%nat ++ [k].
Proof.
  intros Hk. unfold Np.unravel. rewrite rev_app_distr. cbn [rev app Np.unravel_rev].
  rewrite rev_replicate.
  assert ((k mod 2 = k)%nat /\ (k / 2 = 0)%nat) as [-> ->].
  { split; [apply Nat.mod_small; exact Hk | apply Nat.div_small; exact Hk]. }
  assert (Np.unravel_rev (replicate N 1%nat) 0 = replicate N 0%nat) as ->.
  { induction N as [|N IH]; [reflexivity|]. cbn [replicate Np.unravel_rev].
    cbn [Nat.modulo Nat.div Nat.divmod fst snd]. rewrite IH. reflexivity. }
  cbn [rev]. rewrite rev_replicate. reflexivity.
Qed.

Lemma reshape_single_sum N q t r :
  (q < N)%nat -> Np.shape t = replicate N 1%nat ++ [2%nat] ->
  Np.reshape (Distribution.repertoire_shape [q] N) t = Ok r ->
  Np.shape r = Distribution.repertoire_shape [q] N /\
  Np.sum r == Np.item t (replicate N 0%nat ++ [0%nat])
              + Np.item t (replicate N 0%nat ++ [1%nat]).
Proof.
  intros Hq Hsh. unfold Np.reshape. case_decide; [|discriminate].
  intros [= <-]. split; [reflexivity|].
  unfold Np.sum, Np.ravel. cbn [Np.shape Np.item].
  rewrite Hsh, (repertoire_shape_single q N Hq), indices_single.
  cbn [map qsum fold_right]. rewrite !offset_single, !unravel_single by lia. ring.
Qed.

(** ** The effect repertoire is a probability distribution *)

Lemma Node_init_stochastic tpm cm index state n N :
  Node_init tpm cm index state = Ok n -> stochastic N (node_tpm n).
Proof.
  intros Hn.
  apply Node_init_Ok in Hn as (ins & outs & on0 & on1 & t & _ & _ & _ & _ & Ht & ->).
  unfold Np.stack_last in Ht. rewrite decide_True in Ht by reflexivity.
  injection Ht as <-. intros J _. cbn [node_tpm Np.item].
  rewrite !last_snoc, !removelast_last. cbn [Np.one_minus Np.item]. ring.
Qed.

Lemma Subsystem_init_stochastic net st ni c s :
  Subsystem_init net st ni c = Ok s ->
  Forall (fun n => stochastic (tpm_size s) (node_tpm n)) (nodes s).
Proof.
  intros Hs. apply Subsystem_init_from_Ok in Hs
    as (t & sub & ns & _ & _ & _ & _ & En & _ & ->).
  cbn [nodes]. generalize (tpm_size
    {| network := net; state := st; node_indices := coerce_to_indices ni;
       external_indices :=
         list_difference (net_node_indices net) (coerce_to_indices ni);
       tpm := t; cut := c; cm := apply_cut c (net_cm net); nodes := ns |}).
  intros N. unfold generate_nodes in En.
  destruct (state_of (coerce_to_indices ni) st) as [sts|e]; cbn in En;
    [|discriminate].
  apply mapM_Ok_Forall2 in En. apply Forall_forall. intros n Hn.
  apply list_elem_of_lookup_1 in Hn as [i Hn].
  destruct (Forall2_lookup_r _ _ _ _ _ En Hn) as ([idx stt] & _ & Hinit).
  eapply Node_init_stochastic. exact Hinit.
Qed.

Lemma wf_shape_positive N n :
  wf_node_spec N n -> Forall (fun d => (0 < d)%nat) (Np.shape (node_tpm n)).
Proof.
  intros W. apply Forall_lookup. intros j d Hj.
  assert (j < S N)%nat as Hlt
      by (rewrite <- (wf_len _ _ W); eapply lookup_lt_Some; exact Hj).
  destruct (decide (j = N)) as [->|Hne].
  - rewrite (wf_last _ _ W) in Hj. injection Hj as <-. lia.
  - destruct (wf_axes _ _ W j) as [H1|[H2 _]]; [lia| |]; rewrite Hj in *.
    + injection H1 as ->. lia.
    + injection H2 as ->. lia.
Qed.

Lemma set_ones_positive sh idxs :
  Forall (fun d => (0 < d)%nat) sh -> Forall (fun d => (0 < d)%nat) (set_ones sh idxs).
Proof.
  intros Hpos. apply Forall_lookup. intros j d Hj. rewrite set_ones_lookup in Hj.
  rewrite Forall_lookup in Hpos.
  case_bool_decide.
  - destruct (sh !! j); [|discriminate]. injection Hj as <-. lia.
  - eapply Hpos. exact Hj.
Qed.

Lemma conditioned_node_shape N n (A B : list nat) :
  wf_node_spec N n ->
  (forall j, j ∈ A \/ j ∈ B <-> j ∈ node_inputs n) ->
  set_ones (set_ones (Np.shape (node_tpm n)) A) B = replicate N 1%nat ++ [2%nat].
Proof.
  intros W HAB. apply list_eq. intros j. rewrite !set_ones_lookup.
  assert (forall j, j ∈ node_inputs n -> (j < N)%nat) as Hin.
  { intros k Hk. pose proof (wf_inputs _ _ W) as Hall.
    rewrite Forall_forall in Hall. apply Hall, Hk. }
  destruct (decide (j < N)%nat) as [Hj|Hj].
  - rewrite lookup_app_l by (rewrite length_replicate; lia).
    rewrite lookup_replicate_2 by lia.
    destruct (wf_axes _ _ W j Hj) as [H1|[H2 Hinj]].
    + rewrite H1. repeat case_bool_decide; reflexivity.
    + rewrite H2. apply HAB in Hinj.
      destruct (decide (j ∈ B)) as [HB|HB].
      * rewrite (bool_decide_eq_true_2 _ HB). case_bool_decide; reflexivity.
      * rewrite (bool_decide_eq_false_2 _ HB).
        rewrite bool_decide_eq_true_2 by tauto. reflexivity.
  - assert (j ∉ A /\ j ∉ B) as [HA HB].
    { split; intros H; apply Hj, Hin, HAB; auto. }
    rewrite (bool_decide_eq_false_2 _ HA), (bool_decide_eq_false_2 _ HB).
    rewrite lookup_app_r by (rewrite length_replicate; lia).
    rewrite length_replicate. destruct (decide (j = N)) as [->|Hne].
    + rewrite Nat.sub_diag. exact (wf_last _ _ W).
    + rewrite (lookup_ge_None_2 (Np.shape (node_tpm n)) j) by (rewrite (wf_len _ _ W);
        lia).
      destruct (j - N)%nat as [|k] eqn:Hk; [lia|]. reflexivity.
Qed.

Lemma single_node_effect_sum s M q r :
  wf_subsystem s = true ->
  Forall (fun n => stochastic (tpm_size s) (node_tpm n)) (nodes s) ->
  _single_node_effect_repertoire s M q = Ok r ->
  (q < tpm_size s)%nat /\
  Np.shape r = Distribution.repertoire_shape [q] (tpm_size s) /\
  Np.sum r == 1.
Proof.
  intros Hwf Hst. unfold _single_node_effect_repertoire.
  destruct (index2node s q) as [n|e] eqn:En; [|discriminate].
  cbn [mbind result_bind].
  pose proof (index2node_elem _ _ _ En) as Hn.
  pose proof (wf_subsystem_node s n Hwf Hn) as W.
  pose proof (index2node_index _ _ _ En) as Hq.
  rewrite Forall_forall in Hst. specialize (Hst n Hn).
  set (N := tpm_size s) in *.
  assert (forall j, j ∈ node_inputs n -> (j < N)%nat) as Hin.
  { intros k Hk. pose proof (wf_inputs _ _ W) as Hall.
    rewrite Forall_forall in Hall. apply Hall, Hk. }
  destruct (Distribution.condition_tpm _ _ _) as [t1|e] eqn:E1; [|discriminate].
  cbn [mbind result_bind].
  destruct (condition_tpm_stochastic N (list_intersection (node_inputs n) M) (state s))
    with (a := node_tpm n) (a' := t1) as [Hst1 Hsh1]; [|exact Hst | exact E1|].
  { apply Forall_forall. intros j Hj. apply list_elem_of_intersection in Hj as [Hj _].
    apply Hin, Hj. }
  destruct (Distribution.marginalize_out _ t1) as [t2|e] eqn:E2; [|discriminate].
  cbn [mbind result_bind].
  destruct (marginalize_out_stochastic N (list_difference (node_inputs n) M))
    with (a := t1) (a' := t2) as [Hst2 Hsh2]; [| |exact Hst1 | exact E2|].
  { apply Forall_forall. intros j Hj. apply list_elem_of_difference in Hj as [Hj _].
    apply Hin, Hj. }
  { rewrite Hsh1. apply set_ones_positive, (wf_shape_positive N), W. }
  intros Hr. rewrite Hq in Hr.
  assert (q < N)%nat as HqN by (rewrite <- Hq; exact (wf_index _ _ W)).
  split; [exact HqN|].
  assert (Np.shape t2 = replicate N 1%nat ++ [2%nat]) as Hsh.
  { rewrite Hsh2, Hsh1. apply conditioned_node_shape; [exact W|].
    intros j. rewrite list_elem_of_intersection, list_elem_of_difference.
    destruct (decide (j ∈ M)); tauto. }
  destruct (reshape_single_sum N q t2 r HqN Hsh Hr) as [Hshr Hsum].
  split; [exact Hshr|]. rewrite Hsum. apply Hst2. apply length_replicate.
Qed.

Lemma zip_max_repertoire_shape P Q N :
  zip_with Nat.max (Distribution.repertoire_shape P N) (Distribution.repertoire_shape Q
      N)
  = Distribution.repertoire_shape (P ++ Q) N.
Proof.
  apply list_eq. intros i. rewrite lookup_zip_with, !repertoire_shape_lookup.
  case_decide; [|reflexivity]. cbn.
  repeat case_bool_decide; try reflexivity; exfalso;
    repeat match goal with H : _ ∈ _ ++ _ |- _ => apply elem_of_app in H end;
    repeat match goal with H : ~ _ ∈ _ ++ _ |- _ => rewrite elem_of_app in H end;
    tauto.
Qed.

Lemma disjoint_repertoire_shapes P q N :
  q ∉ P ->
  Forall2 (fun da db => (da = 1%nat /\ binary db) \/ (binary da /\ db = 1%nat))
          (Distribution.repertoire_shape P N) (Distribution.repertoire_shape [q] N).
Proof.
  intros Hq. apply Forall2_same_length_lookup_2.
  - rewrite !repertoire_shape_length. reflexivity.
  - intros i x y Hx Hy. rewrite repertoire_shape_lookup in Hx, Hy.
    case_decide; [|discriminate]. injection Hx as <-. injection Hy as <-.
    destruct (decide (i = q)) as [->|Hne].
    + left. rewrite (bool_decide_eq_false_2 _ Hq). split; [reflexivity|].
      case_bool_decide; [right | left]; reflexivity.
    + right. rewrite (bool_decide_eq_false_2 (i ∈ [q])).
      * split; [|reflexivity]. case_bool_decide; [right | left]; reflexivity.
      * intros H'%list_elem_of_singleton. contradiction.
Qed.

Lemma reduce_effect_sum N : forall todo reps done acc product,
  Forall2 (fun q r => (q < N)%nat /\
                      Np.shape r = Distribution.repertoire_shape [q] N /\
                      Np.sum r == 1) todo reps ->
  NoDup (done ++ todo) ->
  Np.shape acc = Distribution.repertoire_shape done N ->
  Np.sum acc == 1 ->
  foldl (fun acc y => a ← acc; Np.multiply a y) (Ok acc) reps = Ok product ->
  Np.shape product = Distribution.repertoire_shape (done ++ todo) N /\
  Np.sum product == 1.
Proof.
  induction todo as [|q todo IH]; intros reps done acc product Hall Hnd Hsh Hsum Hp.
  - inversion Hall; subst. cbn in Hp. injection Hp as <-.
    rewrite app_nil_r. split; assumption.
  - inversion Hall as [|? r ? reps' (HqN & Hshr & Hsumr) Hrest]; subst.
    apply (foldl_result_Ok Np.multiply) in Hp as (acc' & Hm & Hp).
    assert (q ∉ done) as Hq.
    { apply NoDup_app in Hnd as (_ & Hdis & _). intros Hin.
      apply (Hdis q Hin). left. }
    destruct (sum_multiply_disjoint acc r acc') as [Hsh' Hsum'];
      [rewrite Hsh, Hshr; apply disjoint_repertoire_shapes; exact Hq | exact Hm|].
    replace (done ++ q :: todo) with ((done ++ [q]) ++ todo)
      by (rewrite <- app_assoc; reflexivity).
    apply (IH reps' (done ++ [q]) acc' product); [exact Hrest| | |  | exact Hp].
    + rewrite <- app_assoc. exact Hnd.
    + rewrite Hsh', Hsh, Hshr. apply zip_max_repertoire_shape.
    + rewrite Hsum', Hsum, Hsumr. ring.
Qed.


